(** * Frame flow control of ya-webadb: TaskQueue, RedrawController, RendererController

    A shallow embedding of

    - [TaskQueue]            (stream-extra, [src/unnamed/part_000]),
    - [RedrawController]     (scrcpy decoder, [src/unnamed/part_001]),
    - [RendererController]   ([video/render/flow-control.ts]),

    together with the part of the ECMAScript promise machinery these
    classes are written against: a heap of promises, each pending promise
    with its list of reactions, and the FIFO queue of microtasks.

    Closures of the source are defunctionalised: every callback passed to
    [then]/[catch] and every continuation of an [await] is a constructor
    of [handler], interpreted by [run_reaction]. *)

From stdpp Require Import base option list sets strings.
From Stdlib Require Import Lia.

Set Default Proof Using "Type".

(** ** Values, frames and promises *)

(** Values that flow through promises: results of tasks and thrown errors. *)
Inductive value :=
  | VUndefined
  | VNum (n : nat)
  | VError (msg : string).

Global Instance value_eq_dec : EqDecision value.
Proof. solve_decision. Defined.

(** [new Error("TaskQueue is disposed")], part_000 lines 18 and 50. *)
Definition ErrDisposed : value := VError "TaskQueue is disposed".

(** What [undefined!.clone()] throws (part_001 line 71). *)
Definition ErrTypeError : value := VError "TypeError".

(** A [VideoFrame]: either one handed in by the caller, or the [serial]-th
    clone made by the controller, remembering what it was cloned from. *)
Inductive frame :=
  | FInput (n : nat)
  | FClone (src : frame) (serial : nat).

Global Instance frame_eq_dec : EqDecision frame.
Proof. solve_decision. Defined.

Abbreviation pid := nat.

Inductive outcome :=
  | Fulfilled (v : value)
  | Rejected (e : value).

Global Instance outcome_eq_dec : EqDecision outcome.
Proof. solve_decision. Defined.

(** What an externally supplied task does when it is called:
    return a plain value, throw, or return a promise that the
    environment settles later. *)
Inductive behaviour :=
  | BReturn (v : value)
  | BThrow (e : value)
  | BAsync.

(** What the draw callback [this.#draw(frame)] does when it is called
    ([MaybePromiseLike<undefined>]). *)
Inductive callback :=
  | CbReturn
  | CbThrow (e : value)
  | CbAsync.

(** The closures handed to [TaskQueue.enqueue]. *)
Inductive task :=
  | TExternal (b : behaviour)
      (* a task of some other client of the queue *)
  | TDraw (f : frame) (cb : callback)
      (* part_001 lines 39-45 *)
  | TRedraw (tok : nat) (cb : callback).
      (* part_001 lines 64-77; [tok] is the captured AbortController *)

(** Callbacks registered on promises.  The number carried by [HRunTask] and
    [HFinally] is the submission ticket of the task, used only to label
    trace events. *)
Inductive handler :=
  | HReadyIdle (bail : bool)
      (* part_000 lines 26-33: then(() => {}, e => { if (bail) throw e }) *)
  | HSuppress
      (* part_000 line 41: catch(() => {}) *)
  | HRunTask (n : nat) (t : task)
      (* part_000 lines 48-54: then(() => { if (disposed) throw ..; return task() }) *)
  | HReadyChain (bail : bool)
      (* part_000 lines 55-62: then(() => {}, e => { if (bail || disposed) throw e }) *)
  | HForward
      (* the resolving functions of the target promise *)
  | HFinally (n : nat) (f : frame).
      (* part_001 lines 42-44 / 74-76: resumption after [await this.#draw(frame)] *)

Record reaction := Reaction { r_handler : handler; r_target : pid }.

Inductive origin :=
  | OExternal                          (* settled by the environment *)
  | OReject                            (* Promise.reject(e) *)
  | OAwait                             (* the promise [await v] wraps a plain value in *)
  | OAsync                             (* result promise of an async function *)
  | ODerived (src : pid) (k : handler).  (* src.then(k) *)

Inductive pstate :=
  | Pending (rs : list reaction)
  | Settled (o : outcome).

Record cell := Cell { c_state : pstate; c_origin : origin }.

Inductive job :=
  | JReaction (r : reaction) (o : outcome)   (* PromiseReactionJob *)
  | JThenable (target thenable : pid).       (* NewPromiseResolveThenableJob *)

Inductive event :=
  | EvInvoke (n : nat)                               (* task() of submission n is called *)
  | EvCallback (n : nat) (tok : option nat) (f : frame)
      (* this.#draw(f) is called by task n; [tok] is the redraw token, if any *)
  | EvClose (by_task : option nat) (f : frame).      (* f.close() *)

Global Instance event_eq_dec : EqDecision event.
Proof. solve_decision. Defined.

(** ** The world: promise heap, microtasks, and the fields of both classes *)

Record world := World {
  heap : list cell;
  jobs : list job;
  (* TaskQueue *)
  ready : option pid;               (* #ready *)
  disposed : bool;                  (* #disposed *)
  (* RedrawController *)
  pendingRedraw : option nat;       (* #pendingRedraw *)
  lastFrame : option frame;         (* #lastFrame *)
  aborted : list bool;              (* signal.aborted of every AbortController made *)
  clones : nat;                     (* number of clones made so far *)
  (* instrumentation *)
  tickets : nat;                    (* number of submissions accepted so far *)
  trace : list event                (* oldest event first *)
}.

Definition init : world :=
  World [] [] None false None None [] 0 0 [].

Definition set_heap (h : list cell) (w : world) : world :=
  World h (jobs w) (ready w) (disposed w) (pendingRedraw w) (lastFrame w)
        (aborted w) (clones w) (tickets w) (trace w).
Definition set_jobs (j : list job) (w : world) : world :=
  World (heap w) j (ready w) (disposed w) (pendingRedraw w) (lastFrame w)
        (aborted w) (clones w) (tickets w) (trace w).
Definition set_ready (r : option pid) (w : world) : world :=
  World (heap w) (jobs w) r (disposed w) (pendingRedraw w) (lastFrame w)
        (aborted w) (clones w) (tickets w) (trace w).
Definition set_disposed (b : bool) (w : world) : world :=
  World (heap w) (jobs w) (ready w) b (pendingRedraw w) (lastFrame w)
        (aborted w) (clones w) (tickets w) (trace w).
Definition set_pendingRedraw (p : option nat) (w : world) : world :=
  World (heap w) (jobs w) (ready w) (disposed w) p (lastFrame w)
        (aborted w) (clones w) (tickets w) (trace w).
Definition set_lastFrame (f : option frame) (w : world) : world :=
  World (heap w) (jobs w) (ready w) (disposed w) (pendingRedraw w) f
        (aborted w) (clones w) (tickets w) (trace w).
Definition set_aborted (a : list bool) (w : world) : world :=
  World (heap w) (jobs w) (ready w) (disposed w) (pendingRedraw w) (lastFrame w)
        a (clones w) (tickets w) (trace w).
Definition set_clones (n : nat) (w : world) : world :=
  World (heap w) (jobs w) (ready w) (disposed w) (pendingRedraw w) (lastFrame w)
        (aborted w) n (tickets w) (trace w).
Definition set_tickets (n : nat) (w : world) : world :=
  World (heap w) (jobs w) (ready w) (disposed w) (pendingRedraw w) (lastFrame w)
        (aborted w) (clones w) n (trace w).
Definition log (e : event) (w : world) : world :=
  World (heap w) (jobs w) (ready w) (disposed w) (pendingRedraw w) (lastFrame w)
        (aborted w) (clones w) (tickets w) (trace w ++ [e]).

(** ** Promise primitives *)

Definition state_of (w : world) (p : pid) : option pstate :=
  c_state <$> heap w !! p.

Definition outcome_of (w : world) (p : pid) : option outcome :=
  match heap w !! p with
  | Some (Cell (Settled o) _) => Some o
  | _ => None
  end.

Definition is_pending (w : world) (p : pid) : Prop :=
  ∃ rs og, heap w !! p = Some (Cell (Pending rs) og).

(** [new Promise(...)]: a fresh cell at the end of the heap. *)
Definition alloc (c : cell) (w : world) : pid * world :=
  (length (heap w), set_heap (heap w ++ [c]) w).

(** FulfillPromise / RejectPromise: fix the outcome, and queue one
    reaction job per registered reaction, in registration order.  A promise
    that is already settled is left alone. *)
Definition settle (p : pid) (o : outcome) (w : world) : world :=
  match heap w !! p with
  | Some (Cell (Pending rs) og) =>
      set_jobs (jobs w ++ map (λ r, JReaction r o) rs)
        (set_heap (<[p := Cell (Settled o) og]> (heap w)) w)
  | _ => w
  end.

(** PerformPromiseThen on [p] with an existing target: the reaction is
    stored while [p] is pending, and queued as a job at once otherwise. *)
Definition subscribe (p : pid) (r : reaction) (w : world) : world :=
  match heap w !! p with
  | Some (Cell (Pending rs) og) =>
      set_heap (<[p := Cell (Pending (rs ++ [r])) og]> (heap w)) w
  | Some (Cell (Settled o) _) =>
      set_jobs (jobs w ++ [JReaction r o]) w
  | None => w
  end.

(** [p.then(k)]: allocate the derived promise, then subscribe. *)
Definition then_ (p : pid) (k : handler) (w : world) : pid * world :=
  let '(d, w1) := alloc (Cell (Pending []) (ODerived p k)) w in
  (d, subscribe p (Reaction k d) w1).

(** How a callback or a function body completes. *)
Inductive completion :=
  | CValue (v : value)
  | CThrow (e : value)
  | CPromise (q : pid).

(** The resolving functions of promise [p] applied to a completion:
    a promise result is adopted through a thenable job. *)
Definition resolve (p : pid) (c : completion) (w : world) : world :=
  match c with
  | CValue v => settle p (Fulfilled v) w
  | CThrow e => settle p (Rejected e) w
  | CPromise q => set_jobs (jobs w ++ [JThenable p q]) w
  end.

(** ** VideoFrame and AbortController *)

Definition close_frame (by_task : option nat) (f : frame) (w : world) : world :=
  log (EvClose by_task f) w.

Definition clone (f : frame) (w : world) : frame * world :=
  (FClone f (clones w), set_clones (S (clones w)) w).

Definition new_token (w : world) : nat * world :=
  (length (aborted w), set_aborted (aborted w ++ [false]) w).

Definition is_aborted (tok : nat) (w : world) : bool :=
  default false (aborted w !! tok).

Definition abort (tok : nat) (w : world) : world :=
  set_aborted (<[tok := true]> (aborted w)) w.

(** ** Task bodies (the closures of RedrawController) *)

(** [try { await this.#draw(frame) } finally { frame.close() }] inside an
    async function whose result promise is [p]. *)
Definition draw_body (n : nat) (tok : option nat) (f : frame) (cb : callback)
    (p : pid) (w : world) : world :=
  let w1 := log (EvCallback n tok f) w in
  match cb with
  | CbThrow e =>
      settle p (Rejected e) (close_frame (Some n) f w1)
  | CbReturn =>
      let '(x, w2) := alloc (Cell (Settled (Fulfilled VUndefined)) OAwait) w1 in
      subscribe x (Reaction (HFinally n f) p) w2
  | CbAsync =>
      let '(q, w2) := alloc (Cell (Pending []) OExternal) w1 in
      subscribe q (Reaction (HFinally n f) p) w2
  end.

(** [task()] for submission [n]. *)
Definition call_task (n : nat) (t : task) (w : world) : completion * world :=
  let w1 := log (EvInvoke n) w in
  match t with
  | TExternal (BReturn v) => (CValue v, w1)
  | TExternal (BThrow e) => (CThrow e, w1)
  | TExternal BAsync =>
      let '(q, w2) := alloc (Cell (Pending []) OExternal) w1 in
      (CPromise q, w2)
  | TDraw f cb =>
      let '(p, w2) := alloc (Cell (Pending []) OAsync) w1 in
      (CPromise p, draw_body n None f cb p w2)
  | TRedraw tok cb =>
      let '(p, w2) := alloc (Cell (Pending []) OAsync) w1 in
      if is_aborted tok w2 then
        (CPromise p, settle p (Fulfilled VUndefined) w2)
      else
        let w3 := set_pendingRedraw None w2 in
        match lastFrame w3 with
        | None => (CPromise p, settle p (Rejected ErrTypeError) w3)
        | Some lf =>
            let '(f, w4) := clone lf w3 in
            (CPromise p, draw_body n (Some tok) f cb p w4)
        end
  end.

(** ** Microtasks *)

(** The body of a registered callback applied to the outcome of the promise
    it was registered on, and how that body completes. *)
Definition handle (k : handler) (o : outcome) (w : world) : completion * world :=
  match k with
  | HReadyIdle bail =>
      match o with
      | Fulfilled _ => (CValue VUndefined, w)
      | Rejected e => if bail then (CThrow e, w) else (CValue VUndefined, w)
      end
  | HSuppress =>
      match o with
      | Fulfilled v => (CValue v, w)         (* no onFulfilled: pass through *)
      | Rejected _ => (CValue VUndefined, w)
      end
  | HRunTask n t =>
      match o with
      | Fulfilled _ =>
          if disposed w then (CThrow ErrDisposed, w) else call_task n t w
      | Rejected e => (CThrow e, w)          (* no onRejected: pass through *)
      end
  | HReadyChain bail =>
      match o with
      | Fulfilled _ => (CValue VUndefined, w)
      | Rejected e =>
          if bail || disposed w then (CThrow e, w) else (CValue VUndefined, w)
      end
  | HForward =>
      match o with
      | Fulfilled v => (CValue v, w)
      | Rejected e => (CThrow e, w)
      end
  | HFinally n f =>
      let w1 := close_frame (Some n) f w in
      match o with
      | Fulfilled _ => (CValue VUndefined, w1)
      | Rejected e => (CThrow e, w1)
      end
  end.

(** PromiseReactionJob: run the callback, then resolve the target promise
    with its completion. *)
Definition run_reaction (r : reaction) (o : outcome) (w : world) : world :=
  let '(c, w1) := handle (r_handler r) o w in
  resolve (r_target r) c w1.

Definition run_job (j : job) (w : world) : world :=
  match j with
  | JReaction r o => run_reaction r o w
  | JThenable d q => subscribe q (Reaction HForward d) w
  end.

(** One turn of the microtask queue. *)
Definition step (w : world) : world :=
  match jobs w with
  | [] => w
  | j :: js => run_job j (set_jobs js w)
  end.

(** The environment settles a promise it owns (the promise returned by an
    asynchronous task or by the draw callback). *)
Definition settle_external (q : pid) (o : outcome) (w : world) : world :=
  match heap w !! q with
  | Some (Cell (Pending _) OExternal) => settle q o w
  | _ => w
  end.

(** What a call hands back to its caller. *)
Inductive ret :=
  | RValue (v : value)
  | RThrow (e : value)
  | RPromise (p : pid).

(** ** TaskQueue (part_000) *)

Module TaskQueue.

Definition enqueue (t : task) (bail : bool) (w : world) : ret * world :=
  if disposed w then (RThrow ErrDisposed, w)
  else
    let n := tickets w in
    let w := set_tickets (S n) w in
    match ready w with
    | None =>
        match call_task n t w with
        | (CValue v, w1) => (RValue v, w1)
        | (CPromise q, w1) =>
            let '(r, w2) := then_ q (HReadyIdle bail) w1 in
            (RPromise q, set_ready (Some r) w2)
        | (CThrow e, w1) =>
            if bail then
              let '(p, w2) := alloc (Cell (Settled (Rejected e)) OReject) w1 in
              let '(_, w3) := then_ p HSuppress w2 in
              (RThrow e, set_ready (Some p) w3)
            else (RThrow e, w1)
        end
    | Some r =>
        let '(result, w1) := then_ r (HRunTask n t) w in
        let '(r', w2) := then_ result (HReadyChain bail) w1 in
        (RPromise result, set_ready (Some r') w2)
    end.

Definition dispose (w : world) : world := set_disposed true w.

End TaskQueue.

(** ** RedrawController (part_001) *)

Module RedrawController.

(** [this.#pendingRedraw?.abort()] *)
Definition abort_pending (w : world) : world :=
  match pendingRedraw w with
  | Some tok => abort tok w
  | None => w
  end.

(** [this.#lastFrame?.close()] *)
Definition close_last (w : world) : world :=
  match lastFrame w with
  | Some lf => close_frame None lf w
  | None => w
  end.

Definition draw (f : frame) (cb : callback) (w : world) : ret * world :=
  let w := abort_pending w in
  let w := set_pendingRedraw None w in
  let w := close_last w in
  let '(c, w) := clone f w in
  let w := set_lastFrame (Some c) w in
  TaskQueue.enqueue (TDraw f cb) true w.

(** [redraw] is an async function: it always hands back its own result
    promise [p]; [return await x] forwards the outcome of [x] to [p]. *)
Definition redraw (cb : callback) (w : world) : ret * world :=
  let '(p, w) := alloc (Cell (Pending []) OAsync) w in
  match lastFrame w, pendingRedraw w with
  | Some _, None =>
      let '(tok, w) := new_token w in
      let w := set_pendingRedraw (Some tok) w in
      match TaskQueue.enqueue (TRedraw tok cb) true w with
      | (RThrow e, w) => (RPromise p, settle p (Rejected e) w)
      | (RValue v, w) =>
          let '(x, w) := alloc (Cell (Settled (Fulfilled v)) OAwait) w in
          (RPromise p, subscribe x (Reaction HForward p) w)
      | (RPromise r, w) => (RPromise p, subscribe r (Reaction HForward p) w)
      end
  | _, _ => (RPromise p, settle p (Fulfilled VUndefined) w)
  end.

Definition dispose (w : world) : world :=
  let w := abort_pending w in
  let w := close_last w in
  let w := set_lastFrame None w in
  TaskQueue.dispose w.

End RedrawController.

(** ** Executions *)

Inductive op :=
  | OEnqueue (b : behaviour) (bail : bool)   (* queue.enqueue(task, bail) *)
  | ODispose                                 (* queue.dispose() *)
  | ODraw (f : frame) (cb : callback)        (* controller.draw(f) *)
  | ORedraw (cb : callback)                  (* controller.redraw() *)
  | OCtlDispose                              (* controller.dispose() *)
  | OSettle (q : pid) (o : outcome)          (* the environment settles q *)
  | OStep.                                   (* one microtask runs *)

Definition apply (o : op) (w : world) : world :=
  match o with
  | OEnqueue b bail => (TaskQueue.enqueue (TExternal b) bail w).2
  | ODispose => TaskQueue.dispose w
  | ODraw f cb => (RedrawController.draw f cb w).2
  | ORedraw cb => (RedrawController.redraw cb w).2
  | OCtlDispose => RedrawController.dispose w
  | OSettle q o => settle_external q o w
  | OStep => step w
  end.

Definition run (ops : list op) (w : world) : world :=
  foldl (λ w o, apply o w) w ops.

Inductive reachable : world → Prop :=
  | reach_init : reachable init
  | reach_apply o w : reachable w → reachable (apply o w).

(** ** Reading the heap *)

Definition cell_reactions (c : cell) : list reaction :=
  match c_state c with
  | Pending rs => rs
  | Settled _ => []
  end.

(** The reaction a job is about to run; a thenable job will forward the
    outcome of the thenable to its target. *)
Definition job_reaction (j : job) : reaction :=
  match j with
  | JReaction r _ => r
  | JThenable d _ => Reaction HForward d
  end.

(** Every reaction that can still settle a promise. *)
Definition settlers (w : world) : list reaction :=
  (heap w ≫= cell_reactions) ++ map job_reaction (jobs w).

Definition invoked (w : world) (n : nat) : Prop := EvInvoke n ∈ trace w.

Section primitives.
Implicit Types (w : world) (p d : pid) (c : cell) (r : reaction).

Lemma bind_insert_perm (l : list cell) i x y :
  l !! i = Some x →
  cell_reactions x ++ (<[i:=y]> l ≫= cell_reactions)
    ≡ₚ cell_reactions y ++ (l ≫= cell_reactions).
Proof.
  revert i. induction l as [|a l IH]; intros [|i] Hi; simplify_eq/=.
  - by rewrite Permutation_app_swap_app.
  - specialize (IH i Hi).
    rewrite (Permutation_app_swap_app (cell_reactions x)).
    rewrite IH. by rewrite (Permutation_app_swap_app (cell_reactions y)).
Qed.

Lemma settlers_alloc c w :
  cell_reactions c = [] → settlers (alloc c w).2 = settlers w.
Proof.
  intros Hc. unfold settlers; simpl.
  by rewrite bind_app, bind_singleton, Hc, !app_nil_r.
Qed.

Lemma settlers_settle p o w : settlers (settle p o w) ≡ₚ settlers w.
Proof.
  unfold settle. destruct (heap w !! p) as [[[rs|o'] og]|] eqn:Hp; try done.
  unfold settlers; simpl.
  pose proof (bind_insert_perm (heap w) p _ (Cell (Settled o) og) Hp) as H.
  simpl in H. unfold cell_reactions at 1 in H; simpl in H.
  rewrite map_app, map_map; simpl. rewrite map_id.
  rewrite <- H. solve_Permutation.
Qed.

Lemma settlers_subscribe p r w :
  is_Some (heap w !! p) → settlers (subscribe p r w) ≡ₚ r :: settlers w.
Proof.
  intros [c Hp]. unfold subscribe. rewrite Hp.
  destruct c as [[rs|o'] og]; unfold settlers; simpl.
  - pose proof (bind_insert_perm (heap w) p _ (Cell (Pending (rs ++ [r])) og) Hp) as H.
    unfold cell_reactions at 1 3 in H; simpl in H.
    apply (inj (app rs)). rewrite app_assoc, H.
    rewrite <- !app_assoc. f_equiv. simpl. done.
  - rewrite map_app; simpl. by rewrite app_assoc, <- Permutation_cons_append.
Qed.
End primitives.


(** ** The invariant of the promise heap *)

(** Callbacks that were registered through [then]/[catch]: the promise
    they settle is the one derived by that very call. *)
Definition then_handler (k : handler) : Prop :=
  match k with
  | HForward | HFinally _ _ => False
  | _ => True
  end.

(** For a task that completes synchronously, what its derived promise
    holds once the task has run. *)
Definition sync_result (t : task) (o : option outcome) : Prop :=
  match t with
  | TExternal (BReturn v) => o = Some (Fulfilled v)
  | TExternal (BThrow e) => o = Some (Rejected e)
  | _ => True
  end.

(** The callback [k], registered on a promise that settled with [o], has
    run and has settled (or is settling) its derived promise [d]. *)
Definition done (w : world) (k : handler) (o : outcome) (d : pid) : Prop :=
  match k, o with
  | HReadyIdle _, Fulfilled _ => outcome_of w d = Some (Fulfilled VUndefined)
  | HReadyIdle bail, Rejected e =>
      outcome_of w d = Some (if bail then Rejected e else Fulfilled VUndefined)
  | HSuppress, Fulfilled v => outcome_of w d = Some (Fulfilled v)
  | HSuppress, Rejected _ => outcome_of w d = Some (Fulfilled VUndefined)
  | HRunTask n t, Fulfilled _ =>
      (invoked w n ∧ sync_result t (outcome_of w d)) ∨
      (¬ invoked w n ∧ disposed w = true ∧
       outcome_of w d = Some (Rejected ErrDisposed))
  | HRunTask n _, Rejected e =>
      ¬ invoked w n ∧ outcome_of w d = Some (Rejected e)
  | HReadyChain _, Fulfilled _ => outcome_of w d = Some (Fulfilled VUndefined)
  | HReadyChain bail, Rejected e =>
      (outcome_of w d = Some (Rejected e) ∧ (bail = true ∨ disposed w = true)) ∨
      (outcome_of w d = Some (Fulfilled VUndefined) ∧ bail = false)
  | _, _ => True
  end.

(** The link between a promise [src] and the promise [d] derived from it by
    [src.then(k)]: the reaction is registered, or queued as a job, or done. *)
Definition hooked (w : world) (src : pid) (k : handler) (d : pid) : Prop :=
  match heap w !! src with
  | Some (Cell (Pending rs) _) => Reaction k d ∈ rs ∧ is_pending w d
  | Some (Cell (Settled o) _) =>
      (JReaction (Reaction k d) o ∈ jobs w ∧ is_pending w d) ∨ done w k o d
  | None => False
  end.

(** [wfh hole w]: the heap invariant, where the promise [hole], if any, is
    in the middle of being settled by the running job. *)
Record wfh (hole : option pid) (w : world) : Prop := {
  wf_nodup : NoDup (r_target <$> settlers w);
  wf_target r :
    r ∈ settlers w →
    ∃ rs og, heap w !! r_target r = Some (Cell (Pending rs) og) ∧
      og ≠ OExternal ∧
      (then_handler (r_handler r) → ∃ src, og = ODerived src (r_handler r));
  wf_fresh r n t :
    r ∈ settlers w → r_handler r = HRunTask n t → ¬ invoked w n;
  wf_origin d st src k :
    heap w !! d = Some (Cell st (ODerived src k)) →
    src < d ∧ then_handler k ∧ (hole ≠ Some d → hooked w src k d);
  wf_ticket d st src n t :
    heap w !! d = Some (Cell st (ODerived src (HRunTask n t))) → n < tickets w;
  wf_ticket_inj d d' st st' src src' n t t' :
    heap w !! d = Some (Cell st (ODerived src (HRunTask n t))) →
    heap w !! d' = Some (Cell st' (ODerived src' (HRunTask n t'))) →
    d = d';
  wf_invoked n : invoked w n → n < tickets w;
  wf_ready r : ready w = Some r → r < length (heap w);
  wf_thenable d q : JThenable d q ∈ jobs w → q < length (heap w)
}.

Abbreviation wf := (wfh None).

#[local] Set Warnings "-clear-no-such-hyp".

Section invariant.
Implicit Types (w : world) (p d : pid) (c : cell) (r : reaction).

Lemma is_pending_outcome w d : is_pending w d → outcome_of w d = None.
Proof. intros (rs & og & H). unfold outcome_of. by rewrite H. Qed.

Lemma outcome_not_pending w d o : outcome_of w d = Some o → ¬ is_pending w d.
Proof. intros H Hp. apply is_pending_outcome in Hp. congruence. Qed.

Lemma outcome_of_lookup w d o :
  outcome_of w d = Some o ↔ ∃ og, heap w !! d = Some (Cell (Settled o) og).
Proof.
  unfold outcome_of. destruct (heap w !! d) as [[[rs|o'] og]|]; split;
    try naive_solver.
Qed.

Lemma hooked_ext w w' src k d :
  heap w' = heap w → jobs w' = jobs w →
  (∀ n, invoked w' n ↔ invoked w n) →
  (disposed w = true → disposed w' = true) →
  hooked w src k d → hooked w' src k d.
Proof.
  intros Hh Hj Ht Hd. unfold hooked, done, is_pending, outcome_of.
  rewrite Hh, Hj. destruct (heap w !! src) as [[[rs|o] og]|]; try done.
  intros [?|H]; [by left|right].
  destruct k, o; try done; rewrite ?Ht; naive_solver.
Qed.

Lemma wfh_ext hole w w' :
  heap w' = heap w → jobs w' = jobs w →
  (∀ n, invoked w' n ↔ invoked w n) →
  (disposed w = true → disposed w' = true) →
  tickets w ≤ tickets w' →
  (∀ p, ready w' = Some p → p < length (heap w)) →
  wfh hole w → wfh hole w'.
Proof.
  intros Hh Hj Ht Hd Hn Hr [].
  split; unfold settlers in *; rewrite ?Hh, ?Hj; try done.
  - intros r n t ??. rewrite Ht. eauto.
  - intros d st src k H. destruct (wf_origin0 d st src k H) as (? & ? & Hk).
    split_and!; try done. intros Hne. eapply hooked_ext; eauto.
  - intros d st src n t H. specialize (wf_ticket0 _ _ _ _ _ H). lia.
  - intros n Hi. apply Ht, wf_invoked0 in Hi. lia.
Qed.
End invariant.

(** ** Monotone evolution of the heap

    [grow D N w w']: [w'] extends [w]; settled promises keep their outcome,
    pending promises keep their reactions, only promises in [D] are settled
    (their reactions then being queued) and only tickets in [N] are newly
    invoked. *)
Record grow (D : pid → Prop) (N : nat → Prop) (w w' : world) : Prop := {
  g_settled p o og :
    heap w !! p = Some (Cell (Settled o) og) →
    heap w' !! p = Some (Cell (Settled o) og);
  g_pending p rs og :
    heap w !! p = Some (Cell (Pending rs) og) →
    (∃ rs', heap w' !! p = Some (Cell (Pending (rs ++ rs')) og)) ∨
    (D p ∧ ∃ o, heap w' !! p = Some (Cell (Settled o) og) ∧
       ∀ r, r ∈ rs → JReaction r o ∈ jobs w');
  g_jobs j : j ∈ jobs w → j ∈ jobs w';
  g_invoked n : invoked w n → invoked w' n;
  g_invoked_new n : invoked w' n → invoked w n ∨ N n;
  g_disposed : disposed w = true → disposed w' = true
}.

Definition nobody {A} : A → Prop := λ _, False.

Section grow.
Implicit Types (w : world) (p d : pid) (c : cell) (r : reaction).

Lemma grow_is_pending D N w w' d :
  grow D N w w' → ¬ D d → is_pending w d → is_pending w' d.
Proof.
  intros G HD (rs & og & Hd).
  destruct (g_pending _ _ _ _ G _ _ _ Hd) as [[rs' ?]|[? _]]; [|done].
  by exists (rs ++ rs'), og.
Qed.

Lemma grow_outcome D N w w' d o :
  grow D N w w' → outcome_of w d = Some o → outcome_of w' d = Some o.
Proof.
  intros G. rewrite !outcome_of_lookup. intros [og H].
  exists og. eapply g_settled; eauto.
Qed.

Lemma sync_result_grow D N w w' t d :
  grow D N w w' → ¬ D d →
  sync_result t (outcome_of w d) → sync_result t (outcome_of w' d).
Proof.
  intros G HD. destruct t as [[]| |]; simpl; eauto using grow_outcome.
Qed.

Lemma hooked_grow D N w w' src k d :
  grow D N w w' → ¬ D d → (∀ n t, k = HRunTask n t → ¬ N n) →
  hooked w src k d → hooked w' src k d.
Proof.
  intros G HD HN. unfold hooked.
  destruct (heap w !! src) as [[[rs|o] og]|] eqn:Hsrc; [| |done].
  - intros [Hr Hp].
    destruct (g_pending _ _ _ _ G _ _ _ Hsrc) as [[rs' ->]|(_ & o & -> & Hj)].
    + split; [set_solver|]. eauto using grow_is_pending.
    + left. split; [eauto|]. eauto using grow_is_pending.
  - rewrite (g_settled _ _ _ _ G _ _ _ Hsrc).
    intros [[Hj Hp]|Hdone]; [left|right].
    { split; [by eapply g_jobs|]. eauto using grow_is_pending. }
    pose proof (λ x, grow_outcome _ _ _ _ d x G) as Ho.
    pose proof (g_invoked _ _ _ _ G) as Hi.
    pose proof (g_disposed _ _ _ _ G) as Hdis.
    assert (∀ n t, k = HRunTask n t → ¬ invoked w n → ¬ invoked w' n) as Hni.
    { intros n t -> Hn Hn'. apply (g_invoked_new _ _ _ _ G) in Hn'.
      destruct Hn' as [?|?]; [done|]. by eapply HN. }
    pose proof (λ t, sync_result_grow _ _ _ _ t d G HD) as Hs.
    unfold done in *. destruct k, o; naive_solver.
Qed.

Lemma grow_weaken (D D' : pid → Prop) (N N' : nat → Prop) w w' :
  grow D N w w' → (∀ p, D p → D' p) → (∀ n, N n → N' n) → grow D' N' w w'.
Proof.
  intros [] HD HN. split; try done.
  - intros p rs og H. destruct (g_pending0 p rs og H) as [?|[? ?]]; eauto.
  - intros n H. destruct (g_invoked_new0 n H); eauto.
Qed.

Lemma grow_refl D N w : grow D N w w.
Proof.
  split; try done; [|by left].
  intros p rs og H. left. exists []. by rewrite app_nil_r.
Qed.

Lemma grow_ext w w' :
  heap w' = heap w → jobs w' = jobs w →
  (∀ n, invoked w' n ↔ invoked w n) →
  (disposed w = true → disposed w' = true) →
  grow nobody nobody w w'.
Proof.
  intros Hh Hj Ht Hd. split; rewrite ?Hh, ?Hj; try done.
  - intros p rs og H. left. exists []. by rewrite app_nil_r.
  - intros n. by rewrite Ht.
  - intros n. rewrite Ht. by left.
Qed.

Lemma grow_alloc c w : grow nobody nobody w (alloc c w).2.
Proof.
  split; simpl; try done.
  - intros p o og H. by apply lookup_app_l_Some.
  - intros p rs og H. left. exists []. rewrite app_nil_r.
    by apply lookup_app_l_Some.
  - by left.
Qed.

Lemma grow_log_invoke n w : grow nobody (eq n) w (log (EvInvoke n) w).
Proof.
  split; simpl; try done.
  - intros p rs og H. left. exists []. by rewrite app_nil_r.
  - intros m. unfold invoked; simpl. set_solver.
  - intros m. unfold invoked; simpl. set_solver.
Qed.

Lemma grow_settle p o w : grow (eq p) nobody w (settle p o w).
Proof.
  unfold settle.
  destruct (heap w !! p) as [[[rs|o'] og]|] eqn:Hp;
    try apply grow_refl.
  assert (p < length (heap w)) by (by eapply lookup_lt_Some).
  split; simpl; try done.
  - intros q o' og' Hq. destruct (decide (p = q)) as [->|]; [congruence|].
    by rewrite list_lookup_insert_ne.
  - intros q rs' og' Hq. destruct (decide (p = q)) as [->|].
    + right. split; [done|]. simplify_eq. exists o.
      rewrite list_lookup_insert_eq by done. split; [done|].
      intros r Hr. apply elem_of_app. right.
      by apply (list_elem_of_fmap_2 (λ r, JReaction r o)).
    + left. exists []. rewrite app_nil_r. by rewrite list_lookup_insert_ne.
  - intros j Hj. set_solver.
  - by left.
Qed.

Lemma grow_subscribe p r w : grow nobody nobody w (subscribe p r w).
Proof.
  unfold subscribe.
  destruct (heap w !! p) as [[[rs|o'] og]|] eqn:Hp;
    try apply grow_refl.
  - assert (p < length (heap w)) by (by eapply lookup_lt_Some).
    split; simpl; try done.
    + intros q o' og' Hq. destruct (decide (p = q)) as [->|]; [congruence|].
      by rewrite list_lookup_insert_ne.
    + intros q rs' og' Hq. left. destruct (decide (p = q)) as [->|].
      * simplify_eq. exists [r]. by rewrite list_lookup_insert_eq.
      * exists []. by rewrite app_nil_r, list_lookup_insert_ne.
    + by left.
  - split; simpl; try done.
    + intros q rs' og' Hq. left. exists []. by rewrite app_nil_r.
    + set_solver.
    + by left.
Qed.

Lemma grow_push j w : grow nobody nobody w (set_jobs (jobs w ++ [j]) w).
Proof.
  split; simpl; try done.
  - intros q rs' og' Hq. left. exists []. by rewrite app_nil_r.
  - set_solver.
  - by left.
Qed.
End grow.

(** ** Every primitive preserves the invariant *)

Section preservation.
Implicit Types (w : world) (p d : pid) (c : cell) (r : reaction).

Definition targets (w : world) : list pid := r_target <$> settlers w.

Lemma target_lt hole w d : wfh hole w → d ∈ targets w → d < length (heap w).
Proof.
  intros Hwf (r & -> & Hr)%list_elem_of_fmap.
  destruct (wf_target _ _ Hwf r Hr) as (rs & og & H & _).
  by eapply lookup_lt_Some.
Qed.

Lemma settle_origin p o w d st og :
  heap (settle p o w) !! d = Some (Cell st og) →
  ∃ st', heap w !! d = Some (Cell st' og).
Proof.
  unfold settle.
  destruct (heap w !! p) as [[[rs|o'] og']|] eqn:Hp; eauto. simpl.
  destruct (decide (p = d)) as [->|].
  - rewrite list_lookup_insert_eq by (by eapply lookup_lt_Some).
    intros [= <- <-]. eauto.
  - rewrite list_lookup_insert_ne by done. eauto.
Qed.

Lemma subscribe_origin p r w d st og :
  heap (subscribe p r w) !! d = Some (Cell st og) →
  ∃ st', heap w !! d = Some (Cell st' og).
Proof.
  unfold subscribe.
  destruct (heap w !! p) as [[[rs|o'] og']|] eqn:Hp; eauto. simpl.
  destruct (decide (p = d)) as [->|].
  - rewrite list_lookup_insert_eq by (by eapply lookup_lt_Some).
    intros [= <- <-]. eauto.
  - rewrite list_lookup_insert_ne by done. eauto.
Qed.

(** [settle] and [subscribe] touch the heap and the job queue only. *)
Definition same_fields (w w' : world) : Prop :=
  ready w' = ready w ∧ disposed w' = disposed w ∧
  pendingRedraw w' = pendingRedraw w ∧ lastFrame w' = lastFrame w ∧
  aborted w' = aborted w ∧ clones w' = clones w ∧
  tickets w' = tickets w ∧ trace w' = trace w.

Lemma settle_fields p o w : same_fields w (settle p o w).
Proof.
  unfold settle. by destruct (heap w !! p) as [[[rs|o'] og']|].
Qed.

Lemma subscribe_fields p r w : same_fields w (subscribe p r w).
Proof.
  unfold subscribe. by destruct (heap w !! p) as [[[rs|o'] og']|].
Qed.

Lemma length_settle p o w : length (heap (settle p o w)) = length (heap w).
Proof.
  unfold settle. destruct (heap w !! p) as [[[rs|o'] og']|]; try done.
  simpl. by rewrite length_insert.
Qed.

Lemma length_subscribe p r w :
  length (heap (subscribe p r w)) = length (heap w).
Proof.
  unfold subscribe. destruct (heap w !! p) as [[[rs|o'] og']|]; try done.
  simpl. by rewrite length_insert.
Qed.

Lemma thenable_settle p o w d q :
  JThenable d q ∈ jobs (settle p o w) → JThenable d q ∈ jobs w.
Proof.
  unfold settle. destruct (heap w !! p) as [[[rs|o'] og']|]; try done.
  simpl. rewrite elem_of_app. intros [?|H]; [done|].
  apply list_elem_of_fmap in H as (? & ? & ?). done.
Qed.

Lemma thenable_subscribe p r w d q :
  JThenable d q ∈ jobs (subscribe p r w) → JThenable d q ∈ jobs w.
Proof.
  unfold subscribe. destruct (heap w !! p) as [[[rs|o'] og']|]; try done.
  simpl. rewrite elem_of_app, list_elem_of_singleton. by intros [?|?].
Qed.

(** A fresh promise without reactions that was not made by [then]. *)
Lemma wfh_alloc hole c w :
  wfh hole w → cell_reactions c = [] →
  (∀ src k, c_origin c ≠ ODerived src k) →
  wfh hole (alloc c w).2.
Proof.
  intros Hwf Hc Hog. pose proof (grow_alloc c w) as G.
  destruct Hwf as [Hnd Htg Hfr Hor Htk Hinj Hinv Hrd Hth].
  split; rewrite ?settlers_alloc by done; try done.
  - intros r Hr. destruct (Htg r Hr) as (rs & og & H & ?).
    exists rs, og. split; [|done]. by apply lookup_app_l_Some.
  - intros d st src k [[_ H]|[_ ->]]%lookup_snoc_Some; [|naive_solver].
    destruct (Hor _ _ _ _ H) as (? & ? & Hh). split_and!; try done.
    intros Hne. eapply hooked_grow; eauto.
  - intros d st src n t [[_ H]|[_ ->]]%lookup_snoc_Some; [|naive_solver].
    eauto.
  - intros d d' st st' src src' n t t'.
    intros [[_ H]|[_ ->]]%lookup_snoc_Some; [|naive_solver].
    intros [[_ H']|[_ ->]]%lookup_snoc_Some; [|naive_solver]. eauto.
  - intros r Hr. simpl. rewrite length_app. apply Hrd in Hr. lia.
  - intros d q Hq. simpl. rewrite length_app. apply Hth in Hq. lia.
Qed.

(** Settling a promise that no reaction is about to settle. *)
Lemma wfh_settle hole p o w :
  wfh hole w → p ∉ targets w → wfh hole (settle p o w).
Proof.
  intros Hwf Hp. pose proof (grow_settle p o w) as G.
  destruct (heap w !! p) as [[[rs|o'] og]|] eqn:Hcell;
    [|unfold settle; by rewrite Hcell..].
  destruct Hwf as [Hnd Htg Hfr Hor Htk Hinj Hinv Hrd Hth].
  destruct (settle_fields p o w) as (Er & _ & _ & _ & _ & _ & En & Et).
  split; rewrite ?Er, ?En.
  - unfold targets in *. by rewrite settlers_settle.
  - intros r Hr. rewrite settlers_settle in Hr.
    destruct (Htg r Hr) as (rs' & og' & H & ?).
    destruct (g_pending _ _ _ _ G _ _ _ H) as [[rs'' ?]|[Heq _]]; [eauto|].
    destruct Hp. apply list_elem_of_fmap. eauto.
  - intros r n t Hr Hk Hi. rewrite settlers_settle in Hr.
    apply (g_invoked_new _ _ _ _ G) in Hi as [?|[]]. eapply Hfr; eauto.
  - intros d st src k H. apply settle_origin in H as [st' H].
    destruct (Hor _ _ _ _ H) as (? & Hk & Hh). split_and!; try done.
    intros Hne. specialize (Hh Hne).
    destruct (decide (p = d)) as [<-|]; [|eapply hooked_grow; eauto; done].
    (* the promise being settled is itself derived: its callback has
       run already and returned a promise *)
    assert (¬ is_pending w src) as Hsrc.
    { intros (rs0 & og0 & Hs). unfold hooked in Hh. rewrite Hs in Hh.
      destruct Hh as [Hr _]. destruct Hp. apply list_elem_of_fmap.
      exists (Reaction k p). split; [done|]. apply elem_of_app. left.
      apply list_elem_of_bind. eexists. split; [|by eapply list_elem_of_lookup_2].
      done. }
    unfold hooked in *.
    destruct (heap w !! src) as [[[rs0|o0] og0]|] eqn:Hs; [| |done].
    { destruct Hsrc. by exists rs0, og0. }
    rewrite (g_settled _ _ _ _ G _ _ _ Hs).
    destruct Hh as [[Hj _]|Hd].
    { destruct Hp. apply list_elem_of_fmap.
      exists (Reaction k p). split; [done|]. apply elem_of_app. right.
      apply list_elem_of_fmap. by exists (JReaction (Reaction k p) o0). }
    right. clear Htg Hfr Hor Htk Hinj Hinv Hrd Hth Hnd Hp.
    unfold done, outcome_of in Hd |- *. rewrite Hcell in Hd.
    destruct k, o0; try done; try (by destruct Hd as [[? ?]|[? ?]]);
      try (by destruct Hd).
    destruct Hd as [[Hi Hs']|(_ & _ & ?)]; [|done]. left.
    split; [by eapply g_invoked|]. by destruct t as [[]| |].
  - intros d st src n t H. apply settle_origin in H as [st' H]. eauto.
  - intros d d' st st' src src' n t t' H H'.
    apply settle_origin in H as [? H]. apply settle_origin in H' as [? H'].
    eauto.
  - intros n Hi. apply (g_invoked_new _ _ _ _ G) in Hi as [?|[]]. eauto.
  - intros r Hr. rewrite length_settle. by apply Hrd.
  - intros d q Hq. rewrite length_settle. apply thenable_settle in Hq. eauto.
Qed.
End preservation.

Section preservation2.
Implicit Types (w : world) (p d : pid) (c : cell) (r : reaction).

Lemma hooked_grow_nobody w w' src k d :
  grow nobody nobody w w' → hooked w src k d → hooked w' src k d.
Proof. intros G. eapply hooked_grow; eauto; by intros. Qed.

(** The conditions under which a reaction may be added to the heap. *)
Definition admissible (w : world) (r : reaction) : Prop :=
  (r_target r ∉ targets w) ∧
  (∃ rs og, heap w !! r_target r = Some (Cell (Pending rs) og) ∧
     og ≠ OExternal ∧
     (then_handler (r_handler r) → ∃ src, og = ODerived src (r_handler r))) ∧
  (∀ n t, r_handler r = HRunTask n t → ¬ invoked w n).

(** Adding one reaction, either to a promise or to the job queue. *)
Lemma wfh_add hole w w' r :
  wfh hole w → admissible w r →
  grow nobody nobody w w' →
  settlers w' ≡ₚ r :: settlers w →
  length (heap w') = length (heap w) →
  (∀ d st og, heap w' !! d = Some (Cell st og) →
     ∃ st', heap w !! d = Some (Cell st' og)) →
  (∀ d q, JThenable d q ∈ jobs w' →
     JThenable d q ∈ jobs w ∨ q < length (heap w)) →
  same_fields w w' →
  wfh hole w'.
Proof.
  intros Hwf (Hnew & (rs & og & Hcell & Hog) & Hinv') G Hperm Hlen Hback Hthen.
  intros (Er & _ & _ & _ & _ & _ & En & Et).
  destruct Hwf as [Hnd Htg Hfr Hor Htk Hinj Hinv Hrd Hth].
  assert (∀ r', r' ∈ settlers w' ↔ r' = r ∨ r' ∈ settlers w) as Hin.
  { intros r'. by rewrite Hperm, elem_of_cons. }
  split; rewrite ?Er, ?En, ?Hlen; try done.
  - rewrite Hperm, fmap_cons. by apply NoDup_cons.
  - intros r' [->|Hr']%Hin.
    + destruct (g_pending _ _ _ _ G _ _ _ Hcell) as [[rs' ?]|[[] _]]. eauto.
    + destruct (Htg r' Hr') as (rs' & og' & H & ?).
      destruct (g_pending _ _ _ _ G _ _ _ H) as [[rs'' ?]|[[] _]]. eauto.
  - intros r' n t [->|Hr']%Hin Hk Hi;
      apply (g_invoked_new _ _ _ _ G) in Hi as [?|[]]; naive_solver.
  - intros d st src k H. apply Hback in H as [st' H].
    destruct (Hor _ _ _ _ H) as (? & Hk & Hh). split_and!; try done.
    intros Hne. eauto using hooked_grow_nobody.
  - intros d st src n t H. apply Hback in H as [st' H]. eauto.
  - intros d d' st st' src src' n t t' H H'.
    apply Hback in H as [? H]. apply Hback in H' as [? H']. eauto.
  - intros n Hi. apply (g_invoked_new _ _ _ _ G) in Hi as [?|[]]. eauto.
  - intros d q [?|?]%Hthen; eauto.
Qed.

Lemma wfh_subscribe hole p r w :
  wfh hole w → is_Some (heap w !! p) → admissible w r →
  wfh hole (subscribe p r w).
Proof.
  intros Hwf Hp Hr.
  eapply (wfh_add hole w _ r);
    eauto using grow_subscribe, settlers_subscribe, length_subscribe,
      subscribe_origin, subscribe_fields.
  intros d q Hq. left. by eapply thenable_subscribe.
Qed.

(** [resolve d (CPromise q)] queues the thenable job. *)
Lemma wfh_push_thenable hole d q w :
  wfh hole w → q < length (heap w) → admissible w (Reaction HForward d) →
  wfh hole (set_jobs (jobs w ++ [JThenable d q]) w).
Proof.
  intros Hwf Hq Hr.
  eapply (wfh_add hole w _ (Reaction HForward d));
    [done|done|apply grow_push| |done| | |done].
  - unfold settlers; simpl. rewrite map_app; simpl.
    by rewrite app_assoc, <- Permutation_cons_append.
  - simpl. eauto.
  - simpl. intros d' q'. rewrite elem_of_app, list_elem_of_singleton.
    intros [?|[= -> ->]]; eauto.
Qed.

(** [p.then(k)] *)
Lemma wfh_then hole p k w :
  wfh hole w → p < length (heap w) → then_handler k →
  (∀ n t, k = HRunTask n t →
     n < tickets w ∧ ¬ invoked w n ∧
     ∀ d st src t', heap w !! d ≠ Some (Cell st (ODerived src (HRunTask n t')))) →
  wfh hole (then_ p k w).2.
Proof.
  intros Hwf Hp Hk Hn. unfold then_.
  set (d := length (heap w)).
  set (w1 := (alloc (Cell (Pending []) (ODerived p k)) w).2).
  change (wfh hole (subscribe p (Reaction k d) w1)).
  pose proof (grow_alloc (Cell (Pending []) (ODerived p k)) w) as G1.
  pose proof (grow_subscribe p (Reaction k d) w1) as G2. fold w1 in G1.
  assert (heap w1 !! d = Some (Cell (Pending []) (ODerived p k))) as Hd.
  { unfold w1; simpl. by rewrite lookup_app_r, Nat.sub_diag. }
  assert (is_Some (heap w1 !! p)) as Hp1.
  { apply lookup_lt_is_Some. unfold w1; simpl. rewrite length_app. lia. }
  assert (d ∉ targets w) as Hfresh.
  { intros H. eapply target_lt in H; eauto. unfold d in H. lia. }
  pose proof (settlers_subscribe p (Reaction k d) w1 Hp1) as Hperm.
  unfold w1 at 2 in Hperm. rewrite settlers_alloc in Hperm by done.
  assert (∀ r', r' ∈ settlers (subscribe p (Reaction k d) w1) ↔
                r' = Reaction k d ∨ r' ∈ settlers w) as Hin.
  { intros r'. by rewrite Hperm, elem_of_cons. }
  assert (∀ d' st og,
    heap (subscribe p (Reaction k d) w1) !! d' = Some (Cell st og) →
    (∃ st', heap w !! d' = Some (Cell st' og)) ∨
    (d' = d ∧ og = ODerived p k)) as Hback.
  { intros d' st og H. apply subscribe_origin in H as [st' H].
    unfold w1 in H; simpl in H.
    apply lookup_snoc_Some in H as [[_ H]|[-> [= <- <-]]]; eauto. }
  destruct (subscribe_fields p (Reaction k d) w1)
    as (Er & _ & _ & _ & _ & _ & En & Et).
  destruct Hwf as [Hnd Htg Hfr Hor Htk Hinj Hinv Hrd Hth].
  split; rewrite ?Er, ?En, ?length_subscribe.
  - rewrite Hperm, fmap_cons. by apply NoDup_cons.
  - intros r' [->|Hr']%Hin.
    + destruct (g_pending _ _ _ _ G2 _ _ _ Hd) as [[rs' ?]|[[] _]].
      simpl. eexists _, _. split; [done|]. split; [done|]. eauto.
    + destruct (Htg r' Hr') as (rs' & og' & H & ?).
      destruct (g_pending _ _ _ _ G1 _ _ _ H) as [[rs1 H1]|[[] _]].
      destruct (g_pending _ _ _ _ G2 _ _ _ H1) as [[rs2 H2]|[[] _]]. eauto.
  - intros r' n t Hr' Hkr Hi.
    apply (g_invoked_new _ _ _ _ G2) in Hi as [Hi|[]].
    apply (g_invoked_new _ _ _ _ G1) in Hi as [Hi|[]].
    apply Hin in Hr' as [->|Hr']; [|by eapply Hfr].
    simpl in Hkr. by destruct (Hn _ _ Hkr) as (_ & ? & _).
  - intros d' st src k' [[st' H]|[-> [= -> ->]]]%Hback.
    + destruct (Hor _ _ _ _ H) as (? & Hk' & Hh). split_and!; try done.
      intros Hne. eauto using hooked_grow_nobody.
    + split_and!; try done. intros _. unfold hooked.
      destruct Hp1 as [[[rs|o] og] Hp1]; unfold subscribe; rewrite Hp1; simpl.
      * assert (p ≠ d) by (unfold d; lia).
        rewrite list_lookup_insert_eq by (by eapply lookup_lt_Some).
        split; [set_solver|]. exists [], (ODerived p k). simpl.
        by rewrite list_lookup_insert_ne.
      * unfold w1 in Hp1; simpl in Hp1. rewrite Hp1.
        left. split; [set_solver|]. by exists [], (ODerived p k).
  - intros d' st src n t [[st' H]|[-> Heq]]%Hback; [eauto|].
    injection Heq as -> <-. by destruct (Hn _ _ eq_refl) as (? & _).
  - intros d1 d2 st st' src src' n t t'.
    intros [[x H]|[-> Heq]]%Hback [[x' H']|[-> Heq']]%Hback; eauto.
    + injection Heq' as -> <-. destruct (Hn _ _ eq_refl) as (_ & _ & Hno).
      by destruct (Hno d1 x src t).
    + injection Heq as -> <-. destruct (Hn _ _ eq_refl) as (_ & _ & Hno).
      by destruct (Hno d2 x' src' t').
  - intros n Hi.
    apply (g_invoked_new _ _ _ _ G2) in Hi as [Hi|[]].
    apply (g_invoked_new _ _ _ _ G1) in Hi as [Hi|[]]. eauto.
  - intros r' Hr'. unfold w1; simpl. rewrite length_app. apply Hrd in Hr'. lia.
  - intros d' q Hq%thenable_subscribe. unfold w1 in *; simpl in *.
    rewrite length_app. apply Hth in Hq. lia.
Qed.
End preservation2.

Section preservation3.
Implicit Types (w : world) (p d : pid) (c : cell) (r : reaction).

Lemma not_nobody {A} (x : A) : ¬ nobody x.
Proof. by intros []. Qed.

(** Trace events other than invocations do not concern the heap. *)
Lemma wfh_log hole ev w :
  (∀ n, ev ≠ EvInvoke n) → wfh hole w → wfh hole (log ev w).
Proof.
  intros Hev Hwf. eapply wfh_ext; [..|exact Hwf]; simpl; try done.
  - intros n. unfold invoked; simpl. rewrite elem_of_app, list_elem_of_singleton.
    naive_solver.
  - apply (wf_ready _ _ Hwf).
Qed.

(** Logging the invocation of ticket [n]: no reaction is still waiting to
    run task [n], and the promise derived for it, if any, is the hole. *)
Lemma wfh_log_invoke hole n w :
  wfh hole w → n < tickets w →
  (∀ d st src t,
     heap w !! d = Some (Cell st (ODerived src (HRunTask n t))) →
     hole = Some d ∧ d ∉ targets w) →
  wfh hole (log (EvInvoke n) w).
Proof.
  intros Hwf Hn Hhole. pose proof (grow_log_invoke n w) as G.
  destruct Hwf as [Hnd Htg Hfr Hor Htk Hinj Hinv Hrd Hth].
  split; try done.
  - intros r m t Hr Hk Hi.
    apply (g_invoked_new _ _ _ _ G) in Hi as [?|<-]; [by eapply Hfr|].
    destruct (Htg r Hr) as (rs & og & H & _ & Hsrc).
    rewrite Hk in Hsrc. destruct Hsrc as [src ->]; [done|].
    destruct (Hhole _ _ _ _ H) as [_ []].
    apply list_elem_of_fmap. eauto.
  - intros d st src k H. destruct (Hor _ _ _ _ H) as (? & ? & Hh).
    split_and!; try done. intros Hne.
    eapply hooked_grow; [apply G|apply not_nobody| |by auto].
    intros m t -> <-. destruct (Hhole _ _ _ _ H) as [? _]. done.
  - intros m Hi. apply (g_invoked_new _ _ _ _ G) in Hi as [?|<-]; auto.
Qed.

(** Opening and closing the hole. *)
Lemma wfh_open hole w : wf w → wfh hole w.
Proof.
  intros []. split; try done.
  intros d st src k H. destruct (wf_origin0 _ _ _ _ H) as (? & ? & Hh).
  split_and!; auto.
Qed.

Lemma wfh_close d w :
  wfh (Some d) w →
  (∀ st src k, heap w !! d = Some (Cell st (ODerived src k)) →
     hooked w src k d) →
  wf w.
Proof.
  intros [] Hd. split; try done.
  intros d' st src k H. destruct (wf_origin0 _ _ _ _ H) as (? & ? & Hh).
  split_and!; try done. intros _.
  destruct (decide (d' = d)) as [->|]; [eauto|]. apply Hh. congruence.
Qed.

(** Taking the first job off the queue. *)
Lemma settlers_pop w j js :
  jobs w = j :: js →
  settlers w ≡ₚ job_reaction j :: settlers (set_jobs js w).
Proof.
  intros Hj. unfold settlers; simpl. rewrite Hj; simpl.
  by rewrite <- Permutation_middle.
Qed.

Lemma pop_target w j js :
  wf w → jobs w = j :: js →
  admissible (set_jobs js w) (job_reaction j).
Proof.
  intros Hwf Hj. pose proof (settlers_pop w j js Hj) as Hperm.
  pose proof (wf_nodup _ _ Hwf) as Hnd.
  rewrite Hperm, fmap_cons in Hnd. apply NoDup_cons in Hnd as [Hnd _].
  assert (job_reaction j ∈ settlers w) as Hin by (rewrite Hperm; left).
  split_and!; [done|by apply (wf_target _ _ Hwf)|].
  intros n t Hk. by eapply (wf_fresh _ _ Hwf).
Qed.

Lemma hooked_pop w j js src k d :
  jobs w = j :: js → job_reaction j ≠ Reaction k d →
  hooked w src k d → hooked (set_jobs js w) src k d.
Proof.
  intros Hj Hne. unfold hooked; simpl.
  destruct (heap w !! src) as [[[rs|o] og]|]; try done.
  intros [[Hin Hp]|Hd]; [left|by right]. split; [|done].
  rewrite Hj in Hin. apply elem_of_cons in Hin as [<-|]; [|done].
  by destruct Hne.
Qed.

Lemma wfh_pop w j js :
  wf w → jobs w = j :: js →
  wfh (Some (r_target (job_reaction j))) (set_jobs js w).
Proof.
  intros Hwf Hj. pose proof (settlers_pop w j js Hj) as Hperm.
  pose proof (wf_nodup _ _ Hwf) as Hnd.
  rewrite Hperm, fmap_cons in Hnd. apply NoDup_cons in Hnd as [Hnew Hnd].
  assert (∀ r, r ∈ settlers (set_jobs js w) → r ∈ settlers w) as Hin.
  { intros r Hr. rewrite Hperm. by right. }
  destruct Hwf as [_ Htg Hfr Hor Htk Hinj Hinv Hrd Hth].
  split; try done; eauto.
  - intros d st src k H. destruct (Hor _ _ _ _ H) as (? & ? & Hh).
    split_and!; try done. intros Hne.
    eapply hooked_pop; eauto. intros Heq. rewrite Heq in Hne. done.
  - intros d q Hq. apply (Hth d). rewrite Hj. by right.
Qed.

(** A job whose callback was registered through [then]: its target is the
    derived promise, and the promise it was registered on has settled
    with the outcome the job carries. *)
Lemma pop_then w k d o js :
  wf w → jobs w = JReaction (Reaction k d) o :: js → then_handler k →
  ∃ src rs, heap w !! d = Some (Cell (Pending rs) (ODerived src k)) ∧
            outcome_of w src = Some o.
Proof.
  intros Hwf Hj Hk.
  pose proof (settlers_pop w _ js Hj) as Hperm; simpl in Hperm.
  pose proof (wf_nodup _ _ Hwf) as Hnd.
  assert (Reaction k d ∈ settlers w) as Hin by (rewrite Hperm; left).
  destruct (wf_target _ _ Hwf _ Hin) as (rs & og & Hd & _ & Hsrc).
  destruct (Hsrc Hk) as [src ->]. simpl in Hd. exists src, rs. split; [done|].
  destruct (wf_origin _ _ Hwf _ _ _ _ Hd) as (_ & _ & Hh).
  specialize (Hh ltac:(done)). unfold hooked in Hh.
  unfold outcome_of.
  destruct (heap w !! src) as [[[rs'|o'] og']|] eqn:Hs; [| |done].
  - (* the reaction would be registered twice *)
    destruct Hh as [Hr _]. exfalso.
    unfold settlers in Hnd. rewrite Hj in Hnd. simpl in Hnd.
    rewrite fmap_app, fmap_cons in Hnd. simpl in Hnd.
    apply NoDup_app in Hnd as (_ & Hnd & _). apply (Hnd d); [|left].
    apply list_elem_of_fmap. exists (Reaction k d). split; [done|].
    apply list_elem_of_bind. eexists. split; [|by eapply list_elem_of_lookup_2].
    done.
  - destruct Hh as [[Hjob _]|Hdone].
    + rewrite Hj in Hjob. apply elem_of_cons in Hjob as [[= ->]|Hjob]; [done|].
      exfalso. rewrite Hperm, fmap_cons in Hnd. apply NoDup_cons in Hnd as [Hnd _].
      apply Hnd. apply list_elem_of_fmap. exists (Reaction k d). split; [done|].
      apply elem_of_app. right. simpl.
      apply list_elem_of_fmap. by exists (JReaction (Reaction k d) o').
    + exfalso. pose proof (λ n t, wf_fresh _ _ Hwf _ n t Hin) as Hfr.
      unfold done, outcome_of in Hdone. rewrite Hd in Hdone. simpl in Hfr.
      destruct k, o'; try done; try (by destruct Hdone as [[? ?]|[? ?]]).
      * destruct Hdone as [[? _]|(_ & _ & ?)]; [|done]. by eapply Hfr.
      * by destruct Hdone.
Qed.
End preservation3.

(** ** Task bodies only add to the world

    [extends b w w']: promises below [b] are untouched, and every reaction
    that is new in [w'] targets a promise at or above [b]. *)
Record extends (b : nat) (w w' : world) : Prop := {
  f_heap p : p < b → heap w' !! p = heap w !! p;
  f_len : length (heap w) ≤ length (heap w');
  f_jobs : ∃ js, jobs w' = jobs w ++ js;
  f_settlers r : r ∈ settlers w' → r ∈ settlers w ∨ b ≤ r_target r;
  f_trace : ∃ evs, trace w' = trace w ++ evs;
  f_tickets : tickets w' = tickets w;
  f_ready : ready w' = ready w;
  f_disposed : disposed w' = disposed w
}.

Section extends.
Implicit Types (w : world) (p d : pid) (c : cell) (r : reaction).

Lemma extends_refl b w : extends b w w.
Proof. split; try done; [(exists []; by rewrite app_nil_r)|by left|(exists []; by rewrite app_nil_r)]. Qed.

Lemma extends_trans b w w' w'' : extends b w w' → extends b w' w'' → extends b w w''.
Proof.
  intros [H1 L1 [j1 J1] S1 [e1 E1] T1 R1 D1] [H2 L2 [j2 J2] S2 [e2 E2] T2 R2 D2].
  split; try congruence.
  - intros p Hp. by rewrite H2, H1.
  - lia.
  - exists (j1 ++ j2). by rewrite J2, J1, app_assoc.
  - intros r [Hr|?]%S2; auto.
  - exists (e1 ++ e2). by rewrite E2, E1, app_assoc.
Qed.

Lemma extends_log b ev w : extends b w (log ev w).
Proof. split; try done; [(exists []; by rewrite app_nil_r)|by left|by exists [ev]]. Qed.

Lemma extends_alloc b c w :
  cell_reactions c = [] → b ≤ length (heap w) → extends b w (alloc c w).2.
Proof.
  intros Hc Hb. split; try done.
  - intros p Hp. simpl. apply lookup_app_l. lia.
  - simpl. rewrite length_app. lia.
  - simpl. exists []; by rewrite app_nil_r.
  - intros r. rewrite settlers_alloc by done. by left.
  - simpl. exists []; by rewrite app_nil_r.
Qed.

Lemma extends_subscribe b p r w :
  b ≤ p → b ≤ r_target r → extends b w (subscribe p r w).
Proof.
  intros Hp Hr. destruct (subscribe_fields p r w) as (? & ? & _ & _ & _ & _ & ? & Ht).
  split; try done.
  - intros q Hq. unfold subscribe.
    destruct (heap w !! p) as [[[rs|o'] og']|]; try done. simpl.
    apply list_lookup_insert_ne. lia.
  - by rewrite length_subscribe.
  - unfold subscribe. destruct (heap w !! p) as [[[rs|o'] og']|]; simpl;
      eauto; exists []; by rewrite app_nil_r.
  - intros r'. destruct (heap w !! p) eqn:Hcell.
    + rewrite settlers_subscribe by eauto. intros [->|?]%elem_of_cons; auto.
    + unfold subscribe. rewrite Hcell. by left.
  - exists []. by rewrite Ht, app_nil_r.
Qed.

Lemma extends_settle b p o w : b ≤ p → extends b w (settle p o w).
Proof.
  intros Hp. destruct (settle_fields p o w) as (? & ? & _ & _ & _ & _ & ? & Ht).
  split; try done.
  - intros q Hq. unfold settle.
    destruct (heap w !! p) as [[[rs|o'] og']|]; try done. simpl.
    apply list_lookup_insert_ne. lia.
  - by rewrite length_settle.
  - unfold settle. destruct (heap w !! p) as [[[rs|o'] og']|]; simpl;
      eauto; exists []; by rewrite app_nil_r.
  - intros r'. rewrite settlers_settle. by left.
  - exists []. by rewrite Ht, app_nil_r.
Qed.

Lemma extends_ext b w w' :
  heap w' = heap w → jobs w' = jobs w → trace w' = trace w →
  tickets w' = tickets w → ready w' = ready w → disposed w' = disposed w →
  extends b w w'.
Proof.
  intros Hh Hj Ht ???. split; rewrite ?Hh, ?Hj, ?Ht; try done.
  - (exists []; by rewrite app_nil_r).
  - unfold settlers. rewrite Hh, Hj. by left.
  - (exists []; by rewrite app_nil_r).
Qed.

Lemma extends_not_target b w w' d :
  extends b w w' → d < b → d ∉ targets w → d ∉ targets w'.
Proof.
  intros F Hd Hn (r & -> & Hr)%list_elem_of_fmap.
  apply (f_settlers _ _ _ F) in Hr as [Hr|?]; [|lia].
  apply Hn. apply list_elem_of_fmap. eauto.
Qed.

Lemma extends_invoked b w w' n : extends b w w' → invoked w n → invoked w' n.
Proof.
  intros F. destruct (f_trace _ _ _ F) as [evs E]. unfold invoked.
  rewrite E. set_solver.
Qed.

Lemma extends_outcome b w w' p : extends b w w' → p < b → outcome_of w' p = outcome_of w p.
Proof. intros F Hp. unfold outcome_of. by rewrite (f_heap _ _ _ F). Qed.

Lemma targets_alloc c w : cell_reactions c = [] → targets (alloc c w).2 = targets w.
Proof. intros. unfold targets. by rewrite settlers_alloc. Qed.

Lemma alloc_fresh hole w : wfh hole w → length (heap w) ∉ targets w.
Proof. intros Hwf H. eapply target_lt in H; eauto. lia. Qed.

(** [try { await this.#draw(frame) } finally { frame.close() }] *)
Lemma draw_body_spec hole b n tok f cb p w :
  wfh hole w → heap w !! p = Some (Cell (Pending []) OAsync) →
  p ∉ targets w → b ≤ p → b ≤ length (heap w) →
  wfh hole (draw_body n tok f cb p w) ∧ extends b w (draw_body n tok f cb p w).
Proof.
  intros Hwf Hp Hfresh Hb Hlen. unfold draw_body, close_frame.
  set (w1 := log (EvCallback n tok f) w).
  assert (wfh hole w1) as Hwf1 by (by apply wfh_log).
  assert (extends b w w1) as F1 by apply extends_log.
  destruct cb as [|e|].
  - (* the callback returns undefined: [await undefined] *)
    set (c := Cell (Settled (Fulfilled VUndefined)) OAwait).
    change (wfh hole (subscribe (length (heap w)) (Reaction (HFinally n f) p)
              (alloc c w1).2) ∧
            extends b w (subscribe (length (heap w)) (Reaction (HFinally n f) p)
              (alloc c w1).2)).
    assert (wfh hole (alloc c w1).2) as Hwf2 by (by apply wfh_alloc).
    split.
    + apply wfh_subscribe; [done| |].
      * apply lookup_lt_is_Some. simpl. rewrite length_app. simpl. lia.
      * split_and!; [by rewrite targets_alloc| |done]. simpl.
        eexists _, _. split; [by apply lookup_app_l_Some|]. done.
    + eapply extends_trans; [apply F1|].
      eapply (extends_trans _ _ (alloc c w1).2).
      * apply extends_alloc; [done|exact Hlen].
      * apply extends_subscribe; [exact Hlen|exact Hb].
  - (* the callback throws *)
    split.
    + apply wfh_settle; [by apply wfh_log|done].
    + eapply extends_trans; [apply F1|]. eapply extends_trans;
        [apply extends_log|apply extends_settle; exact Hb].
  - (* the callback returns a promise of the environment *)
    set (c := Cell (Pending []) OExternal).
    change (wfh hole (subscribe (length (heap w)) (Reaction (HFinally n f) p)
              (alloc c w1).2) ∧
            extends b w (subscribe (length (heap w)) (Reaction (HFinally n f) p)
              (alloc c w1).2)).
    assert (wfh hole (alloc c w1).2) as Hwf2 by (by apply wfh_alloc).
    split.
    + apply wfh_subscribe; [done| |].
      * apply lookup_lt_is_Some. simpl. rewrite length_app. simpl. lia.
      * split_and!; [by rewrite targets_alloc| |done]. simpl.
        eexists _, _. split; [by apply lookup_app_l_Some|]. done.
    + eapply extends_trans; [apply F1|].
      eapply (extends_trans _ _ (alloc c w1).2).
      * apply extends_alloc; [done|exact Hlen].
      * apply extends_subscribe; [exact Hlen|exact Hb].
Qed.
End extends.

Section tasks.
Implicit Types (w : world) (p d : pid) (c : completion) (r : reaction).

(** How the completion of [task()] relates to the task. *)
Definition completes (t : task) (c : completion) : Prop :=
  match t with
  | TExternal (BReturn v) => c = CValue v
  | TExternal (BThrow e) => c = CThrow e
  | _ => ∃ q, c = CPromise q
  end.

Definition promise_below (c : completion) (w : world) : Prop :=
  match c with
  | CPromise q => q < length (heap w)
  | _ => True
  end.

Lemma call_task_spec hole n t w c w1 :
  wfh hole w → n < tickets w →
  (∀ d st src t',
     heap w !! d = Some (Cell st (ODerived src (HRunTask n t'))) →
     hole = Some d ∧ d ∉ targets w) →
  call_task n t w = (c, w1) →
  wfh hole w1 ∧ extends (length (heap w)) w w1 ∧ invoked w1 n ∧
  promise_below c w1 ∧ completes t c.
Proof.
  intros Hwf Hn Hhole. unfold call_task.
  set (w0 := log (EvInvoke n) w).
  assert (wfh hole w0) as Hwf0 by (by apply wfh_log_invoke).
  assert (extends (length (heap w)) w w0) as F0 by apply extends_log.
  assert (invoked w0 n) as Hi0.
  { unfold invoked, w0; simpl. set_solver. }
  set (b := length (heap w)) in *.
  assert (∀ og, heap (alloc (Cell (Pending []) og) w0).2 !! b
                = Some (Cell (Pending []) og)) as Hnew.
  { intros og. simpl. by rewrite lookup_app_r, Nat.sub_diag. }
  assert (∀ og, b ∉ targets (alloc (Cell (Pending []) og) w0).2) as Hfresh.
  { intros og. rewrite targets_alloc by done. exact (alloc_fresh hole w0 Hwf0). }
  assert (∀ og, extends b w (alloc (Cell (Pending []) og) w0).2) as Fa.
  { intros og. eapply extends_trans; [apply F0|]. by apply extends_alloc. }
  assert (∀ og, length (heap (alloc (Cell (Pending []) og) w0).2) = S b) as Hlen.
  { intros og. simpl. rewrite length_app. simpl. unfold b. lia. }
  destruct t as [[v|e|]|f cb|tok cb].
  - intros [= <- <-]. by split_and!.
  - intros [= <- <-]. by split_and!.
  - set (w2 := (alloc (Cell (Pending []) OExternal) w0).2).
    change (alloc (Cell (Pending []) OExternal) w0) with (b, w2).
    cbv beta iota. intros [= <- <-].
    split_and!; [by apply wfh_alloc|apply Fa| | |by eexists].
    + eapply extends_invoked; [|exact Hi0]. by apply (extends_alloc b).
    + unfold promise_below, w2. rewrite (Hlen OExternal). lia.
  - (* the task of [draw] *)
    set (w2 := (alloc (Cell (Pending []) OAsync) w0).2).
    change (alloc (Cell (Pending []) OAsync) w0) with (b, w2).
    cbv beta iota. intros [= <- <-].
    assert (wfh hole w2) as Hwf2 by (by apply wfh_alloc).
    destruct (draw_body_spec hole b n None f cb b w2 Hwf2
                (Hnew OAsync) (Hfresh OAsync) (le_n b)) as [Hwf3 F3].
    { unfold w2. rewrite (Hlen OAsync). lia. }
    split_and!; [done| | | |by eexists].
    + eapply extends_trans; [apply (Fa OAsync)|apply F3].
    + eapply extends_invoked; [apply F3|].
      eapply extends_invoked; [|exact Hi0]. by apply (extends_alloc b).
    + unfold promise_below.
      eapply Nat.lt_le_trans; [|apply (f_len _ _ _ F3)].
      unfold w2. rewrite (Hlen OAsync). lia.
  - (* the task of [redraw] *)
    set (w2 := (alloc (Cell (Pending []) OAsync) w0).2).
    assert (wfh hole w2) as Hwf2 by (by apply wfh_alloc).
    change (alloc (Cell (Pending []) OAsync) w0) with (b, w2).
    cbv beta iota.
    destruct (is_aborted tok w2).
    { intros [= <- <-]. split_and!; [| | | |by eexists].
      - apply wfh_settle; [done|apply (Hfresh OAsync)].
      - eapply extends_trans; [apply (Fa OAsync)|by apply extends_settle].
      - eapply extends_invoked; [by apply (extends_settle b)|].
        eapply extends_invoked; [|exact Hi0]. by apply (extends_alloc b).
      - unfold promise_below, w2. rewrite length_settle, (Hlen OAsync). lia. }
    set (w3 := set_pendingRedraw None w2).
    assert (wfh hole w3) as Hwf3.
    { eapply wfh_ext; [..|exact Hwf2]; try done. apply (wf_ready _ _ Hwf2). }
    assert (extends b w w3) as F3.
    { eapply extends_trans; [apply (Fa OAsync)|by apply extends_ext]. }
    assert (invoked w3 n) as Hi3.
    { eapply (extends_invoked b w0); [|exact Hi0].
      eapply (extends_trans _ _ w2);
        [by apply (extends_alloc b)|by apply extends_ext]. }
    destruct (lastFrame w3) as [lf|] eqn:Hlf.
    2:{ intros [= <- <-]. split_and!; [| | | |by eexists].
        - apply wfh_settle; [done|]. apply (Hfresh OAsync).
        - eapply extends_trans; [apply F3|by apply extends_settle].
        - eapply extends_invoked; [by apply (extends_settle b)|done].
        - unfold promise_below. rewrite length_settle.
          change (heap w3) with (heap w2). unfold w2.
          rewrite (Hlen OAsync). lia. }
    unfold clone. cbv beta iota. intros [= <- <-].
    set (w4 := set_clones (S (clones w3)) w3).
    assert (wfh hole w4) as Hwf4.
    { eapply wfh_ext; [..|exact Hwf3]; try done. apply (wf_ready _ _ Hwf3). }
    assert (extends b w w4) as F4.
    { eapply extends_trans; [apply F3|by apply extends_ext]. }
    destruct (draw_body_spec hole b n (Some tok) (FClone lf (clones w3)) cb b
                w4 Hwf4 (Hnew OAsync) (Hfresh OAsync) (le_n b)) as [Hwf5 F5].
    { change (heap w4) with (heap w2). unfold w2. rewrite (Hlen OAsync). lia. }
    split_and!; [done| | | |by eexists].
    + eapply extends_trans; [apply F4|apply F5].
    + eapply extends_invoked; [apply F5|].
      eapply (extends_invoked b); [|exact Hi3]. by apply extends_ext.
    + unfold promise_below.
      eapply Nat.lt_le_trans; [|apply (f_len _ _ _ F5)].
      change (heap w4) with (heap w2). unfold w2. rewrite (Hlen OAsync). lia.
Qed.
End tasks.

(** ** One microtask preserves the invariant *)

Section step.
Implicit Types (w : world) (p d : pid) (c : completion) (r : reaction).

Lemma outcome_settle w d o :
  is_pending w d → outcome_of (settle d o w) d = Some o.
Proof.
  intros (rs & og & H). unfold settle, outcome_of. rewrite H; simpl.
  by rewrite list_lookup_insert_eq by (by eapply lookup_lt_Some).
Qed.

Lemma invoked_settle w d o n : invoked (settle d o w) n ↔ invoked w n.
Proof.
  unfold invoked. by destruct (settle_fields d o w) as (_&_&_&_&_&_&_& ->).
Qed.

Lemma disposed_settle w d o : disposed (settle d o w) = disposed w.
Proof. by destruct (settle_fields d o w) as (_&->&_). Qed.

(** A job that is not the callback of a [then]: the links of all derived
    promises are untouched by taking it off the queue. *)
Lemma wf_pop_other w j js :
  wf w → jobs w = j :: js → ¬ then_handler (r_handler (job_reaction j)) →
  wf (set_jobs js w).
Proof.
  intros Hwf Hj Hk.
  eapply (wfh_close (r_target (job_reaction j))); [by eapply wfh_pop|].
  intros st src k H. simpl in H.
  destruct (wf_origin _ _ Hwf _ _ _ _ H) as (_ & Hk' & Hh).
  eapply hooked_pop; eauto. intros Heq. rewrite Heq in Hk. done.
Qed.

(** The callback of a [then] completes synchronously with outcome [oc]. *)
Lemma wf_step_sync w k d o js oc :
  wf w → jobs w = JReaction (Reaction k d) o :: js → then_handler k →
  (∀ w', outcome_of w' d = Some oc →
         (∀ n, invoked w' n ↔ invoked w n) →
         disposed w' = disposed w → done w' k o d) →
  wf (settle d oc (set_jobs js w)).
Proof.
  intros Hwf Hj Hk Hdone.
  destruct (pop_target w _ js Hwf Hj) as (Hnt & (rs & og & Hd & _) & _).
  destruct (pop_then w k d o js Hwf Hj Hk) as (src & rs' & Hd' & Hsrc).
  simpl in *. set (w0 := set_jobs js w) in *.
  eapply (wfh_close d).
  { apply wfh_settle; [exact (wfh_pop w _ js Hwf Hj)|done]. }
  intros st src' k' H. apply settle_origin in H as [st' H].
  change (heap w0) with (heap w) in H. rewrite Hd' in H.
  injection H as _ <- <-.
  apply outcome_of_lookup in Hsrc as [og' Hsrc].
  unfold hooked.
  rewrite (g_settled _ _ _ _ (grow_settle d oc w0) _ _ _ Hsrc).
  right. apply Hdone.
  - apply outcome_settle. by exists rs, og.
  - intros n. by rewrite invoked_settle.
  - by rewrite disposed_settle.
Qed.

Lemma wf_step w : wf w → wf (step w).
Proof.
  intros Hwf. unfold step. destruct (jobs w) as [|j js] eqn:Hj; [done|].
  pose proof (pop_target w j js Hwf Hj) as Hadm.
  destruct j as [[k d] o|d q]; simpl.
  2:{ (* a thenable job subscribes to the promise being adopted *)
      apply wfh_subscribe;
        [by eapply (wf_pop_other w _ js Hwf Hj); intros []| |done].
      apply lookup_lt_is_Some. simpl.
      apply (wf_thenable _ _ Hwf d). rewrite Hj. by left. }
  unfold run_reaction; simpl.
  destruct k as [bail| |n t|bail| |n f]; simpl.
  - (* HReadyIdle *)
    destruct o as [v|e]; [|destruct bail]; simpl;
      (eapply wf_step_sync; [done..|]); by intros w' ? _ _.
  - (* HSuppress *)
    destruct o as [v|e]; simpl;
      (eapply wf_step_sync; [done..|]); by intros w' ? _ _.
  - (* HRunTask *)
    destruct (pop_then w _ d o js Hwf Hj I) as (src & rs' & Hd' & Hsrc).
    assert (¬ invoked w n) as Hni.
    { eapply (wf_fresh _ _ Hwf (Reaction (HRunTask n t) d)); [|done].
      rewrite (settlers_pop w _ js Hj). by left. }
    destruct o as [v|e]; simpl.
    2:{ eapply wf_step_sync; [done..|]. intros w' ? Hi _. simpl.
        by rewrite Hi. }
    destruct (disposed w) eqn:Hdis; simpl.
    { eapply wf_step_sync; [done..|]. intros w' ? Hi Hd. simpl.
      right. rewrite Hi, Hd. done. }
    (* the task is invoked *)
    set (w0 := set_jobs js w).
    pose proof (wfh_pop w _ js Hwf Hj) as Hwf0. simpl in Hwf0. fold w0 in Hwf0.
    destruct Hadm as (Hnt & (rs & og & Hd & Hog & _) & _). simpl in *.
    fold w0 in Hnt, Hd.
    destruct (call_task n t w0) as [c w1] eqn:Hcall.
    destruct (call_task_spec (Some d) n t w0 c w1) as (Hwf1 & F & Hi & Hq & Hc);
      [done| | |done|].
    { eapply (wf_ticket _ _ Hwf). exact Hd'. }
    { intros d' st src' t' H.
      rewrite (wf_ticket_inj _ _ Hwf d' d _ _ _ _ _ _ _ H Hd'). done. }
    assert (d < length (heap w0)) as Hlt by (by eapply lookup_lt_Some).
    assert (heap w1 !! d = Some (Cell (Pending rs) og)) as Hd1.
    { by rewrite (f_heap _ _ _ F). }
    assert (d ∉ targets w1) as Hnt1 by (by eapply extends_not_target).
    assert (outcome_of w1 src = Some (Fulfilled v)) as Hsrc1.
    { destruct (wf_origin _ _ Hwf _ _ _ _ Hd') as (? & _).
      rewrite (extends_outcome _ _ _ src F); [done|]. lia. }
    apply outcome_of_lookup in Hsrc1 as [og' Hsrc1].
    assert (og = ODerived src (HRunTask n t)) as -> by congruence.
    destruct c as [v'|e'|q]; simpl.
    + eapply (wfh_close d); [by apply wfh_settle|].
      intros st src' k' H. apply settle_origin in H as [st' H].
      rewrite Hd1 in H. injection H as _ <- <-. unfold hooked.
      rewrite (g_settled _ _ _ _ (grow_settle d _ w1) _ _ _ Hsrc1).
      right. simpl. left. split; [by rewrite invoked_settle|].
      rewrite outcome_settle by (by eexists _, _).
      destruct t as [[]| |]; simpl in *; try done; congruence.
    + eapply (wfh_close d); [by apply wfh_settle|].
      intros st src' k' H. apply settle_origin in H as [st' H].
      rewrite Hd1 in H. injection H as _ <- <-. unfold hooked.
      rewrite (g_settled _ _ _ _ (grow_settle d _ w1) _ _ _ Hsrc1).
      right. simpl. left. split; [by rewrite invoked_settle|].
      rewrite outcome_settle by (by eexists _, _).
      destruct t as [[]| |]; simpl in *; try done; congruence.
    + eapply (wfh_close d).
      { apply wfh_push_thenable; [done|done|].
        split_and!; simpl; [done| |done]. eexists _, _. split; [done|]. done. }
      simpl. intros st src' k' H. rewrite Hd1 in H. injection H as _ <- <-.
      unfold hooked. simpl. rewrite Hsrc1. right. simpl. left.
      split; [done|]. destruct t as [[]| |]; simpl in *; try done;
        by destruct Hc.
  - (* HReadyChain *)
    destruct o as [v|e]; [|destruct bail; [|destruct (disposed w) eqn:Hdis]];
      simpl; (eapply wf_step_sync; [done..|]); intros w' ? _ Hd'; simpl;
      rewrite ?Hd'; naive_solver.
  - (* HForward *)
    destruct Hadm as (Hnt & _). simpl in Hnt.
    destruct o as [v|e]; simpl; (apply wfh_settle; [|done]);
      by eapply (wf_pop_other w _ js Hwf Hj); intros [].
  - (* HFinally *)
    destruct Hadm as (Hnt & _). simpl in Hnt.
    destruct o as [v|e]; simpl; (apply wfh_settle; [|done]);
      (apply wfh_log; [done|]);
      by eapply (wf_pop_other w _ js Hwf Hj); intros [].
Qed.
End step.

(** ** The operations of the queue preserve the invariant *)

Section queue.
Implicit Types (w : world) (p d : pid) (c : completion) (r : reaction).

(** Promises that are pending and untargeted stay so: the operation
    settles fresh promises only, and adds reactions for fresh targets only. *)
Definition keeps (w w' : world) : Prop :=
  ∀ d rs og, heap w !! d = Some (Cell (Pending rs) og) → d ∉ targets w →
    (∃ rs', heap w' !! d = Some (Cell (Pending rs') og)) ∧ d ∉ targets w'.

Lemma keeps_refl w : keeps w w.
Proof. intros d rs og ??. eauto. Qed.

Lemma keeps_trans w w' w'' : keeps w w' → keeps w' w'' → keeps w w''.
Proof.
  intros K1 K2 d rs og H Hn. destruct (K1 _ _ _ H Hn) as [[rs' H'] Hn']. eauto.
Qed.

Lemma keeps_ext w w' : heap w' = heap w → jobs w' = jobs w → keeps w w'.
Proof.
  intros Hh Hj d rs og H Hn. rewrite Hh. unfold targets, settlers.
  rewrite Hh, Hj. eauto.
Qed.

Lemma keeps_extends w w' : extends (length (heap w)) w w' → keeps w w'.
Proof.
  intros F d rs og H Hn.
  assert (d < length (heap w)) by (by eapply lookup_lt_Some).
  split; [|by eapply extends_not_target].
  exists rs. by rewrite (f_heap _ _ _ F).
Qed.

Lemma keeps_alloc cl w : cell_reactions cl = [] → keeps w (alloc cl w).2.
Proof.
  intros Hc d rs og H Hn. rewrite targets_alloc by done. split; [|done].
  exists rs. by apply lookup_app_l_Some.
Qed.

Lemma keeps_then p k w : keeps w (then_ p k w).2.
Proof.
  intros d rs og H Hn. unfold then_.
  set (cl := Cell (Pending []) (ODerived p k)).
  set (w1 := (alloc cl w).2).
  change (alloc cl w) with (length (heap w), w1). cbv beta iota. simpl.
  assert (d < length (heap w)) as Hlt by (by eapply lookup_lt_Some).
  assert (heap w1 !! d = Some (Cell (Pending rs) og)) as H1.
  { by apply lookup_app_l_Some. }
  destruct (g_pending _ _ _ _ (grow_subscribe p (Reaction k (length (heap w))) w1)
              _ _ _ H1) as [[rs' ?]|[[] _]].
  split; [eauto|].
  intros (r & Hr & Hin)%list_elem_of_fmap.
  destruct (heap w1 !! p) eqn:Hp.
  - rewrite settlers_subscribe in Hin by eauto.
    apply elem_of_cons in Hin as [->|Hin]; [simpl in Hr; lia|].
    unfold w1 in Hin. rewrite settlers_alloc in Hin by done.
    apply Hn. apply list_elem_of_fmap. eauto.
  - unfold subscribe in Hin. rewrite Hp in Hin.
    unfold w1 in Hin. rewrite settlers_alloc in Hin by done.
    apply Hn. apply list_elem_of_fmap. eauto.
Qed.

Lemma length_then p k w : length (heap (then_ p k w).2) = S (length (heap w)).
Proof.
  unfold then_. simpl. rewrite length_subscribe. simpl.
  rewrite length_app. simpl. lia.
Qed.

Lemma then_fields p k w : same_fields w (then_ p k w).2.
Proof. unfold then_. simpl. apply (subscribe_fields p _ (alloc _ w).2). Qed.

Definition ret_below (res : ret) (w : world) : Prop :=
  match res with
  | RPromise r => r < length (heap w)
  | _ => True
  end.

Lemma enqueue_spec t bail w res w' :
  wf w → TaskQueue.enqueue t bail w = (res, w') →
  wf w' ∧ keeps w w' ∧ ret_below res w'.
Proof.
  intros Hwf. unfold TaskQueue.enqueue.
  destruct (disposed w) eqn:Hdis.
  { intros [= <- <-]. split_and!; [done|apply keeps_refl|done]. }
  set (n := tickets w). set (w0 := set_tickets (S n) w).
  assert (wf w0) as Hwf0.
  { eapply wfh_ext; [..|exact Hwf]; try done; [simpl; lia|].
    apply (wf_ready _ _ Hwf). }
  assert (keeps w w0) as K0 by (by apply keeps_ext).
  assert (∀ d st src t',
    heap w0 !! d ≠ Some (Cell st (ODerived src (HRunTask n t')))) as Hnew.
  { intros d st src t' H. apply (wf_ticket _ _ Hwf) in H. unfold n in H. lia. }
  assert (¬ invoked w0 n) as Hni.
  { intros H. apply (wf_invoked _ _ Hwf) in H. unfold n in H. lia. }
  change (ready w0) with (ready w).
  destruct (ready w) as [r|] eqn:Hr.
  - (* a chain is pending *)
    set (w1 := (then_ r (HRunTask n t) w0).2).
    change (then_ r (HRunTask n t) w0) with (length (heap w0), w1).
    cbv beta iota.
    set (w2 := (then_ (length (heap w0)) (HReadyChain bail) w1).2).
    change (then_ (length (heap w0)) (HReadyChain bail) w1)
      with (length (heap w1), w2).
    cbv beta iota. intros [= <- <-].
    assert (wf w1) as Hwf1.
    { apply wfh_then; [done|by apply (wf_ready _ _ Hwf)|done|].
      intros n' t' [= <- <-]. split_and!; [simpl; lia|done|done]. }
    assert (length (heap w1) = S (length (heap w0))) as L1 by apply length_then.
    assert (wf w2) as Hwf2.
    { apply wfh_then; [done|lia|done|done]. }
    assert (length (heap w2) = S (length (heap w1))) as L2 by apply length_then.
    split_and!.
    + eapply wfh_ext; [..|exact Hwf2]; try done. simpl. intros ? [= <-]. lia.
    + eapply keeps_trans; [apply K0|]. eapply keeps_trans; [apply keeps_then|].
      eapply keeps_trans; [apply keeps_then|]. by apply keeps_ext.
    + change (length (heap w0) < length (heap w2)). lia.
  - (* no chain: the task runs now *)
    destruct (call_task n t w0) as [c w1] eqn:Hcall.
    destruct (call_task_spec None n t w0 c w1) as (Hwf1 & F & Hi & Hq & Hc);
      [done|simpl; lia| |done|].
    { intros d st src t' H. by destruct (Hnew _ _ _ _ H). }
    assert (keeps w w1) as K1.
    { eapply keeps_trans; [apply K0|]. by apply keeps_extends. }
    destruct c as [v|e|q].
    + intros [= <- <-]. by split_and!.
    + destruct bail; [|intros [= <- <-]; by split_and!].
      set (cl := Cell (Settled (Rejected e)) OReject).
      set (w2 := (alloc cl w1).2).
      change (alloc cl w1) with (length (heap w1), w2). cbv beta iota.
      set (w3 := (then_ (length (heap w1)) HSuppress w2).2).
      change (then_ (length (heap w1)) HSuppress w2)
        with (length (heap w2), w3).
      cbv beta iota. intros [= <- <-].
      assert (wf w2) as Hwf2 by (by apply wfh_alloc).
      assert (length (heap w2) = S (length (heap w1))) as L2.
      { unfold w2. simpl. rewrite length_app. simpl. lia. }
      assert (wf w3) as Hwf3 by (apply wfh_then; [done|lia|done|done]).
      assert (length (heap w3) = S (length (heap w2))) as L3 by apply length_then.
      split_and!; [| |done].
      * eapply wfh_ext; [..|exact Hwf3]; try done. simpl. intros ? [= <-]. lia.
      * eapply keeps_trans; [apply K1|].
        eapply (keeps_trans _ w2); [by apply keeps_alloc|].
        eapply keeps_trans; [apply keeps_then|]. by apply keeps_ext.
    + set (w2 := (then_ q (HReadyIdle bail) w1).2).
      change (then_ q (HReadyIdle bail) w1) with (length (heap w1), w2).
      cbv beta iota. intros [= <- <-].
      assert (wf w2) as Hwf2 by (by apply wfh_then).
      assert (length (heap w2) = S (length (heap w1))) as L2 by apply length_then.
      split_and!.
      * eapply wfh_ext; [..|exact Hwf2]; try done. simpl. intros ? [= <-]. lia.
      * eapply keeps_trans; [apply K1|].
        eapply keeps_trans; [apply keeps_then|]. by apply keeps_ext.
      * change (q < length (heap w2)). unfold promise_below in Hq. lia.
Qed.

Lemma wf_dispose w : wf w → wf (TaskQueue.dispose w).
Proof.
  intros Hwf. eapply wfh_ext; [..|exact Hwf]; try done.
  apply (wf_ready _ _ Hwf).
Qed.

Lemma wf_settle_external q o w : wf w → wf (settle_external q o w).
Proof.
  intros Hwf. unfold settle_external.
  destruct (heap w !! q) as [[[rs|o'] []]|] eqn:Hq; try done.
  apply wfh_settle; [done|].
  intros (r & -> & Hr)%list_elem_of_fmap.
  destruct (wf_target _ _ Hwf r Hr) as (rs' & og & H & Hog & _). congruence.
Qed.
End queue.

(** ** The operations of the controller preserve the invariant *)

Section controller.
Implicit Types (w : world) (p d : pid) (c : completion) (r : reaction).

(** Worlds that differ in controller fields and in non-invocation events. *)
Definition same_heap (w w' : world) : Prop :=
  heap w' = heap w ∧ jobs w' = jobs w ∧ (∀ n, invoked w' n ↔ invoked w n) ∧
  disposed w' = disposed w ∧ tickets w' = tickets w ∧ ready w' = ready w.

Lemma same_heap_refl w : same_heap w w.
Proof. by split_and!. Qed.

Lemma same_heap_trans w w' w'' :
  same_heap w w' → same_heap w' w'' → same_heap w w''.
Proof.
  intros (?&?&Hi&?&?&?) (?&?&Hi'&?&?&?). split_and!; try congruence.
  intros n. by rewrite Hi', Hi.
Qed.

Lemma same_heap_log ev w : (∀ n, ev ≠ EvInvoke n) → same_heap w (log ev w).
Proof.
  intros Hev. split_and!; try done. intros n. unfold invoked; simpl.
  rewrite elem_of_app, list_elem_of_singleton. naive_solver.
Qed.

Lemma same_heap_abort_pending w :
  same_heap w (RedrawController.abort_pending w).
Proof.
  unfold RedrawController.abort_pending.
  destruct (pendingRedraw w); by split_and!.
Qed.

Lemma same_heap_close_last w : same_heap w (RedrawController.close_last w).
Proof.
  unfold RedrawController.close_last.
  destruct (lastFrame w); [by apply same_heap_log|apply same_heap_refl].
Qed.

Lemma wfh_same hole w w' : same_heap w w' → wfh hole w → wfh hole w'.
Proof.
  intros (Hh&Hj&Hi&Hd&Ht&Hr) Hwf. eapply wfh_ext; [..|exact Hwf]; try done.
  - by rewrite Hd.
  - lia.
  - rewrite Hr. apply (wf_ready _ _ Hwf).
Qed.

Lemma keeps_same w w' : same_heap w w' → keeps w w'.
Proof. intros (Hh&Hj&_). by apply keeps_ext. Qed.

(** The part of [draw] before the task is enqueued. *)
Lemma draw_prelude f w :
  same_heap w
    (set_lastFrame (Some (FClone f (clones (RedrawController.close_last
        (set_pendingRedraw None (RedrawController.abort_pending w))))))
      (set_clones (S (clones (RedrawController.close_last
        (set_pendingRedraw None (RedrawController.abort_pending w)))))
        (RedrawController.close_last
          (set_pendingRedraw None (RedrawController.abort_pending w))))).
Proof.
  eapply same_heap_trans; [apply same_heap_abort_pending|].
  eapply (same_heap_trans _ (set_pendingRedraw None _)); [by split_and!|].
  eapply same_heap_trans; [apply same_heap_close_last|]. by split_and!.
Qed.

Lemma draw_spec f cb w res w' :
  wf w → RedrawController.draw f cb w = (res, w') →
  wf w' ∧ keeps w w' ∧ ret_below res w'.
Proof.
  intros Hwf. unfold RedrawController.draw, clone. cbv beta iota zeta.
  intros He. pose proof (draw_prelude f w) as S.
  apply enqueue_spec in He as (? & K & ?); [|by eapply wfh_same].
  split_and!; [done| |done].
  eapply keeps_trans; [by apply keeps_same|done].
Qed.

Lemma keeps_subscribe_fresh w0 w q r :
  keeps w0 w → length (heap w0) ≤ r_target r → keeps w0 (subscribe q r w).
Proof.
  intros K Hr d rs og H Hn. destruct (K _ _ _ H Hn) as [[rs' H'] Hn'].
  assert (d < length (heap w0)) by (by eapply lookup_lt_Some).
  destruct (g_pending _ _ _ _ (grow_subscribe q r w) _ _ _ H')
    as [[rs'' ?]|[[] _]].
  split; [eauto|]. intros (r' & Hr' & Hin)%list_elem_of_fmap.
  destruct (heap w !! q) eqn:Hq.
  - rewrite settlers_subscribe in Hin by eauto.
    apply elem_of_cons in Hin as [->|Hin]; [lia|].
    apply Hn'. apply list_elem_of_fmap. eauto.
  - unfold subscribe in Hin. rewrite Hq in Hin.
    apply Hn'. apply list_elem_of_fmap. eauto.
Qed.

Lemma keeps_settle_fresh w0 w p o :
  keeps w0 w → length (heap w0) ≤ p → keeps w0 (settle p o w).
Proof.
  intros K Hp d rs og H Hn. destruct (K _ _ _ H Hn) as [[rs' H'] Hn'].
  assert (d < length (heap w0)) by (by eapply lookup_lt_Some).
  destruct (g_pending _ _ _ _ (grow_settle p o w) _ _ _ H')
    as [[rs'' ?]|[<- _]]; [|lia].
  split; [eauto|]. unfold targets. by rewrite settlers_settle.
Qed.

Lemma redraw_spec cb w res w' :
  wf w → RedrawController.redraw cb w = (res, w') →
  wf w' ∧ keeps w w' ∧ ret_below res w'.
Proof.
  intros Hwf. unfold RedrawController.redraw.
  set (p := length (heap w)).
  set (w1 := (alloc (Cell (Pending []) OAsync) w).2).
  change (alloc (Cell (Pending []) OAsync) w) with (p, w1). cbv beta iota.
  assert (wf w1) as Hwf1 by (by apply wfh_alloc).
  assert (keeps w w1) as K1 by (by apply keeps_alloc).
  assert (heap w1 !! p = Some (Cell (Pending []) OAsync)) as Hp.
  { unfold w1; simpl. by rewrite lookup_app_r, Nat.sub_diag. }
  assert (p ∉ targets w1) as Hnt.
  { unfold w1. rewrite targets_alloc by done. by apply (alloc_fresh None). }
  assert (length (heap w1) = S p) as L1.
  { unfold w1; simpl. rewrite length_app; simpl. unfold p. lia. }
  assert (∀ o, wf (settle p o w1) ∧ keeps w (settle p o w1) ∧
               ret_below (RPromise p) (settle p o w1)) as Hquick.
  { intros o. split_and!; [by apply wfh_settle| |].
    - by apply keeps_settle_fresh.
    - unfold ret_below. rewrite length_settle. lia. }
  destruct (lastFrame w1) as [lf|]; [|intros [= <- <-]; apply Hquick].
  destruct (pendingRedraw w1) as [tok'|]; [intros [= <- <-]; apply Hquick|].
  unfold new_token. cbv beta iota.
  set (w3 := set_pendingRedraw (Some (length (aborted w1)))
               (set_aborted (aborted w1 ++ [false]) w1)).
  assert (same_heap w1 w3) as S3 by (by split_and!).
  destruct (TaskQueue.enqueue (TRedraw (length (aborted w1)) cb) true w3)
    as [res4 w4] eqn:He.
  apply enqueue_spec in He as (Hwf4 & K4 & Hres); [|by eapply wfh_same].
  assert (keeps w1 w4) as K14.
  { eapply keeps_trans; [by apply keeps_same|done]. }
  assert (keeps w w4) as K04 by (by eapply keeps_trans).
  destruct (K14 _ _ _ Hp Hnt) as [[rs' Hp4] Hnt4].
  assert (p < length (heap w4)) as Hlt by (by eapply lookup_lt_Some).
  assert (admissible w4 (Reaction HForward p)) as Hadm.
  { split_and!; simpl; [done| |done]. eexists _, _. split; [done|]. done. }
  destruct res4 as [v|e|r].
  - (* [await v] on a plain value *)
    set (cl := Cell (Settled (Fulfilled v)) OAwait).
    set (w5 := (alloc cl w4).2).
    change (alloc cl w4) with (length (heap w4), w5). cbv beta iota.
    intros [= <- <-].
    assert (wf w5) as Hwf5 by (by apply wfh_alloc).
    assert (length (heap w5) = S (length (heap w4))) as L5.
    { unfold w5; simpl. rewrite length_app; simpl. lia. }
    split_and!.
    + apply wfh_subscribe; [done| |].
      * apply lookup_lt_is_Some. lia.
      * destruct Hadm as (? & (rs & og & H4 & ?) & ?).
        split_and!; [by unfold w5; rewrite targets_alloc| |done].
        exists rs, og. split; [|done]. unfold w5; simpl.
        by apply lookup_app_l_Some.
    + apply keeps_subscribe_fresh; [|done].
      eapply keeps_trans; [apply K04|by apply keeps_alloc].
    + unfold ret_below. rewrite length_subscribe. lia.
  - intros [= <- <-]. split_and!.
    + by apply wfh_settle.
    + by apply keeps_settle_fresh.
    + unfold ret_below. rewrite length_settle. lia.
  - intros [= <- <-]. split_and!.
    + apply wfh_subscribe; [done| |done]. by apply lookup_lt_is_Some.
    + by apply keeps_subscribe_fresh.
    + unfold ret_below. rewrite length_subscribe. lia.
Qed.

Lemma wf_ctl_dispose w : wf w → wf (RedrawController.dispose w).
Proof.
  intros Hwf. unfold RedrawController.dispose. apply wf_dispose.
  eapply wfh_same; [|exact Hwf].
  eapply same_heap_trans; [apply same_heap_abort_pending|].
  eapply same_heap_trans; [apply same_heap_close_last|]. by split_and!.
Qed.

Lemma wf_apply o w : wf w → wf (apply o w).
Proof.
  intros Hwf. destruct o as [b bail| |f cb|cb| |q o|]; simpl.
  - destruct (TaskQueue.enqueue (TExternal b) bail w) eqn:He.
    by apply enqueue_spec in He as (? & _).
  - by apply wf_dispose.
  - destruct (RedrawController.draw f cb w) eqn:He.
    by apply draw_spec in He as (? & _).
  - destruct (RedrawController.redraw cb w) eqn:He.
    by apply redraw_spec in He as (? & _).
  - by apply wf_ctl_dispose.
  - by apply wf_settle_external.
  - by apply wf_step.
Qed.

Lemma wf_init : wf init.
Proof.
  split; simpl; try done.
  - apply NoDup_nil_2.
  - intros r []%elem_of_nil.
  - intros r n t []%elem_of_nil.
  - intros n []%elem_of_nil.
  - intros d q []%elem_of_nil.
Qed.

Lemma wf_reachable w : reachable w → wf w.
Proof. induction 1; [apply wf_init|by apply wf_apply]. Qed.

Lemma reachable_run ops w : reachable w → reachable (run ops w).
Proof.
  revert w. induction ops as [|o ops IH]; intros w Hw; simpl; [done|].
  apply IH. by constructor.
Qed.

End controller.

(** ** Draining the microtask queue *)

(** An upper bound on the number of microtasks a reaction can cause:
    running a task may queue the resumption of its [await] and the
    thenable job that adopts its promise, which in turn queues a
    forwarding job. *)
Definition weight (k : handler) : nat :=
  match k with
  | HRunTask _ _ => 4
  | _ => 1
  end.

Definition job_weight (j : job) : nat :=
  match j with
  | JReaction r _ => weight (r_handler r)
  | JThenable _ _ => 2
  end.

Definition fuel (w : world) : nat :=
  sum_list_with (weight ∘ r_handler) (heap w ≫= cell_reactions) +
  sum_list_with job_weight (jobs w).

Fixpoint steps (n : nat) (w : world) : world :=
  match n with
  | 0 => w
  | S n => steps n (step w)
  end.

(** Run microtasks until none is left. *)
Definition drain (w : world) : world := steps (fuel w) w.

Section drain.
Implicit Types (w : world) (p d : pid) (c : completion) (r : reaction).

Lemma fuel_alloc cl w : cell_reactions cl = [] → fuel (alloc cl w).2 = fuel w.
Proof.
  intros Hc. unfold fuel; simpl.
  by rewrite bind_app, bind_singleton, Hc, app_nil_r.
Qed.

Lemma fuel_settle p o w : fuel (settle p o w) = fuel w.
Proof.
  unfold settle. destruct (heap w !! p) as [[[rs|o'] og]|] eqn:Hp; try done.
  unfold fuel; simpl.
  pose proof (bind_insert_perm (heap w) p _ (Cell (Settled o) og) Hp) as H.
  unfold cell_reactions at 1 3 in H; simpl in H.
  apply (sum_list_with_Permutation_proper (weight ∘ r_handler)) in H.
  rewrite sum_list_with_app in H. rewrite <- H.
  rewrite sum_list_with_app.
  assert (sum_list_with job_weight (map (λ r, JReaction r o) rs) =
          sum_list_with (weight ∘ r_handler) rs) as ->; [|lia].
  clear. induction rs; simpl; auto.
Qed.

Lemma fuel_subscribe p r w :
  fuel (subscribe p r w) ≤ fuel w + weight (r_handler r).
Proof.
  unfold subscribe. destruct (heap w !! p) as [[[rs|o'] og]|] eqn:Hp;
    unfold fuel; simpl; [| |lia].
  - pose proof (bind_insert_perm (heap w) p _
                  (Cell (Pending (rs ++ [r])) og) Hp) as H.
    unfold cell_reactions at 1 3 in H; simpl in H.
    apply (sum_list_with_Permutation_proper (weight ∘ r_handler)) in H.
    rewrite !sum_list_with_app in H. simpl in H. lia.
  - rewrite sum_list_with_app. simpl. lia.
Qed.

Lemma fuel_alloc_eq cl w x w' :
  alloc cl w = (x, w') → cell_reactions cl = [] → fuel w' = fuel w.
Proof. intros [= _ <-] Hc. by apply fuel_alloc. Qed.

Lemma fuel_draw_body n tok f cb p w :
  fuel (draw_body n tok f cb p w) ≤ fuel w + 1.
Proof.
  unfold draw_body, close_frame. destruct cb.
  - destruct (alloc _ _) as [x w2] eqn:E. apply fuel_alloc_eq in E; [|done].
    etrans; [apply fuel_subscribe|]. by rewrite E.
  - rewrite fuel_settle. unfold fuel; simpl; lia.
  - destruct (alloc _ _) as [x w2] eqn:E. apply fuel_alloc_eq in E; [|done].
    etrans; [apply fuel_subscribe|]. by rewrite E.
Qed.

Lemma fuel_call_task n t w :
  fuel (call_task n t w).2 ≤ fuel w + 1.
Proof.
  unfold call_task. destruct t as [[]| |];
    try (simpl; change (fuel (log (EvInvoke n) w)) with (fuel w); lia).
  - destruct (alloc _ _) as [x w2] eqn:E. apply fuel_alloc_eq in E; [|done].
    simpl. rewrite E. change (fuel (log (EvInvoke n) w)) with (fuel w). lia.
  - destruct (alloc _ _) as [x w2] eqn:E. apply fuel_alloc_eq in E; [|done].
    simpl. etrans; [apply fuel_draw_body|]. by rewrite E.
  - destruct (alloc _ _) as [x w2] eqn:E. apply fuel_alloc_eq in E; [|done].
    change (fuel (log (EvInvoke n) w)) with (fuel w) in E.
    destruct (is_aborted _ _); simpl.
    { rewrite fuel_settle. lia. }
    destruct (lastFrame w2); simpl.
    + etrans; [apply fuel_draw_body|].
      change (fuel (set_clones _ (set_pendingRedraw None w2))) with (fuel w2).
      lia.
    + rewrite fuel_settle.
      change (fuel (set_pendingRedraw None w2)) with (fuel w2). lia.
Qed.

Lemma fuel_resolve d c w : fuel (resolve d c w) ≤ fuel w + 2.
Proof.
  destruct c; simpl; rewrite ?fuel_settle; try lia.
  unfold fuel; simpl. rewrite sum_list_with_app. simpl. lia.
Qed.

Lemma fuel_step w : jobs w ≠ [] → fuel (step w) < fuel w.
Proof.
  unfold step. destruct (jobs w) as [|j js] eqn:Hj; [done|]. intros _.
  set (w0 := set_jobs js w).
  assert (fuel w = fuel w0 + job_weight j) as ->.
  { unfold fuel, w0; simpl. rewrite Hj. simpl. lia. }
  destruct j as [[k d] o|d q]; simpl.
  2:{ pose proof (fuel_subscribe q (Reaction HForward d) w0). simpl in *. lia. }
  unfold run_reaction; simpl.
  assert (∀ oc, fuel (settle d oc w0) < fuel w0 + weight k) as Hs.
  { intros oc. rewrite fuel_settle. destruct k; simpl; lia. }
  destruct k as [bail| |n t|bail| |n f]; simpl;
    try (destruct o as [v|e]; try destruct bail; simpl; apply Hs).
  - destruct o as [v|e]; [|apply Hs].
    destruct (disposed w); [apply Hs|].
    pose proof (fuel_call_task n t w0) as H1.
    destruct (call_task n t w0) as [c w1]. simpl in H1.
    pose proof (fuel_resolve d c w1). simpl. lia.
  - destruct o as [v|e]; [apply Hs|]. simpl.
    destruct bail, (disposed w); simpl; apply Hs.
  - destruct o; simpl; rewrite fuel_settle; unfold fuel; simpl; lia.
Qed.

Lemma step_idle w : jobs w = [] → step w = w.
Proof. intros H. unfold step. by rewrite H. Qed.

Lemma steps_idle n w : jobs w = [] → steps n w = w.
Proof.
  intros H. induction n as [|n IH]; simpl; [done|]. by rewrite step_idle.
Qed.

Lemma steps_done n w : fuel w ≤ n → jobs (steps n w) = [].
Proof.
  revert w. induction n as [|n IH]; intros w Hn; simpl.
  - destruct (jobs w) as [|j js] eqn:Hj; [done|].
    assert (jobs w ≠ []) as H by (by rewrite Hj).
    apply fuel_step in H. lia.
  - destruct (jobs w) as [|j js] eqn:Hj.
    + rewrite step_idle by done. by rewrite steps_idle.
    + apply IH. assert (jobs w ≠ []) as H by (by rewrite Hj).
      apply fuel_step in H. lia.
Qed.

(** The microtask queue always runs dry. *)
Lemma drain_done w : jobs (drain w) = [].
Proof. by apply steps_done. Qed.

Lemma steps_run n w : steps n w = run (repeat OStep n) w.
Proof. revert w. induction n as [|n IH]; intros w; simpl; [done|apply IH]. Qed.

Lemma reachable_drain w : reachable w → reachable (drain w).
Proof. intros H. unfold drain. rewrite steps_run. by apply reachable_run. Qed.
End drain.

(** ** What each operation adds to the trace *)

(** Events of [try { await this.#draw(f) } finally { f.close() }] up to
    its first suspension. *)
Definition body_events (n : nat) (tok : option nat) (f : frame) (cb : callback)
    : list event :=
  EvCallback n tok f ::
  match cb with
  | CbThrow _ => [EvClose (Some n) f]
  | _ => []
  end.

Definition task_events (n : nat) (t : task) (w : world) : list event :=
  EvInvoke n ::
  match t with
  | TExternal _ => []
  | TDraw f cb => body_events n None f cb
  | TRedraw tok cb =>
      if is_aborted tok w then []
      else match lastFrame w with
           | None => []
           | Some lf => body_events n (Some tok) (FClone lf (clones w)) cb
           end
  end.

Definition handle_events (k : handler) (o : outcome) (w : world) : list event :=
  match k, o with
  | HRunTask n t, Fulfilled _ => if disposed w then [] else task_events n t w
  | HFinally n f, _ => [EvClose (Some n) f]
  | _, _ => []
  end.

Definition step_events (w : world) : list event :=
  match jobs w with
  | JReaction r o :: _ => handle_events (r_handler r) o w
  | _ => []
  end.

Definition enqueue_events (t : task) (w : world) : list event :=
  if disposed w then []
  else match ready w with
       | None => task_events (tickets w) t w
       | Some _ => []
       end.

Section effects.
Implicit Types (w : world) (p d : pid) (c : completion) (r : reaction).

Lemma trace_settle p o w : trace (settle p o w) = trace w.
Proof. by destruct (settle_fields p o w) as (_&_&_&_&_&_&_&->). Qed.

Lemma trace_subscribe p r w : trace (subscribe p r w) = trace w.
Proof. by destruct (subscribe_fields p r w) as (_&_&_&_&_&_&_&->). Qed.

Lemma trace_then p k w : trace (then_ p k w).2 = trace w.
Proof. by destruct (then_fields p k w) as (_&_&_&_&_&_&_&->). Qed.

Lemma trace_draw_body n tok f cb p w :
  trace (draw_body n tok f cb p w) = trace w ++ body_events n tok f cb.
Proof.
  unfold draw_body, body_events, close_frame. destruct cb; simpl.
  - by rewrite trace_subscribe.
  - rewrite trace_settle. simpl. by rewrite <- app_assoc.
  - by rewrite trace_subscribe.
Qed.

Lemma trace_call_task n t w :
  trace (call_task n t w).2 = trace w ++ task_events n t w.
Proof.
  unfold call_task, task_events. destruct t as [[]| |tok cb]; simpl; try done.
  - rewrite trace_draw_body. simpl. by rewrite <- app_assoc.
  - change (is_aborted tok (set_heap _ (log (EvInvoke n) w)))
      with (is_aborted tok w).
    destruct (is_aborted tok w); simpl; [by rewrite trace_settle|].
    destruct (lastFrame w); simpl.
    + rewrite trace_draw_body. simpl. by rewrite <- app_assoc.
    + by rewrite trace_settle.
Qed.

Lemma trace_resolve d c w : trace (resolve d c w) = trace w.
Proof. destruct c; simpl; by rewrite ?trace_settle. Qed.

Lemma trace_run_reaction k d o w :
  trace (run_reaction (Reaction k d) o w) = trace w ++ handle_events k o w.
Proof.
  unfold run_reaction, handle_events; simpl.
  destruct k as [bail| |n t|bail| |n f]; simpl;
    try (destruct o; try destruct bail; try destruct (disposed w); simpl;
         by rewrite ?trace_settle, ?app_nil_r).
  destruct o; simpl; [|by rewrite trace_settle, app_nil_r].
  destruct (disposed w); simpl; [by rewrite trace_settle, app_nil_r|].
  pose proof (trace_call_task n t w) as H.
  destruct (call_task n t w) as [c w1]. simpl in H.
  by rewrite trace_resolve.
Qed.

Lemma trace_step w : trace (step w) = trace w ++ step_events w.
Proof.
  unfold step, step_events. destruct (jobs w) as [|[[k d] o|d q] js] eqn:Hj.
  - by rewrite app_nil_r.
  - unfold run_job. by rewrite trace_run_reaction.
  - simpl. by rewrite trace_subscribe, app_nil_r.
Qed.

Lemma trace_then_eq p k w d w' : then_ p k w = (d, w') → trace w' = trace w.
Proof. intros E. pose proof (trace_then p k w) as H. by rewrite E in H. Qed.

Lemma trace_enqueue t bail w :
  trace (TaskQueue.enqueue t bail w).2 = trace w ++ enqueue_events t w.
Proof.
  unfold TaskQueue.enqueue, enqueue_events.
  destruct (disposed w); [by rewrite app_nil_r|].
  change (ready (set_tickets _ w)) with (ready w).
  destruct (ready w) as [r|].
  - destruct (then_ r _ _) as [result w1] eqn:E1.
    destruct (then_ result _ _) as [r' w2] eqn:E2.
    apply trace_then_eq in E1, E2. simpl. by rewrite E2, E1, app_nil_r.
  - pose proof (trace_call_task (tickets w) t (set_tickets (S (tickets w)) w))
      as H.
    change (task_events _ t (set_tickets _ w))
      with (task_events (tickets w) t w) in H.
    destruct (call_task _ _ _) as [[v|e|q] w1]; simpl in H; try done.
    + destruct bail; [|done].
      destruct (alloc _ _) as [p w2] eqn:E2.
      destruct (then_ p _ _) as [r' w3] eqn:E3.
      apply trace_then_eq in E3. injection E2 as _ <-. simpl in *. congruence.
    + destruct (then_ q _ _) as [r' w2] eqn:E2.
      apply trace_then_eq in E2. simpl in *. congruence.
Qed.
End effects.

(** ** Promises never change origin, and never change outcome once settled *)

Definition evolves (w w' : world) : Prop :=
  ∀ d st og, heap w !! d = Some (Cell st og) →
    ∃ st', heap w' !! d = Some (Cell st' og) ∧
           ∀ o, st = Settled o → st' = Settled o.

Section evolves.
Implicit Types (w : world) (p d : pid) (c : completion) (r : reaction).

Lemma evolves_refl w : evolves w w.
Proof. intros d st og H. eauto. Qed.

Lemma evolves_trans w w' w'' : evolves w w' → evolves w' w'' → evolves w w''.
Proof.
  intros E1 E2 d st og H. destruct (E1 _ _ _ H) as (st' & H' & Hs).
  destruct (E2 _ _ _ H') as (st'' & H'' & Hs'). exists st''. split; [done|].
  intros o ->. apply Hs'. by apply Hs.
Qed.

Lemma evolves_heap w w' : heap w' = heap w → evolves w w'.
Proof. intros Hh d st og H. rewrite Hh. eauto. Qed.

Lemma evolves_grow D N w w' : grow D N w w' → evolves w w'.
Proof.
  intros G d [rs|o] og H.
  - destruct (g_pending _ _ _ _ G _ _ _ H) as [[rs' ?]|(_ & o & ? & _)];
      eexists; split; eauto; done.
  - exists (Settled o). split; [|done]. by eapply g_settled.
Qed.

Lemma evolves_settle w w1 p o : evolves w w1 → evolves w (settle p o w1).
Proof.
  intros E. eapply evolves_trans; [done|].
  eapply evolves_grow, grow_settle.
Qed.

Lemma evolves_subscribe w w1 p r : evolves w w1 → evolves w (subscribe p r w1).
Proof.
  intros E. eapply evolves_trans; [done|].
  eapply evolves_grow, grow_subscribe.
Qed.

Lemma evolves_alloc w w1 cl : evolves w w1 → evolves w (alloc cl w1).2.
Proof.
  intros E. eapply evolves_trans; [done|]. eapply evolves_grow, grow_alloc.
Qed.

Lemma evolves_then w w1 p k : evolves w w1 → evolves w (then_ p k w1).2.
Proof. intros E. unfold then_. simpl. by apply evolves_subscribe, evolves_alloc. Qed.

Lemma evolves_same w w1 w2 : evolves w w1 → heap w2 = heap w1 → evolves w w2.
Proof. intros E H. eapply evolves_trans; [done|]. by apply evolves_heap. Qed.

Lemma evolves_draw_body w w1 n tok f cb p :
  evolves w w1 → evolves w (draw_body n tok f cb p w1).
Proof.
  intros E. unfold draw_body, close_frame. destruct cb.
  - apply evolves_subscribe. apply (evolves_alloc _ (log _ w1)).
    by eapply evolves_same.
  - apply evolves_settle. by eapply evolves_same.
  - apply evolves_subscribe. apply (evolves_alloc _ (log _ w1)).
    by eapply evolves_same.
Qed.

Lemma evolves_call_task w w1 n t :
  evolves w w1 → evolves w (call_task n t w1).2.
Proof.
  intros E. unfold call_task.
  assert (evolves w (log (EvInvoke n) w1)) as E1 by (by eapply evolves_same).
  destruct t as [[]| |tok cb]; simpl; try done.
  - by apply (evolves_alloc _ (log _ w1)).
  - apply evolves_draw_body. by apply (evolves_alloc _ (log _ w1)).
  - set (w2 := (alloc (Cell (Pending []) OAsync) (log (EvInvoke n) w1)).2).
    assert (evolves w w2) as E2 by (by apply evolves_alloc).
    change (set_heap _ (log (EvInvoke n) w1)) with w2.
    destruct (is_aborted tok w2); simpl; [by apply evolves_settle|].
    destruct (lastFrame w1); simpl.
    + apply evolves_draw_body. by eapply evolves_same.
    + apply evolves_settle. by eapply evolves_same.
Qed.

Lemma evolves_resolve w w1 d c : evolves w w1 → evolves w (resolve d c w1).
Proof.
  intros E. destruct c; simpl; try (by apply evolves_settle).
  by eapply evolves_same.
Qed.

Lemma evolves_step w : evolves w (step w).
Proof.
  unfold step. destruct (jobs w) as [|[[k d] o|d q] js]; [apply evolves_refl|..].
  - assert (evolves w (set_jobs js w)) as E0 by (by apply evolves_heap).
    unfold run_job, run_reaction. simpl.
    destruct k as [bail| |n t|bail| |n f]; simpl;
      try (destruct o; try destruct bail; try destruct (disposed w); simpl;
           by apply evolves_settle).
    + destruct o; simpl; [|by apply evolves_settle].
      destruct (disposed w); simpl; [by apply evolves_settle|].
      pose proof (evolves_call_task w _ n t E0) as E1.
      destruct (call_task n t (set_jobs js w)) as [c w1]. simpl in E1.
      by apply evolves_resolve.
  - simpl. apply evolves_subscribe. by apply evolves_heap.
Qed.

Lemma evolves_enqueue w w1 t bail :
  evolves w w1 → evolves w (TaskQueue.enqueue t bail w1).2.
Proof.
  intros E. unfold TaskQueue.enqueue. destruct (disposed w1); [done|].
  set (w0 := set_tickets _ w1).
  assert (evolves w w0) as E0 by (by eapply evolves_same).
  change (ready w0) with (ready w1). destruct (ready w1) as [r|].
  - pose proof (evolves_then w w0 r (HRunTask (tickets w1) t) E0) as E1.
    destruct (then_ r _ w0) as [result w2]. simpl in E1.
    pose proof (evolves_then w w2 result (HReadyChain bail) E1) as E2.
    destruct (then_ result _ w2) as [r' w3]. simpl in *.
    by eapply evolves_same.
  - pose proof (evolves_call_task w w0 (tickets w1) t E0) as E1.
    destruct (call_task _ _ w0) as [[v|e|q] w2]; simpl in E1;
      cbv beta iota; try done.
    + destruct bail; [|done].
      pose proof (evolves_alloc w w2 (Cell (Settled (Rejected e)) OReject) E1)
        as E2.
      destruct (alloc _ w2) as [p w3]. simpl in E2.
      pose proof (evolves_then w w3 p HSuppress E2) as E3.
      destruct (then_ p _ w3) as [r' w4]. simpl in *. by eapply evolves_same.
    + pose proof (evolves_then w w2 q (HReadyIdle bail) E1) as E2.
      destruct (then_ q _ w2) as [r' w3]. simpl in *. by eapply evolves_same.
Qed.

Lemma evolves_draw w f cb : evolves w (RedrawController.draw f cb w).2.
Proof.
  unfold RedrawController.draw, clone. cbv beta iota zeta.
  apply evolves_enqueue. apply evolves_heap.
  by destruct (draw_prelude f w) as (-> & _).
Qed.

Lemma evolves_redraw w cb : evolves w (RedrawController.redraw cb w).2.
Proof.
  unfold RedrawController.redraw.
  set (w1 := (alloc (Cell (Pending []) OAsync) w).2).
  assert (evolves w w1) as E1 by apply evolves_alloc, evolves_refl.
  change (alloc (Cell (Pending []) OAsync) w) with (length (heap w), w1).
  cbv beta iota.
  destruct (lastFrame w1); [|by apply evolves_settle].
  destruct (pendingRedraw w1); [by apply evolves_settle|].
  unfold new_token. cbv beta iota.
  set (w3 := set_pendingRedraw _ _).
  assert (evolves w w3) as E3 by (by eapply evolves_same).
  pose proof (evolves_enqueue w w3 (TRedraw (length (aborted w1)) cb) true E3)
    as E4.
  destruct (TaskQueue.enqueue _ true w3) as [[v|e|r] w4]; simpl in *.
  - apply evolves_subscribe. by apply (evolves_alloc _ w4).
  - by apply evolves_settle.
  - by apply evolves_subscribe.
Qed.

Lemma evolves_apply o w : evolves w (apply o w).
Proof.
  destruct o as [b bail| |f cb|cb| |q o|]; simpl.
  - apply evolves_enqueue, evolves_refl.
  - by apply evolves_heap.
  - apply evolves_draw.
  - apply evolves_redraw.
  - apply evolves_heap. unfold RedrawController.dispose. simpl.
    by destruct (same_heap_close_last (RedrawController.abort_pending w))
      as (-> & _), (same_heap_abort_pending w) as (-> & _).
  - unfold settle_external.
    destruct (heap w !! q) as [[[rs|o'] []]|]; try apply evolves_refl.
    apply evolves_settle, evolves_refl.
  - apply evolves_step.
Qed.

Lemma evolves_run ops w : evolves w (run ops w).
Proof.
  revert w. induction ops as [|o ops IH]; intros w; simpl;
    [apply evolves_refl|].
  eapply evolves_trans; [apply evolves_apply|apply IH].
Qed.

Lemma evolves_outcome w w' d o :
  evolves w w' → outcome_of w d = Some o → outcome_of w' d = Some o.
Proof.
  intros E [og H]%outcome_of_lookup. apply outcome_of_lookup.
  destruct (E _ _ _ H) as (st' & H' & Hs). rewrite (Hs o eq_refl) in H'. eauto.
Qed.
End evolves.

(** * TaskQueue: poisoning (claim C1) *)



Section poison.
Implicit Types (w : world) (p d r : pid) (c : completion).

Lemma settlers_cell w p rs og (r : reaction) :
  heap w !! p = Some (Cell (Pending rs) og) → r ∈ rs → r ∈ settlers w.
Proof.
  intros Hp Hr. apply elem_of_app. left. apply list_elem_of_bind.
  exists (Cell (Pending rs) og). split; [done|]. by eapply list_elem_of_lookup_2.
Qed.

Lemma settlers_job w j : j ∈ jobs w → job_reaction j ∈ settlers w.
Proof.
  intros Hj. apply elem_of_app. right. by apply list_elem_of_fmap_2.
Qed.




End poison.


(** ** Events of the controller operations *)

Definition close_events (w : world) : list event :=
  match lastFrame w with
  | Some lf => [EvClose None lf]
  | None => []
  end.

(** The world in which [redraw] enqueues its task. *)
Definition redraw_world (w : world) : world :=
  set_pendingRedraw (Some (length (aborted w)))
    (set_aborted (aborted w ++ [false])
      (alloc (Cell (Pending []) OAsync) w).2).

Definition op_events (o : op) (w : world) : list event :=
  match o with
  | OEnqueue b _ => enqueue_events (TExternal b) w
  | ODraw f cb => close_events w ++ enqueue_events (TDraw f cb) w
  | ORedraw cb =>
      match lastFrame w, pendingRedraw w with
      | Some _, None =>
          enqueue_events (TRedraw (length (aborted w)) cb) (redraw_world w)
      | _, _ => []
      end
  | OCtlDispose => close_events w
  | OStep => step_events w
  | ODispose | OSettle _ _ => []
  end.

Section op_effects.
Implicit Types (w : world) (p d : pid) (c : completion).

Lemma abort_pending_fields w :
  let w' := RedrawController.abort_pending w in
  heap w' = heap w ∧ jobs w' = jobs w ∧ ready w' = ready w ∧
  disposed w' = disposed w ∧ pendingRedraw w' = pendingRedraw w ∧
  lastFrame w' = lastFrame w ∧ clones w' = clones w ∧
  tickets w' = tickets w ∧ trace w' = trace w.
Proof.
  unfold RedrawController.abort_pending.
  destruct (pendingRedraw w) eqn:E; simpl; by rewrite ?E.
Qed.

Lemma close_last_fields w :
  let w' := RedrawController.close_last w in
  heap w' = heap w ∧ jobs w' = jobs w ∧ ready w' = ready w ∧
  disposed w' = disposed w ∧ pendingRedraw w' = pendingRedraw w ∧
  lastFrame w' = lastFrame w ∧ clones w' = clones w ∧
  tickets w' = tickets w ∧ aborted w' = aborted w ∧
  trace w' = trace w ++ close_events w.
Proof.
  unfold RedrawController.close_last, close_events.
  destruct (lastFrame w) eqn:E; simpl; rewrite ?E, ?app_nil_r; by split_and!.
Qed.

Lemma enqueue_events_same t w w' :
  disposed w' = disposed w → ready w' = ready w → tickets w' = tickets w →
  task_events (tickets w) t w' = task_events (tickets w) t w →
  enqueue_events t w' = enqueue_events t w.
Proof. unfold enqueue_events. by intros -> -> -> ->. Qed.

Lemma trace_draw f cb w :
  trace (RedrawController.draw f cb w).2 =
  trace w ++ close_events w ++ enqueue_events (TDraw f cb) w.
Proof.
  unfold RedrawController.draw, clone. cbv beta iota zeta.
  rewrite trace_enqueue. simpl.
  destruct (abort_pending_fields w) as (_&_&Ar&Ad&_&Al&_&An&At).
  set (w1 := set_pendingRedraw None (RedrawController.abort_pending w)).
  destruct (close_last_fields w1) as (_&_&Cr&Cd&_&_&_&Cn&_&Ct).
  rewrite Ct. unfold close_events. simpl. rewrite Al, At, <- app_assoc.
  do 2 f_equal. apply enqueue_events_same; simpl;
    [rewrite Cd; exact Ad|rewrite Cr; exact Ar|rewrite Cn; exact An|done].
Qed.

Lemma trace_ctl_dispose w :
  trace (RedrawController.dispose w) = trace w ++ close_events w.
Proof.
  unfold RedrawController.dispose. simpl.
  destruct (abort_pending_fields w) as (_&_&_&_&_&Al&_&_&At).
  destruct (close_last_fields (RedrawController.abort_pending w))
    as (_&_&_&_&_&_&_&_&_&Ct).
  rewrite Ct, At. unfold close_events. by rewrite Al.
Qed.

Lemma trace_settle_external q o w : trace (settle_external q o w) = trace w.
Proof.
  unfold settle_external.
  destruct (heap w !! q) as [[[rs|o'] []]|]; try done. apply trace_settle.
Qed.

Lemma trace_redraw cb w :
  trace (RedrawController.redraw cb w).2 = trace w ++ op_events (ORedraw cb) w.
Proof.
  unfold RedrawController.redraw, op_events.
  change (alloc (Cell (Pending []) OAsync) w)
    with (length (heap w), (alloc (Cell (Pending []) OAsync) w).2).
  cbv beta iota.
  change (lastFrame (alloc (Cell (Pending []) OAsync) w).2) with (lastFrame w).
  change (pendingRedraw (alloc (Cell (Pending []) OAsync) w).2)
    with (pendingRedraw w).
  destruct (lastFrame w) as [lf|];
    [|cbn [snd]; by rewrite trace_settle, app_nil_r].
  destruct (pendingRedraw w); [cbn [snd]; by rewrite trace_settle, app_nil_r|].
  unfold new_token. cbv beta iota.
  change (set_pendingRedraw _ _) with (redraw_world w).
  pose proof (trace_enqueue (TRedraw (length (aborted w)) cb) true
                (redraw_world w)) as H.
  destruct (TaskQueue.enqueue _ true (redraw_world w)) as [[v|e|r] w4];
    simpl in H |- *; by rewrite ?trace_settle, ?trace_subscribe.
Qed.

Lemma trace_apply o w : trace (apply o w) = trace w ++ op_events o w.
Proof.
  destruct o; simpl.
  - apply trace_enqueue.
  - by rewrite app_nil_r.
  - apply trace_draw.
  - apply (trace_redraw cb w).
  - apply trace_ctl_dispose.
  - by rewrite trace_settle_external, app_nil_r.
  - apply trace_step.
Qed.

(** No task body starts on a disposed queue. *)
Lemma task_events_invoke n t w m :
  EvInvoke m ∈ task_events n t w → m = n.
Proof.
  unfold task_events, body_events.
  intros [[= ->]|H]%elem_of_cons; [done|]. exfalso.
  destruct t as [b|f cb|tok cb].
  - by apply elem_of_nil in H.
  - destruct cb; set_solver.
  - destruct (is_aborted tok w); [set_solver|].
    destruct (lastFrame w); [|set_solver]. destruct cb; set_solver.
Qed.


(** Fields that task bodies and [enqueue] never write. *)
Definition same_flags (w w' : world) : Prop :=
  disposed w' = disposed w ∧ lastFrame w' = lastFrame w ∧
  aborted w' = aborted w.

Lemma same_flags_trans w w' w'' :
  same_flags w w' → same_flags w' w'' → same_flags w w''.
Proof. intros (?&?&?) (?&?&?). split_and!; congruence. Qed.

Lemma settle_flags p o w : same_flags w (settle p o w).
Proof. by destruct (settle_fields p o w) as (_&?&_&?&?&_). Qed.

Lemma subscribe_flags p r w : same_flags w (subscribe p r w).
Proof. by destruct (subscribe_fields p r w) as (_&?&_&?&?&_). Qed.

Lemma then_flags p k w : same_flags w (then_ p k w).2.
Proof. by destruct (then_fields p k w) as (_&?&_&?&?&_). Qed.

Lemma draw_body_flags n tok f cb p w : same_flags w (draw_body n tok f cb p w).
Proof.
  unfold draw_body, close_frame. destruct cb; simpl.
  - apply (subscribe_flags _ _ (alloc _ (log _ w)).2).
  - apply (settle_flags _ _ (log _ (log _ w))).
  - apply (subscribe_flags _ _ (alloc _ (log _ w)).2).
Qed.

Lemma call_task_flags n t w : same_flags w (call_task n t w).2.
Proof.
  unfold call_task. destruct t as [[]| |tok cb]; simpl; try done.
  - apply (draw_body_flags _ _ _ _ _ (alloc _ (log _ w)).2).
  - destruct (is_aborted _ _); simpl.
    { apply (settle_flags _ _ (alloc _ (log _ w)).2). }
    destruct (lastFrame w) eqn:E; simpl.
    + eapply same_flags_trans; [|apply draw_body_flags]. by split_and!.
    + eapply same_flags_trans; [|apply settle_flags]. by split_and!.
Qed.

Lemma enqueue_flags t bail w : same_flags w (TaskQueue.enqueue t bail w).2.
Proof.
  unfold TaskQueue.enqueue. destruct (disposed w) eqn:Hd; [done|].
  set (w0 := set_tickets _ w).
  assert (same_flags w w0) as F0 by (by split_and!).
  change (ready w0) with (ready w). destruct (ready w) as [r|].
  - pose proof (then_flags r (HRunTask (tickets w) t) w0) as F1.
    destruct (then_ r _ w0) as [result w1]. simpl in F1.
    pose proof (then_flags result (HReadyChain bail) w1) as F2.
    destruct (then_ result _ w1) as [r' w2]. simpl in F2 |- *.
    destruct F0 as (?&?&?), F1 as (?&?&?), F2 as (?&?&?).
      simpl in *. split_and!; simpl; congruence.
  - pose proof (call_task_flags (tickets w) t w0) as F1.
    destruct (call_task _ _ w0) as [[v|e|q] w1]; simpl in F1;
      cbv beta iota; try (by eapply same_flags_trans).
    + destruct bail; [|by eapply same_flags_trans].
      pose proof (then_flags (length (heap w1)) HSuppress
        (alloc (Cell (Settled (Rejected e)) OReject) w1).2) as F2.
      change (alloc (Cell (Settled (Rejected e)) OReject) w1)
        with (length (heap w1),
              (alloc (Cell (Settled (Rejected e)) OReject) w1).2).
      cbv beta iota.
      destruct (then_ _ HSuppress _) as [r' w3]. simpl in F2 |- *.
      destruct F0 as (?&?&?), F1 as (?&?&?), F2 as (?&?&?).
      simpl in *. split_and!; simpl; congruence.
    + pose proof (then_flags q (HReadyIdle bail) w1) as F2.
      destruct (then_ q _ w1) as [r' w2]. simpl in F2 |- *.
      destruct F0 as (?&?&?), F1 as (?&?&?), F2 as (?&?&?).
      simpl in *. split_and!; simpl; congruence.
Qed.

Lemma disposed_subscribe p r w : disposed (subscribe p r w) = disposed w.
Proof. by destruct (subscribe_fields p r w) as (_&->&_). Qed.

Lemma disposed_step w : disposed (step w) = disposed w.
Proof.
  unfold step. destruct (jobs w) as [|[[k d] o|d q] js]; [done|..].
  - unfold run_job, run_reaction.
    assert (∀ c w1, disposed w1 = disposed w →
                    disposed (resolve d c w1) = disposed w) as Hres.
    { intros c w1 H. destruct c; simpl; by rewrite ?disposed_settle. }
    destruct (handle _ o _) as [c w1] eqn:Hh. apply Hres.
    unfold handle in Hh. simpl in Hh.
    destruct k as [bail| |n t|bail| |n f];
      try (destruct o; try destruct bail; try destruct (disposed w) eqn:?;
           by simplify_eq/=).
    destruct o; [|by simplify_eq/=].
    destruct (disposed w) eqn:Hd; [by simplify_eq/=|].
    destruct (call_task_flags n t (set_jobs js w)) as (H&_).
    rewrite Hh in H. simpl in H. congruence.
  - simpl. by rewrite disposed_subscribe.
Qed.

Lemma disposed_apply o w : disposed w = true → disposed (apply o w) = true.
Proof.
  intros Hd. destruct o as [b bail| |f cb|cb| |q o|]; simpl; try done.
  - by destruct (enqueue_flags (TExternal b) bail w) as (->&_).
  - unfold RedrawController.draw, clone. cbv beta iota zeta.
    destruct (enqueue_flags (TDraw f cb) true
      (set_lastFrame (Some (FClone f (clones (RedrawController.close_last
          (set_pendingRedraw None (RedrawController.abort_pending w))))))
        (set_clones (S (clones (RedrawController.close_last
          (set_pendingRedraw None (RedrawController.abort_pending w)))))
          (RedrawController.close_last
            (set_pendingRedraw None (RedrawController.abort_pending w))))))
      as (->&_).
    by destruct (draw_prelude f w) as (_&_&_&->&_).
  - unfold RedrawController.redraw.
    change (alloc (Cell (Pending []) OAsync) w)
      with (length (heap w), (alloc (Cell (Pending []) OAsync) w).2).
    cbv beta iota.
    destruct (lastFrame _); [|cbn [snd]; by rewrite disposed_settle].
    destruct (pendingRedraw _); [cbn [snd]; by rewrite disposed_settle|].
    unfold new_token. cbv beta iota.
    change (set_pendingRedraw _ _) with (redraw_world w).
    destruct (enqueue_flags (TRedraw (length (aborted w)) cb) true
                (redraw_world w)) as (H&_).
    destruct (TaskQueue.enqueue _ true (redraw_world w)) as [[v|e|r] w4];
      simpl in H |- *.
    + rewrite disposed_subscribe. simpl. congruence.
    + rewrite disposed_settle. congruence.
    + rewrite disposed_subscribe. congruence.
  - unfold settle_external.
    destruct (heap w !! q) as [[[rs|o'] []]|]; try done.
    by rewrite disposed_settle.
  - by rewrite disposed_step.
Qed.

Lemma disposed_run ops w : disposed w = true → disposed (run ops w) = true.
Proof.
  revert w. induction ops as [|o ops IH]; intros w Hd; simpl; [done|].
  by apply IH, disposed_apply.
Qed.
End op_effects.

(** * TaskQueue: disposal (claims C9 and C5) *)

(** C9.  [enqueue] on a disposed queue throws the disposed-queue error to
    its caller at once; the task is not invoked and nothing changes:
    neither the chain ([#ready] and the promise heap) nor the trace. *)
Theorem enqueue_disposed_throws (t : task) (bail : bool) (w : world) :
  disposed w = true →
  TaskQueue.enqueue t bail w = (RThrow ErrDisposed, w).
Proof. intros Hd. unfold TaskQueue.enqueue. by rewrite Hd. Qed.

Lemma enqueue_disposed_throws_witness :
  let w := TaskQueue.dispose
             (TaskQueue.enqueue (TExternal BAsync) false init).2 in
  disposed w = true ∧
  TaskQueue.enqueue (TExternal (BReturn (VNum 1))) true w
    = (RThrow ErrDisposed, w).
Proof.
  intros w. split; [reflexivity|].
  apply (enqueue_disposed_throws (TExternal (BReturn (VNum 1))) true w).
  reflexivity.
Defined.

Section disposal.
Implicit Types (w : world) (p d : pid) (c : completion).


End disposal.


Definition E1 : value := VError "boom".




(** * TaskQueue: the idle path (claim C4) *)

(** What a synchronous task hands back. *)
Definition sync_ret (b : behaviour) : ret :=
  match b with
  | BReturn v => RValue v
  | BThrow e => RThrow e
  | BAsync => RValue VUndefined
  end.

(** A task that completes without leaving a trace in [#ready]: it is
    synchronous, and it does not throw under [bail = true]. *)
Definition leaves_idle (tb : behaviour * bool) : Prop :=
  match tb with
  | (BReturn _, _) => True
  | (BThrow _, bail) => bail = false
  | (BAsync, _) => False
  end.

(** Submit the tasks one after the other; collect what each call returns. *)
Fixpoint enqueue_all (tasks : list (behaviour * bool)) (w : world)
    : list ret * world :=
  match tasks with
  | [] => ([], w)
  | (b, bail) :: tasks =>
      let '(res, w1) := TaskQueue.enqueue (TExternal b) bail w in
      let '(rs, w2) := enqueue_all tasks w1 in
      (res :: rs, w2)
  end.

Lemma enqueue_idle_sync b bail w :
  ready w = None → disposed w = false → leaves_idle (b, bail) →
  TaskQueue.enqueue (TExternal b) bail w =
    (sync_ret b, log (EvInvoke (tickets w)) (set_tickets (S (tickets w)) w)).
Proof.
  intros Hr Hd Hb. unfold TaskQueue.enqueue. rewrite Hd. simpl. rewrite Hr.
  destruct b as [v|e|]; simpl in *; [done| |done]. by rewrite Hb.
Qed.

(** A synchronous task submitted while [#ready] is unset runs inside the
    call, which hands back its result or rethrows its exception; only a
    throw under [bail = true] leaves something in [#ready]: the promise
    [Promise.reject(e)]. *)
Lemma enqueue_idle_runs b bail w :
  ready w = None → disposed w = false → b ≠ BAsync →
  let '(res, w1) := TaskQueue.enqueue (TExternal b) bail w in
  res = sync_ret b ∧
  trace w1 = trace w ++ [EvInvoke (tickets w)] ∧
  match b, bail with
  | BThrow e, true =>
      ∃ p, ready w1 = Some p ∧ outcome_of w1 p = Some (Rejected e)
  | _, _ => ready w1 = None ∧ heap w1 = heap w ∧ jobs w1 = jobs w
  end.
Proof.
  intros Hr Hd Hb.
  assert (leaves_idle (b, bail) ∨ ∃ e, b = BThrow e ∧ bail = true) as [Hl|Hl].
  { destruct b as [v|e|]; [by left| |done]. destruct bail; [eauto|by left]. }
  { rewrite (enqueue_idle_sync b bail w Hr Hd Hl).
    split_and!; [done|done|].
    destruct b as [v|e|]; [done| |done]. simpl in Hl. by subst bail. }
  destruct Hl as (e & -> & ->).
  unfold TaskQueue.enqueue. rewrite Hd. cbv beta iota zeta.
  change (ready (set_tickets _ w)) with (ready w). rewrite Hr.
  cbn [call_task].
  set (w1 := log _ _).
  change (alloc (Cell (Settled (Rejected e)) OReject) w1)
    with (length (heap w1), (alloc (Cell (Settled (Rejected e)) OReject) w1).2).
  cbv beta iota.
  set (w2 := (alloc _ w1).2).
  assert (heap w2 !! length (heap w1)
          = Some (Cell (Settled (Rejected e)) OReject)) as Hp.
  { unfold w2. simpl. by rewrite lookup_app_r, Nat.sub_diag. }
  pose proof (evolves_then w2 w2 (length (heap w1)) HSuppress
                (evolves_refl w2)) as E.
  pose proof (trace_then (length (heap w1)) HSuppress w2) as Ht.
  destruct (then_ (length (heap w1)) HSuppress w2) as [d w3].
  cbn [snd] in *. destruct (E _ _ _ Hp) as (st & Hp3 & Hst).
  rewrite (Hst _ eq_refl) in Hp3.
  split_and!; [done|exact Ht|].
  exists (length (heap w1)). split; [done|].
  unfold outcome_of.
  change (heap (set_ready (Some (length (heap w1))) w3)) with (heap w3).
  by rewrite Hp3.
Qed.

(** C4 (amended).  On a queue whose [#ready] is unset (no task so far
    returned a promise or threw under bail = true) and that is not disposed,
    every synchronous task runs inside its [enqueue] call, which hands back
    the task's result or rethrows its exception, whatever [bail] is; a
    sequence of synchronous tasks that return, or throw under
    [bail = false], runs in submission order and leaves the queue idle,
    while a throw under [bail = true] stores the rejection in [#ready]. *)
Theorem idle_queue_runs_sync_tasks (tasks : list (behaviour * bool)) (w : world) :
  ready w = None → disposed w = false →
  (∀ b bail, b ≠ BAsync →
     let '(res, w1) := TaskQueue.enqueue (TExternal b) bail w in
     res = sync_ret b ∧
     trace w1 = trace w ++ [EvInvoke (tickets w)] ∧
     match b, bail with
     | BThrow e, true =>
         ∃ p, ready w1 = Some p ∧ outcome_of w1 p = Some (Rejected e)
     | _, _ => ready w1 = None ∧ heap w1 = heap w ∧ jobs w1 = jobs w
     end) ∧
  (Forall leaves_idle tasks →
   let '(rs, w') := enqueue_all tasks w in
   rs = (sync_ret ∘ fst) <$> tasks ∧
   trace w' = trace w ++ (EvInvoke <$> seq (tickets w) (length tasks)) ∧
   ready w' = None ∧ heap w' = heap w ∧ jobs w' = jobs w).
Proof.
  intros Hr Hd. split.
  { intros b bail Hb. by apply enqueue_idle_runs. }
  revert w Hr Hd.
  induction tasks as [|[b bail] tasks IH]; intros w Hr Hd Hall; simpl.
  { by rewrite app_nil_r. }
  apply Forall_cons in Hall as [Hb Hall].
  rewrite (enqueue_idle_sync b bail w Hr Hd Hb).
  set (w1 := log _ _).
  specialize (IH w1 Hr Hd Hall). destruct (enqueue_all tasks w1) as [rs w2].
  destruct IH as (-> & -> & -> & -> & ->). simpl.
  split_and!; try done. by rewrite <- app_assoc.
Qed.

Lemma idle_queue_runs_sync_tasks_witness :
  let tasks := [(BReturn (VNum 1), false); (BThrow E1, false);
                (BReturn (VNum 3), true)] in
  ready init = None ∧ disposed init = false ∧ Forall leaves_idle tasks ∧
  (let '(res, w1) := TaskQueue.enqueue (TExternal (BThrow E1)) true init in
   res = RThrow E1 ∧ trace w1 = [EvInvoke 0] ∧
   ∃ p, ready w1 = Some p ∧ outcome_of w1 p = Some (Rejected E1)) ∧
  let '(rs, w') := enqueue_all tasks init in
  rs = (sync_ret ∘ fst) <$> tasks ∧
  trace w' = trace init ++ (EvInvoke <$> seq (tickets init) (length tasks)) ∧
  ready w' = None ∧ heap w' = heap init ∧ jobs w' = jobs init.
Proof.
  intros tasks.
  assert (Forall leaves_idle tasks) as Hall.
  { repeat constructor. }
  destruct (idle_queue_runs_sync_tasks tasks init eq_refl eq_refl)
    as [H1 H2].
  split_and!; [reflexivity|reflexivity|exact Hall| |exact (H2 Hall)].
  assert (BThrow E1 ≠ BAsync) as Hb by discriminate.
  exact (H1 (BThrow E1) true Hb).
Defined.

(** C4 as stated fails: "idle" is not "all previous tasks have settled".
    After one asynchronous task has been submitted and has settled, and the
    microtasks have run, a synchronous task is still deferred: [enqueue]
    hands back a promise and the task has not run when the call returns. *)
Lemma settled_queue_defers_sync_task :
  let w := run ([OEnqueue BAsync false; OSettle 0 (Fulfilled (VNum 5))]
                ++ repeat OStep 2) init in
  jobs w = [] ∧ disposed w = false ∧
  outcome_of w 0 = Some (Fulfilled (VNum 5)) ∧
  outcome_of w 1 = Some (Fulfilled VUndefined) ∧
  length (heap w) = 2 ∧
  let '(res, w') := TaskQueue.enqueue (TExternal (BReturn (VNum 7))) false w in
  res = RPromise 2 ∧ trace w' = trace w ∧ trace w = [EvInvoke 0] ∧
  is_pending w' 2.
Proof.
  vm_compute. split_and!; try done. by eexists _, _.
Qed.

(** * TaskQueue: a failure without bail (claim C8) *)

(** Operations that submit nothing and dispose nothing: the environment
    settles a promise, or a microtask runs. *)
Definition quiet (o : op) : Prop :=
  match o with
  | OSettle _ _ | OStep => True
  | _ => False
  end.



Section healthy.
Implicit Types (w : world) (p d r : pid) (c : completion).

Definition same_queue (w w' : world) : Prop :=
  ready w' = ready w ∧ tickets w' = tickets w.

Lemma same_queue_trans w w' w'' :
  same_queue w w' → same_queue w' w'' → same_queue w w''.
Proof. intros [??] [??]. split; congruence. Qed.

Lemma settle_queue p o w : same_queue w (settle p o w).
Proof. by destruct (settle_fields p o w) as (?&_&_&_&_&_&?&_). Qed.

Lemma subscribe_queue p (r : reaction) w : same_queue w (subscribe p r w).
Proof. by destruct (subscribe_fields p r w) as (?&_&_&_&_&_&?&_). Qed.

Lemma draw_body_queue n tok f cb p w : same_queue w (draw_body n tok f cb p w).
Proof.
  unfold draw_body, close_frame. destruct cb; simpl.
  - by destruct (subscribe_fields (length (heap w)) (Reaction (HFinally n f) p)
      (alloc (Cell (Settled (Fulfilled VUndefined)) OAwait)
         (log (EvCallback n tok f) w)).2) as (?&_&_&_&_&_&?&_).
  - by destruct (settle_fields p (Rejected e)
      (log (EvClose (Some n) f) (log (EvCallback n tok f) w)))
      as (?&_&_&_&_&_&?&_).
  - by destruct (subscribe_fields (length (heap w)) (Reaction (HFinally n f) p)
      (alloc (Cell (Pending []) OExternal)
         (log (EvCallback n tok f) w)).2) as (?&_&_&_&_&_&?&_).
Qed.

Lemma call_task_queue n t w : same_queue w (call_task n t w).2.
Proof.
  unfold call_task. destruct t as [[]| |tok cb]; simpl; try done.
  - apply (draw_body_queue _ _ _ _ _ (alloc _ (log _ w)).2).
  - destruct (is_aborted _ _); simpl.
    { by destruct (settle_fields (length (heap w)) (Fulfilled VUndefined)
        (alloc (Cell (Pending []) OAsync) (log (EvInvoke n) w)).2)
        as (?&_&_&_&_&_&?&_). }
    destruct (lastFrame w) eqn:E; simpl.
    + apply (draw_body_queue _ _ _ _ _
        (set_clones _ (set_pendingRedraw None (alloc _ (log _ w)).2))).
    + by destruct (settle_fields (length (heap w)) (Rejected ErrTypeError)
        (set_pendingRedraw None
          (alloc (Cell (Pending []) OAsync) (log (EvInvoke n) w)).2))
        as (?&_&_&_&_&_&?&_).
Qed.

Lemma step_queue w : same_queue w (step w).
Proof.
  unfold step. destruct (jobs w) as [|[[k d] o|d q] js]; [done|..].
  - unfold run_job, run_reaction.
    assert (∀ c w1, same_queue w w1 → same_queue w (resolve d c w1)) as Hres.
    { intros c w1 H. destruct c; simpl; try done;
        (eapply same_queue_trans; [exact H|apply settle_queue]). }
    destruct (handle _ o _) as [c w1] eqn:Hh. apply Hres.
    unfold handle in Hh. simpl in Hh.
    destruct k as [bail| |n t|bail| |n f];
      try (destruct o; try destruct bail; try destruct (disposed w) eqn:?;
           by simplify_eq/=).
    destruct o; [|by simplify_eq/=].
    destruct (disposed w) eqn:Hd; [by simplify_eq/=|].
    pose proof (call_task_queue n t (set_jobs js w)) as H.
    by rewrite Hh in H.
  - simpl. apply (subscribe_queue _ _ (set_jobs js w)).
Qed.

Lemma quiet_apply o w :
  quiet o → same_queue w (apply o w) ∧ disposed (apply o w) = disposed w.
Proof.
  destruct o as [| | | | |q o|]; try done; intros _; simpl.
  - unfold settle_external.
    destruct (heap w !! q) as [[[rs|o'] []]|]; try done.
    by destruct (settle_fields q o w) as (?&?&_&_&_&_&?&_).
  - split; [apply step_queue|apply disposed_step].
Qed.



Lemma evolves_drain w : evolves w (drain w).
Proof. unfold drain. rewrite steps_run. apply evolves_run. Qed.


Lemma then_new p k w :
  ∃ st, heap (then_ p k w).2 !! length (heap w)
        = Some (Cell st (ODerived p k)).
Proof.
  unfold then_. simpl.
  set (w1 := (alloc (Cell (Pending []) (ODerived p k)) w).2).
  assert (heap w1 !! length (heap w)
          = Some (Cell (Pending []) (ODerived p k))) as H.
  { unfold w1; simpl. by rewrite lookup_app_r, Nat.sub_diag. }
  destruct (evolves_subscribe w1 w1 p (Reaction k (length (heap w)))
              (evolves_refl w1) _ _ _ H) as (st & ? & _). eauto.
Qed.



End healthy.

Section healthy2.
Implicit Types (w : world) (p d r : pid) (c : completion).


Lemma length_alloc (cl : cell) w :
  length (heap (alloc cl w).2) = S (length (heap w)).
Proof. simpl. rewrite length_app. simpl. lia. Qed.

(** What [enqueue] hands back and stores when a chain is pending. *)
Lemma enqueue_chain_shape t bail w r :
  ready w = Some r → disposed w = false →
  let d := length (heap w) in
  let w' := (TaskQueue.enqueue t bail w).2 in
  (TaskQueue.enqueue t bail w).1 = RPromise d ∧
  ready w' = Some (S d) ∧
  (∃ st, heap w' !! d = Some (Cell st (ODerived r (HRunTask (tickets w) t)))) ∧
  (∃ st, heap w' !! S d = Some (Cell st (ODerived d (HReadyChain bail)))).
Proof.
  intros Hr Hd d w'. unfold w', TaskQueue.enqueue. rewrite Hd.
  cbv beta iota zeta. change (ready (set_tickets _ w)) with (ready w).
  rewrite Hr. set (w0 := set_tickets (S (tickets w)) w).
  destruct (then_new r (HRunTask (tickets w) t) w0) as [st1 H1].
  pose proof (length_then r (HRunTask (tickets w) t) w0) as L1.
  destruct (then_ r _ w0) as [result w1] eqn:E1.
  assert (result = d) as -> by (by injection E1).
  destruct (then_new d (HReadyChain bail) w1) as [st2 H2].
  pose proof (evolves_then w1 w1 d (HReadyChain bail) (evolves_refl w1)) as E12.
  destruct (then_ d _ w1) as [r' w2] eqn:E2.
  assert (r' = S d) as -> by (injection E2 as <- _; exact L1).
  cbn [snd] in *.
  destruct (E12 _ _ _ H1) as (st1' & H1' & _).
  rewrite L1 in H2. cbn [fst snd].
  split_and!; [done|done|exists st1'; exact H1'|exists st2; exact H2].
Qed.



End healthy2.



(** ** Counting the continuations that are still to run *)

(** The reactions waiting in the heap and in the job queue, weighted by
    their callback. *)
Definition total (φ : handler → nat) (w : world) : nat :=
  sum_list_with (φ ∘ r_handler) (settlers w).

Definition body_total (φ : handler → nat) (n : nat) (f : frame)
    (cb : callback) : nat :=
  match cb with
  | CbThrow _ => 0
  | _ => φ (HFinally n f)
  end.

Definition task_total (φ : handler → nat) (n : nat) (t : task) (w : world)
    : nat :=
  match t with
  | TExternal _ => 0
  | TDraw f cb => body_total φ n f cb
  | TRedraw tok cb =>
      if is_aborted tok w then 0
      else match lastFrame w with
           | None => 0
           | Some lf => body_total φ n (FClone lf (clones w)) cb
           end
  end.

Definition handle_total (φ : handler → nat) (k : handler) (o : outcome)
    (w : world) : nat :=
  match k, o with
  | HRunTask n t, Fulfilled _ => if disposed w then 0 else task_total φ n t w
  | _, _ => 0
  end.

Definition enqueue_total (φ : handler → nat) (t : task) (w : world) : nat :=
  if disposed w then 0
  else match ready w with
       | None => task_total φ (tickets w) t w
       | Some _ => φ (HRunTask (tickets w) t)
       end.

(** What an operation registers, and what it consumes. *)
Definition op_total (φ : handler → nat) (o : op) (w : world) : nat :=
  match o with
  | OEnqueue b _ => enqueue_total φ (TExternal b) w
  | ODraw f cb => enqueue_total φ (TDraw f cb) w
  | ORedraw cb =>
      match lastFrame w, pendingRedraw w with
      | Some _, None =>
          enqueue_total φ (TRedraw (length (aborted w)) cb) (redraw_world w)
      | _, _ => 0
      end
  | OStep =>
      match jobs w with
      | JReaction r o :: _ => handle_total φ (r_handler r) o w
      | _ => 0
      end
  | ODispose | OCtlDispose | OSettle _ _ => 0
  end.

Definition popped (φ : handler → nat) (o : op) (w : world) : nat :=
  match o, jobs w with
  | OStep, JReaction r _ :: _ => φ (r_handler r)
  | _, _ => 0
  end.

(** Weights that ignore the bookkeeping callbacks of the queue. *)
Definition plain (φ : handler → nat) : Prop :=
  φ HForward = 0 ∧ φ HSuppress = 0 ∧
  ∀ bail, φ (HReadyIdle bail) = 0 ∧ φ (HReadyChain bail) = 0.

Section totals.
Variable φ : handler → nat.
Hypothesis Hplain : plain φ.
Implicit Types (w : world) (p d : pid) (c : completion) (r : reaction).

Lemma total_ext w w' :
  heap w' = heap w → jobs w' = jobs w → total φ w' = total φ w.
Proof. unfold total, settlers. by intros -> ->. Qed.

Lemma total_perm w w' : settlers w' ≡ₚ settlers w → total φ w' = total φ w.
Proof. unfold total. by intros ->. Qed.

Lemma total_alloc (cl : cell) w :
  cell_reactions cl = [] → total φ (alloc cl w).2 = total φ w.
Proof. intros H. unfold total. by rewrite settlers_alloc. Qed.

Lemma total_alloc_eq (cl : cell) w x w' :
  alloc cl w = (x, w') → cell_reactions cl = [] →
  x = length (heap w) ∧ length (heap w') = S (length (heap w)) ∧
  total φ w' = total φ w.
Proof.
  intros [= <- <-] Hc. split_and!; [done|apply length_alloc|].
  by apply total_alloc.
Qed.

Lemma total_settle p o w : total φ (settle p o w) = total φ w.
Proof. apply total_perm, settlers_settle. Qed.

Lemma total_subscribe p r w :
  p < length (heap w) →
  total φ (subscribe p r w) = φ (r_handler r) + total φ w.
Proof.
  intros H%lookup_lt_is_Some. unfold total.
  by rewrite (settlers_subscribe p r w H).
Qed.

Lemma total_then p k w :
  p < length (heap w) → total φ (then_ p k w).2 = φ k + total φ w.
Proof.
  intros H. unfold then_.
  destruct (alloc _ w) as [x w1] eqn:E.
  apply total_alloc_eq in E as (-> & Hl & E); [|done].
  simpl. rewrite total_subscribe by lia. by rewrite E.
Qed.

Lemma total_then_eq p k w d w' :
  then_ p k w = (d, w') → p < length (heap w) → total φ w' = φ k + total φ w.
Proof. intros E H. pose proof (total_then p k w H) as T. by rewrite E in T. Qed.

Lemma total_draw_body n tok f cb p w :
  total φ (draw_body n tok f cb p w) = body_total φ n f cb + total φ w.
Proof.
  unfold draw_body, body_total, close_frame. destruct cb.
  - destruct (alloc _ _) as [x w2] eqn:E.
    apply total_alloc_eq in E as (-> & Hl & E); [|done].
    rewrite total_subscribe by (simpl in *; lia). by rewrite E.
  - by rewrite total_settle.
  - destruct (alloc _ _) as [x w2] eqn:E.
    apply total_alloc_eq in E as (-> & Hl & E); [|done].
    rewrite total_subscribe by (simpl in *; lia). by rewrite E.
Qed.

Lemma total_call_task n t w :
  total φ (call_task n t w).2 = task_total φ n t w + total φ w.
Proof.
  unfold call_task, task_total. destruct t as [[]| |tok cb]; try done.
  - destruct (alloc _ _) as [x w2] eqn:E.
    by apply total_alloc_eq in E as (_ & _ & E).
  - destruct (alloc _ _) as [x w2] eqn:E.
    apply total_alloc_eq in E as (_ & _ & E); [|done].
    simpl. by rewrite total_draw_body, E.
  - destruct (alloc _ _) as [x w2] eqn:E.
    assert (is_aborted tok w2 = is_aborted tok w ∧ lastFrame w2 = lastFrame w
            ∧ clones w2 = clones w) as (-> & Hlf & Hcl) by (by injection E as _ <-).
    apply total_alloc_eq in E as (_ & _ & E); [|done].
    destruct (is_aborted tok w); simpl; [by rewrite total_settle|].
    rewrite Hlf. destruct (lastFrame w); simpl.
    + rewrite total_draw_body, Hcl. f_equal. exact E.
    + rewrite total_settle. exact E.
Qed.

Lemma call_task_below n t w :
  promise_below (call_task n t w).1 (call_task n t w).2.
Proof.
  assert (∀ tok f cb p w', p < length (heap w') →
    p < length (heap (draw_body n tok f cb p w'))) as Hb.
  { intros tok f cb p w' H. unfold draw_body, close_frame. destruct cb; simpl.
    - rewrite length_subscribe. simpl. rewrite length_app. simpl. lia.
    - by rewrite length_settle.
    - rewrite length_subscribe. simpl. rewrite length_app. simpl. lia. }
  unfold call_task. destruct t as [[]| |tok cb]; simpl; try done.
  - rewrite length_app. simpl. lia.
  - apply Hb. simpl. rewrite length_app. simpl. lia.
  - destruct (is_aborted _ _); simpl.
    { rewrite length_settle. simpl. rewrite length_app. simpl. lia. }
    destruct (lastFrame w); simpl.
    + apply Hb. simpl. rewrite length_app. simpl. lia.
    + rewrite length_settle. simpl. rewrite length_app. simpl. lia.
Qed.

Lemma total_resolve d c w : total φ (resolve d c w) = total φ w.
Proof using Hplain.
  destruct c; simpl; rewrite ?total_settle; try done.
  unfold total, settlers; simpl. rewrite map_app, app_assoc, sum_list_with_app.
  simpl. destruct Hplain as (-> & _). lia.
Qed.

Lemma total_run_reaction k d o w :
  total φ (run_reaction (Reaction k d) o w) = handle_total φ k o w + total φ w.
Proof using Hplain.
  unfold run_reaction, handle_total; simpl.
  destruct k as [bail| |n t|bail| |n f]; simpl;
    try (destruct o; try destruct bail; try destruct (disposed w); simpl;
         by rewrite ?total_settle).
  destruct o; simpl; [|by rewrite total_settle].
  destruct (disposed w); simpl; [by rewrite total_settle|].
  pose proof (total_call_task n t w) as H.
  destruct (call_task n t w) as [c w1]. simpl in H.
  by rewrite total_resolve.
Qed.

Lemma total_pop w j js :
  jobs w = j :: js →
  total φ w = φ (r_handler (job_reaction j)) + total φ (set_jobs js w).
Proof. intros Hj. unfold total. by rewrite (settlers_pop w j js Hj). Qed.

Lemma total_step w :
  wf w →
  popped φ OStep w + total φ (step w) = op_total φ OStep w + total φ w.
Proof using Hplain.
  intros Hwf. unfold step, popped, op_total.
  destruct (jobs w) as [|[[k d] o|d q] js] eqn:Hj; [done|..].
  - rewrite (total_pop w _ js Hj). unfold run_job.
    rewrite total_run_reaction. simpl.
    change (handle_total φ k o (set_jobs js w)) with (handle_total φ k o w).
    lia.
  - rewrite (total_pop w _ js Hj). simpl.
    rewrite total_subscribe; simpl; [done|].
    apply (wf_thenable _ _ Hwf d q). rewrite Hj. by left.
Qed.

Lemma total_enqueue t bail w :
  wf w →
  total φ (TaskQueue.enqueue t bail w).2 = enqueue_total φ t w + total φ w.
Proof using Hplain.
  intros Hwf. unfold TaskQueue.enqueue, enqueue_total.
  destruct (disposed w); [done|].
  set (w0 := set_tickets _ w). change (ready w0) with (ready w).
  destruct Hplain as (_ & Hs & Hb).
  destruct (ready w) as [r|] eqn:Hr.
  - assert (r < length (heap w0)) as Hlt by apply (wf_ready _ _ Hwf _ Hr).
    pose proof (length_then r (HRunTask (tickets w) t) w0) as Hl.
    destruct (then_ r _ w0) as [result w1] eqn:E1.
    assert (result = length (heap w0)) as -> by (by injection E1).
    apply total_then_eq in E1; [|done]. cbn [snd] in Hl.
    destruct (then_ _ _ w1) as [r' w2] eqn:E2.
    apply total_then_eq in E2; [|lia]. simpl.
    change (total φ (set_ready (Some r') w2)) with (total φ w2).
    rewrite E2, E1. destruct (Hb bail) as [_ ->]. done.
  - pose proof (total_call_task (tickets w) t w0) as H.
    change (task_total φ (tickets w) t w0) with (task_total φ (tickets w) t w)
      in H.
    change (total φ w0) with (total φ w) in H.
    pose proof (call_task_below (tickets w) t w0) as Hs'.
    destruct (call_task _ _ w0) as [[v|e|q] w1] eqn:Hc; simpl in H; try done.
    + destruct bail; [|done].
      change (alloc (Cell (Settled (Rejected e)) OReject) w1)
        with (length (heap w1),
              (alloc (Cell (Settled (Rejected e)) OReject) w1).2).
      cbv beta iota.
      destruct (then_ _ HSuppress _) as [r' w3] eqn:E3.
      apply total_then_eq in E3; [|simpl; rewrite length_app; simpl; lia].
      simpl. change (total φ (set_ready _ w3)) with (total φ w3).
      rewrite E3, Hs.
      rewrite (total_alloc (Cell (Settled (Rejected e)) OReject) w1) by done.
      done.
    + destruct (then_ q _ w1) as [r' w2] eqn:E2.
      apply total_then_eq in E2.
      * simpl. change (total φ (set_ready _ w2)) with (total φ w2).
        rewrite E2. destruct (Hb bail) as [-> _]. done.
      * exact Hs'.
Qed.

End totals.

Section controller_totals.
Variable φ : handler → nat.
Hypothesis Hplain : plain φ.
Implicit Types (w : world) (p d : pid) (c : completion).

Lemma enqueue_total_same t w w' :
  disposed w' = disposed w → ready w' = ready w → tickets w' = tickets w →
  task_total φ (tickets w) t w' = task_total φ (tickets w) t w →
  enqueue_total φ t w' = enqueue_total φ t w.
Proof. unfold enqueue_total. by intros -> -> -> ->. Qed.

Lemma total_draw f cb w :
  wf w →
  total φ (RedrawController.draw f cb w).2
  = enqueue_total φ (TDraw f cb) w + total φ w.
Proof using Hplain.
  intros Hwf. unfold RedrawController.draw, clone. cbv beta iota zeta.
  destruct (draw_prelude f w) as (Hh & Hj & _ & Hd & Ht & Hr).
  rewrite total_enqueue; [|done|eapply wfh_same; [apply draw_prelude|done]].
  f_equal; [by apply enqueue_total_same|by apply total_ext].
Qed.

Lemma total_ctl_dispose w : total φ (RedrawController.dispose w) = total φ w.
Proof.
  unfold RedrawController.dispose, TaskQueue.dispose.
  destruct (abort_pending_fields w) as (Ah & Aj & _).
  destruct (close_last_fields (RedrawController.abort_pending w))
    as (Ch & Cj & _).
  apply total_ext; simpl; congruence.
Qed.

Lemma total_settle_external q o w : total φ (settle_external q o w) = total φ w.
Proof.
  unfold settle_external.
  destruct (heap w !! q) as [[[rs|o'] []]|]; try done. apply total_settle.
Qed.

Lemma total_redraw cb w :
  wf w →
  total φ (RedrawController.redraw cb w).2
  = op_total φ (ORedraw cb) w + total φ w.
Proof using Hplain.
  intros Hwf. unfold RedrawController.redraw, op_total.
  set (cl := Cell (Pending []) OAsync).
  set (w1 := (alloc cl w).2).
  change (alloc cl w) with (length (heap w), w1). cbv beta iota.
  assert (wf w1) as Hwf1 by (by apply wfh_alloc).
  assert (total φ w1 = total φ w) as T1 by (by apply total_alloc).
  change (lastFrame w1) with (lastFrame w).
  change (pendingRedraw w1) with (pendingRedraw w).
  destruct (lastFrame w) as [lf|]; [|cbn [snd]; by rewrite total_settle].
  destruct (pendingRedraw w); [cbn [snd]; by rewrite total_settle|].
  unfold new_token. cbv beta iota.
  change (set_pendingRedraw _ _) with (redraw_world w).
  assert (same_heap w1 (redraw_world w)) as S3 by (by split_and!).
  assert (wf (redraw_world w)) as Hwf3 by (by eapply wfh_same).
  pose proof (total_enqueue φ Hplain (TRedraw (length (aborted w)) cb) true
                (redraw_world w) Hwf3) as H.
  change (total φ (redraw_world w)) with (total φ w1) in H.
  destruct (TaskQueue.enqueue _ true (redraw_world w)) as [res w4] eqn:He.
  assert (evolves (redraw_world w) w4) as Hev.
  { pose proof (evolves_enqueue _ _ (TRedraw (length (aborted w)) cb) true
                  (evolves_refl (redraw_world w))) as Hev.
    by rewrite He in Hev. }
  apply enqueue_spec in He as (Hwf4 & K4 & Hres); [|done].
  assert (length (heap w) < length (heap w4)) as Hlt.
  { destruct (Hev (length (heap w)) (Pending []) OAsync) as (st & Hst & _).
    { simpl. by rewrite lookup_app_r, Nat.sub_diag. }
    by eapply lookup_lt_Some. }
  destruct Hplain as (Hf & _).
  cbn [snd] in H. rewrite <- T1, <- H.
  destruct res as [v|e|r]; cbn [snd].
  - set (cx := Cell (Settled (Fulfilled v)) OAwait).
    change (alloc cx w4) with (length (heap w4), (alloc cx w4).2).
    cbv beta iota. cbn [snd].
    rewrite total_subscribe by (rewrite length_alloc; lia).
    rewrite total_alloc by done. simpl. by rewrite Hf.
  - by rewrite total_settle.
  - rewrite total_subscribe by done. simpl. by rewrite Hf.
Qed.

(** The balance of every operation: what it consumed plus what is left
    equals what it registered plus what was there. *)
Lemma total_apply o w :
  wf w →
  popped φ o w + total φ (apply o w) = op_total φ o w + total φ w.
Proof using Hplain.
  intros Hwf. destruct o as [b bail| |f cb|cb| |q o|];
    try (unfold popped; cbn [apply op_total]).
  - by apply total_enqueue.
  - done.
  - by apply total_draw.
  - by apply total_redraw.
  - by rewrite total_ctl_dispose.
  - by rewrite total_settle_external.
  - by apply total_step.
Qed.

End controller_totals.

(** A reaction that is waiting weighs in the total. *)
Lemma total_elem φ w r : r ∈ settlers w → φ (r_handler r) ≤ total φ w.
Proof.
  unfold total. generalize (settlers w). intros l.
  induction l as [|x l IH]; [by intros ?%elem_of_nil|].
  intros [->|H]%elem_of_cons; simpl; [lia|]. specialize (IH H). lia.
Qed.

Lemma total_zero φ w :
  (∀ r, r ∈ settlers w → φ (r_handler r) = 0) → total φ w = 0.
Proof.
  unfold total. generalize (settlers w). intros l.
  induction l as [|x l IH]; [done|]. intros H. simpl.
  rewrite (H x) by (by left). apply IH. intros r Hr. apply H. by right.
Qed.

Lemma total_mono φ ψ w : (∀ k, φ k ≤ ψ k) → total φ w ≤ total ψ w.
Proof.
  intros H. unfold total. generalize (settlers w). intros l.
  induction l as [|x l IH]; simpl; [done|]. specialize (H (r_handler x)). lia.
Qed.

(** ** Occurrences of an event in the trace *)

Definition occ (e : event) (l : list event) : nat :=
  count_occ event_eq_dec l e.

Lemma occ_apply e o w :
  occ e (trace (apply o w)) = occ e (trace w) + occ e (op_events o w).
Proof. unfold occ. by rewrite trace_apply, count_occ_app. Qed.

Lemma occ_pos e l : e ∈ l ↔ 0 < occ e l.
Proof.
  unfold occ. rewrite list_elem_of_In. apply count_occ_In.
Qed.

(** ** Frames handed to [draw]: who closes them, and how often *)

Global Instance behaviour_eq_dec : EqDecision behaviour.
Proof. solve_decision. Defined.
Global Instance callback_eq_dec : EqDecision callback.
Proof. solve_decision. Defined.
Global Instance task_eq_dec : EqDecision task.
Proof. solve_decision. Defined.

(** The [finally] block of submission [n] that will close [f]. *)
Definition finals (n : nat) (f : frame) (k : handler) : nat :=
  match k with
  | HFinally n' f' => if decide (n' = n ∧ f' = f) then 1 else 0
  | _ => 0
  end.

(** Submission [n] waiting for its turn. *)
Definition waits (n : nat) (k : handler) : nat :=
  match k with
  | HRunTask n' _ => if decide (n' = n) then 1 else 0
  | _ => 0
  end.

(** Submission [n] waiting with a task other than [t]. *)
Definition strays (n : nat) (t : task) (k : handler) : nat :=
  match k with
  | HRunTask n' t' => if decide (n' = n ∧ t' ≠ t) then 1 else 0
  | _ => 0
  end.

(** The operation submits a task to a queue that accepts it. *)
Definition submits (o : op) (w : world) : bool :=
  match o with
  | OEnqueue _ _ | ODraw _ _ => negb (disposed w)
  | ORedraw _ =>
      match lastFrame w, pendingRedraw w with
      | Some _, None => negb (disposed w)
      | _, _ => false
      end
  | _ => false
  end.

Lemma plain_finals n f : plain (finals n f).
Proof. by split_and!. Qed.

Lemma plain_waits n : plain (waits n).
Proof. by split_and!. Qed.

Lemma plain_strays n t : plain (strays n t).
Proof. by split_and!. Qed.

Ltac occ_cases :=
  unfold occ; cbn [count_occ app];
  repeat match goal with
         | |- context [event_eq_dec ?x ?e] =>
             destruct (event_eq_dec x e); simplify_eq; cbn [count_occ app]
         end;
  repeat case_decide; simplify_eq; try lia; try naive_solver.

Section tickets.
Implicit Types (w : world) (p d : pid) (c : completion).

Lemma tickets_enqueue t bail w :
  tickets (TaskQueue.enqueue t bail w).2
  = if disposed w then tickets w else S (tickets w).
Proof.
  unfold TaskQueue.enqueue. destruct (disposed w); [done|].
  set (w0 := set_tickets _ w). change (ready w0) with (ready w).
  destruct (ready w) as [r|].
  - pose proof (then_fields r (HRunTask (tickets w) t) w0) as F1.
    destruct (then_ r _ w0) as [result w1]. cbn [snd] in F1.
    pose proof (then_fields result (HReadyChain bail) w1) as F2.
    destruct (then_ result _ w1) as [r' w2]. cbn [snd] in F2 |- *.
    destruct F1 as (_&_&_&_&_&_&T1&_), F2 as (_&_&_&_&_&_&T2&_).
    simpl. by rewrite T2, T1.
  - pose proof (call_task_queue (tickets w) t w0) as [_ T1].
    destruct (call_task _ _ w0) as [[v|e|q] w1]; cbn [snd] in T1 |- *;
      try done.
    + destruct bail; [|done].
      set (cl := Cell (Settled (Rejected e)) OReject).
      change (alloc cl w1) with (length (heap w1), (alloc cl w1).2).
      cbv beta iota.
      pose proof (then_fields (length (heap w1)) HSuppress (alloc cl w1).2)
        as (_&_&_&_&_&_&T2&_).
      destruct (then_ _ HSuppress _) as [r' w3]. cbn [snd] in T2 |- *.
      simpl. by rewrite T2.
    + pose proof (then_fields q (HReadyIdle bail) w1) as (_&_&_&_&_&_&T2&_).
      destruct (then_ q _ w1) as [r' w2]. cbn [snd] in T2 |- *.
      simpl. by rewrite T2.
Qed.

Lemma tickets_apply o w :
  tickets (apply o w) = if submits o w then S (tickets w) else tickets w.
Proof.
  destruct o as [b bail| |f cb|cb| |q o|]; cbn [apply submits].
  - rewrite tickets_enqueue. by destruct (disposed w).
  - done.
  - unfold RedrawController.draw, clone. cbv beta iota zeta.
    destruct (draw_prelude f w) as (_ & _ & _ & Hd & Ht & _).
    rewrite tickets_enqueue, Hd, Ht. by destruct (disposed w).
  - unfold RedrawController.redraw.
    set (cl := Cell (Pending []) OAsync).
    change (alloc cl w) with (length (heap w), (alloc cl w).2).
    cbv beta iota.
    change (lastFrame (alloc cl w).2) with (lastFrame w).
    change (pendingRedraw (alloc cl w).2) with (pendingRedraw w).
    destruct (lastFrame w) as [lf|];
      [|cbn [snd]; by destruct (settle_queue (length (heap w))
                       (Fulfilled VUndefined) (alloc cl w).2)].
    destruct (pendingRedraw w);
      [cbn [snd]; by destruct (settle_queue (length (heap w))
                       (Fulfilled VUndefined) (alloc cl w).2)|].
    unfold new_token. cbv beta iota.
    change (set_pendingRedraw _ _) with (redraw_world w).
    pose proof (tickets_enqueue (TRedraw (length (aborted w)) cb) true
                  (redraw_world w)) as H.
    change (disposed (redraw_world w)) with (disposed w) in H.
    change (tickets (redraw_world w)) with (tickets w) in H.
    assert ((if negb (disposed w) then S (tickets w) else tickets w)
            = if disposed w then tickets w else S (tickets w)) as ->
      by (by destruct (disposed w)).
    rewrite <- H.
    destruct (TaskQueue.enqueue _ true (redraw_world w)) as [[v|e|r] w4];
      cbn [snd].
    + set (cx := Cell (Settled (Fulfilled v)) OAwait).
      change (alloc cx w4) with (length (heap w4), (alloc cx w4).2).
      cbv beta iota. cbn [snd].
      by destruct (subscribe_queue (length (heap w4))
                     (Reaction HForward (length (heap w))) (alloc cx w4).2).
    + by destruct (settle_queue (length (heap w)) (Rejected e) w4).
    + by destruct (subscribe_queue r (Reaction HForward (length (heap w))) w4).
  - unfold RedrawController.dispose, TaskQueue.dispose.
    destruct (abort_pending_fields w) as (_&_&_&_&_&_&_&At&_).
    destruct (close_last_fields (RedrawController.abort_pending w))
      as (_&_&_&_&_&_&_&Ct&_).
    simpl. congruence.
  - by destruct (quiet_apply (OSettle q o) w I) as [[_ ?] _].
  - by destruct (step_queue w).
Qed.

Lemma tickets_le o w : tickets w ≤ tickets (apply o w).
Proof. rewrite tickets_apply. destruct (submits o w); lia. Qed.

Lemma tickets_run ops w : tickets w ≤ tickets (run ops w).
Proof.
  revert w. induction ops as [|o ops IH]; intros w; simpl; [done|].
  etrans; [apply (tickets_le o)|apply IH].
Qed.

End tickets.

Section balance.
Variables (n : nat) (f : frame) (t : task).
Implicit Types (w : world) (k : handler) (o : outcome).

(** A task body that starts under another ticket. *)
Lemma task_start_other n' t' w :
  n' ≠ n →
  occ (EvInvoke n) (task_events n' t' w) = 0 ∧
  occ (EvClose (Some n) f) (task_events n' t' w) = 0 ∧
  task_total (finals n f) n' t' w = 0.
Proof.
  intros Hn. unfold task_events, task_total, body_events, body_total.
  destruct t' as [b|f' cb|tok cb].
  - split_and!; occ_cases.
  - destruct cb; split_and!; unfold finals; occ_cases.
  - destruct (is_aborted tok w); [split_and!; occ_cases|].
    destruct (lastFrame w); [|split_and!; occ_cases].
    destruct cb; split_and!; unfold finals; occ_cases.
Qed.

(** A task body that starts under ticket [n]. *)
Lemma task_start_same t' w :
  occ (EvInvoke n) (task_events n t' w) = 1 ∧
  occ (EvClose (Some n) f) (task_events n t' w)
    + task_total (finals n f) n t' w ≤ 1 ∧
  (∀ cb, t' = TDraw f cb →
     occ (EvClose (Some n) f) (task_events n t' w)
       + task_total (finals n f) n t' w = 1).
Proof.
  unfold task_events, task_total, body_events, body_total.
  destruct t' as [b|f' cb|tok cb].
  - split_and!; [occ_cases..|done].
  - destruct cb; (split_and!; [unfold finals; occ_cases..|]);
      intros cb' [= -> <-]; unfold finals; occ_cases.
  - destruct (is_aborted tok w); [split_and!; [occ_cases..|done]|].
    destruct (lastFrame w); [|split_and!; [occ_cases..|done]].
    destruct cb; (split_and!; [unfold finals; occ_cases..|done]).
Qed.

Lemma task_total_finally φ n' t' w :
  (∀ m g, φ (HFinally m g) = 0) → task_total φ n' t' w = 0.
Proof.
  intros H. unfold task_total, body_total. destruct t' as [b|f' cb|tok cb].
  - done.
  - by destruct cb.
  - destruct (is_aborted tok w); [done|]. destruct (lastFrame w); [|done].
    by destruct cb.
Qed.

Lemma enqueue_balance t' w :
  (disposed w = false → n ≠ tickets w) →
  enqueue_total (waits n) t' w = 0 ∧ enqueue_total (strays n t) t' w = 0 ∧
  enqueue_total (finals n f) t' w = 0 ∧
  occ (EvInvoke n) (enqueue_events t' w) = 0 ∧
  occ (EvClose (Some n) f) (enqueue_events t' w) = 0.
Proof.
  unfold enqueue_total, enqueue_events. intros Hn.
  destruct (disposed w); [done|]. specialize (Hn eq_refl).
  destruct (ready w).
  - unfold waits, strays, finals. split_and!; occ_cases.
  - destruct (task_start_other (tickets w) t' w) as (? & ? & ?); [done|].
    split_and!; [by apply task_total_finally..|done|done|done].
Qed.

Lemma handle_balance k o w :
  handle_total (waits n) k o w = 0 ∧ handle_total (strays n t) k o w = 0 ∧
  occ (EvInvoke n) (handle_events k o w) ≤ waits n k ∧
  occ (EvClose (Some n) f) (handle_events k o w)
    + handle_total (finals n f) k o w
    ≤ occ (EvInvoke n) (handle_events k o w) + finals n f k ∧
  (∀ cb, t = TDraw f cb → strays n t k = 0 →
     occ (EvClose (Some n) f) (handle_events k o w)
       + handle_total (finals n f) k o w
     = occ (EvInvoke n) (handle_events k o w) + finals n f k).
Proof.
  unfold handle_total, handle_events.
  destruct k as [bail| |n' t'|bail| |n' f']; try (by split_and!).
  - destruct o; [|split_and!; simpl; try done; lia].
    destruct (disposed w); [split_and!; simpl; try done; lia|].
    rewrite (task_total_finally (waits n)) by done.
    rewrite (task_total_finally (strays n t)) by done.
    destruct (decide (n' = n)) as [->|Hn].
    + destruct (task_start_same t' w) as (Hi & Hle & Heq).
      rewrite Hi. unfold waits at 1. rewrite decide_True by done.
      change (finals n f (HRunTask n t')) with 0.
      split_and!; [done|done|done|lia|].
      intros cb -> Hs. rewrite Nat.add_0_r.
      apply (Heq cb). unfold strays in Hs.
      destruct (decide (t' = TDraw f cb)) as [|Hne]; [done|].
      by rewrite decide_True in Hs.
    + destruct (task_start_other n' t' w Hn) as (Hi & Hc & Ht).
      rewrite Hi, Hc, Ht. change (finals n f (HRunTask n' t')) with 0.
      split_and!; [done|done|lia|lia|]. by intros _ _ _.
  - split_and!; [by destruct o|by destruct o|simpl; occ_cases|..].
    + destruct o; unfold finals; occ_cases.
    + intros _ _ _. destruct o; unfold finals; occ_cases.
Qed.

Lemma close_events_other w :
  occ (EvInvoke n) (close_events w) = 0 ∧
  occ (EvClose (Some n) f) (close_events w) = 0.
Proof. unfold close_events. destruct (lastFrame w); split; occ_cases. Qed.

(** The balance of one operation for submission [n]: nothing waits anew
    under ticket [n], the task body starts only when its reaction is
    consumed, and the frame is closed only by a starting body or by a
    consumed [finally] block. *)
Lemma op_balance (a : op) w :
  (submits a w = true → n ≠ tickets w) →
  op_total (waits n) a w = 0 ∧ op_total (strays n t) a w = 0 ∧
  occ (EvInvoke n) (op_events a w) ≤ popped (waits n) a w ∧
  occ (EvClose (Some n) f) (op_events a w) + op_total (finals n f) a w
    ≤ occ (EvInvoke n) (op_events a w) + popped (finals n f) a w ∧
  (∀ cb, t = TDraw f cb → popped (strays n t) a w = 0 →
     occ (EvClose (Some n) f) (op_events a w) + op_total (finals n f) a w
     = occ (EvInvoke n) (op_events a w) + popped (finals n f) a w).
Proof.
  intros Hn.
  destruct a as [b bail| |f' cb'|cb'| |q o|];
    unfold popped; cbn [op_total op_events submits] in *.
  - destruct (enqueue_balance (TExternal b) w) as (-> & -> & -> & -> & ->).
    { intros Hd. apply Hn. by rewrite Hd. }
    by split_and!.
  - by split_and!.
  - destruct (enqueue_balance (TDraw f' cb') w) as (-> & -> & -> & Hi & Hc).
    { intros Hd. apply Hn. by rewrite Hd. }
    destruct (close_events_other w) as [Hi' Hc'].
    unfold occ in *. rewrite !count_occ_app, Hi, Hc, Hi', Hc'.
    by split_and!.
  - destruct (lastFrame w) as [lf|]; [|by split_and!].
    destruct (pendingRedraw w); [by split_and!|].
    destruct (enqueue_balance (TRedraw (length (aborted w)) cb') (redraw_world w))
      as (-> & -> & -> & -> & ->).
    { intros Hd. apply Hn. change (disposed (redraw_world w)) with (disposed w) in Hd.
      by rewrite Hd. }
    by split_and!.
  - destruct (close_events_other w) as [-> ->]. by split_and!.
  - by split_and!.
  - unfold step_events.
    destruct (jobs w) as [|[[k d] o|d q] js]; [by split_and!| |by split_and!].
    apply handle_balance.
Qed.

End balance.

(** Nothing has happened yet under the tickets still to be handed out. *)
Definition fresh (w : world) : Prop :=
  ∀ n, tickets w ≤ n →
    occ (EvInvoke n) (trace w) = 0 ∧ total (waits n) w = 0 ∧
    ∀ f, occ (EvClose (Some n) f) (trace w) = 0 ∧ total (finals n f) w = 0.

Section frames.
Implicit Types (w : world) (n : nat) (f : frame) (cb : callback).

Lemma fresh_init : fresh init.
Proof. intros n _. by split_and!. Qed.

Lemma fresh_apply (a : op) w : wf w → fresh w → fresh (apply a w).
Proof.
  intros Hwf Hf n Hn.
  pose proof (tickets_apply a w) as Ht.
  assert (tickets w ≤ n ∧ (submits a w = true → n ≠ tickets w)) as [Hle Hs].
  { destruct (submits a w); split; try done; lia. }
  destruct (Hf n Hle) as (Hi & Hw & Hc).
  pose proof (total_apply (waits n) (plain_waits n) a w Hwf) as Tw.
  destruct (op_balance n (FInput 0) (TExternal BAsync) a w Hs)
    as (Bw & _ & Bi & _).
  rewrite occ_apply. split_and!; [lia|lia|]. intros f.
  destruct (Hc f) as [Hcf Hff].
  pose proof (total_apply (finals n f) (plain_finals n f) a w Hwf) as Tf.
  destruct (op_balance n f (TExternal BAsync) a w Hs) as (_ & _ & _ & Bc & _).
  rewrite occ_apply. lia.
Qed.

Lemma fresh_reachable w : reachable w → fresh w.
Proof.
  induction 1 as [|a w Hw IH]; [apply fresh_init|].
  apply fresh_apply; [by apply wf_reachable|done].
Qed.

Lemma total_pos φ w :
  0 < total φ w → ∃ r, r ∈ settlers w ∧ 0 < φ (r_handler r).
Proof.
  unfold total. generalize (settlers w). intros l.
  induction l as [|x l IH]; simpl; [lia|]. intros H.
  destruct (decide (0 < φ (r_handler x))) as [Hx|Hx].
  - exists x. split; [by left|done].
  - destruct IH as (r & Hr & Hp); [lia|]. exists r. split; [by right|done].
Qed.

(** With an empty job queue, a [finally] block still to run is parked on
    a pending promise. *)
Lemma finals_parked n f w :
  jobs w = [] → 0 < total (finals n f) w →
  ∃ q rs og d, heap w !! q = Some (Cell (Pending rs) og) ∧
               Reaction (HFinally n f) d ∈ rs.
Proof.
  intros Hj (r & Hr & Hp)%total_pos.
  unfold settlers in Hr. rewrite Hj, app_nil_r in Hr.
  apply list_elem_of_bind in Hr as (c & Hrc & Hc).
  apply list_elem_of_lookup_1 in Hc as [q Hq].
  destruct c as [[rs|o] og]; [|by apply elem_of_nil in Hrc].
  destruct r as [k d]. simpl in Hp. unfold finals in Hp.
  destruct k as [| | | | |m g]; try lia.
  case_decide as Hm; [|lia]. destruct Hm as [-> ->].
  by exists q, rs, og, d.
Qed.

End frames.

(** C2, at an input where the code departs from it.  [draw] promises that
    the frame will be closed after drawing, and its task closes the frame
    in a [finally] block; but the task is submitted with [bail = true].
    The callback of the first [draw] throws, which poisons the queue; the
    task of the second [draw] is then never invoked, and once no microtask
    is left its frame has been closed by nobody. *)
Lemma frame_leaks_on_poisoned_queue :
  let w := run ([ODraw (FInput 1) (CbThrow E1)] ++ repeat OStep 3 ++
                [ODraw (FInput 2) CbReturn] ++ repeat OStep 6) init in
  disposed w = false ∧ jobs w = [] ∧
  trace w = [EvInvoke 0; EvCallback 0 None (FInput 1);
             EvClose (Some 0) (FInput 1); EvClose None (FClone (FInput 1) 0)] ∧
  (∀ by_task, EvClose by_task (FInput 2) ∉ trace w) ∧
  fuel w = 0.
Proof.
  intros w.
  assert (trace w = [EvInvoke 0; EvCallback 0 None (FInput 1);
            EvClose (Some 0) (FInput 1); EvClose None (FClone (FInput 1) 0)])
    as Ht by (by vm_compute).
  split_and!; [by vm_compute|by vm_compute|exact Ht| |by vm_compute].
  intros by_task. rewrite Ht. clear. set_solver.
Qed.

(** * RedrawController: the pending redraw and the last frame *)

(** ** What each operation does to the controller's fields *)

(** [#pendingRedraw] after a task body has started. *)
Definition task_pending (t : task) (w : world) : option nat :=
  match t with
  | TRedraw tok _ => if is_aborted tok w then pendingRedraw w else None
  | _ => pendingRedraw w
  end.

(** The number of clones made once a task body has started. *)
Definition task_clones (t : task) (w : world) : nat :=
  match t with
  | TRedraw tok _ =>
      if is_aborted tok w then clones w
      else match lastFrame w with
           | Some _ => S (clones w)
           | None => clones w
           end
  | _ => clones w
  end.

Definition handle_pending (k : handler) (o : outcome) (w : world)
    : option nat :=
  match k, o with
  | HRunTask _ t, Fulfilled _ =>
      if disposed w then pendingRedraw w else task_pending t w
  | _, _ => pendingRedraw w
  end.

Definition enqueue_pending (t : task) (w : world) : option nat :=
  if disposed w then pendingRedraw w
  else match ready w with
       | None => task_pending t w
       | Some _ => pendingRedraw w
       end.

Definition enqueue_clones (t : task) (w : world) : nat :=
  if disposed w then clones w
  else match ready w with
       | None => task_clones t w
       | Some _ => clones w
       end.

Definition op_pending (a : op) (w : world) : option nat :=
  match a with
  | ODraw _ _ => None
  | ORedraw cb =>
      match lastFrame w, pendingRedraw w with
      | Some _, None =>
          enqueue_pending (TRedraw (length (aborted w)) cb) (redraw_world w)
      | _, _ => pendingRedraw w
      end
  | OStep =>
      match jobs w with
      | JReaction r o :: _ => handle_pending (r_handler r) o w
      | _ => pendingRedraw w
      end
  | _ => pendingRedraw w
  end.

Definition op_aborted (a : op) (w : world) : list bool :=
  match a with
  | ODraw _ _ | OCtlDispose => aborted (RedrawController.abort_pending w)
  | ORedraw _ =>
      match lastFrame w, pendingRedraw w with
      | Some _, None => aborted w ++ [false]
      | _, _ => aborted w
      end
  | _ => aborted w
  end.

Section slots.
Implicit Types (w : world) (p d : pid) (c : completion) (t : task).

Definition same_slot (w w' : world) : Prop :=
  pendingRedraw w' = pendingRedraw w ∧ clones w' = clones w.

Lemma same_slot_trans w w' w'' :
  same_slot w w' → same_slot w' w'' → same_slot w w''.
Proof. intros [??] [??]. split; congruence. Qed.

Lemma settle_slot p o w : same_slot w (settle p o w).
Proof. by destruct (settle_fields p o w) as (_&_&?&_&_&?&_). Qed.

Lemma subscribe_slot p (r : reaction) w : same_slot w (subscribe p r w).
Proof. by destruct (subscribe_fields p r w) as (_&_&?&_&_&?&_). Qed.

Lemma then_slot p k w : same_slot w (then_ p k w).2.
Proof. by destruct (then_fields p k w) as (_&_&?&_&_&?&_). Qed.

Lemma draw_body_slot n tok f cb p w : same_slot w (draw_body n tok f cb p w).
Proof.
  unfold draw_body, close_frame. destruct cb; simpl.
  - apply (subscribe_slot _ _ (alloc _ (log _ w)).2).
  - apply (settle_slot _ _ (log _ (log _ w))).
  - apply (subscribe_slot _ _ (alloc _ (log _ w)).2).
Qed.

Lemma call_task_slot n t w :
  pendingRedraw (call_task n t w).2 = task_pending t w ∧
  clones (call_task n t w).2 = task_clones t w.
Proof.
  unfold call_task, task_pending, task_clones.
  destruct t as [[]| |tok cb]; simpl; try done.
  - apply (draw_body_slot _ _ _ _ _ (alloc _ (log _ w)).2).
  - change (is_aborted tok (set_heap _ (log (EvInvoke n) w)))
      with (is_aborted tok w).
    destruct (is_aborted tok w); simpl.
    { apply (settle_slot _ _ (alloc _ (log _ w)).2). }
    destruct (lastFrame w) eqn:E; simpl.
    + apply (draw_body_slot _ _ _ _ _
        (set_clones _ (set_pendingRedraw None (alloc _ (log _ w)).2))).
    + apply (settle_slot _ _ (set_pendingRedraw None (alloc _ (log _ w)).2)).
Qed.

Lemma resolve_slot d c w : same_slot w (resolve d c w).
Proof. destruct c; simpl; try apply settle_slot. done. Qed.

Lemma resolve_flags d c w : same_flags w (resolve d c w).
Proof. destruct c; simpl; try apply settle_flags. done. Qed.

Lemma settle_pending p o w : pendingRedraw (settle p o w) = pendingRedraw w.
Proof. by destruct (settle_slot p o w). Qed.

Lemma run_reaction_pending k d o w :
  pendingRedraw (run_reaction (Reaction k d) o w) = handle_pending k o w.
Proof.
  unfold run_reaction, handle_pending; simpl.
  destruct k as [bail| |n t|bail| |n f]; simpl;
    try (destruct o; try destruct bail; try destruct (disposed w); simpl;
         by rewrite ?settle_pending).
  destruct o; simpl; [|apply settle_pending].
  destruct (disposed w); simpl; [apply settle_pending|].
  destruct (call_task_slot n t w) as [H _].
  destruct (call_task n t w) as [c w1]. simpl in H.
  by destruct (resolve_slot d c w1) as [-> _].
Qed.

Lemma run_reaction_flags k d o w :
  same_flags w (run_reaction (Reaction k d) o w).
Proof.
  unfold run_reaction; simpl.
  assert (∀ c w1, same_flags w w1 → same_flags w (resolve d c w1)) as Hres.
  { intros c w1 H. eapply same_flags_trans; [exact H|apply resolve_flags]. }
  destruct (handle k o w) as [c w1] eqn:Hh. apply Hres.
  unfold handle in Hh.
  destruct k as [bail| |n t|bail| |n f];
    try (destruct o; try destruct bail; try destruct (disposed w) eqn:?;
         by simplify_eq/=).
  destruct o; [|by simplify_eq/=].
  destruct (disposed w) eqn:Hd; [by simplify_eq/=|].
  pose proof (call_task_flags n t w) as H. by rewrite Hh in H.
Qed.

Lemma step_flags w : same_flags w (step w).
Proof.
  unfold step. destruct (jobs w) as [|[[k d] o|d q] js]; [done|..].
  - apply (run_reaction_flags k d o (set_jobs js w)).
  - simpl. apply (subscribe_flags _ _ (set_jobs js w)).
Qed.

Lemma enqueue_slot t bail w :
  pendingRedraw (TaskQueue.enqueue t bail w).2 = enqueue_pending t w ∧
  clones (TaskQueue.enqueue t bail w).2 = enqueue_clones t w.
Proof.
  unfold TaskQueue.enqueue, enqueue_pending, enqueue_clones.
  destruct (disposed w); [done|].
  set (w0 := set_tickets _ w). change (ready w0) with (ready w).
  destruct (ready w) as [r|].
  - pose proof (then_slot r (HRunTask (tickets w) t) w0) as [P1 C1].
    destruct (then_ r _ w0) as [result w1]. cbn [snd] in P1, C1.
    pose proof (then_slot result (HReadyChain bail) w1) as [P2 C2].
    destruct (then_ result _ w1) as [r' w2]. cbn [snd] in P2, C2 |- *.
    simpl. by rewrite P2, P1, C2, C1.
  - pose proof (call_task_slot (tickets w) t w0) as [P1 C1].
    change (task_pending t w0) with (task_pending t w) in P1.
    change (task_clones t w0) with (task_clones t w) in C1.
    destruct (call_task _ _ w0) as [[v|e|q] w1]; cbn [snd] in P1, C1 |- *;
      try done.
    + destruct bail; [|done].
      set (cl := Cell (Settled (Rejected e)) OReject).
      change (alloc cl w1) with (length (heap w1), (alloc cl w1).2).
      cbv beta iota.
      pose proof (then_slot (length (heap w1)) HSuppress (alloc cl w1).2)
        as [P2 C2].
      destruct (then_ _ HSuppress _) as [r' w3]. cbn [snd] in P2, C2 |- *.
      simpl. by rewrite P2, C2.
    + pose proof (then_slot q (HReadyIdle bail) w1) as [P2 C2].
      destruct (then_ q _ w1) as [r' w2]. cbn [snd] in P2, C2 |- *.
      simpl. by rewrite P2, C2.
Qed.

End slots.

Section controller_fields.
Implicit Types (w : world) (p d : pid) (c : completion) (t : task).

Lemma enqueue_pending_other t w :
  (∀ tok cb, t ≠ TRedraw tok cb) → enqueue_pending t w = pendingRedraw w.
Proof.
  intros Ht. unfold enqueue_pending, task_pending.
  destruct (disposed w), (ready w), t; try done. by destruct (Ht tok cb).
Qed.

Lemma enqueue_clones_other t w :
  (∀ tok cb, t ≠ TRedraw tok cb) → enqueue_clones t w = clones w.
Proof.
  intros Ht. unfold enqueue_clones, task_clones.
  destruct (disposed w), (ready w), t; try done. by destruct (Ht tok cb).
Qed.

(** What [draw] has done to the controller when it returns. *)
Lemma draw_fields f cb w :
  let w' := (RedrawController.draw f cb w).2 in
  lastFrame w' = Some (FClone f (clones w)) ∧ clones w' = S (clones w) ∧
  pendingRedraw w' = None ∧
  aborted w' = aborted (RedrawController.abort_pending w) ∧
  disposed w' = disposed w.
Proof.
  unfold RedrawController.draw, clone. cbv beta iota zeta.
  destruct (abort_pending_fields w) as (_&_&_&Ad&_&_&Ac&_).
  set (w1 := set_pendingRedraw None (RedrawController.abort_pending w)).
  destruct (close_last_fields w1) as (_&_&_&Cd&Cp&_&Cc&_&Ca&_).
  set (w2 := RedrawController.close_last w1) in *.
  set (w3 := set_lastFrame _ _).
  destruct (enqueue_flags (TDraw f cb) true w3) as (Ed & El & Ea).
  destruct (enqueue_slot (TDraw f cb) true w3) as [Ep Ec].
  rewrite enqueue_pending_other in Ep by done.
  rewrite enqueue_clones_other in Ec by done.
  rewrite El, Ec, Ep, Ea, Ed. unfold w3; simpl.
  rewrite Cc, Cp, Ca, Cd. unfold w1; simpl. by rewrite Ac, Ad.
Qed.

Lemma pending_apply (a : op) w : pendingRedraw (apply a w) = op_pending a w.
Proof.
  destruct a as [b bail| |f cb|cb| |q o|]; cbn [apply op_pending].
  - destruct (enqueue_slot (TExternal b) bail w) as [-> _].
    by apply enqueue_pending_other.
  - done.
  - by destruct (draw_fields f cb w) as (_ & _ & ? & _).
  - unfold RedrawController.redraw.
    set (cl := Cell (Pending []) OAsync).
    change (alloc cl w) with (length (heap w), (alloc cl w).2).
    cbv beta iota.
    change (lastFrame (alloc cl w).2) with (lastFrame w).
    change (pendingRedraw (alloc cl w).2) with (pendingRedraw w).
    destruct (lastFrame w) as [lf|];
      [|cbn [snd]; apply (settle_pending _ _ (alloc cl w).2)].
    destruct (pendingRedraw w) eqn:Hp.
    { cbn [snd]. rewrite (settle_pending _ _ (alloc cl w).2). exact Hp. }
    unfold new_token. cbv beta iota.
    change (set_pendingRedraw _ _) with (redraw_world w).
    destruct (enqueue_slot (TRedraw (length (aborted w)) cb) true
                (redraw_world w)) as [<- _].
    destruct (TaskQueue.enqueue _ true (redraw_world w)) as [[v|e|r] w4];
      cbn [snd].
    + set (cx := Cell (Settled (Fulfilled v)) OAwait).
      change (alloc cx w4) with (length (heap w4), (alloc cx w4).2).
      cbv beta iota. cbn [snd].
      by destruct (subscribe_slot (length (heap w4))
                     (Reaction HForward (length (heap w))) (alloc cx w4).2).
    + apply settle_pending.
    + by destruct (subscribe_slot r (Reaction HForward (length (heap w))) w4).
  - unfold RedrawController.dispose, TaskQueue.dispose.
    destruct (abort_pending_fields w) as (_&_&_&_&Ap&_).
    destruct (close_last_fields (RedrawController.abort_pending w))
      as (_&_&_&_&Cp&_).
    simpl. congruence.
  - unfold settle_external.
    destruct (heap w !! q) as [[[rs|o'] []]|]; try done. apply settle_pending.
  - unfold step. destruct (jobs w) as [|[[k d] o|d q] js]; [done|..].
    + apply (run_reaction_pending k d o (set_jobs js w)).
    + by destruct (subscribe_slot q (Reaction HForward d) (set_jobs js w)).
Qed.

Lemma aborted_apply (a : op) w : aborted (apply a w) = op_aborted a w.
Proof.
  destruct a as [b bail| |f cb|cb| |q o|]; cbn [apply op_aborted].
  - by destruct (enqueue_flags (TExternal b) bail w) as (_ & _ & ?).
  - done.
  - by destruct (draw_fields f cb w) as (_ & _ & _ & ? & _).
  - unfold RedrawController.redraw.
    set (cl := Cell (Pending []) OAsync).
    change (alloc cl w) with (length (heap w), (alloc cl w).2).
    cbv beta iota.
    change (lastFrame (alloc cl w).2) with (lastFrame w).
    change (pendingRedraw (alloc cl w).2) with (pendingRedraw w).
    destruct (lastFrame w) as [lf|];
      [|cbn [snd]; by destruct (settle_flags (length (heap w))
                         (Fulfilled VUndefined) (alloc cl w).2) as (_&_&?)].
    destruct (pendingRedraw w);
      [cbn [snd]; by destruct (settle_flags (length (heap w))
                        (Fulfilled VUndefined) (alloc cl w).2) as (_&_&?)|].
    unfold new_token. cbv beta iota.
    change (set_pendingRedraw _ _) with (redraw_world w).
    destruct (enqueue_flags (TRedraw (length (aborted w)) cb) true
                (redraw_world w)) as (_ & _ & Ha).
    change (aborted (redraw_world w)) with (aborted w ++ [false]) in Ha.
    rewrite <- Ha.
    destruct (TaskQueue.enqueue _ true (redraw_world w)) as [[v|e|r] w4];
      cbn [snd].
    + set (cx := Cell (Settled (Fulfilled v)) OAwait).
      change (alloc cx w4) with (length (heap w4), (alloc cx w4).2).
      cbv beta iota. cbn [snd].
      by destruct (subscribe_flags (length (heap w4))
                     (Reaction HForward (length (heap w))) (alloc cx w4).2)
        as (_&_&?).
    + by destruct (settle_flags (length (heap w)) (Rejected e) w4) as (_&_&?).
    + by destruct (subscribe_flags r (Reaction HForward (length (heap w))) w4)
        as (_&_&?).
  - unfold RedrawController.dispose, TaskQueue.dispose.
    by destruct (close_last_fields (RedrawController.abort_pending w))
      as (_&_&_&_&_&_&_&_&?&_).
  - unfold settle_external.
    destruct (heap w !! q) as [[[rs|o'] []]|]; try done.
    by destruct (settle_flags q o w) as (_&_&?).
  - by destruct (step_flags w) as (_&_&?).
Qed.

(** While only microtasks run and promises settle, the controller's fields
    stay as they are, except that a starting redraw clears the slot. *)
Lemma quiet_fields (a : op) w :
  quiet a →
  same_flags w (apply a w) ∧
  (pendingRedraw (apply a w) = pendingRedraw w ∨
   pendingRedraw (apply a w) = None).
Proof.
  intros Hq. rewrite pending_apply.
  destruct a as [| | | | |q o|]; try done; cbn [apply op_pending].
  - split; [|by left]. unfold settle_external.
    destruct (heap w !! q) as [[[rs|o'] []]|]; try done. apply settle_flags.
  - split; [apply step_flags|].
    destruct (jobs w) as [|[[k d] o|d q] js]; [by left| |by left].
    unfold handle_pending, task_pending; simpl.
    destruct k as [| |n [| |tok cb]| | |], o; try (by left);
      destruct (disposed w); try (by left).
    destruct (is_aborted tok w); [by left|by right].
Qed.

Lemma quiet_fields_run ops w :
  Forall quiet ops → pendingRedraw w = None →
  same_flags w (run ops w) ∧ pendingRedraw (run ops w) = None.
Proof.
  revert w. induction ops as [|a ops IH]; intros w Hq Hp; simpl; [done|].
  apply Forall_cons in Hq as [Ha Hq].
  destruct (quiet_fields a w Ha) as [F P].
  assert (pendingRedraw (apply a w) = None) as Hp1
    by (destruct P; congruence).
  destruct (IH (apply a w) Hq Hp1) as [F' P'].
  split; [by eapply same_flags_trans|done].
Qed.

End controller_fields.

(** C10 (amended).  [draw(f)] aborts and clears the pending redraw, closes
    the previous [lastFrame] and stores a fresh clone of [f] in [lastFrame],
    all before the draw task is enqueued.  Whatever the queue then does
    with the task while microtasks run and promises settle (it runs the
    task, skips it, or has rejected it), these fields stay as [draw] left
    them. *)
Theorem draw_replaces_last_frame
    (f : frame) (cb : callback) (w : world) (ops : list op) :
  Forall quiet ops →
  let w1 := (RedrawController.draw f cb w).2 in
  let w' := run ops w1 in
  trace w1 = trace w ++ close_events w ++ enqueue_events (TDraw f cb) w ∧
  lastFrame w' = Some (FClone f (clones w)) ∧
  pendingRedraw w' = None ∧
  aborted w' = aborted (RedrawController.abort_pending w) ∧
  disposed w' = disposed w.
Proof.
  intros Hq w1 w'.
  destruct (draw_fields f cb w) as (Hl & _ & Hp & Ha & Hd).
  destruct (quiet_fields_run ops w1 Hq Hp) as [(Fd & Fl & Fa) Hp'].
  fold w1 in Hl, Hp, Ha, Hd. fold w' in Fd, Fl, Fa, Hp'.
  split_and!; [apply trace_draw|congruence..].
Qed.

Lemma draw_replaces_last_frame_witness :
  let w := run ([ODraw (FInput 1) (CbThrow E1)] ++ repeat OStep 3) init in
  let w' := run (repeat OStep 6) (RedrawController.draw (FInput 2) CbReturn w).2 in
  lastFrame w' = Some (FClone (FInput 2) 1) ∧ ¬ invoked w' 1.
Proof.
  intros w w'.
  destruct (draw_replaces_last_frame (FInput 2) CbReturn w (repeat OStep 6))
    as (_ & H & _).
  { by repeat constructor. }
  split; [exact H|]. intros Hi. vm_compute in Hi. clear -Hi. set_solver.
Defined.

(** C10 as stated fails: [draw] changes another field of the controller.
    The first draw fails and poisons the queue; a redraw is then pending
    with token 0; the task of the second draw is skipped, yet the call has
    aborted the token and cleared [#pendingRedraw]. *)
Lemma skipped_draw_clears_pending_redraw :
  let w := run ([ODraw (FInput 1) (CbThrow E1)] ++ repeat OStep 3 ++
                [ORedraw CbReturn]) init in
  let w' := run (repeat OStep 12)
                (RedrawController.draw (FInput 2) CbReturn w).2 in
  pendingRedraw w = Some 0 ∧ is_aborted 0 w = false ∧
  pendingRedraw w' = None ∧ is_aborted 0 w' = true ∧
  jobs w' = [] ∧
  trace w' = [EvInvoke 0; EvCallback 0 None (FInput 1);
              EvClose (Some 0) (FInput 1);
              EvClose None (FClone (FInput 1) 0)].
Proof. by vm_compute. Qed.

(** ** Redraw tokens *)

(** The weight of a waiting redraw whose token is not among the first [L]
    tokens. *)
Definition unknown_token (L : nat) (k : handler) : nat :=
  match k with
  | HRunTask _ (TRedraw tok _) => if decide (tok < L) then 0 else 1
  | _ => 0
  end.

(** Every token in use has been created; a redraw whose body has run is
    not the pending one. *)
Record redraws (w : world) : Prop := {
  rd_known : total (unknown_token (length (aborted w))) w = 0;
  rd_slot tok : pendingRedraw w = Some tok → tok < length (aborted w);
  rd_ran n tok g :
    EvCallback n (Some tok) g ∈ trace w →
    tok < length (aborted w) ∧ pendingRedraw w ≠ Some tok
}.

Section tokens.
Implicit Types (w : world) (a : op) (t : task) (tok : nat).

Lemma plain_unknown L : plain (unknown_token L).
Proof. by split_and!. Qed.

Lemma popped_le φ a w : popped φ a w ≤ total φ w.
Proof.
  unfold popped. destruct a; try lia.
  destruct (jobs w) as [|[r o|] js] eqn:Hj; try lia.
  apply total_elem. unfold settlers. rewrite Hj. simpl.
  apply elem_of_app. right. by left.
Qed.

Lemma length_op_aborted a w : length (aborted w) ≤ length (op_aborted a w).
Proof.
  unfold op_aborted, RedrawController.abort_pending.
  destruct a; try done.
  - destruct (pendingRedraw w); simpl; [by rewrite length_insert|done].
  - destruct (lastFrame w); [|done]. destruct (pendingRedraw w); [done|].
    rewrite length_app. simpl. lia.
  - destruct (pendingRedraw w); simpl; [by rewrite length_insert|done].
Qed.

Lemma is_aborted_new w :
  is_aborted (length (aborted w)) (redraw_world w) = false.
Proof.
  unfold is_aborted, redraw_world; simpl.
  by rewrite lookup_app_r, Nat.sub_diag.
Qed.

(** An aborted token stays aborted. *)
Lemma is_aborted_apply a w tok :
  is_aborted tok w = true → is_aborted tok (apply a w) = true.
Proof.
  unfold is_aborted. rewrite aborted_apply. intros H.
  destruct (aborted w !! tok) as [b|] eqn:Hb; [|done]. simpl in H. subst b.
  assert (∀ w', aborted w' = aborted w →
    default false (aborted (RedrawController.abort_pending w') !! tok) = true)
    as Habort.
  { intros w' Hw'. unfold RedrawController.abort_pending.
    destruct (pendingRedraw w') as [tok'|]; simpl; rewrite Hw'; [|by rewrite Hb].
    destruct (decide (tok' = tok)) as [->|Hne].
    - rewrite list_lookup_insert_eq; [done|by eapply lookup_lt_Some].
    - by rewrite list_lookup_insert_ne, Hb. }
  unfold op_aborted. destruct a; try (by rewrite Hb); try (by apply Habort).
  destruct (lastFrame w); [|by rewrite Hb].
  destruct (pendingRedraw w); [by rewrite Hb|].
  by rewrite (lookup_app_l_Some _ _ _ _ Hb).
Qed.

Lemma op_total_unknown a w :
  op_total (unknown_token (length (op_aborted a w))) a w = 0.
Proof.
  assert (∀ L t w', (∀ tok cb, t = TRedraw tok cb → tok < L) →
            enqueue_total (unknown_token L) t w' = 0) as Henq.
  { intros L t w' Ht. unfold enqueue_total.
    destruct (disposed w'); [done|]. destruct (ready w').
    - unfold unknown_token. destruct t as [| |tok cb]; try done.
      rewrite decide_True; [done|by eapply Ht].
    - by apply task_total_finally. }
  destruct a as [b bail| |f cb|cb| |q o|]; cbn [op_total]; try done.
  - by apply Henq.
  - by apply Henq.
  - unfold op_aborted.
    destruct (lastFrame w); [|done]. destruct (pendingRedraw w); [done|].
    apply Henq. intros tok cb' [= <- _]. rewrite length_app. simpl. lia.
  - destruct (jobs w) as [|[[k d] o|] js]; try done.
    unfold handle_total; simpl. destruct k; try done. destruct o; [|done].
    destruct (disposed w); [done|]. by apply task_total_finally.
Qed.

(** The slot holds what it held, or nothing, or a token just created. *)
Lemma op_pending_some a w tok :
  op_pending a w = Some tok →
  pendingRedraw w = Some tok ∨
  (tok = length (aborted w) ∧
   length (op_aborted a w) = S (length (aborted w))).
Proof.
  unfold op_pending, op_aborted. destruct a as [| | |cb| | |]; try (by left).
  - destruct (lastFrame w); [|by left].
    destruct (pendingRedraw w) eqn:Hp; [by left|].
    unfold enqueue_pending, task_pending.
    change (disposed (redraw_world w)) with (disposed w).
    change (ready (redraw_world w)) with (ready w).
    change (pendingRedraw (redraw_world w)) with (Some (length (aborted w))).
    rewrite is_aborted_new, length_app. simpl.
    destruct (disposed w); [intros [= <-]; right; split; [done|lia]|].
    destruct (ready w); [intros [= <-]; right; split; [done|lia]|done].
  - destruct (jobs w) as [|[[k d] o|] js]; try (by left).
    unfold handle_pending, task_pending; simpl.
    destruct k as [| |n [| |tok' cb]| | |], o; try (by left);
      destruct (disposed w); try (by left).
    destruct (is_aborted tok' w); [by left|done].
Qed.

(** The body of a redraw runs only for a token that is not aborted. *)
Lemma task_events_callback n t w m tok g :
  EvCallback m (Some tok) g ∈ task_events n t w →
  ∃ cb, t = TRedraw tok cb ∧ is_aborted tok w = false.
Proof.
  unfold task_events, body_events. intros [?|H]%elem_of_cons; [done|].
  destruct t as [b|f cb|tok' cb].
  - by apply elem_of_nil in H.
  - destruct cb; set_solver.
  - destruct (is_aborted tok' w) eqn:Ha; [by apply elem_of_nil in H|].
    destruct (lastFrame w); [|by apply elem_of_nil in H].
    assert (tok' = tok) as -> by (destruct cb; set_solver). eauto.
Qed.

Lemma op_events_callback a w n tok g :
  EvCallback n (Some tok) g ∈ op_events a w →
  is_aborted tok w = false ∧ op_pending a w = None ∧
  ((∃ cb, a = ORedraw cb) ∨ a = OStep) ∧
  (popped (unknown_token (length (aborted w))) a w = 0 →
   tok < length (op_aborted a w)).
Proof.
  assert (∀ t w', EvCallback n (Some tok) g ∈ enqueue_events t w' →
    disposed w' = false ∧ ready w' = None ∧
    ∃ cb, t = TRedraw tok cb ∧ is_aborted tok w' = false) as Henq.
  { intros t w'. unfold enqueue_events.
    destruct (disposed w'); [by intros ?%elem_of_nil|].
    destruct (ready w'); [by intros ?%elem_of_nil|].
    intros H%task_events_callback. by split_and!. }
  destruct a as [b bail| |f cb|cb| |q o|]; cbn [op_events].
  - by intros (_ & _ & cb & ? & _)%Henq.
  - by intros ?%elem_of_nil.
  - intros [H|H]%elem_of_app.
    + unfold close_events in H. destruct (lastFrame w); set_solver.
    + by apply Henq in H as (_ & _ & cb' & ? & _).
  - unfold op_pending, op_aborted, popped.
    destruct (lastFrame w); [|by intros ?%elem_of_nil].
    destruct (pendingRedraw w); [by intros ?%elem_of_nil|].
    intros (Hd & Hr & cb' & [= <- <-] & Ha)%Henq.
    unfold enqueue_pending, task_pending. rewrite Hd, Hr, Ha.
    split_and!; [|done|left; eauto|intros _; rewrite length_app; simpl; lia].
    unfold is_aborted. by rewrite lookup_ge_None_2.
  - unfold close_events. destruct (lastFrame w); set_solver.
  - by intros ?%elem_of_nil.
  - unfold step_events, op_pending, op_aborted, popped.
    destruct (jobs w) as [|[[k d] o|] js]; try (by intros ?%elem_of_nil).
    unfold handle_events, handle_pending; simpl.
    destruct k as [| |n' t| | |n' f']; try (by intros ?%elem_of_nil).
    + destruct o; [|by intros ?%elem_of_nil].
      destruct (disposed w); [by intros ?%elem_of_nil|].
      intros (cb & -> & Ha)%task_events_callback.
      unfold task_pending, unknown_token. rewrite Ha.
      split_and!; [done|done|by right|]. by case_decide.
    + set_solver.
Qed.

Lemma redraws_init : redraws init.
Proof. split; [done|done|]. by intros n tok g ?%elem_of_nil. Qed.

Lemma redraws_apply a w : wf w → redraws w → redraws (apply a w).
Proof.
  intros Hwf [Hk Hs Hr].
  pose proof (length_op_aborted a w) as HL.
  split; rewrite ?aborted_apply, ?pending_apply.
  - pose proof (total_apply _ (plain_unknown (length (op_aborted a w))) a w Hwf)
      as T.
    rewrite op_total_unknown in T.
    assert (total (unknown_token (length (op_aborted a w))) w = 0) as T0.
    { apply Nat.le_0_r. rewrite <- Hk. apply total_mono.
      intros [| |n [| |tok cb]| | |]; simpl; try lia.
      repeat case_decide; lia. }
    lia.
  - intros tok [H|[-> ->]]%op_pending_some; [|lia].
    apply Hs in H. lia.
  - intros n tok g. rewrite trace_apply. intros [H|H]%elem_of_app.
    + destruct (Hr _ _ _ H) as [Hlt Hne]. split; [lia|].
      intros [?|[-> _]]%op_pending_some; [done|lia].
    + apply op_events_callback in H as (_ & -> & _ & Hlt). split; [|done].
      apply Hlt. pose proof (popped_le (unknown_token (length (aborted w))) a w).
      lia.
Qed.

Lemma redraws_reachable w : reachable w → redraws w.
Proof.
  induction 1 as [|a w Hw IH]; [apply redraws_init|].
  apply redraws_apply; [by apply wf_reachable|done].
Qed.

(** Settling the promise that was just created. *)
Lemma settle_fresh (og : origin) o w :
  settle (length (heap w)) o (alloc (Cell (Pending []) og) w).2
  = set_heap (heap w ++ [Cell (Settled o) og]) w.
Proof.
  unfold settle; simpl. rewrite lookup_app_r, Nat.sub_diag by done. simpl.
  rewrite insert_app_r_alt, Nat.sub_diag by done. simpl.
  unfold set_jobs, set_heap; simpl. by rewrite app_nil_r.
Qed.

(** [redraw()] with a redraw pending only hands back a fulfilled promise. *)
Lemma redraw_pending_noop cb w tok :
  pendingRedraw w = Some tok →
  RedrawController.redraw cb w
  = (RPromise (length (heap w)),
     set_heap (heap w ++ [Cell (Settled (Fulfilled VUndefined)) OAsync]) w).
Proof.
  intros Hp. unfold RedrawController.redraw.
  set (cl := Cell (Pending []) OAsync).
  change (alloc cl w) with (length (heap w), (alloc cl w).2).
  cbv beta iota.
  change (lastFrame (alloc cl w).2) with (lastFrame w).
  change (pendingRedraw (alloc cl w).2) with (pendingRedraw w).
  rewrite Hp. unfold cl. destruct (lastFrame w); by rewrite settle_fresh.
Qed.

End tokens.

Section cancel.
Implicit Types (w : world) (a : op) (tok : nat).

(** A cancelled redraw: its token is aborted and its body has not run. *)
Definition cancelled (w : world) (tok : nat) : Prop :=
  is_aborted tok w = true ∧ ∀ n g, EvCallback n (Some tok) g ∉ trace w.

Lemma cancelled_apply a w tok : cancelled w tok → cancelled (apply a w) tok.
Proof.
  intros [Ha Hn]. split; [by apply is_aborted_apply|].
  intros n g. rewrite trace_apply. intros [H|H]%elem_of_app.
  - by apply Hn in H.
  - apply op_events_callback in H as (H & _). congruence.
Qed.

Lemma cancelled_run ops w tok : cancelled w tok → cancelled (run ops w) tok.
Proof.
  revert w. induction ops as [|a ops IH]; intros w H; simpl; [done|].
  by apply IH, cancelled_apply.
Qed.

Lemma draw_cancels f cb w tok :
  redraws w → pendingRedraw w = Some tok →
  cancelled (RedrawController.draw f cb w).2 tok.
Proof.
  intros [_ Hs Hr] Hp. split.
  - unfold is_aborted.
    destruct (draw_fields f cb w) as (_ & _ & _ & -> & _).
    unfold RedrawController.abort_pending. rewrite Hp. simpl.
    rewrite list_lookup_insert_eq; [done|by apply Hs].
  - intros n g.
    change (RedrawController.draw f cb w).2 with (apply (ODraw f cb) w).
    rewrite trace_apply. intros [H|H]%elem_of_app.
    + by destruct (Hr _ _ _ H).
    + apply op_events_callback in H as (_ & _ & [[? ?]|?] & _); done.
Qed.

End cancel.

(** C6.  While a redraw is pending under token [tok], its body has not run;
    [redraw()] then only hands back a fulfilled promise: it creates no
    token, submits no task and leaves every field of the controller and of
    the queue as it was.  [draw()] aborts the token, and from then on the
    body of the pending redraw never runs, whatever happens next. *)
Theorem pending_redraw_is_exclusive (w : world) (tok : nat) :
  reachable w → pendingRedraw w = Some tok →
  (∀ n g, EvCallback n (Some tok) g ∉ trace w) ∧
  (∀ cb,
     RedrawController.redraw cb w
     = (RPromise (length (heap w)),
        set_heap (heap w ++ [Cell (Settled (Fulfilled VUndefined)) OAsync]) w)) ∧
  (∀ f cb ops,
     let w' := run ops (RedrawController.draw f cb w).2 in
     is_aborted tok w' = true ∧ ∀ n g, EvCallback n (Some tok) g ∉ trace w').
Proof.
  intros Hw Hp. pose proof (redraws_reachable w Hw) as Hr. split_and!.
  - intros n g H. by destruct (rd_ran _ Hr _ _ _ H).
  - intros cb. by eapply redraw_pending_noop.
  - intros f cb ops w'. by apply cancelled_run, draw_cancels.
Qed.

Lemma pending_redraw_is_exclusive_witness :
  let w := run [ODraw (FInput 1) CbAsync; ORedraw CbReturn] init in
  reachable w ∧ pendingRedraw w = Some 0 ∧
  let w' := run ([OSettle 1 (Fulfilled VUndefined)] ++ repeat OStep 12)
                (RedrawController.draw (FInput 2) CbReturn w).2 in
  is_aborted 0 w' = true ∧ (∀ n g, EvCallback n (Some 0) g ∉ trace w') ∧
  jobs w' = [] ∧ invoked w' 1 ∧ invoked w' 2.
Proof.
  intros w.
  assert (reachable w) as Hw by (apply reachable_run, reach_init).
  assert (pendingRedraw w = Some 0) as Hp by reflexivity.
  split_and!; [exact Hw|exact Hp|].
  destruct (pending_redraw_is_exclusive w 0 Hw Hp) as (_ & _ & H).
  destruct (H (FInput 2) CbReturn
              ([OSettle 1 (Fulfilled VUndefined)] ++ repeat OStep 12))
    as [Ha Hn].
  split_and!; [exact Ha|exact Hn|reflexivity| |];
    apply occ_pos; vm_compute; lia.
Defined.

(** * RendererController (flow-control.ts) *)

Module RendererController.

(** The calls the controller makes on frames and on its collaborators: the
    performance counter and the controllers of its two streams. *)
Inductive call :=
  | CallClose (f : frame)                (* f.close() *)
  | CallSkipped                          (* counter.increaseFramesSkipped() *)
  | CallRendered                         (* counter.increaseFramesRendered() *)
  | CallEnqueue (f : frame)              (* readableController.enqueue(f) *)
  | CallReadableClose                    (* readableController.close() *)
  | CallReadableError (reason : value)   (* readableController.error(reason) *)
  | CallCounterDispose                   (* counter.dispose() *)
  | CallTryClose                         (* tryClose(readableController) *)
  | CallWritableError (e : value).       (* writableController.error(e) *)

Global Instance call_eq_dec : EqDecision call.
Proof. solve_decision. Defined.

Inductive ending :=
  | EndClose
  | EndAbort (reason : value).

(** A [close] or [abort] handler suspended at [await this.#drawTask]. *)
Record waiter := Waiter { w_ending : ending; w_awaits : option nat }.

Record controller := Controller {
  captureFrame : option frame;
  nextFrame : option frame;
  drawTask : option nat;        (* the promise of a [#draw()] call *)
  loop : option (nat * frame);  (* that call, suspended at [await enqueue(f)] *)
  started : nat;                (* [#draw()] calls so far *)
  finished : list nat;          (* [#draw()] calls that have returned *)
  waiters : list waiter;
  cloned : nat;
  calls : list call
}.

Definition start : controller := Controller None None None None 0 [] [] 0 [].

Definition set_captureFrame (c : option frame) (s : controller) : controller :=
  Controller c (nextFrame s) (drawTask s) (loop s) (started s) (finished s)
    (waiters s) (cloned s) (calls s).

Definition set_nextFrame (f : option frame) (s : controller) : controller :=
  Controller (captureFrame s) f (drawTask s) (loop s) (started s) (finished s)
    (waiters s) (cloned s) (calls s).

Definition set_drawTask (d : option nat) (s : controller) : controller :=
  Controller (captureFrame s) (nextFrame s) d (loop s) (started s) (finished s)
    (waiters s) (cloned s) (calls s).

Definition set_loop (l : option (nat * frame)) (s : controller) : controller :=
  Controller (captureFrame s) (nextFrame s) (drawTask s) l (started s)
    (finished s) (waiters s) (cloned s) (calls s).

Definition set_started (n : nat) (s : controller) : controller :=
  Controller (captureFrame s) (nextFrame s) (drawTask s) (loop s) n
    (finished s) (waiters s) (cloned s) (calls s).

Definition set_finished (l : list nat) (s : controller) : controller :=
  Controller (captureFrame s) (nextFrame s) (drawTask s) (loop s) (started s)
    l (waiters s) (cloned s) (calls s).

Definition set_waiters (ws : list waiter) (s : controller) : controller :=
  Controller (captureFrame s) (nextFrame s) (drawTask s) (loop s) (started s)
    (finished s) ws (cloned s) (calls s).

Definition set_cloned (n : nat) (s : controller) : controller :=
  Controller (captureFrame s) (nextFrame s) (drawTask s) (loop s) (started s)
    (finished s) (waiters s) n (calls s).

Definition does (c : call) (s : controller) : controller :=
  Controller (captureFrame s) (nextFrame s) (drawTask s) (loop s) (started s)
    (finished s) (waiters s) (cloned s) (calls s ++ [c]).

(** [#draw()], call number [id], from the test of its [while] loop up to
    the next [await], or to its return. *)
Definition draw (id : nat) (s : controller) : controller :=
  match nextFrame s with
  | Some f => does (CallEnqueue f) (set_loop (Some (id, f)) (set_nextFrame None s))
  | None => set_finished (id :: finished s) (set_loop None (set_drawTask None s))
  end.

(** [this.#drawTask = this.#draw()]: the field is assigned when the call
    hands back its promise. *)
Definition tryStartDrawing (s : controller) : controller :=
  match drawTask s with
  | Some _ => s
  | None =>
      let id := started s in
      set_drawTask (Some id) (draw id (set_started (S id) s))
  end.

(** The calls of [this.#captureFrame?.close()]. *)
Definition capture_calls (s : controller) : list call :=
  match captureFrame s with
  | Some c => [CallClose c]
  | None => []
  end.

(** The calls of [write] when the slot is occupied. *)
Definition slot_calls (s : controller) : list call :=
  match nextFrame s with
  | Some g => [CallClose g; CallSkipped]
  | None => []
  end.

Definition write (f : frame) (s : controller) : controller :=
  let s := match captureFrame s with
           | Some c => does (CallClose c) s
           | None => s
           end in
  let s := set_cloned (S (cloned s))
             (set_captureFrame (Some (FClone f (cloned s))) s) in
  let s := match nextFrame s with
           | Some g => does CallSkipped (does (CallClose g) s)
           | None => s
           end in
  let s := set_nextFrame (Some f) s in
  tryStartDrawing s.

(** [close] and [abort] up to [await this.#drawTask]. *)
Definition close (s : controller) : controller :=
  set_waiters (waiters s ++ [Waiter EndClose (drawTask s)]) s.

Definition abort (reason : value) (s : controller) : controller :=
  set_waiters (waiters s ++ [Waiter (EndAbort reason) (drawTask s)]) s.

(** [close] and [abort] after the [await]. *)
Definition finish (e : ending) (s : controller) : controller :=
  does CallCounterDispose
    (does (match e with
           | EndClose => CallReadableClose
           | EndAbort reason => CallReadableError reason
           end) s).

(** The promise of the pending [enqueue(f)] is fulfilled with [accepted],
    and [#draw()] resumes. *)
Definition answer (accepted : bool) (s : controller) : controller :=
  match loop s with
  | Some (id, f) =>
      draw id (if accepted then does CallRendered s else does (CallClose f) s)
  | None => s
  end.

(** [await x] lets the handler go on once [x] is fulfilled; [await
    undefined] does so at once. *)
Definition ready (s : controller) (w : waiter) : bool :=
  match w_awaits w with
  | None => true
  | Some id => bool_decide (id ∈ finished s)
  end.

(** The first handler that can go on, and the others. *)
Fixpoint pick (s : controller) (ws : list waiter)
    : option (waiter * list waiter) :=
  match ws with
  | [] => None
  | w :: ws' =>
      if ready s w then Some (w, ws')
      else match pick s ws' with
           | Some (w', rest) => Some (w', w :: rest)
           | None => None
           end
  end.

Definition resume (s : controller) : controller :=
  match pick s (waiters s) with
  | Some (w, rest) => finish (w_ending w) (set_waiters rest s)
  | None => s
  end.

Definition dispose (s : controller) : controller :=
  let s := match captureFrame s with
           | Some c => does (CallClose c) s
           | None => s
           end in
  let s := set_captureFrame None s in
  let s := match nextFrame s with
           | Some g => does (CallClose g) s
           | None => s
           end in
  let s := set_nextFrame None s in
  does (CallWritableError ErrTypeError)
    (does CallTryClose (does CallCounterDispose s)).

(** The listener that the [start] handler of the writable registers on
    [readableController.abortSignal] (lines 78-82): when the consumer
    cancels the readable with [reason], the signal fires and the listener
    errors the writable with [signal.reason]. *)
Definition cancel (reason : value) (s : controller) : controller :=
  does (CallWritableError reason) s.

(** What happens to a controller: the writable side calls the sink, the
    consumer answers or cancels, a suspended handler resumes. *)
Inductive input :=
  | InWrite (f : frame)
  | InClose
  | InAbort (reason : value)
  | InDispose
  | InAnswer (accepted : bool)
  | InResume
  | InCancel (reason : value).

Definition exec (i : input) (s : controller) : controller :=
  match i with
  | InWrite f => write f s
  | InClose => close s
  | InAbort reason => abort reason s
  | InDispose => dispose s
  | InAnswer accepted => answer accepted s
  | InResume => resume s
  | InCancel reason => cancel reason s
  end.

Definition execs (l : list input) (s : controller) : controller :=
  foldl (λ s i, exec i s) s l.

Inductive accessible : controller → Prop :=
  | acc_start : accessible start
  | acc_exec i s : accessible s → accessible (exec i s).

(** Inputs of the consumer and of the scheduler only. *)
Definition passive (i : input) : Prop :=
  match i with
  | InAnswer _ | InResume => True
  | _ => False
  end.

End RendererController.

Section renderer.
Import RendererController.
Implicit Types (s : controller) (f g : frame) (id : nat).

(** [write] while a [#draw()] call is in flight: the frame goes to the
    slot, and the frame it replaces there is closed and counted. *)
Lemma write_in_flight f s id :
  drawTask s = Some id →
  write f s
  = Controller (Some (FClone f (cloned s))) (Some f) (drawTask s) (loop s)
      (started s) (finished s) (waiters s) (S (cloned s))
      (calls s ++ capture_calls s ++ slot_calls s).
Proof.
  intros Hd.
  destruct s as [[c|] [g|] d l n fin ws k cs]; simpl in Hd; subst d;
    cbv -[app]; simpl; by rewrite <- ?app_assoc, ?app_nil_r.
Qed.

(** [write] on a controller with no [#draw()] call in flight: the call
    that [write] starts takes the frame out of the slot before [write]
    returns. *)
Lemma write_idle f s :
  drawTask s = None →
  write f s
  = Controller (Some (FClone f (cloned s))) None (Some (started s))
      (Some (started s, f)) (S (started s)) (finished s) (waiters s)
      (S (cloned s))
      (calls s ++ capture_calls s ++ slot_calls s ++ [CallEnqueue f]).
Proof.
  intros Hd.
  destruct s as [[c|] [g|] d l n fin ws k cs]; simpl in Hd; subst d;
    cbv -[app]; simpl; by rewrite <- ?app_assoc, ?app_nil_r.
Qed.

End renderer.

(** C3.  Frames [f1], [f2], [f3] are written while a [#draw()] call is in
    flight, so that the loop takes none of them between the writes.  Then
    [f1] and [f2] are closed, the skip counter is increased once for each
    of them, none of the three is handed to the consumer meanwhile, and
    [f3] is in the slot; when the loop resumes, [f3] is the frame it hands
    to the consumer. *)
Theorem writes_coalesce
    (s : RendererController.controller) (id : nat) (g f1 f2 f3 : frame) :
  RendererController.drawTask s = Some id →
  RendererController.loop s = Some (id, g) →
  let s' := RendererController.write f3
              (RendererController.write f2 (RendererController.write f1 s)) in
  RendererController.calls s'
  = RendererController.calls s
    ++ RendererController.capture_calls s ++ RendererController.slot_calls s
    ++ [RendererController.CallClose (FClone f1 (RendererController.cloned s));
        RendererController.CallClose f1; RendererController.CallSkipped;
        RendererController.CallClose
          (FClone f2 (S (RendererController.cloned s)));
        RendererController.CallClose f2; RendererController.CallSkipped] ∧
  RendererController.nextFrame s' = Some f3 ∧
  RendererController.loop s' = Some (id, g) ∧
  ∀ accepted,
    let s'' := RendererController.answer accepted s' in
    RendererController.calls s''
    = RendererController.calls s'
      ++ [if accepted then RendererController.CallRendered
          else RendererController.CallClose g;
          RendererController.CallEnqueue f3] ∧
    RendererController.nextFrame s'' = None ∧
    RendererController.loop s'' = Some (id, f3).
Proof.
  intros Hd Hl s'. unfold s'.
  rewrite (write_in_flight f1 s id Hd).
  rewrite (write_in_flight f2 _ id) by done.
  rewrite (write_in_flight f3 _ id) by done.
  cbn -[app]. split_and!; [by rewrite <- !app_assoc|done|done|].
  intros accepted. unfold RendererController.answer. cbn -[app]. rewrite Hl.
  destruct accepted; cbv -[app]; by rewrite <- !app_assoc.
Qed.

Lemma writes_coalesce_witness :
  let s := RendererController.write (FInput 0) RendererController.start in
  let s' := RendererController.answer true
              (RendererController.write (FInput 3)
                (RendererController.write (FInput 2)
                  (RendererController.write (FInput 1) s))) in
  RendererController.drawTask s = Some 0 ∧
  RendererController.loop s = Some (0, FInput 0) ∧
  RendererController.loop s' = Some (0, FInput 3) ∧
  RendererController.calls s'
  = [RendererController.CallEnqueue (FInput 0);
     RendererController.CallClose (FClone (FInput 0) 0);
     RendererController.CallClose (FClone (FInput 1) 1);
     RendererController.CallClose (FInput 1);
     RendererController.CallSkipped;
     RendererController.CallClose (FClone (FInput 2) 2);
     RendererController.CallClose (FInput 2);
     RendererController.CallSkipped;
     RendererController.CallRendered;
     RendererController.CallEnqueue (FInput 3)].
Proof.
  intros s s'.
  destruct (writes_coalesce s 0 (FInput 0) (FInput 1) (FInput 2) (FInput 3)
              eq_refl eq_refl) as (Hc & _ & _ & Ha).
  destruct (Ha true) as (Hc' & _ & Hl').
  split_and!; [reflexivity|reflexivity|exact Hl'|].
  unfold s'. rewrite Hc', Hc. reflexivity.
Defined.

(** On a controller with no [#draw()] call in flight the premise of C3
    fails: the first write starts the loop, which hands [f1] to the
    consumer before the second write; only [f2] is skipped. *)
Lemma first_write_is_forwarded :
  let s := RendererController.write (FInput 3)
             (RendererController.write (FInput 2)
               (RendererController.write (FInput 1)
                  RendererController.start)) in
  RendererController.calls s
  = [RendererController.CallEnqueue (FInput 1);
     RendererController.CallClose (FClone (FInput 1) 0);
     RendererController.CallClose (FClone (FInput 2) 1);
     RendererController.CallClose (FInput 2);
     RendererController.CallSkipped] ∧
  RendererController.nextFrame s = Some (FInput 3).
Proof. by vm_compute. Qed.

(** ** The draw loop and the slot *)

(** What [#draw()] does with the consumer's answer for [g]. *)
Definition reply (accepted : bool) (g : frame) : RendererController.call :=
  if accepted then RendererController.CallRendered
  else RendererController.CallClose g.

(** The slot is occupied only while a [#draw()] call is in flight, and
    [#drawTask] is the promise of that call. *)
Record sound (s : RendererController.controller) : Prop := {
  s_slot f :
    RendererController.nextFrame s = Some f →
    ∃ id g, RendererController.loop s = Some (id, g);
  s_loop id g :
    RendererController.loop s = Some (id, g) →
    RendererController.drawTask s = Some id ∧
    id ∉ RendererController.finished s;
  s_idle :
    RendererController.loop s = None → RendererController.drawTask s = None;
  s_started id :
    id ∈ RendererController.finished s → id < RendererController.started s;
  s_task id :
    RendererController.drawTask s = Some id → id < RendererController.started s
}.

Section loop.
Import RendererController.
Implicit Types (s : controller) (f g : frame) (id : nat).

Lemma answer_next accepted s id g f :
  loop s = Some (id, g) → nextFrame s = Some f →
  answer accepted s
  = Controller (captureFrame s) None (drawTask s) (Some (id, f)) (started s)
      (finished s) (waiters s) (cloned s)
      (calls s ++ [reply accepted g; CallEnqueue f]).
Proof.
  intros Hl Hn. destruct s as [c n d l k fin ws m cs]. simpl in Hl, Hn.
  subst l n. destruct accepted; cbv -[app]; by rewrite <- app_assoc.
Qed.

Lemma answer_last accepted s id g :
  loop s = Some (id, g) → nextFrame s = None →
  answer accepted s
  = Controller (captureFrame s) None None None (started s)
      (id :: finished s) (waiters s) (cloned s)
      (calls s ++ [reply accepted g]).
Proof.
  intros Hl Hn. destruct s as [c n d l k fin ws m cs]. simpl in Hl, Hn.
  subst l n. by destruct accepted; cbv -[app].
Qed.

Lemma answer_idle accepted s : loop s = None → answer accepted s = s.
Proof. intros Hl. unfold answer. by rewrite Hl. Qed.

Lemma dispose_fields s :
  nextFrame (dispose s) = None ∧ captureFrame (dispose s) = None ∧
  drawTask (dispose s) = drawTask s ∧ loop (dispose s) = loop s ∧
  started (dispose s) = started s ∧ finished (dispose s) = finished s ∧
  waiters (dispose s) = waiters s.
Proof. by destruct s as [[c|] [n|] d l k fin ws m cs]; cbv -[app]. Qed.

Lemma resume_fields s :
  nextFrame (resume s) = nextFrame s ∧ drawTask (resume s) = drawTask s ∧
  loop (resume s) = loop s ∧ started (resume s) = started s ∧
  finished (resume s) = finished s.
Proof.
  unfold resume. destruct (pick s (waiters s)) as [[w rest]|]; [|done].
  by destruct s.
Qed.

Lemma sound_start : sound start.
Proof. split; try done. by intros id ?%elem_of_nil. Qed.

Lemma sound_exec (i : input) s : sound s → sound (exec i s).
Proof.
  intros Hs.
  destruct i as [f| |reason| |accepted| |reason]; cbn [exec].
  - destruct (drawTask s) as [id|] eqn:Hd.
    + assert (∃ id' g, loop s = Some (id', g)) as (id' & g & Hl).
      { destruct (loop s) as [[id' g]|] eqn:Hl; [eauto|].
        pose proof (s_idle s Hs Hl). congruence. }
      rewrite (write_in_flight f s id Hd). split; simpl.
      * eauto.
      * apply (s_loop s Hs).
      * apply (s_idle s Hs).
      * apply (s_started s Hs).
      * apply (s_task s Hs).
    + rewrite (write_idle f s Hd). split; simpl; try done.
      * intros id g [= <- <-]. split; [done|].
        intros H%(s_started s Hs). lia.
      * intros id H%(s_started s Hs). lia.
      * intros id [= <-]. lia.
  - destruct Hs. by split.
  - destruct Hs. by split.
  - destruct (dispose_fields s) as (Hn & _ & Hd & Hl & Hst & Hf & _).
    destruct Hs. split; rewrite ?Hn, ?Hd, ?Hl, ?Hst, ?Hf; done.
  - destruct (loop s) as [[id g]|] eqn:Hl; [|by rewrite answer_idle].
    destruct (s_loop s Hs id g Hl) as [Hd Hnf].
    destruct (nextFrame s) as [f|] eqn:Hn.
    + rewrite (answer_next accepted s id g f Hl Hn). split; simpl; try done.
      * intros id' g' [= <- <-]. done.
      * apply (s_started s Hs).
      * apply (s_task s Hs).
    + rewrite (answer_last accepted s id g Hl Hn). split; simpl; try done.
      intros id' [->|H]%elem_of_cons;
        [by apply (s_task s Hs)|by apply (s_started s Hs)].
  - destruct (resume_fields s) as (Hn & Hd & Hl & Hst & Hf).
    destruct Hs. split; rewrite ?Hn, ?Hd, ?Hl, ?Hst, ?Hf; done.
  - destruct Hs. by split.
Qed.

Lemma sound_accessible s : accessible s → sound s.
Proof. induction 1; [apply sound_start|by apply sound_exec]. Qed.

End loop.

(** ** Graceful close *)

(** The controller after [close()], as the consumer answers and the
    suspended handler resumes: the handler is waiting ([StWaiting]), the
    loop has handed the frame of the slot to the consumer ([StForwarded]),
    the loop has returned ([StDrained]), the handler has run
    ([StClosed]). *)
Inductive stage (s1 : RendererController.controller)
    : RendererController.controller → Prop :=
  | StWaiting : stage s1 s1
  | StForwarded b1 : stage s1 (RendererController.answer b1 s1)
  | StDrained b1 b2 :
      stage s1 (RendererController.answer b2 (RendererController.answer b1 s1))
  | StClosed b1 b2 :
      stage s1 (RendererController.resume
                  (RendererController.answer b2
                     (RendererController.answer b1 s1))).

Section graceful.
Import RendererController.
Implicit Types (s : controller) (f g : frame) (id : nat).

Lemma close_stages s id g f :
  loop s = Some (id, g) → drawTask s = Some id → nextFrame s = Some f →
  waiters s = [] → id ∉ finished s →
  let s1 := close s in
  calls s1 = calls s ∧ finished s1 = finished s ∧ resume s1 = s1 ∧
  ∀ b1, let s2 := answer b1 s1 in
    calls s2 = calls s ++ [reply b1 g; CallEnqueue f] ∧
    finished s2 = finished s ∧ resume s2 = s2 ∧
    ∀ b2, let s3 := answer b2 s2 in
      calls s3 = calls s ++ [reply b1 g; CallEnqueue f; reply b2 f] ∧
      finished s3 = id :: finished s ∧ (∀ b, answer b s3 = s3) ∧
      let s4 := resume s3 in
      calls s4 = calls s ++ [reply b1 g; CallEnqueue f; reply b2 f;
                             CallReadableClose; CallCounterDispose] ∧
      finished s4 = id :: finished s ∧
      (∀ b, answer b s4 = s4) ∧ resume s4 = s4.
Proof.
  intros Hl Hd Hn Hw Hf. destruct s as [c n d l k fin ws m cs].
  simpl in Hl, Hd, Hn, Hw, Hf. subst l d n ws.
  assert (bool_decide (id ∈ fin) = false) as Hfalse
    by (by apply bool_decide_eq_false_2).
  assert (bool_decide (id ∈ id :: fin) = true) as Htrue
    by (apply bool_decide_eq_true_2; by left).
  intros s1. split_and!; [done|done| |].
  { unfold s1, resume, close; simpl. unfold ready; simpl. by rewrite Hfalse. }
  intros b1 s2.
  assert (s2 = Controller c None (Some id) (Some (id, f)) k fin
                 [Waiter EndClose (Some id)] m
                 (cs ++ [reply b1 g; CallEnqueue f])) as ->.
  { unfold s2, s1. by rewrite (answer_next b1 _ id g f). }
  split_and!; [done|done| |].
  { unfold resume; simpl. unfold ready; simpl. by rewrite Hfalse. }
  intros b2 s3.
  assert (s3 = Controller c None None None k (id :: fin)
                 [Waiter EndClose (Some id)] m
                 (cs ++ [reply b1 g; CallEnqueue f; reply b2 f])) as ->.
  { unfold s3. rewrite (answer_last b2 _ id f) by done. simpl.
    by rewrite <- app_assoc. }
  split_and!; [done|done|by intros b|].
  intros s4.
  assert (s4 = Controller c None None None k (id :: fin) [] m
                 (cs ++ [reply b1 g; CallEnqueue f; reply b2 f;
                         CallReadableClose; CallCounterDispose])) as ->.
  { unfold s4, resume; simpl. unfold ready; simpl. rewrite Htrue.
    cbv -[app reply]. by rewrite <- !app_assoc. }
  by split_and!.
Qed.

Lemma stage_exec s id g f (i : input) s' :
  loop s = Some (id, g) → drawTask s = Some id → nextFrame s = Some f →
  waiters s = [] → id ∉ finished s →
  passive i → stage (close s) s' → stage (close s) (exec i s').
Proof.
  intros Hl Hd Hn Hw Hf Hi Hs.
  destruct (close_stages s id g f Hl Hd Hn Hw Hf) as (_ & _ & R1 & H).
  destruct i as [| | | |b| |]; try done; cbn [exec].
  - destruct Hs as [|b1|b1 b2|b1 b2].
    + constructor.
    + constructor.
    + destruct (H b1) as (_ & _ & _ & H2). destruct (H2 b2) as (_ & _ & -> & _).
      constructor.
    + destruct (H b1) as (_ & _ & _ & H2).
      destruct (H2 b2) as (_ & _ & _ & _ & _ & -> & _). constructor.
  - destruct Hs as [|b1|b1 b2|b1 b2].
    + rewrite R1. constructor.
    + destruct (H b1) as (_ & _ & -> & _). constructor.
    + constructor.
    + destruct (H b1) as (_ & _ & _ & H2).
      destruct (H2 b2) as (_ & _ & _ & _ & _ & _ & ->). constructor.
Qed.

Lemma stage_execs s id g f (l : list input) s' :
  loop s = Some (id, g) → drawTask s = Some id → nextFrame s = Some f →
  waiters s = [] → id ∉ finished s →
  Forall passive l → stage (close s) s' → stage (close s) (execs l s').
Proof.
  intros Hl Hd Hn Hw Hf Hp. revert s'.
  induction Hp as [|i l Hi Hp IH]; intros s' Hs; simpl; [done|].
  apply IH. by eapply stage_exec.
Qed.

End graceful.

(** C7.  A frame [f] is in the slot when the input side is closed
    gracefully.  A [#draw()] call is then in flight, and while the consumer
    answers and the handler of [close] resumes, the output side is closed
    only after [f] has been handed to the consumer and the loop has
    returned, and the counter is disposed right after; this is what
    happens once the consumer has answered for the frame in flight and
    for [f]. *)
Theorem close_forwards_slot
    (s : RendererController.controller) (f : frame)
    (l : list RendererController.input) :
  RendererController.accessible s → RendererController.nextFrame s = Some f →
  RendererController.waiters s = [] →
  Forall RendererController.passive l →
  ∃ id g, RendererController.loop s = Some (id, g) ∧
    (let s' := RendererController.execs l (RendererController.close s) in
     ∃ evs, RendererController.calls s' = RendererController.calls s ++ evs ∧
       ∀ l1 l2, evs = l1 ++ RendererController.CallReadableClose :: l2 →
         RendererController.CallEnqueue f ∈ l1 ∧
         l2 = [RendererController.CallCounterDispose] ∧
         id ∈ RendererController.finished s') ∧
    ∀ b1 b2,
      RendererController.calls
        (RendererController.execs
           [RendererController.InAnswer b1; RendererController.InAnswer b2;
            RendererController.InResume] (RendererController.close s))
      = RendererController.calls s
        ++ [reply b1 g; RendererController.CallEnqueue f; reply b2 f;
            RendererController.CallReadableClose;
            RendererController.CallCounterDispose].
Proof.
  intros Hacc Hn Hw Hp. pose proof (sound_accessible s Hacc) as Hs.
  destruct (s_slot s Hs f Hn) as (id & g & Hl).
  destruct (s_loop s Hs id g Hl) as [Hd Hf].
  exists id, g. split; [done|].
  destruct (close_stages s id g f Hl Hd Hn Hw Hf) as (C1 & F1 & _ & H).
  split.
  - intros s'.
    assert (stage (RendererController.close s) s') as Hst.
    { eapply stage_execs; eauto. constructor. }
    destruct Hst as [|b1|b1 b2|b1 b2].
    + exists []. split; [by rewrite app_nil_r|].
      intros [|??] ? ?; simplify_eq.
    + destruct (H b1) as (-> & _). eexists. split; [done|].
      intros l1 l2 E. exfalso. destruct b1;
        repeat (destruct l1 as [|? l1]; simplify_eq/=).
    + destruct (H b1) as (_ & _ & _ & H2). destruct (H2 b2) as (-> & _).
      eexists. split; [done|].
      intros l1 l2 E. exfalso. destruct b1, b2;
        repeat (destruct l1 as [|? l1]; simplify_eq/=).
    + destruct (H b1) as (_ & _ & _ & H2).
      destruct (H2 b2) as (_ & _ & _ & -> & -> & _).
      eexists. split; [done|].
      intros l1 l2 E.
      assert (l1 = [reply b1 g; RendererController.CallEnqueue f; reply b2 f]
              ∧ l2 = [RendererController.CallCounterDispose]) as [-> ->].
      { destruct b1, b2;
          repeat (destruct l1 as [|? l1]; simplify_eq/=; try done). }
      split_and!; [set_solver|done|by left].
  - intros b1 b2. simpl.
    destruct (H b1) as (_ & _ & _ & H2).
    by destruct (H2 b2) as (_ & _ & _ & -> & _).
Qed.

Lemma accessible_execs l s :
  RendererController.accessible s →
  RendererController.accessible (RendererController.execs l s).
Proof.
  revert s. induction l as [|i l IH]; intros s Hs; simpl; [done|].
  apply IH. by constructor.
Qed.

Lemma close_forwards_slot_witness :
  let s := RendererController.execs
             [RendererController.InWrite (FInput 1);
              RendererController.InWrite (FInput 2)]
             RendererController.start in
  RendererController.accessible s ∧
  RendererController.nextFrame s = Some (FInput 2) ∧
  RendererController.calls
    (RendererController.execs
       [RendererController.InAnswer true; RendererController.InAnswer false;
        RendererController.InResume] (RendererController.close s))
  = RendererController.calls s
    ++ [RendererController.CallRendered;
        RendererController.CallEnqueue (FInput 2);
        RendererController.CallClose (FInput 2);
        RendererController.CallReadableClose;
        RendererController.CallCounterDispose].
Proof.
  intros s.
  assert (RendererController.accessible s) as Hacc
    by apply accessible_execs, RendererController.acc_start.
  assert (RendererController.nextFrame s = Some (FInput 2)) as Hn
    by (vm_compute; reflexivity).
  assert (RendererController.waiters s = []) as Hw
    by (vm_compute; reflexivity).
  assert (RendererController.loop s = Some (0, FInput 1)) as Hl0
    by (vm_compute; reflexivity).
  split_and!; [exact Hacc|exact Hn|].
  destruct (close_forwards_slot s (FInput 2) [] Hacc Hn Hw
              (Forall_nil_2 _)) as (id & g & Hl & _ & H).
  rewrite Hl0 in Hl. injection Hl as <- <-.
  exact (H true false).
Defined.

(** * Further properties of the queue and of the controllers *)

(** ** No task body runs twice *)

(** Submission [n] has started at most once, and not at all while its
    reaction is still waiting. *)
Definition once (w : world) : Prop :=
  ∀ n, occ (EvInvoke n) (trace w) + total (waits n) w ≤ 1.

Section once.
Implicit Types (w : world) (a : op) (n : nat) (t : task).

(** The operation that hands out ticket [tickets w] either starts the task
    or registers its reaction. *)
Lemma submit_balance a w :
  submits a w = true →
  occ (EvInvoke (tickets w)) (op_events a w)
    + op_total (waits (tickets w)) a w = 1.
Proof.
  assert (∀ t w', disposed w' = false →
    occ (EvInvoke (tickets w')) (enqueue_events t w')
      + enqueue_total (waits (tickets w')) t w' = 1) as Henq.
  { intros t w' Hd. unfold enqueue_events, enqueue_total. rewrite Hd.
    destruct (ready w').
    - unfold waits. rewrite decide_True by done. done.
    - destruct (task_start_same (tickets w') (FInput 0) t w') as (-> & _).
      by rewrite task_total_finally. }
  destruct a as [b bail| |f cb|cb| | |]; cbn [submits op_events op_total];
    try done.
  - intros Hd%negb_true_iff. by apply Henq.
  - intros Hd%negb_true_iff.
    destruct (close_events_other (tickets w) (FInput 0) w) as [Hc _].
    unfold occ in *. rewrite count_occ_app, Hc. by apply Henq.
  - destruct (lastFrame w); [|done]. destruct (pendingRedraw w); [done|].
    intros Hd%negb_true_iff.
    apply (Henq (TRedraw (length (aborted w)) cb) (redraw_world w) Hd).
Qed.

Lemma once_apply a w : wf w → fresh w → once w → once (apply a w).
Proof.
  intros Hwf Hf Ho n.
  pose proof (total_apply (waits n) (plain_waits n) a w Hwf) as Tw.
  rewrite occ_apply.
  destruct (decide (submits a w = true ∧ n = tickets w)) as [[Hs ->]|Hn].
  - destruct (Hf (tickets w) (le_n _)) as (Hi & Hw & _).
    pose proof (submit_balance a w Hs) as Hb.
    assert (popped (waits (tickets w)) a w = 0) as Hp.
    { pose proof (popped_le (waits (tickets w)) a w). lia. }
    lia.
  - destruct (op_balance n (FInput 0) (TExternal BAsync) a w)
      as (Bw & _ & Bi & _); [by intros Hs ->; apply Hn|].
    specialize (Ho n). lia.
Qed.

Lemma once_reachable w : reachable w → once w.
Proof.
  induction 1 as [|a w Hw IH]; [intros n; cbv; lia|].
  apply once_apply;
    [by apply wf_reachable|by apply fresh_reachable|done].
Qed.

End once.

(** Every task submitted to the queue is invoked at most once, only after
    it was submitted, and never while its reaction is still waiting in the
    chain. *)
Theorem task_runs_at_most_once (w : world) (n : nat) :
  reachable w →
  occ (EvInvoke n) (trace w) ≤ 1 ∧
  (invoked w n → n < tickets w ∧ total (waits n) w = 0).
Proof.
  intros Hw. pose proof (once_reachable w Hw n) as Ho.
  split; [lia|]. intros Hi. split.
  - by apply (wf_invoked _ _ (wf_reachable w Hw)).
  - apply occ_pos in Hi. lia.
Qed.

Lemma task_runs_at_most_once_witness :
  let w := run ([OEnqueue BAsync false; OEnqueue (BReturn (VNum 1)) true;
                 OSettle 0 (Fulfilled VUndefined)] ++ repeat OStep 4) init in
  occ (EvInvoke 1) (trace w) ≤ 1 ∧ invoked w 1.
Proof.
  intros w.
  destruct (task_runs_at_most_once w 1) as [H _].
  { apply reachable_run, reach_init. }
  split; [exact H|]. apply occ_pos. vm_compute. lia.
Defined.

(** ** Frames handed to the draw callback *)

Definition is_call (n : nat) (g : frame) (e : event) : bool :=
  match e with
  | EvCallback n' _ g' => bool_decide (n' = n ∧ g' = g)
  | _ => false
  end.

(** How often task [n] has invoked the draw callback on [g]. *)
Fixpoint called (n : nat) (g : frame) (l : list event) : nat :=
  match l with
  | [] => 0
  | e :: l => (if is_call n g e then 1 else 0) + called n g l
  end.

Section calls.
Implicit Types (w : world) (a : op) (n : nat) (t : task) (g : frame).

Lemma called_app n g l1 l2 :
  called n g (l1 ++ l2) = called n g l1 + called n g l2.
Proof. induction l1 as [|e l1 IH]; simpl; [done|]. rewrite IH. lia. Qed.

Lemma body_calls n g n' tok f cb :
  called n g (body_events n' tok f cb)
  = occ (EvClose (Some n) g) (body_events n' tok f cb)
    + body_total (finals n g) n' f cb ∧
  called n g (body_events n' tok f cb) ≤ (if decide (n' = n) then 1 else 0).
Proof.
  unfold body_events, body_total, finals.
  destruct cb; simpl; unfold occ; cbn [count_occ];
    repeat match goal with
           | |- context [event_eq_dec ?x ?e] =>
               destruct (event_eq_dec x e); simplify_eq
           end;
    repeat case_bool_decide; repeat case_decide; simplify_eq/=;
    try lia; naive_solver.
Qed.

Lemma task_calls n g n' t w :
  called n g (task_events n' t w)
  = occ (EvClose (Some n) g) (task_events n' t w)
    + task_total (finals n g) n' t w ∧
  called n g (task_events n' t w) ≤ occ (EvInvoke n) (task_events n' t w).
Proof.
  unfold task_events, task_total.
  assert (∀ l, called n g (EvInvoke n' :: l) = called n g l) as Hc by done.
  assert (∀ l, occ (EvClose (Some n) g) (EvInvoke n' :: l)
               = occ (EvClose (Some n) g) l) as Ho.
  { intros l. unfold occ. cbn [count_occ].
    by destruct (event_eq_dec (EvInvoke n') (EvClose (Some n) g)). }
  assert (∀ l, (if decide (n' = n) then 1 else 0)
               ≤ occ (EvInvoke n) (EvInvoke n' :: l)) as Hi.
  { intros l. unfold occ. cbn [count_occ].
    destruct (event_eq_dec (EvInvoke n') (EvInvoke n)); case_decide;
      simplify_eq; lia. }
  rewrite Hc, Ho.
  destruct t as [b|f cb|tok cb].
  - split; [done|simpl; lia].
  - destruct (body_calls n g n' None f cb) as [-> Hle].
    split; [done|]. etrans; [exact Hle|apply Hi].
  - destruct (is_aborted tok w); [split; [done|simpl; lia]|].
    destruct (lastFrame w) as [lf|]; [|split; [done|simpl; lia]].
    destruct (body_calls n g n' (Some tok) (FClone lf (clones w)) cb)
      as [-> Hle].
    split; [done|]. etrans; [exact Hle|apply Hi].
Qed.

Lemma enqueue_calls n g t w :
  called n g (enqueue_events t w)
  = occ (EvClose (Some n) g) (enqueue_events t w)
    + enqueue_total (finals n g) t w ∧
  called n g (enqueue_events t w) ≤ occ (EvInvoke n) (enqueue_events t w).
Proof.
  unfold enqueue_events, enqueue_total.
  destruct (disposed w); [done|]. destruct (ready w); [done|].
  apply task_calls.
Qed.

Lemma close_calls n g w : called n g (close_events w) = 0.
Proof. unfold close_events. by destruct (lastFrame w). Qed.

(** The balance of one operation: each call of the draw callback on [g] is
    matched by one closing of [g] or by one [finally] block registered,
    and each [finally] block consumed closes [g] once. *)
Lemma op_calls n g a w :
  called n g (op_events a w) + popped (finals n g) a w
  = occ (EvClose (Some n) g) (op_events a w) + op_total (finals n g) a w ∧
  called n g (op_events a w) ≤ occ (EvInvoke n) (op_events a w).
Proof.
  destruct a as [b bail| |f cb|cb| |q o|];
    unfold popped; cbn [op_events op_total].
  - destruct (enqueue_calls n g (TExternal b) w) as [-> ?]. split; [lia|done].
  - done.
  - destruct (enqueue_calls n g (TDraw f cb) w) as [He Hle].
    destruct (close_events_other n g w) as [Hi Hc].
    unfold occ in *. rewrite called_app, !count_occ_app, close_calls, Hi, Hc.
    simpl. split; [lia|done].
  - destruct (lastFrame w); [|done]. destruct (pendingRedraw w); [done|].
    destruct (enqueue_calls n g (TRedraw (length (aborted w)) cb)
                (redraw_world w)) as [-> ?].
    split; [lia|done].
  - rewrite close_calls. destruct (close_events_other n g w) as [-> ->]. done.
  - done.
  - unfold step_events. destruct (jobs w) as [|[[k d] o|d q] js]; try done.
    unfold handle_events, handle_total; simpl.
    destruct k as [bail| |n' t|bail| |n' f']; try done.
    + change (finals n g (HRunTask n' t)) with 0.
      destruct o; [|done]. destruct (disposed w); [done|].
      destruct (task_calls n g n' t w) as [-> ?]. split; [lia|done].
    + split; [|simpl; lia]. unfold finals, occ. cbn [count_occ called is_call].
      destruct (event_eq_dec (EvClose (Some n') f') (EvClose (Some n) g));
        case_decide; simplify_eq; naive_solver lia.
Qed.

(** After any execution: the calls of the draw callback on [g] by task
    [n] are the closings of [g] by task [n] plus its [finally] blocks on
    [g] still to run. *)
Definition closes_calls (w : world) : Prop :=
  ∀ n g,
    called n g (trace w)
    = occ (EvClose (Some n) g) (trace w) + total (finals n g) w ∧
    called n g (trace w) ≤ occ (EvInvoke n) (trace w).

Lemma closes_calls_apply a w : wf w → closes_calls w → closes_calls (apply a w).
Proof.
  intros Hwf Hc n g. destruct (Hc n g) as [He Hle].
  pose proof (total_apply (finals n g) (plain_finals n g) a w Hwf) as Tf.
  destruct (op_calls n g a w) as [Be Ble].
  rewrite trace_apply, called_app. unfold occ in *. rewrite !count_occ_app.
  split; lia.
Qed.

Lemma closes_calls_reachable w : reachable w → closes_calls w.
Proof.
  induction 1 as [|a w Hw IH]; [intros n g; cbv; lia|].
  apply closes_calls_apply; [by apply wf_reachable|done].
Qed.

End calls.

(** ** Tasks run one after the other *)

Section serial.
Implicit Types (w : world) (p d r : pid) (t : task).


(** A task that has started was chained on a promise that is fulfilled. *)
Lemma started_after_source w r d st n t :
  wf w → heap w !! d = Some (Cell st (ODerived r (HRunTask n t))) →
  invoked w n → ∃ v, outcome_of w r = Some (Fulfilled v).
Proof.
  intros Hwf Hd Hi.
  destruct (wf_origin _ _ Hwf _ _ _ _ Hd) as (_ & _ & Hh).
  specialize (Hh ltac:(done)). unfold hooked in Hh. unfold outcome_of.
  destruct (heap w !! r) as [[[rs|o] og]|] eqn:Hr; [| |done].
  - destruct Hh as [Hin _]. eapply settlers_cell in Hin; [|done].
    by destruct (wf_fresh _ _ Hwf _ n _ Hin eq_refl).
  - destruct Hh as [[Hin _]|Hdone].
    + apply settlers_job in Hin.
      by destruct (wf_fresh _ _ Hwf _ n _ Hin eq_refl).
    + simpl in Hdone. destruct o as [v|e]; [eauto|]. by destruct Hdone.
Qed.

(** A derived promise is settled only after its source, by its callback. *)
Lemma settled_after_source w src k r st o :
  wf w → heap w !! r = Some (Cell st (ODerived src k)) →
  outcome_of w r = Some o →
  ∃ o', outcome_of w src = Some o' ∧ done w k o' r.
Proof.
  intros Hwf Hr Ho.
  destruct (wf_origin _ _ Hwf _ _ _ _ Hr) as (_ & _ & Hh).
  specialize (Hh ltac:(done)). unfold hooked in Hh. unfold outcome_of.
  apply outcome_not_pending in Ho.
  destruct (heap w !! src) as [[[rs|o'] og]|] eqn:Hs; [| |done].
  - by destruct Hh as [_ ?].
  - destruct Hh as [[_ ?]|Hdone]; [done|]. eauto.
Qed.


End serial.



(** ** A disposed controller draws no more *)

Section disposed_controller.
Implicit Types (w : world) (a : op) (n : nat) (t : task) (g : frame).

(** The draw callback is not called on a disposed queue. *)
Lemma op_events_called a w n tok g :
  EvCallback n tok g ∈ op_events a w → disposed w = false.
Proof.
  destruct a as [b bail| |f cb|cb| |q o|]; simpl;
    unfold enqueue_events, close_events, step_events.
  - destruct (disposed w); set_solver.
  - set_solver.
  - destruct (disposed w); [|done]. destruct (lastFrame w); set_solver.
  - destruct (lastFrame w); [|set_solver].
    destruct (pendingRedraw w); [set_solver|].
    change (disposed (redraw_world w)) with (disposed w).
    destruct (disposed w); set_solver.
  - destruct (lastFrame w); set_solver.
  - set_solver.
  - destruct (jobs w) as [|[[k d] o|] js]; [set_solver| |set_solver].
    unfold handle_events; simpl.
    destruct k; try set_solver. destruct o; [|set_solver].
    destruct (disposed w); set_solver.
Qed.

Lemma called_run_disposed ops w n tok g :
  disposed w = true →
  EvCallback n tok g ∈ trace (run ops w) → EvCallback n tok g ∈ trace w.
Proof.
  revert w. induction ops as [|a ops IH]; intros w Hd; simpl; [done|].
  intros Hi. apply IH in Hi; [|by apply disposed_apply].
  rewrite trace_apply, elem_of_app in Hi. destruct Hi as [|Hi]; [done|].
  apply op_events_called in Hi. congruence.
Qed.

Lemma draw_disposed f cb w :
  disposed w = true → (RedrawController.draw f cb w).1 = RThrow ErrDisposed.
Proof.
  intros Hd. unfold RedrawController.draw, clone. cbv beta iota zeta.
  destruct (draw_prelude f w) as (_ & _ & _ & Hd' & _).
  unfold TaskQueue.enqueue. by rewrite Hd', Hd.
Qed.

End disposed_controller.

(** [RedrawController.dispose()] closes [lastFrame], forgets it and
    disposes the queue.  From then on the draw callback is never called
    again, whatever is requested; [draw(f)] throws the disposed-queue
    error, and yet stores a fresh clone of [f] in [lastFrame]. *)
Theorem controller_dispose_stops_drawing (w : world) (ops : list op) :
  let wd := RedrawController.dispose w in
  let w' := run ops wd in
  lastFrame wd = None ∧ trace wd = trace w ++ close_events w ∧
  disposed w' = true ∧
  (∀ n tok g, EvCallback n tok g ∈ trace w' → EvCallback n tok g ∈ trace w) ∧
  (∀ f cb,
     (RedrawController.draw f cb w').1 = RThrow ErrDisposed ∧
     lastFrame (RedrawController.draw f cb w').2 = Some (FClone f (clones w'))).
Proof.
  intros wd w'.
  assert (disposed wd = true) as Hd by done.
  assert (disposed w' = true) as Hd' by (by apply disposed_run).
  split_and!; [done|apply trace_ctl_dispose|done| |].
  - intros n tok g Hi. apply called_run_disposed in Hi; [|done].
    unfold wd in Hi. rewrite trace_ctl_dispose, elem_of_app in Hi.
    destruct Hi as [|Hi]; [done|].
    unfold close_events in Hi. destruct (lastFrame w); set_solver.
  - intros f cb. split; [by apply draw_disposed|].
    by destruct (draw_fields f cb w') as (? & _).
Qed.

(** ** The last frame is never a closed frame *)

(** [lastFrame] is a clone that has not been closed; the clones closed so
    far were made before; no clone held in [lastFrame] is closed twice. *)
Record live (w : world) : Prop := {
  lv_held c :
    lastFrame w = Some c →
    (∃ f k, c = FClone f k ∧ k < clones w) ∧ EvClose None c ∉ trace w;
  lv_closed c :
    EvClose None c ∈ trace w → ∃ f k, c = FClone f k ∧ k < clones w;
  lv_once c : occ (EvClose None c) (trace w) ≤ 1
}.

Section last_frame.
Implicit Types (w : world) (a : op) (n : nat) (t : task) (c g : frame).

Lemma task_events_close_none n t w c : EvClose None c ∉ task_events n t w.
Proof.
  unfold task_events, body_events. destruct t as [b|f cb|tok cb].
  - set_solver.
  - destruct cb; set_solver.
  - destruct (is_aborted tok w); [set_solver|].
    destruct (lastFrame w); [|set_solver]. destruct cb; set_solver.
Qed.

Lemma enqueue_events_close_none t w c : EvClose None c ∉ enqueue_events t w.
Proof.
  unfold enqueue_events. destruct (disposed w); [set_solver|].
  destruct (ready w); [set_solver|]. apply task_events_close_none.
Qed.

(** Only [draw] and [dispose] close the frame held in [lastFrame]. *)
Lemma op_events_close_none a w c :
  EvClose None c ∈ op_events a w →
  lastFrame w = Some c ∧
  ((∃ f cb, a = ODraw f cb ∧
      op_events a w = EvClose None c :: enqueue_events (TDraw f cb) w) ∨
   (a = OCtlDispose ∧ op_events a w = [EvClose None c])).
Proof.
  destruct a as [b bail| |f cb|cb| |q o|]; cbn [op_events].
  - by intros ?%enqueue_events_close_none.
  - by intros ?%elem_of_nil.
  - intros [H|H]%elem_of_app; [|by apply enqueue_events_close_none in H].
    unfold close_events in *. destruct (lastFrame w); [|set_solver].
    apply list_elem_of_singleton in H as [= <-]. split; [done|]. left. eauto.
  - destruct (lastFrame w); [|by intros ?%elem_of_nil].
    destruct (pendingRedraw w); [by intros ?%elem_of_nil|].
    by intros ?%enqueue_events_close_none.
  - unfold close_events. destruct (lastFrame w); [|set_solver].
    intros [= <-]%list_elem_of_singleton. split; [done|]. by right.
  - by intros ?%elem_of_nil.
  - unfold step_events. destruct (jobs w) as [|[[k d] o|] js]; try set_solver.
    unfold handle_events; simpl.
    destruct k; try set_solver. destruct o; [|set_solver].
    destruct (disposed w); [set_solver|]. by intros ?%task_events_close_none.
Qed.

Lemma step_clones w : clones w ≤ clones (step w).
Proof.
  unfold step. destruct (jobs w) as [|[[k d] o|d q] js]; [done|..].
  - unfold run_job, run_reaction. simpl.
    destruct (handle k o (set_jobs js w)) as [c w1] eqn:Hh.
    destruct (resolve_slot d c w1) as [_ ->].
    unfold handle in Hh. simpl in Hh.
    destruct k as [bail| |n t|bail| |n f];
      try (destruct o; try destruct bail; try destruct (disposed w) eqn:?;
           by simplify_eq/=).
    destruct o; [|by simplify_eq/=].
    destruct (disposed w) eqn:Hd; [by simplify_eq/=|].
    destruct (call_task_slot n t (set_jobs js w)) as [_ Hc].
    rewrite Hh in Hc. simpl in Hc. rewrite Hc. unfold task_clones.
    destruct t as [| |tok cb]; simpl; try lia.
    destruct (is_aborted tok _); [lia|]. destruct (lastFrame w); lia.
  - destruct (subscribe_slot q (Reaction HForward d) (set_jobs js w))
      as [_ Hc]. unfold run_job. by rewrite Hc.
Qed.

Lemma enqueue_clones_le t w : clones w ≤ enqueue_clones t w.
Proof.
  unfold enqueue_clones, task_clones. destruct (disposed w); [done|].
  destruct (ready w); [done|]. destruct t as [| |tok cb]; try lia.
  destruct (is_aborted tok w); [lia|]. destruct (lastFrame w); lia.
Qed.

(** [lastFrame] and the clone counter after each operation. *)
Lemma last_frame_apply a w :
  lastFrame (apply a w)
  = match a with
    | ODraw f _ => Some (FClone f (clones w))
    | OCtlDispose => None
    | _ => lastFrame w
    end ∧
  match a with
  | ODraw _ _ => clones w < clones (apply a w)
  | _ => clones w ≤ clones (apply a w)
  end.
Proof.
  destruct a as [b bail| |f cb|cb| |q o|]; cbn [apply].
  - destruct (enqueue_flags (TExternal b) bail w) as (_ & -> & _).
    destruct (enqueue_slot (TExternal b) bail w) as [_ ->].
    split; [done|apply enqueue_clones_le].
  - done.
  - destruct (draw_fields f cb w) as (-> & -> & _). split; [done|lia].
  - unfold RedrawController.redraw.
    set (cl := Cell (Pending []) OAsync).
    change (alloc cl w) with (length (heap w), (alloc cl w).2).
    cbv beta iota.
    change (lastFrame (alloc cl w).2) with (lastFrame w).
    change (pendingRedraw (alloc cl w).2) with (pendingRedraw w).
    assert (∀ o, lastFrame (settle (length (heap w)) o (alloc cl w).2)
                 = lastFrame w ∧
                 clones w ≤ clones (settle (length (heap w)) o (alloc cl w).2))
      as Hquick.
    { intros o.
      destruct (settle_flags (length (heap w)) o (alloc cl w).2) as (_ & -> & _).
      by destruct (settle_slot (length (heap w)) o (alloc cl w).2) as [_ ->]. }
    destruct (lastFrame w) as [lf|] eqn:Hlf; [|cbn [snd]; apply Hquick].
    destruct (pendingRedraw w); [cbn [snd]; apply Hquick|].
    unfold new_token. cbv beta iota.
    change (set_pendingRedraw _ _) with (redraw_world w).
    destruct (enqueue_flags (TRedraw (length (aborted w)) cb) true
                (redraw_world w)) as (_ & Hl & _).
    destruct (enqueue_slot (TRedraw (length (aborted w)) cb) true
                (redraw_world w)) as [_ Hc].
    pose proof (enqueue_clones_le (TRedraw (length (aborted w)) cb)
                  (redraw_world w)) as Hle.
    change (lastFrame (redraw_world w)) with (lastFrame w) in Hl.
    change (clones (redraw_world w)) with (clones w) in Hle.
    rewrite <- Hc in Hle. rewrite Hlf in Hl.
    destruct (TaskQueue.enqueue _ true (redraw_world w)) as [[v|e|r] w4];
      cbn [snd] in *.
    + set (cx := Cell (Settled (Fulfilled v)) OAwait).
      change (alloc cx w4) with (length (heap w4), (alloc cx w4).2).
      cbv beta iota. cbn [snd].
      destruct (subscribe_flags (length (heap w4))
                  (Reaction HForward (length (heap w))) (alloc cx w4).2)
        as (_ & -> & _).
      by destruct (subscribe_slot (length (heap w4))
                     (Reaction HForward (length (heap w))) (alloc cx w4).2)
        as [_ ->].
    + destruct (settle_flags (length (heap w)) (Rejected e) w4) as (_ & -> & _).
      by destruct (settle_slot (length (heap w)) (Rejected e) w4) as [_ ->].
    + destruct (subscribe_flags r (Reaction HForward (length (heap w))) w4)
        as (_ & -> & _).
      by destruct (subscribe_slot r (Reaction HForward (length (heap w))) w4)
        as [_ ->].
  - unfold RedrawController.dispose, TaskQueue.dispose. simpl.
    destruct (abort_pending_fields w) as (_&_&_&_&_&_&Ac&_).
    destruct (close_last_fields (RedrawController.abort_pending w))
      as (_&_&_&_&_&_&Cc&_).
    split; [done|]. lia.
  - unfold settle_external.
    destruct (heap w !! q) as [[[rs|o'] []]|]; try done.
    destruct (settle_flags q o w) as (_ & -> & _).
    by destruct (settle_slot q o w) as [_ ->].
  - destruct (step_flags w) as (_ & -> & _). split; [done|apply step_clones].
Qed.

Lemma live_init : live init.
Proof. split; [done|by intros c ?%elem_of_nil|intros c; cbv; lia]. Qed.

Lemma live_apply a w : live w → live (apply a w).
Proof.
  intros [Hh Hc Ho].
  destruct (last_frame_apply a w) as [Hl Hk].
  assert (clones w ≤ clones (apply a w)) as Hle by (destruct a; lia).
  assert (∀ c, EvClose None c ∈ trace (apply a w) →
               ∃ f k, c = FClone f k ∧ k < clones w) as Hc'.
  { intros c. rewrite trace_apply. intros [H|H]%elem_of_app; [by apply Hc|].
    apply op_events_close_none in H as [H _]. by apply Hh in H as [? _]. }
  split.
  - intros c Hc1. rewrite Hl in Hc1.
    destruct a as [b bail| |f cb|cb| |q o|]; try done;
      try (destruct (Hh c Hc1) as [(f' & k & -> & Hlt) Hn];
           split; [exists f', k; split; [done|lia]|];
           rewrite trace_apply; intros [H|H]%elem_of_app; [done|];
           by apply op_events_close_none in H as [_ [(? & ? & ? & _)|[? _]]]).
    injection Hc1 as <-. split; [eauto|].
    intros (f' & k & [= <- <-] & Hlt)%Hc'. lia.
  - intros c (f & k & -> & Hlt)%Hc'. exists f, k. split; [done|lia].
  - intros c. rewrite occ_apply.
    destruct (decide (EvClose None c ∈ op_events a w)) as [Hin|Hn].
    + apply op_events_close_none in Hin as [Hlf He].
      destruct (Hh c Hlf) as [_ Hnot].
      assert (∃ l, op_events a w = EvClose None c :: l ∧ EvClose None c ∉ l)
        as (l & Hl' & Hnl).
      { destruct He as [(f & cb & -> & He)|[-> He]].
        - eexists. split; [exact He|]. apply enqueue_events_close_none.
        - eexists. split; [exact He|]. by intros ?%elem_of_nil. }
      assert (occ (EvClose None c) (trace w) = 0) as ->.
      { pose proof (occ_pos (EvClose None c) (trace w)) as P.
        destruct (occ (EvClose None c) (trace w)); [done|].
        destruct Hnot. apply P. lia. }
      rewrite Hl'. unfold occ. cbn [count_occ].
      destruct (event_eq_dec (EvClose None c) (EvClose None c)); [|done].
      assert (count_occ event_eq_dec l (EvClose None c) = 0) as ->; [|done].
      apply count_occ_not_In. by rewrite <- list_elem_of_In.
    + assert (occ (EvClose None c) (op_events a w) = 0) as ->.
      { pose proof (occ_pos (EvClose None c) (op_events a w)) as P.
        destruct (occ (EvClose None c) (op_events a w)); [done|].
        destruct Hn. apply P. lia. }
      specialize (Ho c). lia.
Qed.

Lemma live_reachable w : reachable w → live w.
Proof. induction 1; [apply live_init|by apply live_apply]. Qed.

End last_frame.

(** *** Frames of the caller, frames of the controller *)

(** What [draw] requires of its argument: it is a frame of the caller, not
    a clone made by the controller, and it is not closed ([draw] clones
    it, and [VideoFrame.clone()] throws on a closed frame). *)
Definition permitted (a : op) (w : world) : Prop :=
  match a with
  | ODraw f _ =>
      (∃ i, f = FInput i) ∧ ∀ by_task, EvClose by_task f ∉ trace w
  | _ => True
  end.

(** The executions in which every [draw] gets such a frame. *)
Inductive proper : world → Prop :=
  | proper_init : proper init
  | proper_apply a w : proper w → permitted a w → proper (apply a w).

Fixpoint admitted (ops : list op) (w : world) : Prop :=
  match ops with
  | [] => True
  | a :: ops => permitted a w ∧ admitted ops (apply a w)
  end.

(** A frame that [draw] stores in [lastFrame]: a clone of a frame of the
    caller. *)
Definition held (c : frame) : bool :=
  match c with
  | FClone (FInput _) _ => true
  | _ => false
  end.

(** A frame that a task hands to the draw callback and closes: the frame
    of the caller, or a clone of [lastFrame]. *)
Definition tasked (g : frame) : bool :=
  match g with
  | FInput _ => true
  | FClone c _ => held c
  end.

(** Continuations that would close, or hand to the callback, a frame that
    is not a task's. *)
Definition alien (k : handler) : nat :=
  match k with
  | HFinally _ g => if tasked g then 0 else 1
  | HRunTask _ (TDraw g _) => if tasked g then 0 else 1
  | _ => 0
  end.

(** The frame of an event of a task is a task's. *)
Definition framed (e : event) : Prop :=
  match e with
  | EvCallback _ _ g | EvClose (Some _) g => tasked g = true
  | _ => True
  end.

Record own (w : world) : Prop := {
  own_last c : lastFrame w = Some c → held c = true;
  own_total : total alien w = 0;
  own_trace : Forall framed (trace w)
}.

Section own.
Implicit Types (w : world) (a : op) (n : nat) (t : task) (c g : frame).

Lemma plain_alien : plain alien.
Proof. by split_and!. Qed.

Lemma proper_reachable w : proper w → reachable w.
Proof. induction 1; by constructor. Qed.

Lemma proper_run ops w : proper w → admitted ops w → proper (run ops w).
Proof.
  revert w. induction ops as [|a ops IH]; intros w Hw Ha; simpl; [done|].
  destruct Ha as [Ha Hops]. apply IH; [by constructor|done].
Qed.

Lemma held_tasked c : held c = true → tasked c = false.
Proof. by destruct c as [|[] ?]. Qed.

Lemma body_total_alien n f cb : tasked f = true → body_total alien n f cb = 0.
Proof. intros H. unfold body_total, alien. rewrite H. by destruct cb. Qed.

Lemma body_events_framed n tok f cb :
  tasked f = true → Forall framed (body_events n tok f cb).
Proof.
  intros H. unfold body_events. destruct cb; repeat constructor; done.
Qed.

(** The frame a task works on, in the world in which it starts. *)
Definition task_frame_ok t w : Prop :=
  match t with
  | TExternal _ => True
  | TDraw f _ => tasked f = true
  | TRedraw _ _ => ∀ lf, lastFrame w = Some lf → held lf = true
  end.

Lemma task_total_alien n t w : task_frame_ok t w → task_total alien n t w = 0.
Proof.
  unfold task_total. destruct t as [b|f cb|tok cb]; simpl; [done|..].
  - apply body_total_alien.
  - intros H. destruct (is_aborted tok w); [done|].
    destruct (lastFrame w) as [lf|]; [|done].
    apply body_total_alien. simpl. by apply H.
Qed.

Lemma task_events_framed n t w :
  task_frame_ok t w → Forall framed (task_events n t w).
Proof.
  unfold task_events. destruct t as [b|f cb|tok cb]; simpl.
  - by repeat constructor.
  - intros H. constructor; [done|]. by apply body_events_framed.
  - intros H. constructor; [done|]. destruct (is_aborted tok w); [done|].
    destruct (lastFrame w) as [lf|]; [|done].
    apply body_events_framed. simpl. by apply H.
Qed.

Lemma enqueue_alien t w :
  task_frame_ok t w → alien (HRunTask (tickets w) t) = 0 →
  enqueue_total alien t w = 0 ∧ Forall framed (enqueue_events t w).
Proof.
  intros Ht Ha. unfold enqueue_total, enqueue_events.
  destruct (disposed w); [done|]. destruct (ready w); [done|].
  split; [by apply task_total_alien|by apply task_events_framed].
Qed.

Lemma close_events_framed w : Forall framed (close_events w).
Proof. unfold close_events. destruct (lastFrame w); by repeat constructor. Qed.

(** What one operation registers and logs concerns frames of tasks only. *)
Lemma op_alien a w :
  own w → permitted a w →
  op_total alien a w = 0 ∧ Forall framed (op_events a w).
Proof.
  intros [Hl Ht Hf] Ha.
  destruct a as [b bail| |f cb|cb| |q o|]; cbn [op_total op_events].
  - by apply enqueue_alien.
  - done.
  - destruct Ha as [[i ->] _].
    destruct (enqueue_alien (TDraw (FInput i) cb) w) as [-> H]; [done..|].
    split; [done|]. apply Forall_app. split; [apply close_events_framed|done].
  - destruct (lastFrame w) as [lf|] eqn:Hlf; [|done].
    destruct (pendingRedraw w); [done|].
    apply enqueue_alien; [|done].
    intros lf'. change (lastFrame (redraw_world w)) with (lastFrame w).
    rewrite Hlf. apply Hl.
  - split; [done|apply close_events_framed].
  - done.
  - unfold step_events.
    destruct (jobs w) as [|[[k d] o|d q] js] eqn:Hj; [done| |done].
    assert (alien k = 0) as Hk.
    { assert (Reaction k d ∈ settlers w) as Hin.
      { apply (settlers_job w (JReaction (Reaction k d) o)).
        rewrite Hj. by left. }
      pose proof (total_elem alien w _ Hin) as Hle. simpl in Hle. lia. }
    unfold handle_total, handle_events. simpl.
    destruct k as [| |n t| | |n g]; try done.
    + destruct o as [v|e]; [|done]. destruct (disposed w); [done|].
      assert (task_frame_ok t w) as Hok.
      { destruct t as [|g cb|tok cb]; simpl; [done| |done].
        simpl in Hk. by destruct (tasked g). }
      split; [by apply task_total_alien|by apply task_events_framed].
    + split; [done|]. repeat constructor. simpl in *.
      by destruct (tasked g).
Qed.

Lemma own_init : own init.
Proof. by split. Qed.

Lemma own_apply a w : wf w → own w → permitted a w → own (apply a w).
Proof.
  intros Hwf Ho Ha. destruct (op_alien a w Ho Ha) as [Hop Hev].
  pose proof (total_apply alien plain_alien a w Hwf) as Ht.
  destruct Ho as [Hl Hz Hf]. split.
  - intros c. destruct (last_frame_apply a w) as [-> _].
    destruct a as [b bail| |f cb|cb| |q o|]; try apply Hl; [|done].
    destruct Ha as [[i ->] _]. by intros [= <-].
  - lia.
  - rewrite trace_apply. apply Forall_app. by split.
Qed.

Lemma own_proper w : proper w → own w.
Proof.
  induction 1 as [|a w Hw IH Ha]; [apply own_init|].
  apply own_apply; [by apply wf_reachable, proper_reachable|done..].
Qed.

End own.

(** As long as [draw] is given frames of the caller that are not closed,
    the frame held in [lastFrame] is a clone that nobody has closed (so
    [redraw] never clones a closed frame), and a clone made by [draw] is
    closed at most once, by [draw] or [dispose] and never by a task. *)
Theorem last_frame_is_live (w : world) (c : frame) :
  proper w →
  (lastFrame w = Some c →
   held c = true ∧ ∀ by_task, EvClose by_task c ∉ trace w) ∧
  (held c = true →
   occ (EvClose None c) (trace w) ≤ 1 ∧
   ∀ n, EvClose (Some n) c ∉ trace w).
Proof.
  intros Hw. pose proof (proper_reachable w Hw) as Hr.
  destruct (live_reachable w Hr) as [Hh _ Ho].
  destruct (own_proper w Hw) as [Hl _ Hf].
  assert (held c = true → ∀ n, EvClose (Some n) c ∉ trace w) as Htask.
  { intros Hc n Hin. rewrite Forall_forall in Hf.
    specialize (Hf _ Hin). simpl in Hf.
    rewrite (held_tasked c Hc) in Hf. done. }
  split.
  - intros Hc. split; [by apply Hl|].
    intros [n|]; [by apply Htask, Hl|]. by destruct (Hh c Hc).
  - intros Hc. split; [apply Ho|by apply Htask].
Qed.

Lemma last_frame_is_live_witness :
  let ops := [ODraw (FInput 1) CbReturn; OStep; OStep; OStep;
              ORedraw (CbThrow E1); OStep; OStep; OStep] in
  let w := apply (ODraw (FInput 2) CbReturn) (run ops init) in
  proper w ∧ lastFrame w = Some (FClone (FInput 2) 2) ∧
  (∀ by_task, EvClose by_task (FClone (FInput 2) 2) ∉ trace w) ∧
  EvClose None (FClone (FInput 1) 0) ∈ trace w ∧
  occ (EvClose None (FClone (FInput 1) 0)) (trace w) ≤ 1 ∧
  (∀ n, EvClose (Some n) (FClone (FInput 1) 0) ∉ trace w).
Proof.
  intros ops w.
  assert (proper (run ops init)) as Hw0.
  { apply proper_run; [apply proper_init|].
    split; [|by split_and!].
    split; [by exists 1|]. intros by_task. clear. set_solver. }
  assert (proper w) as Hw.
  { refine (proper_apply (ODraw (FInput 2) CbReturn) (run ops init) Hw0 _).
    split; [by exists 2|]. intros by_task.
    assert (trace (run ops init)
            = [EvInvoke 0; EvCallback 0 None (FInput 1);
               EvClose (Some 0) (FInput 1); EvInvoke 1;
               EvCallback 1 (Some 0) (FClone (FClone (FInput 1) 0) 1);
               EvClose (Some 1) (FClone (FClone (FInput 1) 0) 1)]) as Ht
      by (vm_compute; reflexivity).
    rewrite Ht. clear. set_solver. }
  assert (lastFrame w = Some (FClone (FInput 2) 2)) as Hl
    by (vm_compute; reflexivity).
  destruct (last_frame_is_live w (FClone (FInput 2) 2) Hw) as [H1 _].
  destruct (last_frame_is_live w (FClone (FInput 1) 0) Hw) as [_ H2].
  split_and!; [exact Hw|exact Hl|exact (proj2 (H1 Hl))|
               |exact (proj1 (H2 eq_refl))|exact (proj2 (H2 eq_refl))].
  assert (trace w = [EvInvoke 0; EvCallback 0 None (FInput 1);
                     EvClose (Some 0) (FInput 1); EvInvoke 1;
                     EvCallback 1 (Some 0) (FClone (FClone (FInput 1) 0) 1);
                     EvClose (Some 1) (FClone (FClone (FInput 1) 0) 1);
                     EvClose None (FClone (FInput 1) 0)]) as ->
    by (vm_compute; reflexivity).
  clear. set_solver.
Defined.

(** ** RendererController: the loop, the slot and the counters *)

(** At most one [#draw()] call is in flight; [#drawTask] is set exactly
    while it is; and a frame waits in the slot only while a call is in
    flight to take it. *)
Theorem one_draw_loop (s : RendererController.controller) :
  RendererController.accessible s →
  (RendererController.drawTask s = None ↔ RendererController.loop s = None) ∧
  (∀ id, RendererController.drawTask s = Some id →
         ∃ g, RendererController.loop s = Some (id, g)) ∧
  (∀ f, RendererController.nextFrame s = Some f →
        ∃ id g, RendererController.loop s = Some (id, g)).
Proof.
  intros Hs%sound_accessible. split_and!.
  - split; [|apply (s_idle s Hs)].
    intros Hd. destruct (RendererController.loop s) as [[id g]|] eqn:Hl; [|done].
    destruct (s_loop s Hs id g Hl) as [? _]. congruence.
  - intros id Hd.
    destruct (RendererController.loop s) as [[id' g]|] eqn:Hl.
    + destruct (s_loop s Hs id' g Hl) as [? _]. exists g. congruence.
    + pose proof (s_idle s Hs Hl). congruence.
  - apply (s_slot s Hs).
Qed.

Lemma one_draw_loop_witness :
  let s := RendererController.execs
             [RendererController.InWrite (FInput 1);
              RendererController.InWrite (FInput 2);
              RendererController.InDispose;
              RendererController.InWrite (FInput 3)]
             RendererController.start in
  RendererController.nextFrame s = Some (FInput 3) ∧
  ∃ id g, RendererController.loop s = Some (id, g).
Proof.
  intros s.
  assert (RendererController.nextFrame s = Some (FInput 3)) as Hn
    by (vm_compute; reflexivity).
  split; [exact Hn|].
  destruct (one_draw_loop s) as (_ & _ & H).
  { apply accessible_execs, RendererController.acc_start. }
  exact (H _ Hn).
Defined.

(** Counting the elements of a list that pass a test. *)
Fixpoint tally {A} (p : A → bool) (l : list A) : nat :=
  match l with
  | [] => 0
  | x :: l => (if p x then 1 else 0) + tally p l
  end.

Lemma tally_app {A} (p : A → bool) l1 l2 :
  tally p (l1 ++ l2) = tally p l1 + tally p l2.
Proof. induction l1 as [|x l1 IH]; simpl; [done|]. rewrite IH. lia. Qed.

(** The frames handed to the consumer. *)
Definition forwarded (l : list RendererController.call) : nat :=
  tally (λ c, match c with RendererController.CallEnqueue _ => true
              | _ => false end) l.

(** The calls of [increaseFramesSkipped()] and of
    [increaseFramesRendered()]. *)
Definition skipped (l : list RendererController.call) : nat :=
  tally (λ c, match c with RendererController.CallSkipped => true
              | _ => false end) l.

Definition rendered (l : list RendererController.call) : nat :=
  tally (λ c, match c with RendererController.CallRendered => true
              | _ => false end) l.

(** The frames written by the producer. *)
Definition writes (l : list RendererController.input) : nat :=
  tally (λ i, match i with RendererController.InWrite _ => true
              | _ => false end) l.

Definition slot (s : RendererController.controller) : nat :=
  match RendererController.nextFrame s with Some _ => 1 | None => 0 end.

Definition in_flight (s : RendererController.controller) : nat :=
  match RendererController.loop s with Some _ => 1 | None => 0 end.

(** Every frame written so far has been handed to the consumer, or counted
    as skipped, or is in the slot; and the consumer has accepted no more
    frames than it was handed, one less while a frame is in flight. *)
Record accounted (s : RendererController.controller) : Prop := {
  a_written :
    RendererController.cloned s
    = forwarded (RendererController.calls s)
      + skipped (RendererController.calls s) + slot s;
  a_rendered :
    rendered (RendererController.calls s) + in_flight s
    ≤ forwarded (RendererController.calls s)
}.

Section accounting.
Import RendererController.
Implicit Types (s : controller) (f g : frame) (id : nat) (i : input).

Lemma resume_calls s :
  captureFrame (resume s) = captureFrame s ∧ cloned (resume s) = cloned s ∧
  ∃ evs, calls (resume s) = calls s ++ evs ∧
         forwarded evs = 0 ∧ skipped evs = 0 ∧ rendered evs = 0.
Proof.
  unfold resume. destruct (pick s (waiters s)) as [[w rest]|].
  - destruct s as [c n d l k fin ws m cs]. split_and!; [done|done|].
    exists [match w_ending w with
            | EndClose => CallReadableClose
            | EndAbort reason => CallReadableError reason
            end; CallCounterDispose].
    split; [cbv -[app w_ending]; by rewrite <- app_assoc|].
    by destruct (w_ending w).
  - split_and!; [done|done|]. exists []. by rewrite app_nil_r.
Qed.

Lemma capture_calls_count s :
  forwarded (capture_calls s) = 0 ∧ skipped (capture_calls s) = 0 ∧
  rendered (capture_calls s) = 0.
Proof. unfold capture_calls. by destruct (captureFrame s). Qed.

Lemma slot_calls_count s :
  forwarded (slot_calls s) = 0 ∧ skipped (slot_calls s) = slot s ∧
  rendered (slot_calls s) = 0.
Proof. unfold slot_calls, slot. by destruct (nextFrame s). Qed.

Lemma reply_count accepted g :
  forwarded [reply accepted g] = 0 ∧ skipped [reply accepted g] = 0 ∧
  rendered [reply accepted g] = if accepted then 1 else 0.
Proof. by destruct accepted. Qed.

Lemma accounted_exec i s :
  i ≠ InDispose → accounted s → accounted (exec i s).
Proof.
  intros Hi [Hw Hr]. unfold forwarded, skipped, rendered in *.
  destruct (capture_calls_count s) as (Cf & Cs & Cr).
  destruct (slot_calls_count s) as (Sf & Ss & Sr).
  unfold forwarded, skipped, rendered in *.
  destruct i as [f| |reason| |accepted| |reason]; cbn [exec]; try done.
  - destruct (drawTask s) as [id|] eqn:Hd.
    + rewrite (write_in_flight f s id Hd).
      split; unfold forwarded, skipped, rendered, slot, in_flight; simpl;
        rewrite !tally_app; fold (in_flight s); lia.
    + rewrite (write_idle f s Hd).
      split; unfold forwarded, skipped, rendered, slot, in_flight; simpl;
        rewrite !tally_app; simpl; unfold in_flight in Hr;
        destruct (loop s); lia.
  - destruct (loop s) as [[id g]|] eqn:Hl;
      [|rewrite (answer_idle _ _ Hl); by split].
    destruct (reply_count accepted g) as (Rf & Rs & Rr).
    unfold forwarded, skipped, rendered, slot, in_flight in *.
    rewrite Hl in Hr.
    destruct (nextFrame s) as [f|] eqn:Hn.
    + rewrite (answer_next accepted s id g f Hl Hn).
      split; unfold forwarded, skipped, rendered, slot, in_flight; simpl;
        rewrite !tally_app; simpl in *; destruct accepted; simpl in *; lia.
    + rewrite (answer_last accepted s id g Hl Hn).
      split; unfold forwarded, skipped, rendered, slot, in_flight; simpl;
        rewrite !tally_app; simpl in *; destruct accepted; simpl in *; lia.
  - destruct (resume_calls s) as (_ & Hc & evs & He & Ef & Es & Er).
    destruct (resume_fields s) as (Hn & _ & Hl & _).
    unfold forwarded, skipped, rendered, slot, in_flight in *.
    split; unfold forwarded, skipped, rendered, slot, in_flight;
      rewrite ?Hc, ?Hn, ?Hl, He, !tally_app; lia.
  - unfold forwarded, skipped, rendered, slot, in_flight in *.
    split; unfold forwarded, skipped, rendered, slot, in_flight, cancel;
      simpl; rewrite !tally_app; simpl; lia.
Qed.

Lemma cloned_exec i s :
  cloned (exec i s) = cloned s + writes [i].
Proof.
  unfold writes. destruct i as [f| |reason| |accepted| |reason]; cbn [exec tally].
  - destruct (drawTask s) as [id|] eqn:Hd.
    + rewrite (write_in_flight f s id Hd). simpl. lia.
    + rewrite (write_idle f s Hd). simpl. lia.
  - simpl. lia.
  - simpl. lia.
  - destruct s as [[c|] [n|] d l k fin ws m cs]; cbv -[Nat.add]; lia.
  - destruct (loop s) as [[id g]|] eqn:Hl; [|rewrite answer_idle; [lia|done]].
    destruct (nextFrame s) as [f|] eqn:Hn.
    + rewrite (answer_next accepted s id g f Hl Hn). simpl. lia.
    + rewrite (answer_last accepted s id g Hl Hn). simpl. lia.
  - destruct (resume_calls s) as (_ & -> & _). lia.
  - simpl. lia.
Qed.

Lemma accounted_execs l s :
  Forall (λ i, i ≠ InDispose) l → accounted s →
  accounted (execs l s) ∧ cloned (execs l s) = cloned s + writes l.
Proof.
  intros Hl. revert s. induction Hl as [|i l Hi Hl IH]; intros s Hs; simpl.
  - split; [done|]. unfold writes. simpl. lia.
  - destruct (IH (exec i s)) as [Ha Hc]; [by apply accounted_exec|].
    split; [done|]. rewrite Hc, cloned_exec. unfold writes. simpl. lia.
Qed.

End accounting.

(** While the controller is not disposed, every frame written is handed to
    the consumer, or counted by [increaseFramesSkipped()], or waiting in
    the slot; and [increaseFramesRendered()] is called at most once for
    each frame handed over, never for the frame in flight. *)
Theorem frames_are_accounted (l : list RendererController.input) :
  Forall (λ i, i ≠ RendererController.InDispose) l →
  let s := RendererController.execs l RendererController.start in
  writes l
  = forwarded (RendererController.calls s)
    + skipped (RendererController.calls s) + slot s ∧
  rendered (RendererController.calls s) + in_flight s
  ≤ forwarded (RendererController.calls s).
Proof.
  intros Hl s.
  destruct (accounted_execs l RendererController.start Hl) as [[Hw Hr] Hc].
  { by split. }
  fold s in Hw, Hr, Hc. simpl in Hc. split; [lia|done].
Qed.

Lemma frames_are_accounted_witness :
  let l := [RendererController.InWrite (FInput 1);
            RendererController.InWrite (FInput 2);
            RendererController.InWrite (FInput 3);
            RendererController.InAnswer true;
            RendererController.InClose;
            RendererController.InAnswer false;
            RendererController.InResume] in
  let s := RendererController.execs l RendererController.start in
  3 = forwarded (RendererController.calls s)
      + skipped (RendererController.calls s) + slot s ∧
  skipped (RendererController.calls s) = 1.
Proof.
  intros l s.
  destruct (frames_are_accounted l) as [H _].
  { repeat constructor; discriminate. }
  split; [exact H|]. vm_compute. reflexivity.
Defined.

(** ** RendererController: abort, the capture frame, hard termination *)

Section abort.
Import RendererController.
Implicit Types (s : controller) (f g : frame) (id : nat) (i : input).

(** The controller after [abort(reason)], stage by stage. *)
Lemma abort_stages reason s id g f :
  loop s = Some (id, g) → drawTask s = Some id → nextFrame s = Some f →
  waiters s = [] → id ∉ finished s →
  let s1 := abort reason s in
  calls s1 = calls s ∧ resume s1 = s1 ∧
  ∀ b1, let s2 := answer b1 s1 in
    calls s2 = calls s ++ [reply b1 g; CallEnqueue f] ∧ resume s2 = s2 ∧
    ∀ b2, let s3 := answer b2 s2 in
      calls s3 = calls s ++ [reply b1 g; CallEnqueue f; reply b2 f] ∧
      (∀ b, answer b s3 = s3) ∧
      let s4 := resume s3 in
      calls s4 = calls s ++ [reply b1 g; CallEnqueue f; reply b2 f;
                             CallReadableError reason; CallCounterDispose] ∧
      (∀ b, answer b s4 = s4) ∧ resume s4 = s4.
Proof.
  intros Hl Hd Hn Hw Hf. destruct s as [c n d l k fin ws m cs].
  simpl in Hl, Hd, Hn, Hw, Hf. subst l d n ws.
  assert (bool_decide (id ∈ fin) = false) as Hfalse
    by (by apply bool_decide_eq_false_2).
  assert (bool_decide (id ∈ id :: fin) = true) as Htrue
    by (apply bool_decide_eq_true_2; by left).
  intros s1. split_and!; [done| |].
  { unfold s1, resume, abort; simpl. unfold ready; simpl. by rewrite Hfalse. }
  intros b1 s2.
  assert (s2 = Controller c None (Some id) (Some (id, f)) k fin
                 [Waiter (EndAbort reason) (Some id)] m
                 (cs ++ [reply b1 g; CallEnqueue f])) as ->.
  { unfold s2, s1. by rewrite (answer_next b1 _ id g f). }
  split_and!; [done| |].
  { unfold resume; simpl. unfold ready; simpl. by rewrite Hfalse. }
  intros b2 s3.
  assert (s3 = Controller c None None None k (id :: fin)
                 [Waiter (EndAbort reason) (Some id)] m
                 (cs ++ [reply b1 g; CallEnqueue f; reply b2 f])) as ->.
  { unfold s3. rewrite (answer_last b2 _ id f) by done. simpl.
    by rewrite <- app_assoc. }
  split_and!; [done|by intros b|].
  intros s4.
  assert (s4 = Controller c None None None k (id :: fin) [] m
                 (cs ++ [reply b1 g; CallEnqueue f; reply b2 f;
                         CallReadableError reason; CallCounterDispose])) as ->.
  { unfold s4, resume; simpl. unfold ready; simpl. rewrite Htrue.
    cbv -[app reply]. by rewrite <- !app_assoc. }
  by split_and!.
Qed.

(** The calls made after [abort(reason)] while the consumer answers and
    the handler resumes: a prefix of one fixed sequence. *)
Lemma abort_calls reason s id g f (l : list input) :
  loop s = Some (id, g) → drawTask s = Some id → nextFrame s = Some f →
  waiters s = [] → id ∉ finished s → Forall passive l →
  ∃ b1 b2 evs,
    calls (execs l (abort reason s)) = calls s ++ evs ∧
    evs `prefix_of` [reply b1 g; CallEnqueue f; reply b2 f;
                     CallReadableError reason; CallCounterDispose].
Proof.
  intros Hl Hd Hn Hw Hf Hp.
  destruct (abort_stages reason s id g f Hl Hd Hn Hw Hf) as (C1 & R1 & H).
  assert (∀ s',
    s' = abort reason s ∨ (∃ b1, s' = answer b1 (abort reason s)) ∨
    (∃ b1 b2, s' = answer b2 (answer b1 (abort reason s))) ∨
    (∃ b1 b2, s' = resume (answer b2 (answer b1 (abort reason s)))) →
    ∃ b1 b2 evs, calls (execs l s') = calls s ++ evs ∧
      evs `prefix_of` [reply b1 g; CallEnqueue f; reply b2 f;
                       CallReadableError reason; CallCounterDispose]) as Hall.
  { induction Hp as [|i l Hi Hp IH]; intros s' Hs'.
    - simpl. destruct Hs' as [->|[[b1 ->]|[(b1 & b2 & ->)|(b1 & b2 & ->)]]].
      + exists true, true, []. rewrite C1, app_nil_r.
        split; [done|]. apply prefix_nil.
      + destruct (H b1) as (-> & _).
        exists b1, true, [reply b1 g; CallEnqueue f]. split; [done|].
        by eexists [_; _; _].
      + destruct (H b1) as (_ & _ & H2). destruct (H2 b2) as (-> & _).
        exists b1, b2, [reply b1 g; CallEnqueue f; reply b2 f].
        split; [done|]. by eexists [_; _].
      + destruct (H b1) as (_ & _ & H2). destruct (H2 b2) as (_ & _ & -> & _).
        exists b1, b2, [reply b1 g; CallEnqueue f; reply b2 f;
                        CallReadableError reason; CallCounterDispose].
        split; [done|]. by exists [].
    - simpl. apply IH.
      destruct i as [| | | |b| |]; try done; cbn [exec].
      + destruct Hs' as [->|[[b1 ->]|[(b1 & b2 & ->)|(b1 & b2 & ->)]]].
        * right. left. eauto.
        * right. right. left. eauto.
        * destruct (H b1) as (_ & _ & H2).
          destruct (H2 b2) as (_ & -> & _). right. right. left. eauto.
        * destruct (H b1) as (_ & _ & H2).
          destruct (H2 b2) as (_ & _ & _ & -> & _). right. right. right. eauto.
      + destruct Hs' as [->|[[b1 ->]|[(b1 & b2 & ->)|(b1 & b2 & ->)]]].
        * rewrite R1. by left.
        * destruct (H b1) as (_ & -> & _). right. left. eauto.
        * right. right. right. eauto.
        * destruct (H b1) as (_ & _ & H2).
          destruct (H2 b2) as (_ & _ & _ & _ & ->). right. right. right. eauto. }
  apply Hall. by left.
Qed.

End abort.

(** Inputs of the consumer and of the scheduler: the consumer answers or
    cancels, a suspended handler resumes. *)
Definition downstream (i : RendererController.input) : Prop :=
  match i with
  | RendererController.InAnswer _ | RendererController.InResume
  | RendererController.InCancel _ => True
  | _ => False
  end.

(** The calls other than [writableController.error(e)]. *)
Fixpoint handler_calls (l : list RendererController.call)
    : list RendererController.call :=
  match l with
  | [] => []
  | RendererController.CallWritableError _ :: l => handler_calls l
  | c :: l => c :: handler_calls l
  end.

(** The arguments of the calls [writableController.error(e)], in order. *)
Fixpoint writable_errors (l : list RendererController.call) : list value :=
  match l with
  | [] => []
  | RendererController.CallWritableError e :: l => e :: writable_errors l
  | _ :: l => writable_errors l
  end.

(** The reasons of the cancellations among the inputs, in order. *)
Fixpoint cancellations (l : list RendererController.input) : list value :=
  match l with
  | [] => []
  | RendererController.InCancel reason :: l => reason :: cancellations l
  | _ :: l => cancellations l
  end.

(** The inputs that are not cancellations. *)
Fixpoint uncancelled (l : list RendererController.input)
    : list RendererController.input :=
  match l with
  | [] => []
  | RendererController.InCancel _ :: l => uncancelled l
  | i :: l => i :: uncancelled l
  end.

(** Two controllers in the same state, whose call logs differ only in
    calls of [writableController.error]. *)
Definition alike (s s' : RendererController.controller) : Prop :=
  RendererController.captureFrame s = RendererController.captureFrame s' ∧
  RendererController.nextFrame s = RendererController.nextFrame s' ∧
  RendererController.drawTask s = RendererController.drawTask s' ∧
  RendererController.loop s = RendererController.loop s' ∧
  RendererController.started s = RendererController.started s' ∧
  RendererController.finished s = RendererController.finished s' ∧
  RendererController.waiters s = RendererController.waiters s' ∧
  RendererController.cloned s = RendererController.cloned s' ∧
  handler_calls (RendererController.calls s)
  = handler_calls (RendererController.calls s').

Section cancellation.
Import RendererController.
Implicit Types (s : controller) (f g : frame) (id : nat) (i : input).

Lemma handler_calls_app l1 l2 :
  handler_calls (l1 ++ l2) = handler_calls l1 ++ handler_calls l2.
Proof.
  induction l1 as [|c l1 IH]; [done|]. destruct c; simpl; by rewrite ?IH.
Qed.

Lemma writable_errors_app l1 l2 :
  writable_errors (l1 ++ l2) = writable_errors l1 ++ writable_errors l2.
Proof.
  induction l1 as [|c l1 IH]; [done|]. destruct c; simpl; by rewrite ?IH.
Qed.

Lemma alike_refl s : alike s s.
Proof. by split_and!. Qed.

Lemma pick_alike s s' ws : finished s = finished s' → pick s ws = pick s' ws.
Proof.
  intros Hf. induction ws as [|w ws IH]; [done|]. simpl.
  unfold ready. rewrite Hf, IH. done.
Qed.

(** What an answer or a resumption adds to the call log. *)
Lemma passive_calls i s :
  passive i →
  ∃ evs, calls (exec i s) = calls s ++ evs ∧ writable_errors evs = [].
Proof.
  destruct i as [| | | |accepted| |]; try done; intros _; cbn [exec].
  - destruct (loop s) as [[id g]|] eqn:Hl.
    + destruct (nextFrame s) as [f|] eqn:Hn.
      * rewrite (answer_next accepted s id g f Hl Hn). simpl.
        eexists. split; [done|]. by destruct accepted.
      * rewrite (answer_last accepted s id g Hl Hn). simpl.
        eexists. split; [done|]. by destruct accepted.
    + rewrite answer_idle by done. exists []. by rewrite app_nil_r.
  - unfold resume. destruct (pick s (waiters s)) as [[w rest]|].
    + destruct s as [c n d l k fin ws m cs].
      exists [match w_ending w with
              | EndClose => CallReadableClose
              | EndAbort reason => CallReadableError reason
              end; CallCounterDispose].
      split; [cbv -[app w_ending]; by rewrite <- app_assoc|].
      by destruct (w_ending w).
    + exists []. by rewrite app_nil_r.
Qed.

Lemma alike_exec i s s' : passive i → alike s s' → alike (exec i s) (exec i s').
Proof.
  intros Hi (Hc & Hn & Hd & Hl & Hst & Hf & Hw & Hm & Hcs).
  destruct s as [c n d l k fin ws m cs], s' as [c' n' d' l' k' fin' ws' m' cs'].
  simpl in *. subst c' n' d' l' k' fin' ws' m'.
  destruct i as [| | | |accepted| |]; try done; cbn [exec].
  - destruct l as [[id g]|]; [|by split_and!].
    destruct n as [f|], accepted; cbv -[app handler_calls];
      split_and!; try done; rewrite !handler_calls_app; simpl;
      by rewrite ?handler_calls_app, Hcs.
  - unfold resume. cbn [waiters].
    rewrite (pick_alike _ (Controller c n d l k fin ws m cs') ws) by done.
    destruct (pick _ ws) as [[w rest]|]; [|by split_and!].
    destruct (w_ending w); cbv -[app handler_calls];
      split_and!; try done; rewrite !handler_calls_app; simpl;
      by rewrite ?handler_calls_app, Hcs.
Qed.

Lemma alike_cancel reason s s' : alike s s' → alike (cancel reason s) s'.
Proof.
  intros (Hc & Hn & Hd & Hl & Hst & Hf & Hw & Hm & Hcs).
  unfold cancel. split_and!; try done. simpl.
  by rewrite handler_calls_app, app_nil_r.
Qed.

(** Cancellations only add calls of the listener: the other calls are
    those of the run without the cancellations. *)
Lemma alike_execs l s s' :
  Forall downstream l → alike s s' →
  alike (execs l s) (execs (uncancelled l) s').
Proof.
  intros Hl. revert s s'.
  induction Hl as [|i l Hi Hl IH]; intros s s' H; [done|].
  destruct i as [| | | |accepted| |reason]; try done; simpl; apply IH.
  - by apply (alike_exec (InAnswer accepted)).
  - by apply (alike_exec InResume).
  - by apply alike_cancel.
Qed.

Lemma uncancelled_passive l : Forall downstream l → Forall passive (uncancelled l).
Proof.
  induction 1 as [|i l Hi Hl IH]; [done|].
  destruct i; try done; simpl; by constructor.
Qed.

(** The calls of [writableController.error] made while the consumer
    answers or cancels are those of the listener, one per cancellation. *)
Lemma downstream_calls l s :
  Forall downstream l →
  ∃ evs, calls (execs l s) = calls s ++ evs ∧
         writable_errors evs = cancellations l.
Proof.
  intros Hl. revert s. induction Hl as [|i l Hi Hl IH]; intros s.
  { exists []. by rewrite app_nil_r. }
  simpl. destruct (IH (exec i s)) as (evs & -> & He).
  destruct i as [| | | |accepted| |reason]; try done.
  - destruct (passive_calls (InAnswer accepted) s I) as (evs0 & -> & H0).
    exists (evs0 ++ evs). split; [by rewrite app_assoc|].
    by rewrite writable_errors_app, H0, He.
  - destruct (passive_calls InResume s I) as (evs0 & -> & H0).
    exists (evs0 ++ evs). split; [by rewrite app_assoc|].
    by rewrite writable_errors_app, H0, He.
  - cbn [exec]. unfold cancel. simpl.
    exists (CallWritableError reason :: evs).
    split; [by rewrite <- app_assoc|]. simpl. by rewrite He.
Qed.

End cancellation.

(** A frame [f] is in the slot when the input side is aborted with
    [reason].  Like [close], [abort] waits for the [#draw()] call in
    flight.  While the consumer answers or cancels and the handler
    resumes, the calls made are, in order, those of a prefix of: the answer
    for the frame in flight is handled, [f] is handed to the consumer, the
    answer for [f] is handled, the output side is errored with [reason],
    the counter is disposed; and, interleaved with them, one call
    [writableController.error] of the abort listener for each
    cancellation, with its reason. *)
Theorem abort_forwards_slot
    (s : RendererController.controller) (f : frame) (reason : value)
    (l : list RendererController.input) :
  RendererController.accessible s → RendererController.nextFrame s = Some f →
  RendererController.waiters s = [] →
  Forall downstream l →
  ∃ id g b1 b2 evs,
    RendererController.loop s = Some (id, g) ∧
    RendererController.calls
      (RendererController.execs l (RendererController.abort reason s))
    = RendererController.calls s ++ evs ∧
    handler_calls evs `prefix_of`
      [reply b1 g; RendererController.CallEnqueue f; reply b2 f;
       RendererController.CallReadableError reason;
       RendererController.CallCounterDispose] ∧
    writable_errors evs = cancellations l.
Proof.
  intros Hacc Hn Hw Hp. pose proof (sound_accessible s Hacc) as Hs.
  destruct (s_slot s Hs f Hn) as (id & g & Hl).
  destruct (s_loop s Hs id g Hl) as [Hd Hf].
  destruct (abort_calls reason s id g f (uncancelled l) Hl Hd Hn Hw Hf
              (uncancelled_passive l Hp)) as (b1 & b2 & evs' & Hc' & Hpre).
  destruct (downstream_calls l (RendererController.abort reason s) Hp)
    as (evs & Hc & He).
  pose proof (alike_execs l _ _ Hp
                (alike_refl (RendererController.abort reason s)))
    as (_ & _ & _ & _ & _ & _ & _ & _ & Hh).
  change (RendererController.calls (RendererController.abort reason s))
    with (RendererController.calls s) in Hc.
  rewrite Hc, Hc', !handler_calls_app in Hh. apply app_inv_head in Hh.
  assert (handler_calls evs' = evs') as Hevs'.
  { destruct Hpre as [k Hk]. clear -Hk.
    destruct b1, b2;
      repeat (destruct evs' as [|? evs']; simplify_eq/=; try done). }
  exists id, g, b1, b2, evs. split_and!; [done|done| |done].
  by rewrite Hh, Hevs'.
Qed.

Lemma abort_forwards_slot_witness :
  let s := RendererController.execs
             [RendererController.InWrite (FInput 1);
              RendererController.InWrite (FInput 2)]
             RendererController.start in
  let l := [RendererController.InCancel E1;
            RendererController.InAnswer false; RendererController.InResume;
            RendererController.InAnswer false; RendererController.InResume] in
  let s' := RendererController.execs l (RendererController.abort E1 s) in
  RendererController.nextFrame s = Some (FInput 2) ∧
  (∃ id g b1 b2 evs,
     RendererController.loop s = Some (id, g) ∧
     RendererController.calls s' = RendererController.calls s ++ evs ∧
     handler_calls evs `prefix_of`
       [reply b1 g; RendererController.CallEnqueue (FInput 2);
        reply b2 (FInput 2); RendererController.CallReadableError E1;
        RendererController.CallCounterDispose] ∧
     writable_errors evs = cancellations l) ∧
  RendererController.calls s'
  = RendererController.calls s
    ++ [RendererController.CallWritableError E1;
        RendererController.CallClose (FInput 1);
        RendererController.CallEnqueue (FInput 2);
        RendererController.CallClose (FInput 2);
        RendererController.CallReadableError E1;
        RendererController.CallCounterDispose].
Proof.
  intros s l s'.
  assert (RendererController.nextFrame s = Some (FInput 2)) as Hn
    by (vm_compute; reflexivity).
  split_and!; [exact Hn| |vm_compute; reflexivity].
  apply abort_forwards_slot;
    [apply accessible_execs, RendererController.acc_start|exact Hn
    |vm_compute; reflexivity|repeat constructor].
Defined.

(** Inputs that neither write a frame nor dispose the controller. *)
Definition retains (i : RendererController.input) : Prop :=
  match i with
  | RendererController.InWrite _ | RendererController.InDispose => False
  | _ => True
  end.

Section capture.
Import RendererController.
Implicit Types (s : controller) (f g : frame) (id : nat) (i : input).

Lemma capture_write f s : captureFrame (write f s) = Some (FClone f (cloned s)).
Proof.
  destruct (drawTask s) as [id|] eqn:Hd.
  - by rewrite (write_in_flight f s id Hd).
  - by rewrite (write_idle f s Hd).
Qed.

Lemma capture_exec i s : retains i → captureFrame (exec i s) = captureFrame s.
Proof.
  destruct i as [f| |reason| |accepted| |reason]; try done; intros _; cbn [exec].
  - destruct (loop s) as [[id g]|] eqn:Hl; [|by rewrite answer_idle].
    destruct (nextFrame s) as [f|] eqn:Hn.
    + by rewrite (answer_next accepted s id g f Hl Hn).
    + by rewrite (answer_last accepted s id g Hl Hn).
  - by destruct (resume_calls s) as (-> & _).
Qed.

Lemma capture_execs l s :
  Forall retains l → captureFrame (execs l s) = captureFrame s.
Proof.
  intros Hl. revert s. induction Hl as [|i l Hi Hl IH]; intros s; simpl;
    [done|].
  by rewrite IH, capture_exec.
Qed.

(** With an empty slot, the consumer's answers and the handlers hand
    nothing to the consumer. *)
Lemma drained_exec i s :
  passive i → nextFrame s = None →
  nextFrame (exec i s) = None ∧
  forwarded (calls (exec i s)) = forwarded (calls s).
Proof.
  destruct i as [| | | |accepted| |]; try done; intros _ Hn; cbn [exec].
  - destruct (loop s) as [[id g]|] eqn:Hl; [|by rewrite answer_idle].
    rewrite (answer_last accepted s id g Hl Hn). simpl. split; [done|].
    unfold forwarded. rewrite tally_app. destruct accepted; simpl; lia.
  - destruct (resume_fields s) as (-> & _).
    destruct (resume_calls s) as (_ & _ & evs & -> & Hf & _).
    split; [done|]. unfold forwarded in *. rewrite tally_app. lia.
Qed.

Lemma drained_execs l s :
  Forall passive l → nextFrame s = None →
  forwarded (calls (execs l s)) = forwarded (calls s).
Proof.
  intros Hl. revert s. induction Hl as [|i l Hi Hl IH]; intros s Hn; simpl;
    [done|].
  destruct (drained_exec i s Hi Hn) as [Hn' Hf]. by rewrite IH.
Qed.

Lemma dispose_calls s :
  calls (dispose s)
  = calls s ++ capture_calls s
    ++ match nextFrame s with Some g => [CallClose g] | None => [] end
    ++ [CallCounterDispose; CallTryClose; CallWritableError ErrTypeError].
Proof.
  destruct s as [[c|] [n|] d l k fin ws m cs]; cbv -[app];
    by rewrite <- ?app_assoc.
Qed.

End capture.

(** [captureFrame] is a clone of the frame written last, whether that
    frame went to the consumer, waits in the slot or is skipped later by
    the loop's answer; it stays so while the consumer answers and through
    [close] and [abort]. *)
Theorem capture_frame_is_last_written
    (s : RendererController.controller) (f : frame)
    (l : list RendererController.input) :
  Forall retains l →
  RendererController.captureFrame
    (RendererController.execs l (RendererController.write f s))
  = Some (FClone f (RendererController.cloned s)).
Proof. intros Hl. by rewrite capture_execs, capture_write. Qed.

Lemma capture_frame_is_last_written_witness :
  let s := RendererController.write (FInput 1) RendererController.start in
  RendererController.captureFrame
    (RendererController.execs
       [RendererController.InAnswer true; RendererController.InClose;
        RendererController.InAnswer false; RendererController.InResume]
       (RendererController.write (FInput 2) s))
  = Some (FClone (FInput 2) (RendererController.cloned s)).
Proof.
  intros s. apply capture_frame_is_last_written. by repeat constructor.
Defined.

(** [dispose()] does not wait for the [#draw()] call in flight: at once it
    closes [captureFrame] and the frame in the slot, disposes the counter,
    closes the output side and errors the input side.  The call in flight
    is left as it is, and when the consumer answers, nothing more is
    handed to the consumer. *)
Theorem dispose_releases_at_once
    (s : RendererController.controller) (l : list RendererController.input) :
  Forall RendererController.passive l →
  let s' := RendererController.dispose s in
  RendererController.captureFrame s' = None ∧
  RendererController.nextFrame s' = None ∧
  RendererController.loop s' = RendererController.loop s ∧
  RendererController.calls s'
  = RendererController.calls s ++ RendererController.capture_calls s
    ++ match RendererController.nextFrame s with
       | Some g => [RendererController.CallClose g]
       | None => []
       end
    ++ [RendererController.CallCounterDispose; RendererController.CallTryClose;
        RendererController.CallWritableError ErrTypeError] ∧
  forwarded (RendererController.calls (RendererController.execs l s'))
  = forwarded (RendererController.calls s).
Proof.
  intros Hl s'.
  destruct (dispose_fields s) as (Hn & Hc & _ & Hlp & _).
  split_and!; [done|done|done|apply dispose_calls|].
  rewrite drained_execs by done. unfold s'. rewrite dispose_calls.
  unfold forwarded. rewrite !tally_app.
  unfold RendererController.capture_calls.
  destruct (RendererController.captureFrame s),
    (RendererController.nextFrame s); simpl; lia.
Qed.

Lemma dispose_releases_at_once_witness :
  let s := RendererController.execs
             [RendererController.InWrite (FInput 1);
              RendererController.InWrite (FInput 2)]
             RendererController.start in
  let s' := RendererController.execs
              [RendererController.InAnswer true; RendererController.InResume]
              (RendererController.dispose s) in
  forwarded (RendererController.calls s') = 1 ∧
  RendererController.calls s'
  = [RendererController.CallEnqueue (FInput 1);
     RendererController.CallClose (FClone (FInput 1) 0);
     RendererController.CallClose (FClone (FInput 2) 1);
     RendererController.CallClose (FInput 2);
     RendererController.CallCounterDispose;
     RendererController.CallTryClose;
     RendererController.CallWritableError ErrTypeError;
     RendererController.CallRendered].
Proof.
  intros s s'.
  destruct (dispose_releases_at_once s
              [RendererController.InAnswer true; RendererController.InResume])
    as (_ & _ & _ & _ & H); [by repeat constructor|].
  split; [|vm_compute; reflexivity].
  fold s' in H. rewrite H. vm_compute. reflexivity.
Defined.

(** ** RendererController: frames reach the consumer in arrival order *)

(** The frames handed to the consumer, in order. *)
Fixpoint sent (l : list RendererController.call) : list frame :=
  match l with
  | [] => []
  | RendererController.CallEnqueue f :: l => f :: sent l
  | _ :: l => sent l
  end.

(** The frames written by the producer, in order. *)
Fixpoint written (l : list RendererController.input) : list frame :=
  match l with
  | [] => []
  | RendererController.InWrite f :: l => f :: written l
  | _ :: l => written l
  end.

Definition waiting (s : RendererController.controller) : list frame :=
  match RendererController.nextFrame s with
  | Some f => [f]
  | None => []
  end.

Section order.
Import RendererController.
Implicit Types (s : controller) (f g : frame) (id : nat) (i : input).

Lemma sent_app l1 l2 : sent (l1 ++ l2) = sent l1 ++ sent l2.
Proof.
  induction l1 as [|c l1 IH]; [done|]. destruct c; simpl; by rewrite ?IH.
Qed.

Lemma written_app l1 l2 : written (l1 ++ l2) = written l1 ++ written l2.
Proof.
  induction l1 as [|i l1 IH]; [done|]. destruct i; simpl; by rewrite ?IH.
Qed.

Lemma sent_capture_calls s : sent (capture_calls s) = [].
Proof. unfold capture_calls. by destruct (captureFrame s). Qed.

Lemma sent_slot_calls s : sent (slot_calls s) = [].
Proof. unfold slot_calls. by destruct (nextFrame s). Qed.

Lemma sent_reply accepted g : sent [reply accepted g] = [].
Proof. by destruct accepted. Qed.

(** One input: the frames handed over, followed by the frame in the slot,
    stay a subsequence of the frames written. *)
Lemma order_exec i s (W : list frame) :
  sent (calls s) ++ waiting s `sublist_of` W →
  sent (calls (exec i s)) ++ waiting (exec i s) `sublist_of` W ++ written [i].
Proof.
  intros H.
  assert (sent (calls s) `sublist_of` W) as H0.
  { etrans; [|exact H]. by apply sublist_inserts_r. }
  destruct i as [f| |reason| |accepted| |reason]; cbn [exec written].
  - destruct (drawTask s) as [id|] eqn:Hd.
    + rewrite (write_in_flight f s id Hd). unfold waiting. simpl.
      rewrite !sent_app, sent_capture_calls, sent_slot_calls, !app_nil_r.
      by apply sublist_app.
    + rewrite (write_idle f s Hd). unfold waiting. simpl.
      rewrite !sent_app, sent_capture_calls, sent_slot_calls. simpl.
      rewrite app_nil_r. by apply sublist_app.
  - by rewrite (app_nil_r W).
  - by rewrite (app_nil_r W).
  - assert (waiting (dispose s) = []) as ->.
    { unfold waiting. by destruct (dispose_fields s) as (-> & _). }
    assert (sent match nextFrame s with
                 | Some g => [CallClose g]
                 | None => []
                 end = []) as Hs by (by destruct (nextFrame s)).
    rewrite !app_nil_r, dispose_calls, !sent_app, sent_capture_calls, Hs.
    simpl. by rewrite !app_nil_r.
  - rewrite (app_nil_r W).
    destruct (loop s) as [[id g]|] eqn:Hl; [|by rewrite answer_idle].
    unfold waiting in *. destruct (nextFrame s) as [f|] eqn:Hn.
    + rewrite (answer_next accepted s id g f Hl Hn). simpl.
      rewrite sent_app. destruct accepted; simpl; by rewrite app_nil_r.
    + rewrite (answer_last accepted s id g Hl Hn). simpl.
      rewrite sent_app, sent_reply. by rewrite !app_nil_r in *.
  - rewrite (app_nil_r W).
    destruct (resume_fields s) as (Hn & _). unfold waiting. rewrite Hn.
    unfold resume. destruct (pick s (waiters s)) as [[w rest]|]; [|done].
    assert (sent (calls (finish (w_ending w) (set_waiters rest s)))
            = sent (calls s)) as ->; [|done].
    destruct s as [c n d l k fin ws m cs].
    destruct (w_ending w); cbv -[app sent]; rewrite !sent_app; simpl;
      by rewrite !app_nil_r.
  - rewrite (app_nil_r W). unfold cancel, waiting in *. simpl.
    by rewrite sent_app, app_nil_r.
Qed.

Lemma order_execs l s (W : list frame) :
  sent (calls s) ++ waiting s `sublist_of` W →
  sent (calls (execs l s)) ++ waiting (execs l s) `sublist_of` W ++ written l.
Proof.
  revert s W. induction l as [|i l IH]; intros s W H.
  - simpl. by rewrite app_nil_r.
  - change (execs (i :: l) s) with (execs l (exec i s)).
    change (written (i :: l)) with (written ([i] ++ l)).
    rewrite written_app, app_assoc. by apply IH, order_exec.
Qed.

End order.

(** The frames handed to the consumer so far, followed by the frame in the
    slot, are a subsequence of the frames written: frames are dropped by
    coalescing or by [dispose], never reordered and never duplicated. *)
Theorem frames_keep_their_order (l : list RendererController.input) :
  let s := RendererController.execs l RendererController.start in
  sent (RendererController.calls s) ++ waiting s `sublist_of` written l.
Proof. intros s. by apply (order_execs l RendererController.start []). Qed.

(** ** Tasks run in submission order *)

(** The origins of the promises, in allocation order. *)
Definition origins (w : world) : list origin := c_origin <$> heap w.

(** [w'] has the promises of [w], and new ones whose origins satisfy [P]. *)
Definition adds (P : origin → Prop) (w w' : world) : Prop :=
  ∃ news, origins w' = origins w ++ news ∧ Forall P news.

(** Promises made by [new Promise], [Promise.reject], an async function or
    an [await]: not by [then]. *)
Definition underived (og : origin) : Prop :=
  match og with
  | ODerived _ _ => False
  | _ => True
  end.

(** The origin of a promise made by one submission to the queue of [w]: if
    it is the result of a chained task, the task has the ticket of the
    submission and is chained on [#ready]. *)
Definition submitted (w : world) (og : origin) : Prop :=
  ∀ r b t, og = ODerived r (HRunTask b t) →
    ready w = Some r ∧ b = tickets w ∧ disposed w = false.

Section origins.
Implicit Types (w : world) (p d : pid) (c : completion) (P : origin → Prop).

Lemma adds_refl P w : adds P w w.
Proof. exists []. by rewrite app_nil_r. Qed.

Lemma adds_trans P w w' w'' : adds P w w' → adds P w' w'' → adds P w w''.
Proof.
  intros (n1 & E1 & F1) (n2 & E2 & F2). exists (n1 ++ n2).
  split; [by rewrite E2, E1, app_assoc|by apply Forall_app].
Qed.

Lemma adds_mono P Q w w' : (∀ og, P og → Q og) → adds P w w' → adds Q w w'.
Proof.
  intros H (n & E & F). exists n. split; [done|].
  eapply Forall_impl; [exact F|done].
Qed.

Lemma adds_heap P w w' : heap w' = heap w → adds P w w'.
Proof. intros H. exists []. unfold origins. by rewrite H, app_nil_r. Qed.

Lemma origins_insert (l : list cell) i x y :
  l !! i = Some x → c_origin y = c_origin x →
  c_origin <$> <[i:=y]> l = c_origin <$> l.
Proof.
  intros Hi Hy. rewrite list_fmap_insert, Hy.
  apply list_insert_id. by rewrite list_lookup_fmap, Hi.
Qed.

Lemma adds_settle P p o w : adds P w (settle p o w).
Proof.
  exists []. rewrite app_nil_r. split; [|done]. unfold origins, settle.
  destruct (heap w !! p) as [[[rs|o'] og]|] eqn:Hp; try done.
  simpl. by apply (origins_insert _ _ _ _ Hp).
Qed.

Lemma adds_subscribe P p (r : reaction) w : adds P w (subscribe p r w).
Proof.
  exists []. rewrite app_nil_r. split; [|done]. unfold origins, subscribe.
  destruct (heap w !! p) as [[[rs|o'] og]|] eqn:Hp; try done.
  simpl. by apply (origins_insert _ _ _ _ Hp).
Qed.

Lemma adds_alloc P (cl : cell) w : P (c_origin cl) → adds P w (alloc cl w).2.
Proof.
  intros H. exists [c_origin cl]. unfold origins; simpl.
  split; [by rewrite fmap_app|by apply Forall_singleton].
Qed.

Lemma adds_then P p k w : P (ODerived p k) → adds P w (then_ p k w).2.
Proof.
  intros H. unfold then_. simpl.
  eapply adds_trans; [|apply adds_subscribe].
  by apply (adds_alloc P (Cell (Pending []) (ODerived p k))).
Qed.

Lemma adds_draw_body n tok f cb p w :
  adds underived w (draw_body n tok f cb p w).
Proof.
  unfold draw_body, close_frame. destruct cb; simpl.
  - eapply adds_trans; [|apply adds_subscribe].
    by apply (adds_alloc underived _ (log _ w)).
  - eapply adds_trans; [|apply adds_settle]. by apply adds_heap.
  - eapply adds_trans; [|apply adds_subscribe].
    by apply (adds_alloc underived _ (log _ w)).
Qed.

Lemma adds_call_task n t w : adds underived w (call_task n t w).2.
Proof.
  unfold call_task. destruct t as [[]| |tok cb]; simpl.
  - by apply adds_heap.
  - by apply adds_heap.
  - by apply (adds_alloc underived _ (log _ w)).
  - eapply adds_trans; [|apply adds_draw_body].
    by apply (adds_alloc underived _ (log _ w)).
  - assert (adds underived w
              (alloc (Cell (Pending []) OAsync) (log (EvInvoke n) w)).2) as A
      by (by apply (adds_alloc underived _ (log _ w))).
    destruct (is_aborted _ _); simpl.
    { eapply adds_trans; [exact A|apply adds_settle]. }
    destruct (lastFrame w); simpl.
    + eapply adds_trans; [|apply adds_draw_body].
      eapply adds_trans; [exact A|]. by apply adds_heap.
    + eapply adds_trans; [|apply adds_settle].
      eapply adds_trans; [exact A|]. by apply adds_heap.
Qed.

Lemma adds_resolve P d c w : adds P w (resolve d c w).
Proof. destruct c; simpl; try apply adds_settle. by apply adds_heap. Qed.

Lemma adds_step w : adds underived w (step w).
Proof.
  unfold step. destruct (jobs w) as [|[[k d] o|d q] js]; [apply adds_refl|..].
  - unfold run_job, run_reaction. simpl.
    assert (adds underived w (handle k o (set_jobs js w)).2) as A.
    { unfold handle.
      destruct k as [bail| |n t|bail| |n f];
        try (destruct o; try destruct bail;
             try destruct (disposed (set_jobs js w)); by apply adds_heap).
      destruct o; [|by apply adds_heap].
      destruct (disposed (set_jobs js w)); [by apply adds_heap|].
      eapply adds_trans; [|apply adds_call_task]. by apply adds_heap. }
    destruct (handle k o (set_jobs js w)) as [c w1].
    eapply adds_trans; [exact A|apply adds_resolve].
  - simpl. eapply adds_trans; [|apply adds_subscribe]. by apply adds_heap.
Qed.

Lemma underived_submitted w og : underived og → submitted w og.
Proof. intros H r b t ->. done. Qed.

Lemma adds_enqueue t bail w :
  adds (submitted w) w (TaskQueue.enqueue t bail w).2.
Proof.
  unfold TaskQueue.enqueue. destruct (disposed w) eqn:Hd; [apply adds_refl|].
  set (w0 := set_tickets _ w).
  assert (adds (submitted w) w w0) as A0 by (by apply adds_heap).
  change (ready w0) with (ready w). destruct (ready w) as [r|] eqn:Hr.
  - pose proof (adds_then (submitted w) r (HRunTask (tickets w) t) w0) as A1.
    destruct (then_ r _ w0) as [result w1]. simpl in A1.
    pose proof (adds_then (submitted w) result (HReadyChain bail) w1) as A2.
    destruct (then_ result _ w1) as [r' w2]. simpl in A2 |- *.
    eapply adds_trans; [exact A0|]. eapply adds_trans; [apply A1|].
    { by intros ? ? ? [= <- <- <-]. }
    eapply adds_trans; [apply A2; by intros ? ? ? [=]|]. by apply adds_heap.
  - pose proof (adds_call_task (tickets w) t w0) as A1.
    apply (adds_mono _ (submitted w)) in A1; [|apply underived_submitted].
    destruct (call_task _ _ w0) as [[v|e|q] w1]; simpl in A1; cbv beta iota.
    + simpl. by apply (adds_trans _ w w0 w1).
    + destruct bail; [|simpl; by apply (adds_trans _ w w0 w1)].
      set (cl := Cell (Settled (Rejected e)) OReject).
      pose proof (adds_alloc (submitted w) cl w1) as A2.
      change (alloc cl w1) with (length (heap w1), (alloc cl w1).2).
      cbv beta iota.
      pose proof (adds_then (submitted w) (length (heap w1)) HSuppress
                    (alloc cl w1).2) as A3.
      destruct (then_ _ HSuppress _) as [r' w3]. simpl in A3 |- *.
      eapply adds_trans; [exact A0|]. eapply adds_trans; [exact A1|].
      eapply adds_trans; [apply A2; by intros ? ? ? [=]|].
      eapply adds_trans; [apply A3; by intros ? ? ? [=]|]. by apply adds_heap.
    + pose proof (adds_then (submitted w) q (HReadyIdle bail) w1) as A2.
      destruct (then_ q _ w1) as [r' w2]. simpl in A2 |- *.
      eapply adds_trans; [exact A0|]. eapply adds_trans; [exact A1|].
      eapply adds_trans; [apply A2; by intros ? ? ? [=]|]. by apply adds_heap.
Qed.

Lemma submitted_same w w' og :
  ready w' = ready w → tickets w' = tickets w → disposed w' = disposed w →
  submitted w' og → submitted w og.
Proof.
  intros Hr Ht Hd H r b t E. rewrite <- Hr, <- Ht, <- Hd. by apply (H r b t).
Qed.

Lemma adds_apply (a : op) w : adds (submitted w) w (apply a w).
Proof.
  destruct a as [b bail| |f cb|cb| |q o|]; cbn [apply].
  - apply adds_enqueue.
  - by apply adds_heap.
  - unfold RedrawController.draw, clone. cbv beta iota zeta.
    destruct (draw_prelude f w) as (Hh & _ & _ & Hd & Ht & Hr).
    set (w3 := set_lastFrame _ _) in *.
    eapply adds_trans; [by apply (adds_heap _ w w3)|].
    eapply adds_mono; [|apply adds_enqueue].
    intros og. by apply submitted_same.
  - unfold RedrawController.redraw.
    set (cl := Cell (Pending []) OAsync).
    change (alloc cl w) with (length (heap w), (alloc cl w).2).
    cbv beta iota.
    assert (adds (submitted w) w (alloc cl w).2) as A1.
    { apply (adds_alloc (submitted w) cl w). by intros ? ? ? [=]. }
    change (lastFrame (alloc cl w).2) with (lastFrame w).
    change (pendingRedraw (alloc cl w).2) with (pendingRedraw w).
    destruct (lastFrame w) as [lf|];
      [|cbn [snd]; eapply adds_trans; [exact A1|apply adds_settle]].
    destruct (pendingRedraw w);
      [cbn [snd]; eapply adds_trans; [exact A1|apply adds_settle]|].
    unfold new_token. cbv beta iota.
    change (set_pendingRedraw _ _) with (redraw_world w).
    assert (adds (submitted w) w (redraw_world w)) as A2.
    { eapply adds_trans; [exact A1|]. by apply adds_heap. }
    pose proof (adds_enqueue (TRedraw (length (aborted w)) cb) true
                  (redraw_world w)) as A3.
    apply (adds_mono _ (submitted w)) in A3;
      [|by intros og; apply submitted_same].
    destruct (TaskQueue.enqueue _ true (redraw_world w)) as [[v|e|r] w4];
      cbn [snd] in *.
    + set (cx := Cell (Settled (Fulfilled v)) OAwait).
      change (alloc cx w4) with (length (heap w4), (alloc cx w4).2).
      cbv beta iota. cbn [snd].
      eapply adds_trans; [exact A2|]. eapply adds_trans; [exact A3|].
      eapply adds_trans; [|apply adds_subscribe].
      apply (adds_alloc (submitted w) cx w4). by intros ? ? ? [=].
    + eapply adds_trans; [exact A2|]. eapply adds_trans; [exact A3|].
      apply adds_settle.
    + eapply adds_trans; [exact A2|]. eapply adds_trans; [exact A3|].
      apply adds_subscribe.
  - apply adds_heap. unfold RedrawController.dispose, TaskQueue.dispose. simpl.
    destruct (abort_pending_fields w) as (Ah & _).
    destruct (close_last_fields (RedrawController.abort_pending w)) as (Ch & _).
    congruence.
  - unfold settle_external.
    destruct (heap w !! q) as [[[rs|o'] []]|]; try apply adds_refl.
    apply adds_settle.
  - eapply adds_mono; [apply underived_submitted|apply adds_step].
Qed.

End origins.

(** The result promise [d] of the chained task with ticket [b], chained
    on [r]. *)
Definition run_cell (w : world) (d r : pid) (b : nat) : Prop :=
  ∃ st t, heap w !! d = Some (Cell st (ODerived r (HRunTask b t))).

(** [r] is where the task with ticket [b] belongs: no chained task has a
    smaller ticket, or [r] is [#ready] as the chained task with ticket
    [b - 1] left it. *)
Definition follows (w : world) (r : pid) (b : nat) : Prop :=
  (∀ d r' a, run_cell w d r' a → b ≤ a) ∨
  (∃ st bail d' r' a,
     heap w !! r = Some (Cell st (ODerived d' (HReadyChain bail))) ∧
     run_cell w d' r' a ∧ b = S a).

(** The chain of the queue: every chained task, and the next submission,
    is in its place. *)
Record chained (w : world) : Prop := {
  ch_cell d r b : run_cell w d r b → follows w r b;
  ch_ready r : ready w = Some r → follows w r (tickets w);
  ch_idle : ready w = None → ∀ d r b, ¬ run_cell w d r b
}.

(** The [bail] argument of the [enqueue] call an operation makes: [draw]
    and [redraw] pass [true]. *)
Definition op_bail (a : op) : bool :=
  match a with
  | OEnqueue _ bail => bail
  | _ => true
  end.

Section chain.
Implicit Types (w : world) (p d r : pid) (b n : nat).

Lemma run_cell_origins w d r b :
  run_cell w d r b ↔ ∃ t, origins w !! d = Some (ODerived r (HRunTask b t)).
Proof.
  unfold run_cell, origins. split.
  - intros (st & t & H). exists t. by rewrite list_lookup_fmap, H.
  - intros (t & H). rewrite list_lookup_fmap in H.
    destruct (heap w !! d) as [[st og]|]; simplify_eq/=. eauto.
Qed.

Lemma run_cell_evolves w w' d r b :
  evolves w w' → run_cell w d r b → run_cell w' d r b.
Proof.
  intros E (st & t & H). destruct (E _ _ _ H) as (st' & H' & _).
  by exists st', t.
Qed.

(** A chained task that is new was submitted by the operation. *)
Lemma run_cell_adds P w w' d r b :
  adds P w w' → run_cell w' d r b →
  run_cell w d r b ∨ ∃ t, P (ODerived r (HRunTask b t)).
Proof.
  intros (news & E & F). rewrite !run_cell_origins. intros (t & H).
  rewrite E in H. apply lookup_app_Some in H as [H|[_ H]]; [eauto|].
  right. exists t. rewrite Forall_forall in F. apply F.
  by eapply list_elem_of_lookup_2.
Qed.

Lemma enqueue_idle_same t bail w :
  disposed w = true → TaskQueue.enqueue t bail w = (RThrow ErrDisposed, w).
Proof. intros Hd. unfold TaskQueue.enqueue. by rewrite Hd. Qed.

(** An operation that submits nothing leaves the chain alone. *)
Lemma idle_apply (a : op) w :
  submits a w = false →
  ready (apply a w) = ready w ∧
  adds (λ og, ∀ r b t, og ≠ ODerived r (HRunTask b t)) w (apply a w).
Proof.
  set (P := λ og : origin, ∀ r b t, og ≠ ODerived r (HRunTask b t)).
  assert (∀ w', adds underived w w' → adds P w w') as Hu.
  { intros w'. apply adds_mono. intros og Hog r b t ->. done. }
  destruct a as [b bail| |f cb|cb| |q o|]; cbn [apply submits].
  - intros Hd%negb_false_iff. rewrite enqueue_idle_same by done.
    split; [done|apply adds_refl].
  - intros _. split; [done|by apply adds_heap].
  - intros Hd%negb_false_iff.
    unfold RedrawController.draw, clone. cbv beta iota zeta.
    destruct (draw_prelude f w) as (Hh & _ & _ & Hd' & _ & Hr).
    rewrite enqueue_idle_same by (by rewrite Hd').
    split; [done|by apply adds_heap].
  - unfold RedrawController.redraw.
    set (cl := Cell (Pending []) OAsync).
    change (alloc cl w) with (length (heap w), (alloc cl w).2).
    cbv beta iota.
    assert (adds P w (alloc cl w).2) as A1 by (by apply (adds_alloc P cl w)).
    change (lastFrame (alloc cl w).2) with (lastFrame w).
    change (pendingRedraw (alloc cl w).2) with (pendingRedraw w).
    assert (∀ o, ready (settle (length (heap w)) o (alloc cl w).2) = ready w ∧
                 adds P w (settle (length (heap w)) o (alloc cl w).2)) as Hq.
    { intros o. split.
      - by destruct (settle_queue (length (heap w)) o (alloc cl w).2).
      - eapply adds_trans; [exact A1|apply adds_settle]. }
    destruct (lastFrame w) as [lf|]; [|intros _; cbn [snd]; apply Hq].
    destruct (pendingRedraw w); [intros _; cbn [snd]; apply Hq|].
    intros Hd%negb_false_iff.
    unfold new_token. cbv beta iota.
    change (set_pendingRedraw _ _) with (redraw_world w).
    rewrite enqueue_idle_same by done.
    split.
    + by destruct (settle_queue (length (heap w)) (Rejected ErrDisposed)
                     (redraw_world w)).
    + eapply adds_trans; [|apply adds_settle].
      eapply adds_trans; [exact A1|]. by apply adds_heap.
  - intros _. unfold RedrawController.dispose, TaskQueue.dispose. simpl.
    destruct (abort_pending_fields w) as (Ah & _ & Ar & _).
    destruct (close_last_fields (RedrawController.abort_pending w))
      as (Ch & _ & Cr & _).
    split; [congruence|]. apply adds_heap. simpl. congruence.
  - intros _. split.
    + by destruct (quiet_apply (OSettle q o) w I) as [[? _] _].
    + unfold settle_external.
      destruct (heap w !! q) as [[[rs|o'] []]|]; try apply adds_refl.
      apply adds_settle.
  - intros _. split; [by destruct (step_queue w)|apply Hu, adds_step].
Qed.

Lemma run_cell_apply (a : op) w d r b :
  run_cell (apply a w) d r b →
  run_cell w d r b ∨
  (submits a w = true ∧ ready w = Some r ∧ b = tickets w).
Proof.
  intros H. destruct (submits a w) eqn:Hs.
  - destruct (run_cell_adds _ _ _ _ _ _ (adds_apply a w) H) as [|[t Ht]];
      [by left|].
    destruct (Ht r b t eq_refl) as (? & ? & _). by right.
  - destruct (idle_apply a w Hs) as [_ A].
    destruct (run_cell_adds _ _ _ _ _ _ A H) as [|[t Ht]]; [by left|].
    by destruct (Ht r b t).
Qed.

(** What a submission leaves behind when a chain is pending. *)
Lemma submit_chain_shape (a : op) w r :
  submits a w = true → ready w = Some r →
  ∃ r' st d,
    ready (apply a w) = Some r' ∧
    heap (apply a w) !! r'
    = Some (Cell st (ODerived d (HReadyChain (op_bail a)))) ∧
    run_cell (apply a w) d r (tickets w).
Proof.
  assert (∀ t bail w0, disposed w0 = false → ready w0 = Some r →
    let w' := (TaskQueue.enqueue t bail w0).2 in
    ∃ r' st d, ready w' = Some r' ∧
      heap w' !! r' = Some (Cell st (ODerived d (HReadyChain bail))) ∧
      run_cell w' d r (tickets w0)) as Henq.
  { intros t bail w0 Hd Hr w'.
    destruct (enqueue_chain_shape t bail w0 r Hr Hd)
      as (_ & Hr' & [st1 H1] & [st2 H2]).
    exists (S (length (heap w0))), st2, (length (heap w0)).
    split_and!; [done|done|]. by exists st1, t. }
  destruct a as [b bail| |f cb|cb| |q o|]; cbn [apply submits]; try done.
  - intros Hd%negb_true_iff Hr.
    destruct (Henq (TExternal b) bail w Hd Hr) as (r' & st & d & ?).
    by exists r', st, d.
  - intros Hd%negb_true_iff Hr.
    unfold RedrawController.draw, clone. cbv beta iota zeta.
    destruct (draw_prelude f w) as (_ & _ & _ & Hd' & Ht & Hr').
    set (w3 := set_lastFrame _ _) in *.
    destruct (Henq (TDraw f cb) true w3) as (r' & st & d & H);
      [congruence|congruence|].
    rewrite Ht in H. by exists r', st, d.
  - destruct (lastFrame w) as [lf|] eqn:Hlf; [|done].
    destruct (pendingRedraw w) eqn:Hp; [done|].
    intros Hd%negb_true_iff Hr.
    unfold RedrawController.redraw.
    set (cl := Cell (Pending []) OAsync).
    change (alloc cl w) with (length (heap w), (alloc cl w).2).
    cbv beta iota.
    change (lastFrame (alloc cl w).2) with (lastFrame w).
    change (pendingRedraw (alloc cl w).2) with (pendingRedraw w).
    rewrite Hlf, Hp. unfold new_token. cbv beta iota.
    change (set_pendingRedraw _ _) with (redraw_world w).
    destruct (Henq (TRedraw (length (aborted w)) cb) true (redraw_world w)
                Hd Hr) as (r' & st & d & Hr4 & Hc4 & (st' & t' & Hd4)).
    change (tickets (redraw_world w)) with (tickets w) in Hd4.
    assert (∀ w5, evolves (TaskQueue.enqueue (TRedraw (length (aborted w)) cb)
                             true (redraw_world w)).2 w5 →
                  ready w5 = ready (TaskQueue.enqueue
                    (TRedraw (length (aborted w)) cb) true (redraw_world w)).2 →
      ∃ r' st d, ready w5 = Some r' ∧
        heap w5 !! r' = Some (Cell st (ODerived d (HReadyChain true))) ∧
        run_cell w5 d r (tickets w)) as Hfin.
    { intros w5 E Hr5.
      destruct (E _ _ _ Hc4) as (st5 & Hc5 & _).
      destruct (E _ _ _ Hd4) as (st5' & Hd5 & _).
      exists r', st5, d. split_and!; [congruence|done|].
      by exists st5', t'. }
    destruct (TaskQueue.enqueue _ true (redraw_world w)) as [[v|e|rr] w4];
      cbn [snd] in *.
    + set (cx := Cell (Settled (Fulfilled v)) OAwait).
      change (alloc cx w4) with (length (heap w4), (alloc cx w4).2).
      cbv beta iota. cbn [snd]. apply Hfin.
      * apply evolves_subscribe, evolves_alloc, evolves_refl.
      * by destruct (subscribe_queue (length (heap w4))
                       (Reaction HForward (length (heap w))) (alloc cx w4).2).
    + apply Hfin; [apply evolves_settle, evolves_refl|].
      by destruct (settle_queue (length (heap w)) (Rejected e) w4).
    + apply Hfin; [apply evolves_subscribe, evolves_refl|].
      by destruct (subscribe_queue rr (Reaction HForward (length (heap w))) w4).
Qed.

Lemma follows_stable w w' r b :
  evolves w w' → b ≤ tickets w →
  (∀ d r' a, run_cell w' d r' a → run_cell w d r' a ∨ a = tickets w) →
  follows w r b → follows w' r b.
Proof.
  intros E Hb Hnew [H|(st & bail & d' & r' & a & Hr & Hd & ->)].
  - left. intros d r' a [Ha| ->]%Hnew; [by eapply H|done].
  - right. destruct (E _ _ _ Hr) as (st' & Hr' & _).
    exists st', bail, d', r', a. split_and!; [done| |done].
    by eapply run_cell_evolves.
Qed.

Lemma chained_init : chained init.
Proof.
  split; [|done|intros _]; intros d r b (st & t & H); by destruct d.
Qed.

Lemma chained_apply (a : op) w : wf w → chained w → chained (apply a w).
Proof.
  intros Hwf [Hc Hr Hi].
  pose proof (evolves_apply a w) as E.
  pose proof (tickets_apply a w) as Ht.
  assert (∀ d r' b, run_cell (apply a w) d r' b →
            run_cell w d r' b ∨ b = tickets w) as Hnew.
  { intros d r' b [?|(_ & _ & ?)]%run_cell_apply; eauto. }
  assert (∀ d r b, run_cell w d r b → b < tickets w) as Hlt.
  { intros d r b (st & t & H). by apply (wf_ticket _ _ Hwf) in H. }
  destruct (submits a w) eqn:Hs.
  - destruct (ready w) as [r|] eqn:Hrw.
    + destruct (submit_chain_shape a w r Hs Hrw)
        as (r' & st & d & Hr' & Hc' & Hd').
      specialize (Hr r eq_refl). split.
      * intros d0 r0 b0 H0.
        destruct (run_cell_apply _ _ _ _ _ H0) as [Hold|(_ & Hr0 & ->)].
        -- eapply follows_stable; eauto.
           pose proof (Hlt _ _ _ Hold). lia.
        -- rewrite Hrw in Hr0. injection Hr0 as <-.
           eapply follows_stable; eauto.
      * intros r0. rewrite Hr', Ht. intros [= <-].
        right. by exists st, (op_bail a), d, r, (tickets w).
      * by rewrite Hr'.
    + assert (∀ d r b, ¬ run_cell (apply a w) d r b) as Hnone.
      { intros d r b [Hold|(_ & ? & _)]%run_cell_apply; [|congruence].
        by eapply Hi. }
      split.
      * intros d r b H. by destruct (Hnone _ _ _ H).
      * intros r _. left. intros d r' b H. by destruct (Hnone _ _ _ H).
      * intros _. apply Hnone.
  - destruct (idle_apply a w Hs) as [Hr' _].
    assert (∀ d r b, run_cell (apply a w) d r b → run_cell w d r b) as Hold.
    { intros d r b [?|(? & _)]%run_cell_apply; [done|congruence]. }
    split.
    + intros d r b H%Hold. eapply follows_stable; eauto.
      pose proof (Hlt _ _ _ H). lia.
    + intros r. rewrite Hr', Ht. intros H%Hr. eapply follows_stable; eauto.
    + rewrite Hr'. intros H d r b H'%Hold. by eapply Hi.
Qed.

Lemma chained_reachable w : reachable w → chained w.
Proof.
  induction 1 as [|a w Hw IH]; [apply chained_init|].
  apply chained_apply; [by apply wf_reachable|done].
Qed.

End chain.

(** Whether the task of an invoked submission was chained, or called
    inside [enqueue] before any task was chained. *)
Definition placed (w : world) : Prop :=
  ∀ m, invoked w m →
    (∃ d r, run_cell w d r m) ∨ (∀ d r a, run_cell w d r a → m < a).

(** Invocations appear in the trace in the order of their tickets. *)
Definition ordered (w : world) : Prop :=
  ∀ l1 n l2 m, trace w = l1 ++ EvInvoke n :: l2 → EvInvoke m ∈ l2 → n < m.

Section order.
Implicit Types (w : world) (p d r : pid) (b n m : nat).

(** A waiting task is a chained task whose result is pending. *)
Lemma waiting_cell w n :
  wf w → 0 < total (waits n) w →
  ∃ d r, run_cell w d r n ∧ outcome_of w d = None.
Proof.
  intros Hwf ([k d] & Hin & Hp)%total_pos. simpl in Hp.
  destruct k as [| |n' t| | |]; simpl in Hp; try lia.
  destruct (decide (n' = n)) as [->|]; [|lia].
  destruct (wf_target _ _ Hwf _ Hin) as (rs & og & Hc & _ & Hog).
  simpl in *. destruct (Hog I) as [src ->].
  exists d, src. split; [by exists (Pending rs), t|].
  unfold outcome_of. by rewrite Hc.
Qed.

(** Once the promise a task is chained on has settled, the results of all
    tasks chained before it have settled. *)
Lemma earlier_settled w :
  wf w → chained w →
  ∀ b d r, run_cell w d r b → is_Some (outcome_of w r) →
  ∀ d' r' a, run_cell w d' r' a → a < b → is_Some (outcome_of w d').
Proof.
  intros Hwf Hch b. induction b as [b IH] using lt_wf_ind.
  intros d r Hd [o Ho] d' r' a Ha Hab.
  destruct (ch_cell _ Hch _ _ _ Hd)
    as [Hmin|(st & bail & d1 & r1 & a1 & Hr & Hd1 & ->)].
  - specialize (Hmin _ _ _ Ha). lia.
  - destruct (settled_after_source _ _ _ _ _ _ Hwf Hr Ho) as (o1 & Ho1 & _).
    destruct Hd1 as (st1 & t1 & Hd1).
    destruct (decide (a = a1)) as [->|Hne].
    + destruct Ha as (sta & ta & Ha).
      rewrite (wf_ticket_inj _ _ Hwf _ _ _ _ _ _ _ _ _ Ha Hd1). eauto.
    + destruct (settled_after_source _ _ _ _ _ _ Hwf Hd1 Ho1)
        as (o2 & Ho2 & _).
      apply (IH a1 ltac:(lia) d1 r1 ltac:(by exists st1, t1)
               ltac:(eauto) d' r' a Ha). lia.
Qed.

(** Where an invocation comes from: a submission to an idle queue, or the
    reaction of a chained task running on a queue that is not disposed. *)
Lemma invoke_new (a : op) w m :
  EvInvoke m ∈ op_events a w →
  (submits a w = true ∧ ready w = None ∧ m = tickets w) ∨
  (∃ t d v js, a = OStep ∧
     jobs w = JReaction (Reaction (HRunTask m t) d) (Fulfilled v) :: js).
Proof.
  assert (∀ t w', EvInvoke m ∈ enqueue_events t w' →
            disposed w' = false ∧ ready w' = None ∧ m = tickets w') as Henq.
  { intros t w'. unfold enqueue_events.
    destruct (disposed w'); [by intros ?%elem_of_nil|].
    destruct (ready w'); [by intros ?%elem_of_nil|].
    by intros ->%task_events_invoke. }
  assert (EvInvoke m ∉ close_events w) as Hcl.
  { unfold close_events. destruct (lastFrame w); set_solver. }
  destruct a as [b bail| |f cb|cb| |q o|]; cbn [op_events submits].
  - intros (Hd & ? & ?)%Henq. left. by rewrite Hd.
  - by intros ?%elem_of_nil.
  - intros [?|(Hd & ? & ?)%Henq]%elem_of_app; [done|]. left. by rewrite Hd.
  - destruct (lastFrame w); [|by intros ?%elem_of_nil].
    destruct (pendingRedraw w); [by intros ?%elem_of_nil|].
    intros (Hd & ? & ?)%Henq. left.
    change (disposed (redraw_world w)) with (disposed w) in Hd.
    by rewrite Hd.
  - done.
  - by intros ?%elem_of_nil.
  - unfold step_events.
    destruct (jobs w) as [|[[k d] o|] js];
      [by intros ?%elem_of_nil| |by intros ?%elem_of_nil].
    unfold handle_events; simpl.
    destruct k as [| |n t| | |]; try (by intros ?%elem_of_nil).
    + destruct o as [v|e]; [|by intros ?%elem_of_nil].
      destruct (disposed w); [by intros ?%elem_of_nil|].
      intros ->%task_events_invoke. right. by exists t, d, v, js.
    + intros [=]%list_elem_of_singleton.
Qed.

Lemma placed_apply (a : op) w :
  wf w → chained w → placed w → placed (apply a w).
Proof.
  intros Hwf Hch Hpl m. unfold invoked. rewrite trace_apply.
  intros [Hm|Hm]%elem_of_app.
  - destruct (Hpl m Hm) as [(d & r & Hd)|Hmin].
    + left. exists d, r. eapply run_cell_evolves; [apply evolves_apply|done].
    + right. intros d r b [Hold|(_ & _ & ->)]%run_cell_apply; [by eapply Hmin|].
      by apply (wf_invoked _ _ Hwf).
  - destruct (invoke_new a w m Hm)
      as [(_ & Hr & _)|(t & d & v & js & -> & Hj)].
    + right. intros d r b [Hold|(_ & ? & _)]%run_cell_apply; [|congruence].
      by destruct (ch_idle _ Hch Hr _ _ _ Hold).
    + left.
      assert (Reaction (HRunTask m t) d ∈ settlers w) as Hin.
      { apply (settlers_job w (JReaction (Reaction (HRunTask m t) d)
                                 (Fulfilled v))).
        rewrite Hj. by left. }
      destruct (wf_target _ _ Hwf _ Hin) as (rs & og & Hc & _ & Hog).
      simpl in *. destruct (Hog I) as [src ->].
      exists d, src.
      apply (run_cell_evolves w (apply OStep w)); [apply evolves_apply|].
      by exists (Pending rs), t.
Qed.

Lemma placed_reachable w : reachable w → placed w.
Proof.
  induction 1 as [|a w Hw IH]; [by intros m ?%elem_of_nil|].
  apply placed_apply;
    [by apply wf_reachable|by apply chained_reachable|done].
Qed.

(** Once a task has been invoked, no task with a smaller ticket waits. *)
Lemma earlier_not_waiting w n m :
  wf w → chained w → placed w →
  invoked w m → n < m → total (waits n) w = 0.
Proof.
  intros Hwf Hch Hpl Hm Hnm.
  destruct (decide (0 < total (waits n) w)) as [Hp|]; [|lia]. exfalso.
  destruct (waiting_cell w n Hwf Hp) as (d' & r' & Hn & Hpend).
  destruct (Hpl m Hm) as [(d & r & Hd)|Hmin].
  - pose proof Hd as (st & t & Hd').
    destruct (started_after_source _ _ _ _ _ _ Hwf Hd' Hm) as [v Hv].
    destruct (earlier_settled w Hwf Hch m d r Hd ltac:(eauto) d' r' n Hn Hnm)
      as [o Ho].
    congruence.
  - specialize (Hmin _ _ _ Hn). lia.
Qed.

(** A task that starts has a larger ticket than every task started
    before. *)
Lemma invoke_new_later (a : op) w m n :
  wf w → chained w → placed w →
  EvInvoke m ∈ op_events a w → invoked w n → n < m.
Proof.
  intros Hwf Hch Hpl Hm Hn.
  destruct (invoke_new a w m Hm) as [(_ & _ & ->)|(t & d & v & js & -> & Hj)].
  - by apply (wf_invoked _ _ Hwf).
  - assert (Reaction (HRunTask m t) d ∈ settlers w) as Hin.
    { apply (settlers_job w (JReaction (Reaction (HRunTask m t) d)
                               (Fulfilled v))).
      rewrite Hj. by left. }
    pose proof (wf_fresh _ _ Hwf _ m t Hin eq_refl) as Hf.
    pose proof (total_elem (waits m) w _ Hin) as Ht.
    change (waits m (r_handler (Reaction (HRunTask m t) d)))
      with (if decide (m = m) then 1 else 0) in Ht.
    rewrite decide_True in Ht by done.
    destruct (decide (n = m)) as [->|]; [done|].
    destruct (decide (m < n)) as [Hlt|]; [|lia].
    pose proof (earlier_not_waiting w m n Hwf Hch Hpl Hn Hlt). lia.
Qed.

(** One operation starts at most one task. *)
Lemma invoke_new_single (a : op) w l n l2 m :
  once (apply a w) →
  op_events a w = l ++ EvInvoke n :: l2 → EvInvoke m ∉ l2.
Proof.
  intros Ho He Hm.
  assert (EvInvoke n ∈ op_events a w) as Hn by (rewrite He; set_solver).
  assert (EvInvoke m ∈ op_events a w) as Hm' by (rewrite He; set_solver).
  assert (m = n) as ->.
  { destruct (invoke_new a w n Hn) as [(Hs & _ & En)|(t & d & v & js & E & Hj)];
      destruct (invoke_new a w m Hm')
        as [(Hs' & _ & Em)|(t' & d' & v' & js' & E' & Hj')].
    - congruence.
    - by rewrite E' in Hs.
    - by rewrite E in Hs'.
    - rewrite Hj in Hj'. by injection Hj'. }
  specialize (Ho n). rewrite trace_apply, He in Ho. unfold occ in Ho.
  rewrite !count_occ_app, count_occ_cons_eq in Ho by done.
  apply occ_pos in Hm. unfold occ in Hm. lia.
Qed.

Lemma ordered_apply (a : op) w :
  wf w → chained w → placed w → once (apply a w) →
  ordered w → ordered (apply a w).
Proof.
  intros Hwf Hch Hpl Ho IH l1 n l2 m. rewrite trace_apply.
  intros E Hm.
  apply app_eq_app in E as [l [[E1 E2]|[E1 E2]]].
  - destruct l as [|e l].
    + simpl in E2. by destruct (invoke_new_single a w [] n l2 m Ho).
    + injection E2 as <- ->. apply elem_of_app in Hm as [Hm|Hm].
      * by eapply IH.
      * eapply invoke_new_later; eauto. unfold invoked. rewrite E1.
        set_solver.
  - by destruct (invoke_new_single a w l n l2 m Ho).
Qed.

Lemma ordered_reachable w : reachable w → ordered w.
Proof.
  induction 1 as [|a w Hw IH].
  - intros l1 n l2 m E. by destruct l1.
  - apply ordered_apply; try done.
    + by apply wf_reachable.
    + by apply chained_reachable.
    + by apply placed_reachable.
    + apply once_reachable. by constructor.
Qed.

Lemma trace_run ops w : ∃ l, trace (run ops w) = trace w ++ l.
Proof.
  revert w. induction ops as [|a ops IH]; intros w; simpl.
  - exists []. by rewrite app_nil_r.
  - destruct (IH (apply a w)) as [l Hl]. rewrite Hl, trace_apply.
    exists (op_events a w ++ l). by rewrite app_assoc.
Qed.

End order.

(** Tasks start in the order they were submitted: in every execution, a
    task invoked after another one was submitted after it. *)
Theorem tasks_start_in_submission_order
    (w : world) (l1 l2 : list event) (n m : nat) :
  reachable w →
  trace w = l1 ++ EvInvoke n :: l2 → EvInvoke m ∈ l2 → n < m.
Proof. intros Hw. by apply ordered_reachable. Qed.

Lemma tasks_start_in_submission_order_witness :
  let w := run ([OEnqueue BAsync false; OEnqueue (BReturn (VNum 1)) true;
                 OEnqueue (BReturn (VNum 2)) false;
                 OSettle 0 (Fulfilled VUndefined)] ++ repeat OStep 8) init in
  ∃ l1 l2, trace w = l1 ++ EvInvoke 1 :: l2 ∧ EvInvoke 2 ∈ l2 ∧ 1 < 2.
Proof.
  intros w. exists [EvInvoke 0], [EvInvoke 2].
  assert (trace w = [EvInvoke 0] ++ EvInvoke 1 :: [EvInvoke 2]) as Ht
    by (vm_compute; reflexivity).
  assert (EvInvoke 2 ∈ [EvInvoke 2]) as Hm by (by left).
  split_and!; [exact Ht|exact Hm|].
  apply (tasks_start_in_submission_order w [EvInvoke 0] [EvInvoke 2] 1 2);
    [apply reachable_run, reach_init|exact Ht|exact Hm].
Defined.

(** A task that was passed over is never run: once a task has been
    invoked, a task submitted before it that has not been invoked stays
    uninvoked, whatever happens next. *)
Theorem skipped_task_never_runs
    (w : world) (n m : nat) (ops : list op) :
  reachable w → invoked w m → n < m → ¬ invoked w n →
  ¬ invoked (run ops w) n.
Proof.
  intros Hw Hm Hnm Hn Hn'.
  destruct (trace_run ops w) as [l Hl]. unfold invoked in *.
  rewrite Hl in Hn'. apply elem_of_app in Hn' as [?|Hn']; [done|].
  apply list_elem_of_split in Hm as (l1 & l2 & Hm).
  pose proof (ordered_reachable (run ops w) (reachable_run ops w Hw)
                l1 m (l2 ++ l) n) as Ho.
  rewrite Hl, Hm, <- app_assoc in Ho. simpl in Ho.
  specialize (Ho eq_refl). rewrite elem_of_app in Ho.
  specialize (Ho (or_intror Hn')). lia.
Qed.

Lemma skipped_task_never_runs_witness :
  let w := run ([OEnqueue BAsync true; OEnqueue (BReturn (VNum 1)) false;
                 OEnqueue (BReturn (VNum 2)) false;
                 OSettle 0 (Rejected (VNum 7))] ++ repeat OStep 8) init in
  invoked w 2 ∧ ¬ invoked w 1 ∧ ¬ invoked (run [OStep; ODispose] w) 1.
Proof.
  intros w.
  assert (trace w = [EvInvoke 0; EvInvoke 2]) as Ht by (vm_compute; reflexivity).
  assert (invoked w 2) as H2.
  { unfold invoked. rewrite Ht. clear. set_solver. }
  assert (¬ invoked w 1) as H1.
  { unfold invoked. rewrite Ht. clear. set_solver. }
  split_and!; [exact H2|exact H1|].
  apply (skipped_task_never_runs w 1 2 [OStep; ODispose]);
    [apply reachable_run, reach_init|exact H2|lia|exact H1].
Defined.

(** * TaskQueue: poisoning, from the submissions (claim C1) *)




Section poisoning.
Implicit Types (w : world) (p d r : pid) (n : nat).









End poisoning.



(** * RedrawController: the frame is closed when the callback is done *)

(** ** Where a continuation waits *)

(** The reaction [r] is registered on the pending promise [q]. *)
Definition parked (w : world) (q : pid) (r : reaction) : Prop :=
  ∃ rs og, heap w !! q = Some (Cell (Pending rs) og) ∧ r ∈ rs.

(** From [w] to [w'], a reaction registered on a promise stays registered
    until the promise is settled. *)
Definition stays (w w' : world) : Prop :=
  evolves w w' ∧
  ∀ q r, parked w q r → parked w' q r ∨ is_Some (outcome_of w' q).

(** From [w] to [w'], a [finally] block is newly registered on a pending
    promise only as [F] allows. *)
Definition registers (F : nat → frame → pid → Prop) (w w' : world) : Prop :=
  ∀ q n g d,
    parked w' q (Reaction (HFinally n g) d) →
    parked w q (Reaction (HFinally n g) d) ∨ F n g q.

(** The draw callback of a task. *)
Definition task_cb (t : task) : option callback :=
  match t with
  | TExternal _ => None
  | TDraw _ cb | TRedraw _ cb => Some cb
  end.

(** The task that [enqueue], or a microtask, starts: its ticket and its
    body. *)
Definition enqueue_starts (t : task) (w : world) : option (nat * task) :=
  if disposed w then None
  else match ready w with
       | None => Some (tickets w, t)
       | Some _ => None
       end.

Definition starts (a : op) (w : world) : option (nat * task) :=
  match a with
  | OEnqueue b _ => enqueue_starts (TExternal b) w
  | ODraw f cb => enqueue_starts (TDraw f cb) w
  | ORedraw cb =>
      match lastFrame w, pendingRedraw w with
      | Some _, None => enqueue_starts (TRedraw (length (aborted w)) cb) w
      | _, _ => None
      end
  | OStep =>
      match jobs w with
      | JReaction (Reaction (HRunTask n t) _) (Fulfilled _) :: _ =>
          if disposed w then None else Some (n, t)
      | _ => None
      end
  | _ => None
  end.

(** The promise that the draw callback of a task started by [a] returns,
    when it returns one: the second promise the task body makes. *)
Definition parking (a : op) (w : world) : pid :=
  match a with
  | ORedraw _ => S (S (length (heap w)))
  | _ => S (length (heap w))
  end.

Section parked.
Implicit Types (w : world) (p d q : pid) (c : completion) (r : reaction)
  (F : nat → frame → pid → Prop).

Lemma parked_settlers w q r : parked w q r → r ∈ settlers w.
Proof. intros (rs & og & H & Hr). by eapply settlers_cell. Qed.

Lemma parked_pending w q r : parked w q r → outcome_of w q = None.
Proof. intros (rs & og & H & _). unfold outcome_of. by rewrite H. Qed.

Lemma parked_heap w w' q r : heap w' = heap w → parked w' q r → parked w q r.
Proof. unfold parked. by intros ->. Qed.

(** *** Reactions stay *)

Lemma stays_refl w : stays w w.
Proof. split; [apply evolves_refl|]. by left. Qed.

Lemma stays_trans w w' w'' : stays w w' → stays w' w'' → stays w w''.
Proof.
  intros [E1 H1] [E2 H2]. split; [by eapply evolves_trans|].
  intros q r [H|[o Ho]]%H1; [by apply H2|].
  right. exists o. by eapply evolves_outcome.
Qed.

Lemma stays_grow D N w w' : grow D N w w' → stays w w'.
Proof.
  intros G. split; [by eapply evolves_grow|].
  intros q r (rs & og & H & Hr).
  destruct (g_pending _ _ _ _ G _ _ _ H) as [[rs' H']|(_ & o & H' & _)].
  - left. exists (rs ++ rs'), og. split; [done|set_solver].
  - right. exists o. unfold outcome_of. by rewrite H'.
Qed.

Lemma stays_same w w1 w2 : stays w w1 → heap w2 = heap w1 → stays w w2.
Proof.
  intros H Hh. eapply stays_trans; [done|].
  split; [by apply evolves_heap|].
  intros q r Hp. left. unfold parked. by rewrite Hh.
Qed.

Lemma stays_settle w w1 p o : stays w w1 → stays w (settle p o w1).
Proof.
  intros H. eapply stays_trans; [done|]. eapply stays_grow, grow_settle.
Qed.

Lemma stays_subscribe w w1 p r : stays w w1 → stays w (subscribe p r w1).
Proof.
  intros H. eapply stays_trans; [done|]. eapply stays_grow, grow_subscribe.
Qed.

Lemma stays_alloc w w1 cl : stays w w1 → stays w (alloc cl w1).2.
Proof.
  intros H. eapply stays_trans; [done|]. eapply stays_grow, grow_alloc.
Qed.

Lemma stays_then w w1 p k : stays w w1 → stays w (then_ p k w1).2.
Proof. intros H. unfold then_. simpl. by apply stays_subscribe, stays_alloc. Qed.

Lemma stays_draw_body w w1 n tok f cb p :
  stays w w1 → stays w (draw_body n tok f cb p w1).
Proof.
  intros E. unfold draw_body, close_frame. destruct cb.
  - apply stays_subscribe. apply (stays_alloc _ (log _ w1)).
    by eapply stays_same.
  - apply stays_settle. by eapply stays_same.
  - apply stays_subscribe. apply (stays_alloc _ (log _ w1)).
    by eapply stays_same.
Qed.

Lemma stays_call_task w w1 n t : stays w w1 → stays w (call_task n t w1).2.
Proof.
  intros E. unfold call_task.
  assert (stays w (log (EvInvoke n) w1)) as E1 by (by eapply stays_same).
  destruct t as [[]| |tok cb]; simpl; try done.
  - by apply (stays_alloc _ (log _ w1)).
  - apply stays_draw_body. by apply (stays_alloc _ (log _ w1)).
  - set (w2 := (alloc (Cell (Pending []) OAsync) (log (EvInvoke n) w1)).2).
    assert (stays w w2) as E2 by (by apply stays_alloc).
    change (set_heap _ (log (EvInvoke n) w1)) with w2.
    destruct (is_aborted tok w2); simpl; [by apply stays_settle|].
    destruct (lastFrame w1); simpl.
    + apply stays_draw_body. by eapply stays_same.
    + apply stays_settle. by eapply stays_same.
Qed.

Lemma stays_resolve w w1 d c : stays w w1 → stays w (resolve d c w1).
Proof.
  intros E. destruct c; simpl; try (by apply stays_settle).
  by eapply stays_same.
Qed.

Lemma stays_step w : stays w (step w).
Proof.
  unfold step. destruct (jobs w) as [|[[k d] o|d q] js]; [apply stays_refl|..].
  - assert (stays w (set_jobs js w)) as E0.
    { eapply stays_same; [apply stays_refl|done]. }
    unfold run_job, run_reaction. simpl.
    destruct k as [bail| |n t|bail| |n f]; simpl;
      try (destruct o; try destruct bail; try destruct (disposed w); simpl;
           by apply stays_settle).
    + destruct o; simpl; [|by apply stays_settle].
      destruct (disposed w); simpl; [by apply stays_settle|].
      pose proof (stays_call_task w _ n t E0) as E1.
      destruct (call_task n t (set_jobs js w)) as [c w1]. simpl in E1.
      by apply stays_resolve.
  - simpl. apply stays_subscribe.
    eapply stays_same; [apply stays_refl|done].
Qed.

Lemma stays_enqueue w w1 t bail :
  stays w w1 → stays w (TaskQueue.enqueue t bail w1).2.
Proof.
  intros E. unfold TaskQueue.enqueue. destruct (disposed w1); [done|].
  set (w0 := set_tickets _ w1).
  assert (stays w w0) as E0 by (by eapply stays_same).
  change (ready w0) with (ready w1). destruct (ready w1) as [r|].
  - pose proof (stays_then w w0 r (HRunTask (tickets w1) t) E0) as E1.
    destruct (then_ r _ w0) as [result w2]. simpl in E1.
    pose proof (stays_then w w2 result (HReadyChain bail) E1) as E2.
    destruct (then_ result _ w2) as [r' w3]. simpl in *.
    by eapply stays_same.
  - pose proof (stays_call_task w w0 (tickets w1) t E0) as E1.
    destruct (call_task _ _ w0) as [[v|e|q] w2]; simpl in E1;
      cbv beta iota; try done.
    + destruct bail; [|done].
      pose proof (stays_alloc w w2 (Cell (Settled (Rejected e)) OReject) E1)
        as E2.
      destruct (alloc _ w2) as [p w3]. simpl in E2.
      pose proof (stays_then w w3 p HSuppress E2) as E3.
      destruct (then_ p _ w3) as [r' w4]. simpl in *. by eapply stays_same.
    + pose proof (stays_then w w2 q (HReadyIdle bail) E1) as E2.
      destruct (then_ q _ w2) as [r' w3]. simpl in *. by eapply stays_same.
Qed.

Lemma stays_draw w f cb : stays w (RedrawController.draw f cb w).2.
Proof.
  unfold RedrawController.draw, clone. cbv beta iota zeta.
  apply stays_enqueue. eapply stays_same; [apply stays_refl|].
  by destruct (draw_prelude f w) as (-> & _).
Qed.

Lemma stays_redraw w cb : stays w (RedrawController.redraw cb w).2.
Proof.
  unfold RedrawController.redraw.
  set (w1 := (alloc (Cell (Pending []) OAsync) w).2).
  assert (stays w w1) as E1 by apply stays_alloc, stays_refl.
  change (alloc (Cell (Pending []) OAsync) w) with (length (heap w), w1).
  cbv beta iota.
  destruct (lastFrame w1); [|by apply stays_settle].
  destruct (pendingRedraw w1); [by apply stays_settle|].
  unfold new_token. cbv beta iota.
  set (w3 := set_pendingRedraw _ _).
  assert (stays w w3) as E3 by (by eapply stays_same).
  pose proof (stays_enqueue w w3 (TRedraw (length (aborted w1)) cb) true E3)
    as E4.
  destruct (TaskQueue.enqueue _ true w3) as [[v|e|r] w4]; simpl in *.
  - apply stays_subscribe. by apply (stays_alloc _ w4).
  - by apply stays_settle.
  - by apply stays_subscribe.
Qed.

Lemma stays_apply (a : op) w : stays w (apply a w).
Proof.
  destruct a as [b bail| |f cb|cb| |q o|]; simpl.
  - apply stays_enqueue, stays_refl.
  - eapply stays_same; [apply stays_refl|done].
  - apply stays_draw.
  - apply stays_redraw.
  - eapply stays_same; [apply stays_refl|].
    unfold RedrawController.dispose. simpl.
    by destruct (same_heap_close_last (RedrawController.abort_pending w))
      as (-> & _), (same_heap_abort_pending w) as (-> & _).
  - unfold settle_external.
    destruct (heap w !! q) as [[[rs|o'] []]|]; try apply stays_refl.
    apply stays_settle, stays_refl.
  - apply stays_step.
Qed.

Lemma stays_run ops w : stays w (run ops w).
Proof.
  revert w. induction ops as [|a ops IH]; intros w; simpl;
    [apply stays_refl|].
  eapply stays_trans; [apply stays_apply|apply IH].
Qed.

End parked.

Section registers.
Implicit Types (w : world) (p d q : pid) (c : completion) (r : reaction)
  (F : nat → frame → pid → Prop).

(** *** What the primitives register *)

Lemma parked_settle p o w q r : parked (settle p o w) q r → parked w q r.
Proof.
  unfold settle. destruct (heap w !! p) as [[[rs|o'] og]|] eqn:Hp; try done.
  intros (rs' & og' & H & Hr). simpl in H.
  destruct (decide (q = p)) as [->|Hne].
  - rewrite list_lookup_insert_eq in H by (by eapply lookup_lt_Some). done.
  - rewrite list_lookup_insert_ne in H by done. by exists rs', og'.
Qed.

Lemma parked_subscribe p r0 w q r :
  parked (subscribe p r0 w) q r →
  parked w q r ∨ (q = p ∧ r = r0 ∧ is_pending w p).
Proof.
  unfold subscribe. destruct (heap w !! p) as [[[rs|o'] og]|] eqn:Hp;
    [|by left..].
  intros (rs' & og' & H & Hr). simpl in H.
  destruct (decide (q = p)) as [->|Hne].
  - rewrite list_lookup_insert_eq in H by (by eapply lookup_lt_Some).
    injection H as <- <-. apply elem_of_app in Hr as [Hr|Hr].
    + left. by exists rs, og.
    + right. apply list_elem_of_singleton in Hr. split_and!; [done|done|].
      by exists rs, og.
  - rewrite list_lookup_insert_ne in H by done. left. by exists rs', og'.
Qed.

Lemma parked_alloc cl w q r :
  cell_reactions cl = [] → parked (alloc cl w).2 q r → parked w q r.
Proof.
  intros Hc (rs & og & H & Hr). simpl in H.
  apply lookup_app_Some in H as [H|[_ H]]; [by exists rs, og|].
  destruct (q - length (heap w)) as [|k]; [|done]. simpl in H.
  injection H as ->. unfold cell_reactions in Hc. simpl in Hc. subst rs.
  by apply elem_of_nil in Hr.
Qed.

Lemma parked_then p k w q r :
  parked (then_ p k w).2 q r →
  parked w q r ∨ r = Reaction k (length (heap w)).
Proof.
  change (then_ p k w).2
    with (subscribe p (Reaction k (length (heap w)))
            (alloc (Cell (Pending []) (ODerived p k)) w).2).
  intros [H|(_ & -> & _)]%parked_subscribe; [|by right].
  left. by apply parked_alloc in H.
Qed.

Lemma registers_refl F w : registers F w w.
Proof. intros q n g d H. by left. Qed.

Lemma registers_mono F F' w w' :
  (∀ n g q, F n g q → F' n g q) → registers F w w' → registers F' w w'.
Proof. intros HF H q n g d [?|?]%H; eauto. Qed.

Lemma registers_same F w w1 w2 :
  registers F w w1 → heap w2 = heap w1 → registers F w w2.
Proof. intros H Hh q n g d Hp. apply H. by eapply parked_heap. Qed.

Lemma registers_settle F w w1 p o :
  registers F w w1 → registers F w (settle p o w1).
Proof. intros H q n g d Hp%parked_settle. by apply H. Qed.

Lemma registers_subscribe F w w1 p r :
  (∀ n g, r_handler r ≠ HFinally n g) →
  registers F w w1 → registers F w (subscribe p r w1).
Proof.
  intros Hr H q n g d [Hp|(_ & <- & _)]%parked_subscribe; [by apply H|].
  by destruct (Hr n g).
Qed.

Lemma registers_alloc F w w1 cl :
  cell_reactions cl = [] → registers F w w1 → registers F w (alloc cl w1).2.
Proof. intros Hc H q n g d Hp%parked_alloc; [by apply H|done]. Qed.

Lemma registers_then F w w1 p k :
  (∀ n g, k ≠ HFinally n g) →
  registers F w w1 → registers F w (then_ p k w1).2.
Proof.
  intros Hk H q n g d [Hp|[= <- _]]%parked_then; [by apply H|].
  by destruct (Hk n g).
Qed.

Lemma registers_draw_body F w w1 n tok f cb p :
  (cb = CbAsync → F n f (length (heap w1))) →
  registers F w w1 → registers F w (draw_body n tok f cb p w1).
Proof.
  intros HF H q n' g d. unfold draw_body, close_frame. destruct cb.
  - change (alloc ?cl ?w0) with (length (heap w1), (alloc cl w0).2).
    cbv beta iota.
    intros [Hp|(-> & _ & (rs & og & Hx))]%parked_subscribe.
    + apply parked_alloc in Hp; [|done]. by apply H.
    + simpl in Hx. by rewrite lookup_app_r, Nat.sub_diag in Hx.
  - intros Hp%parked_settle. by apply H.
  - change (alloc ?cl ?w0) with (length (heap w1), (alloc cl w0).2).
    cbv beta iota.
    intros [Hp|(-> & [= <- <- <-] & _)]%parked_subscribe.
    + apply parked_alloc in Hp; [|done]. by apply H.
    + right. by apply HF.
Qed.

Lemma registers_call_task F w w1 n t :
  (task_cb t = Some CbAsync → ∀ g, F n g (S (length (heap w1)))) →
  registers F w w1 → registers F w (call_task n t w1).2.
Proof.
  intros HF H. unfold call_task.
  assert (registers F w (log (EvInvoke n) w1)) as E1
    by (by eapply registers_same).
  assert (length (heap (alloc (Cell (Pending []) OAsync)
                          (log (EvInvoke n) w1)).2)
          = S (length (heap w1))) as Hlen.
  { simpl. rewrite length_app. simpl. lia. }
  destruct t as [[]| |tok cb]; simpl; try done.
  - by apply (registers_alloc _ _ (log _ w1)).
  - apply registers_draw_body.
    + intros ->. simpl. rewrite length_app, Nat.add_1_r. by apply HF.
    + by apply (registers_alloc _ _ (log _ w1)).
  - set (w2 := (alloc (Cell (Pending []) OAsync) (log (EvInvoke n) w1)).2).
    assert (registers F w w2) as E2 by (by apply registers_alloc).
    change (set_heap _ (log (EvInvoke n) w1)) with w2.
    destruct (is_aborted tok w2); simpl; [by apply registers_settle|].
    destruct (lastFrame w1); simpl.
    + apply registers_draw_body.
      * intros ->. simpl. rewrite length_app, Nat.add_1_r. by apply HF.
      * by eapply registers_same.
    + apply registers_settle. by eapply registers_same.
Qed.

Lemma registers_resolve F w w1 d c :
  registers F w w1 → registers F w (resolve d c w1).
Proof.
  intros E. destruct c; simpl; try (by apply registers_settle).
  by eapply registers_same.
Qed.

Lemma registers_enqueue F w w1 t bail :
  (task_cb t = Some CbAsync →
   enqueue_starts t w1 = Some (tickets w1, t) →
   ∀ g, F (tickets w1) g (S (length (heap w1)))) →
  registers F w w1 → registers F w (TaskQueue.enqueue t bail w1).2.
Proof.
  intros HF E. unfold TaskQueue.enqueue, enqueue_starts in *.
  destruct (disposed w1); [done|].
  set (w0 := set_tickets _ w1).
  assert (registers F w w0) as E0 by (by eapply registers_same).
  change (ready w0) with (ready w1). destruct (ready w1) as [r|].
  - pose proof (registers_then F w w0 r (HRunTask (tickets w1) t)
                  ltac:(done) E0) as E1.
    destruct (then_ r _ w0) as [result w2]. simpl in E1.
    pose proof (registers_then F w w2 result (HReadyChain bail)
                  ltac:(done) E1) as E2.
    destruct (then_ result _ w2) as [r' w3]. simpl in *.
    by eapply registers_same.
  - assert (registers F w (call_task (tickets w1) t w0).2) as E1.
    { apply registers_call_task; [|done]. intros Hcb g. by apply HF. }
    destruct (call_task _ _ w0) as [[v|e|q] w2]; simpl in E1;
      cbv beta iota; try done.
    + destruct bail; [|done].
      pose proof (registers_alloc F w w2 (Cell (Settled (Rejected e)) OReject)
                    eq_refl E1) as E2.
      destruct (alloc _ w2) as [p w3]. simpl in E2.
      pose proof (registers_then F w w3 p HSuppress ltac:(done) E2) as E3.
      destruct (then_ p _ w3) as [r' w4]. simpl in *.
      by eapply registers_same.
    + pose proof (registers_then F w w2 q (HReadyIdle bail) ltac:(done) E1)
        as E2.
      destruct (then_ q _ w2) as [r' w3]. simpl in *.
      by eapply registers_same.
Qed.

(** A [finally] block is newly parked only by a task that starts and whose
    draw callback hands back a promise; it is parked on that promise. *)
Lemma registers_apply (a : op) w :
  registers (λ n g q, ∃ t, starts a w = Some (n, t) ∧
                           task_cb t = Some CbAsync ∧ q = parking a w)
    w (apply a w).
Proof.
  destruct a as [b bail| |f cb|cb| |q o|]; cbn [apply starts parking].
  - apply registers_enqueue; [|apply registers_refl]. intros Hcb Hs g.
    by exists (TExternal b).
  - eapply registers_same; [apply registers_refl|done].
  - unfold RedrawController.draw, clone. cbv beta iota zeta.
    destruct (draw_prelude f w) as (Hh & _ & _ & Hd & Ht & Hr).
    set (w3 := set_lastFrame _ _) in *.
    apply registers_enqueue;
      [|eapply registers_same; [apply registers_refl|done]].
    intros Hcb Hs g. exists (TDraw f cb).
    unfold enqueue_starts in *. rewrite Hd, Hr, Ht, Hh in *. done.
  - unfold RedrawController.redraw.
    set (w1 := (alloc (Cell (Pending []) OAsync) w).2).
    set (F := λ n g q, ∃ t, _).
    assert (registers F w w1) as E1.
    { apply registers_alloc; [done|apply registers_refl]. }
    change (alloc (Cell (Pending []) OAsync) w) with (length (heap w), w1).
    cbv beta iota.
    change (lastFrame w1) with (lastFrame w).
    change (pendingRedraw w1) with (pendingRedraw w).
    destruct (lastFrame w) as [lf|] eqn:Hlf; [|by apply registers_settle].
    destruct (pendingRedraw w) eqn:Hp; [by apply registers_settle|].
    unfold new_token. cbv beta iota.
    set (w3 := set_pendingRedraw _ _).
    assert (registers F w w3) as E3 by (by eapply registers_same).
    assert (registers F w
              (TaskQueue.enqueue (TRedraw (length (aborted w1)) cb) true w3).2)
      as E4.
    { apply registers_enqueue; [|done]. intros Hcb Hs g.
      exists (TRedraw (length (aborted w)) cb). split_and!; [exact Hs|done|].
      change (heap w3) with (heap w1). unfold w1. simpl.
      rewrite length_app. simpl. lia. }
    destruct (TaskQueue.enqueue _ true w3) as [[v|e|r] w4]; simpl in *.
    + apply registers_subscribe; [done|].
      by apply (registers_alloc _ _ w4).
    + by apply registers_settle.
    + by apply registers_subscribe.
  - eapply registers_same; [apply registers_refl|].
    unfold RedrawController.dispose. simpl.
    by destruct (same_heap_close_last (RedrawController.abort_pending w))
      as (-> & _), (same_heap_abort_pending w) as (-> & _).
  - unfold settle_external.
    destruct (heap w !! q) as [[[rs|o'] []]|]; try apply registers_refl.
    apply registers_settle, registers_refl.
  - unfold step.
    destruct (jobs w) as [|[[k d] o|d q] js]; [apply registers_refl|..].
    + set (F := λ n g q, ∃ t, _).
      assert (registers F w (set_jobs js w)) as E0.
      { eapply registers_same; [apply registers_refl|done]. }
      unfold run_job, run_reaction. simpl.
      destruct k as [bail| |n t|bail| |n f]; simpl;
        try (destruct o; try destruct bail; try destruct (disposed w); simpl;
             by apply registers_settle).
      * destruct o as [v|e]; simpl; [|by apply registers_settle].
        destruct (disposed w) eqn:Hd; simpl; [by apply registers_settle|].
        assert (registers F w (call_task n t (set_jobs js w)).2) as E1.
        { apply registers_call_task; [|done]. intros Hcb g.
          by exists t. }
        destruct (call_task n t (set_jobs js w)) as [c w1]. simpl in E1.
        by apply registers_resolve.
    + simpl. apply registers_subscribe; [done|].
      eapply registers_same; [apply registers_refl|done].
Qed.

End registers.

Section starting.
Implicit Types (w : world) (p d q : pid) (n : nat) (t : task) (g : frame).

Lemma callback_body_events n tok g n' tok' f cb :
  EvCallback n tok g ∈ body_events n' tok' f cb → n = n' ∧ g = f.
Proof.
  unfold body_events. destruct cb; intros H; set_solver.
Qed.

(** The draw callback is called by the body of a task that has one, under
    the ticket of the task and, in a task of [draw], on the caller's
    frame. *)
Lemma callback_task_events n tok g n' t w :
  EvCallback n tok g ∈ task_events n' t w →
  n = n' ∧ is_Some (task_cb t) ∧ ∀ f cb, t = TDraw f cb → g = f.
Proof.
  unfold task_events. intros [[=]|H]%elem_of_cons.
  destruct t as [b|f cb|tok' cb]; simpl.
  - by apply elem_of_nil in H.
  - apply callback_body_events in H as [-> ->].
    split_and!; [done|eauto|]. by intros ? ? [= <- _].
  - destruct (is_aborted tok' w); [by apply elem_of_nil in H|].
    destruct (lastFrame w); [|by apply elem_of_nil in H].
    apply callback_body_events in H as [-> ->]. split_and!; [done|eauto|done].
Qed.

(** A task body whose draw callback hands back a promise parks its
    [finally] block on that promise, the second one the body makes. *)
Lemma draw_body_parks n tok f p w k :
  length (heap w) = k →
  heap (draw_body n tok f CbAsync p w) !! k
  = Some (Cell (Pending [Reaction (HFinally n f) p]) OExternal).
Proof.
  intros <-. unfold draw_body, subscribe.
  change (alloc ?cl ?w0) with (length (heap w), (alloc cl w0).2).
  cbv beta iota.
  assert (heap (alloc (Cell (Pending []) OExternal)
                  (log (EvCallback n tok f) w)).2 !! length (heap w)
          = Some (Cell (Pending []) OExternal)) as H.
  { simpl. by rewrite lookup_app_r, Nat.sub_diag. }
  rewrite H. simpl. rewrite list_lookup_insert_eq; [done|].
  rewrite length_app. simpl. lia.
Qed.

Lemma call_task_parks n t w tok g :
  task_cb t = Some CbAsync → EvCallback n tok g ∈ task_events n t w →
  heap (call_task n t w).2 !! S (length (heap w))
  = Some (Cell (Pending [Reaction (HFinally n g) (length (heap w))])
            OExternal).
Proof.
  intros Hcb. unfold task_events. intros [[=]|H]%elem_of_cons.
  unfold call_task. destruct t as [b|f cb|tok' cb]; simpl in Hcb; [done|..];
    injection Hcb as ->.
  - apply callback_body_events in H as [_ ->].
    change (alloc ?cl ?w0) with (length (heap w), (alloc cl w0).2).
    cbv beta iota. cbn [snd].
    apply draw_body_parks. simpl. rewrite length_app. simpl. lia.
  - change (alloc ?cl ?w0) with (length (heap w), (alloc cl w0).2).
    cbv beta iota.
    change (is_aborted tok' (alloc _ _).2) with (is_aborted tok' w).
    destruct (is_aborted tok' w); [by apply elem_of_nil in H|].
    change (lastFrame (set_pendingRedraw _ _)) with (lastFrame w).
    destruct (lastFrame w) as [lf|]; [|by apply elem_of_nil in H].
    apply callback_body_events in H as [_ ->].
    unfold clone. cbv beta iota zeta. cbn [snd].
    apply (draw_body_parks n (Some tok') (FClone lf (clones w))).
    simpl. rewrite length_app. simpl. lia.
Qed.

(** The rest of [enqueue], once the task has been called. *)
Lemma enqueue_start_stays t bail w :
  disposed w = false → ready w = None →
  stays (call_task (tickets w) t (set_tickets (S (tickets w)) w)).2
    (TaskQueue.enqueue t bail w).2.
Proof.
  intros Hd Hr. unfold TaskQueue.enqueue. rewrite Hd. cbv beta iota zeta.
  change (ready (set_tickets _ w)) with (ready w). rewrite Hr.
  set (w0 := set_tickets _ w).
  pose proof (stays_refl (call_task (tickets w) t w0).2) as E1.
  destruct (call_task _ _ w0) as [[v|e|q] w2]; cbn [snd] in *;
    cbv beta iota; try done.
  - destruct bail; [|done].
    pose proof (stays_alloc w2 w2 (Cell (Settled (Rejected e)) OReject) E1)
      as E2.
    destruct (alloc _ w2) as [p w3]. simpl in E2.
    pose proof (stays_then w2 w3 p HSuppress E2) as E3.
    destruct (then_ p _ w3) as [r' w4]. simpl in *. by eapply stays_same.
  - pose proof (stays_then w2 w2 q (HReadyIdle bail) E1) as E2.
    destruct (then_ q _ w2) as [r' w3]. simpl in *. by eapply stays_same.
Qed.

(** Where the events of the draw callback come from: the operation starts
    a task in some world [w0], and the rest of the operation leaves the
    promises of the body alone. *)
Lemma callback_new (a : op) w n tok g :
  EvCallback n tok g ∈ op_events a w →
  ∃ t w0, starts a w = Some (n, t) ∧
    EvCallback n tok g ∈ task_events n t w0 ∧
    S (length (heap w0)) = parking a w ∧
    stays (call_task n t w0).2 (apply a w).
Proof.
  assert (EvCallback n tok g ∉ close_events w) as Hcl.
  { unfold close_events. destruct (lastFrame w); set_solver. }
  destruct a as [b bail| |f cb|cb| |q o|]; cbn [op_events starts parking apply].
  - unfold enqueue_events. destruct (disposed w); [by intros ?%elem_of_nil|].
    destruct (ready w); [by intros ?%elem_of_nil|].
    by intros (_ & [? [=]] & _)%callback_task_events.
  - by intros ?%elem_of_nil.
  - intros [?|H]%elem_of_app; [done|]. revert H.
    unfold enqueue_events, enqueue_starts.
    destruct (disposed w) eqn:Hd; [by intros ?%elem_of_nil|].
    destruct (ready w) eqn:Hr; [by intros ?%elem_of_nil|].
    intros H. pose proof H as (-> & _)%callback_task_events.
    unfold RedrawController.draw, clone. cbv beta iota zeta.
    destruct (draw_prelude f w) as (Hh & _ & _ & Hd' & Ht & Hr').
    set (w3 := set_lastFrame _ _) in *.
    exists (TDraw f cb), (set_tickets (S (tickets w3)) w3).
    split_and!; [done|exact H| |].
    { change (heap (set_tickets _ w3)) with (heap w3). by rewrite Hh. }
    rewrite <- Ht. apply enqueue_start_stays; congruence.
  - destruct (lastFrame w) as [lf|] eqn:Hlf; [|by intros ?%elem_of_nil].
    destruct (pendingRedraw w) eqn:Hp; [by intros ?%elem_of_nil|].
    unfold enqueue_events, enqueue_starts.
    change (disposed (redraw_world w)) with (disposed w).
    change (ready (redraw_world w)) with (ready w).
    change (tickets (redraw_world w)) with (tickets w).
    destruct (disposed w) eqn:Hd; [by intros ?%elem_of_nil|].
    destruct (ready w) eqn:Hr; [by intros ?%elem_of_nil|].
    intros H. pose proof H as (-> & _)%callback_task_events.
    exists (TRedraw (length (aborted w)) cb),
      (set_tickets (S (tickets w)) (redraw_world w)).
    split_and!; [done|exact H| |].
    { simpl. rewrite length_app. simpl. lia. }
    unfold RedrawController.redraw.
    set (cl := Cell (Pending []) OAsync).
    change (alloc cl w) with (length (heap w), (alloc cl w).2).
    cbv beta iota.
    change (lastFrame (alloc cl w).2) with (lastFrame w).
    change (pendingRedraw (alloc cl w).2) with (pendingRedraw w).
    rewrite Hlf, Hp. unfold new_token. cbv beta iota.
    change (set_pendingRedraw _ _) with (redraw_world w).
    pose proof (enqueue_start_stays (TRedraw (length (aborted w)) cb) true
                  (redraw_world w) Hd Hr) as E.
    change (tickets (redraw_world w)) with (tickets w) in E.
    destruct (TaskQueue.enqueue _ true (redraw_world w)) as [[v|e|r] w4];
      cbn [snd] in *.
    + apply stays_subscribe. by apply (stays_alloc _ w4).
    + by apply stays_settle.
    + by apply stays_subscribe.
  - done.
  - by intros ?%elem_of_nil.
  - unfold step_events, step.
    destruct (jobs w) as [|[[k d] o|d q] js] eqn:Hj;
      [by intros ?%elem_of_nil| |by intros ?%elem_of_nil].
    unfold handle_events. simpl.
    destruct k as [| |n' t| | |n' f]; try (by intros ?%elem_of_nil).
    + destruct o as [v|e]; [|by intros ?%elem_of_nil].
      destruct (disposed w) eqn:Hd; [by intros ?%elem_of_nil|].
      intros H. pose proof H as (-> & _)%callback_task_events.
      exists t, (set_jobs js w). split_and!; [done|exact H|done|].
      unfold run_job, run_reaction. simpl. rewrite Hd.
      pose proof (stays_refl (call_task n' t (set_jobs js w)).2) as E.
      destruct (call_task n' t (set_jobs js w)) as [c w1]. cbn [snd] in *.
      by apply stays_resolve.
    + intros [=]%list_elem_of_singleton.
Qed.

(** A task that starts is invoked. *)
Lemma starts_invoke (a : op) w n t :
  starts a w = Some (n, t) → EvInvoke n ∈ op_events a w.
Proof.
  assert (∀ t' w', enqueue_starts t' w' = Some (n, t) →
            EvInvoke n ∈ enqueue_events t' w') as Henq.
  { intros t' w'. unfold enqueue_starts, enqueue_events.
    destruct (disposed w'); [done|]. destruct (ready w'); [done|].
    intros [= <- <-]. by left. }
  destruct a as [b bail| |f cb|cb| |q o|]; cbn [op_events starts]; try done.
  - apply Henq.
  - intros H%Henq. apply elem_of_app. by right.
  - destruct (lastFrame w); [|done]. destruct (pendingRedraw w); [done|].
    intros H. by apply (Henq _ (redraw_world w)).
  - unfold step_events. destruct (jobs w) as [|[[k d] o|] js]; try done.
    destruct k as [| |n' t'| | |]; try done. destruct o; [|done].
    unfold handle_events. destruct (disposed w); [done|].
    intros [= <- <-]. by left.
Qed.

(** The task that a microtask starts under a ticket is the task that was
    submitted under it. *)
Lemma starts_task (a : op) w n t t' :
  n < tickets w → total (strays n t) w = 0 →
  starts a w = Some (n, t') → t' = t.
Proof.
  intros Hn Hs.
  assert (∀ t0 w', tickets w' = tickets w →
            enqueue_starts t0 w' = Some (n, t') → False) as Henq.
  { intros t0 w' Ht. unfold enqueue_starts.
    destruct (disposed w'); [done|]. destruct (ready w'); [done|].
    intros [= E _]. lia. }
  destruct a as [b bail| |f cb|cb| |q o|]; cbn [starts]; try done.
  - by intros ?%Henq.
  - by intros ?%Henq.
  - destruct (lastFrame w); [|done]. destruct (pendingRedraw w); [done|].
    by intros ?%Henq.
  - destruct (jobs w) as [|[[k d] o|] js] eqn:Hj; try done.
    destruct k as [| |n' t0| | |]; try done. destruct o; [|done].
    destruct (disposed w); [done|]. intros [= -> ->].
    assert (Reaction (HRunTask n t') d ∈ settlers w) as Hin.
    { apply (settlers_job w (JReaction (Reaction (HRunTask n t') d)
                               (Fulfilled v))).
      rewrite Hj. by left. }
    pose proof (total_elem (strays n t) w _ Hin) as Hle.
    rewrite Hs in Hle.
    change (strays n t (r_handler (Reaction (HRunTask n t') d)))
      with (if decide (n = n ∧ t' ≠ t) then 1 else 0) in Hle.
    destruct (decide (t' = t)) as [|Hne]; [done|].
    rewrite decide_True in Hle by done. lia.
Qed.

End starting.

(** ** The task of a submission and its frame *)

(** The task an operation submits, and its draw callback. *)
Definition op_task (a : op) (w : world) : option task :=
  match a with
  | OEnqueue b _ => Some (TExternal b)
  | ODraw f cb => Some (TDraw f cb)
  | ORedraw cb => Some (TRedraw (length (aborted w)) cb)
  | _ => None
  end.

Definition op_callback (a : op) : option callback :=
  match a with
  | ODraw _ cb | ORedraw cb => Some cb
  | _ => None
  end.

(** The submission [n] of the task [t]: only [t] waits or runs under [n];
    its [finally] block is parked only if the draw callback hands back a
    promise, and is never registered if the callback throws; a task of
    [draw] calls the callback on the caller's frame. *)
Record tended (n : nat) (t : task) (w : world) : Prop := {
  td_ticket : n < tickets w;
  td_stray : total (strays n t) w = 0;
  td_nopark q g d :
    task_cb t ≠ Some CbAsync → ¬ parked w q (Reaction (HFinally n g) d);
  td_throw e g : task_cb t = Some (CbThrow e) → total (finals n g) w = 0;
  td_frame tok g f cb :
    t = TDraw f cb → EvCallback n tok g ∈ trace w → g = f
}.

(** The body of task [n] is suspended on the promise [q] that its draw
    callback handed back, with the [finally] block that will close [g]
    parked on [q] and nowhere else. *)
Definition suspended (n : nat) (g : frame) (q : pid) (w : world) : Prop :=
  (∃ st, heap w !! q = Some (Cell st OExternal)) ∧
  (∀ q' d, parked w q' (Reaction (HFinally n g) d) → q' = q) ∧
  (outcome_of w q = None → ∃ p, parked w q (Reaction (HFinally n g) p)).

Definition serving (n : nat) (t : task) (g : frame) (w : world) : Prop :=
  tended n t w ∧
  (task_cb t = Some CbAsync → 0 < called n g (trace w) →
   ∃ q, suspended n g q w).

Section tending.
Implicit Types (w : world) (p d q : pid) (n : nat) (t : task) (g : frame).

Lemma called_elem n tok g l : EvCallback n tok g ∈ l → 0 < called n g l.
Proof.
  induction l as [|e l IH]; [by intros ?%elem_of_nil|].
  intros [<-|H]%elem_of_cons; simpl.
  - rewrite bool_decide_eq_true_2 by done. lia.
  - specialize (IH H). lia.
Qed.

Lemma called_pos n g l : 0 < called n g l → ∃ tok, EvCallback n tok g ∈ l.
Proof.
  induction l as [|e l IH]; simpl; [lia|]. intros H.
  destruct (is_call n g e) eqn:He.
  - destruct e as [|n' tok g'|]; try done. simpl in He.
    apply bool_decide_eq_true in He as [-> ->]. exists tok. by left.
  - destruct IH as [tok Htok]; [lia|]. exists tok. by right.
Qed.

Lemma parked_finals w q n g d :
  parked w q (Reaction (HFinally n g) d) → 0 < total (finals n g) w.
Proof.
  intros H%parked_settlers. pose proof (total_elem (finals n g) w _ H) as Hle.
  change (finals n g (r_handler (Reaction (HFinally n g) d)))
    with (if decide (n = n ∧ g = g) then 1 else 0) in Hle.
  rewrite decide_True in Hle by done. lia.
Qed.

Lemma starts_submit (a : op) w n t :
  submits a w = true → starts a w = Some (n, t) →
  n = tickets w ∧ op_task a w = Some t.
Proof.
  assert (∀ t', enqueue_starts t' w = Some (n, t) → n = tickets w ∧ t' = t)
    as Henq.
  { intros t'. unfold enqueue_starts. destruct (disposed w); [done|].
    destruct (ready w); [done|]. by intros [= <- <-]. }
  destruct a as [b bail| |f cb|cb| |q o|]; cbn [submits starts op_task];
    try done.
  - by intros _ [-> ->]%Henq.
  - by intros _ [-> ->]%Henq.
  - destruct (lastFrame w); [|done]. destruct (pendingRedraw w); [done|].
    by intros _ [-> ->]%Henq.
Qed.

Lemma task_total_finals n g n' t w :
  0 < task_total (finals n g) n' t w →
  n' = n ∧ ∃ cb, task_cb t = Some cb ∧ ∀ e, cb ≠ CbThrow e.
Proof.
  assert (∀ f cb, 0 < body_total (finals n g) n' f cb →
            n' = n ∧ ∀ e, cb ≠ CbThrow e) as Hb.
  { intros f cb. unfold body_total, finals.
    destruct cb; try lia; case_decide; try lia; naive_solver. }
  unfold task_total. destruct t as [b|f cb|tok cb]; simpl; [lia|..].
  - intros [-> H]%Hb. eauto.
  - destruct (is_aborted tok w); [lia|]. destruct (lastFrame w); [|lia].
    intros [-> H]%Hb. eauto.
Qed.

(** A [finally] block is registered only by a task that starts and whose
    draw callback does not throw. *)
Lemma op_total_finals (a : op) w n g :
  0 < op_total (finals n g) a w →
  ∃ t cb, starts a w = Some (n, t) ∧ task_cb t = Some cb ∧
          ∀ e, cb ≠ CbThrow e.
Proof.
  assert (∀ t w', tickets w' = tickets w → disposed w' = disposed w →
            ready w' = ready w →
            0 < enqueue_total (finals n g) t w' →
            ∃ cb, enqueue_starts t w = Some (n, t) ∧ task_cb t = Some cb ∧
                  ∀ e, cb ≠ CbThrow e) as Henq.
  { intros t w' Ht Hd Hr. unfold enqueue_total, enqueue_starts.
    rewrite Hd, Hr, Ht. destruct (disposed w); [lia|].
    destruct (ready w); [simpl; lia|].
    intros (<- & cb & ? & ?)%task_total_finals. eauto. }
  destruct a as [b bail| |f cb|cb| |q o|]; cbn [op_total starts]; try lia.
  - intros (cb & ? & ? & ?)%Henq; eauto.
  - intros (cb' & ? & ? & ?)%Henq; eauto.
  - destruct (lastFrame w); [|lia]. destruct (pendingRedraw w); [lia|].
    intros (cb' & ? & ? & ?)%Henq; eauto.
  - destruct (jobs w) as [|[[k d] o|] js]; try lia.
    unfold handle_total. simpl.
    destruct k as [| |n' t| | |]; try lia. destruct o; [|lia].
    destruct (disposed w); [lia|].
    intros (-> & cb & ? & ?)%task_total_finals. eauto.
Qed.

Lemma op_total_strays_start (a : op) w t :
  submits a w = true → op_task a w = Some t →
  op_total (strays (tickets w) t) a w = 0.
Proof.
  assert (∀ w', tickets w' = tickets w →
            enqueue_total (strays (tickets w) t) t w' = 0) as Henq.
  { intros w' Ht. unfold enqueue_total. destruct (disposed w'); [done|].
    destruct (ready w').
    - rewrite Ht. unfold strays. rewrite decide_False; [done|]. by intros [_ ?].
    - by apply task_total_finally. }
  destruct a as [b bail| |f cb|cb| |q o|]; cbn [submits op_task op_total];
    try done.
  - intros _ [= <-]. by apply Henq.
  - intros _ [= <-]. by apply Henq.
  - destruct (lastFrame w); [|done]. destruct (pendingRedraw w); [done|].
    intros _ [= <-]. by apply (Henq (redraw_world w)).
Qed.

Lemma tended_step n t (a : op) w :
  wf w → n < tickets (apply a w) →
  total (strays n t) w = 0 → op_total (strays n t) a w = 0 →
  (∀ t', starts a w = Some (n, t') → t' = t) →
  (∀ q g d, ¬ parked w q (Reaction (HFinally n g) d)) ∨
    (task_cb t = Some CbAsync) ∨
    (∀ q g d, task_cb t ≠ Some CbAsync →
              ¬ parked w q (Reaction (HFinally n g) d)) →
  (∀ e g, task_cb t = Some (CbThrow e) → total (finals n g) w = 0) →
  (∀ tok g f cb, t = TDraw f cb → EvCallback n tok g ∈ trace w → g = f) →
  tended n t (apply a w).
Proof.
  intros Hwf Hn Hs Hos Hst Hnp Hth Hfr. split.
  - done.
  - pose proof (total_apply _ (plain_strays n t) a w Hwf). lia.
  - intros q g d Hcb Hp.
    destruct (registers_apply a w _ _ _ _ Hp)
      as [Hold|(t' & Hst' & Hcb' & _)].
    + destruct Hnp as [H|[H|H]]; [by eapply H|done|by eapply H].
    + apply Hst in Hst' as ->. done.
  - intros e g Hcb.
    pose proof (total_apply _ (plain_finals n g) a w Hwf) as Ht.
    rewrite (Hth e g Hcb) in Ht.
    destruct (decide (0 < op_total (finals n g) a w)) as [Hpos|]; [|lia].
    apply op_total_finals in Hpos as (t' & cb & Hst' & Hcb' & Hne).
    apply Hst in Hst' as ->. rewrite Hcb in Hcb'. injection Hcb' as <-.
    by destruct (Hne e).
  - intros tok g f cb -> . rewrite trace_apply.
    intros [H|H]%elem_of_app; [by eapply Hfr|].
    apply callback_new in H as (t' & w0 & Hst' & Hev & _).
    apply Hst in Hst' as ->.
    apply callback_task_events in Hev as (_ & _ & Hf). by eapply Hf.
Qed.

Lemma tended_apply n t (a : op) w :
  wf w → tended n t w → tended n t (apply a w).
Proof.
  intros Hwf [Hn Hs Hnp Hth Hfr].
  pose proof (tickets_le a w) as Hle.
  destruct (op_balance n (FInput 0) t a w) as (_ & Hos & _);
    [intros _; lia|].
  apply tended_step; try done; [lia| |eauto].
  intros t'. by apply starts_task.
Qed.

Lemma tended_start t (a : op) w :
  reachable w → submits a w = true → op_task a w = Some t →
  tended (tickets w) t (apply a w).
Proof.
  intros Hw Hs Ht. pose proof (wf_reachable w Hw) as Hwf.
  destruct (fresh_reachable w Hw (tickets w) (le_n _)) as (Hi & Hwt & Hc).
  apply tended_step; try done.
  - rewrite tickets_apply, Hs. lia.
  - apply Nat.le_0_r. rewrite <- Hwt. apply total_mono.
    intros [| |m t'| | |]; simpl; try lia. repeat case_decide; naive_solver lia.
  - by apply op_total_strays_start.
  - intros t' Hst. destruct (starts_submit a w _ _ Hs Hst) as [_ H].
    congruence.
  - left. intros q g d Hp%parked_finals. destruct (Hc g) as [_ H0]. lia.
  - intros e g _. by destruct (Hc g).
  - intros tok g f cb _ Hin%called_elem.
    destruct (closes_calls_reachable w Hw (tickets w) g) as [_ Hle]. lia.
Qed.

Lemma suspended_apply n g q (a : op) w :
  reachable w → 0 < called n g (trace w) →
  suspended n g q w → suspended n g q (apply a w).
Proof.
  intros Hw Hc ([st Ho] & Hu & Hp).
  destruct (stays_apply a w) as [E Hst]. split_and!.
  - destruct (E _ _ _ Ho) as (st' & Ho' & _). eauto.
  - intros q' d Hq.
    destruct (registers_apply a w _ _ _ _ Hq) as [Hold|(t' & Hs & _)];
      [by eapply Hu|].
    apply starts_invoke, occ_pos in Hs.
    destruct (closes_calls_reachable w Hw n g) as [_ Hle].
    pose proof (once_reachable (apply a w) (reach_apply a w Hw) n) as Hon.
    rewrite occ_apply in Hon. lia.
  - intros Hnone.
    destruct (outcome_of w q) as [o|] eqn:Hq.
    { by rewrite (evolves_outcome _ _ _ _ E Hq) in Hnone. }
    destruct (Hp eq_refl) as [p Hpk]. exists p.
    destruct (Hst _ _ Hpk) as [?|[o Ho']]; [done|congruence].
Qed.

Lemma suspended_start n t g (a : op) w tok :
  reachable w → (∀ t', starts a w = Some (n, t') → t' = t) →
  task_cb t = Some CbAsync → called n g (trace w) = 0 →
  EvCallback n tok g ∈ op_events a w →
  suspended n g (parking a w) (apply a w).
Proof.
  intros Hw Hst Hcb Hc Hev.
  apply callback_new in Hev as (t' & w0 & Hs & Hev & Hq & [E Hk]).
  apply Hst in Hs as ->.
  pose proof (call_task_parks n t w0 tok g Hcb Hev) as Hcell.
  rewrite Hq in Hcell. split_and!.
  - destruct (E _ _ _ Hcell) as (st' & Ho' & _). eauto.
  - intros q' d Hp.
    destruct (registers_apply a w _ _ _ _ Hp) as [Hold|(_ & _ & _ & ->)];
      [|done].
    apply parked_finals in Hold.
    destruct (closes_calls_reachable w Hw n g) as [He _]. lia.
  - intros Hnone. exists (length (heap w0)).
    destruct (Hk (parking a w) (Reaction (HFinally n g) (length (heap w0))))
      as [?|[o Ho]]; [|done|congruence].
    eexists _, _. split; [exact Hcell|by left].
Qed.

Lemma serving_step n t g (a : op) w :
  reachable w → tended n t (apply a w) →
  (∀ t', starts a w = Some (n, t') → t' = t) →
  (task_cb t = Some CbAsync → 0 < called n g (trace w) →
   ∃ q, suspended n g q w) →
  serving n t g (apply a w).
Proof.
  intros Hw Ht Hst Hsus. split; [done|]. intros Hcb.
  rewrite trace_apply, called_app. intros Hc.
  destruct (decide (0 < called n g (trace w))) as [Hold|Hnew].
  - destruct (Hsus Hcb Hold) as [q Hq]. exists q. by apply suspended_apply.
  - destruct (called_pos n g (op_events a w)) as [tok Htok]; [lia|].
    exists (parking a w). eapply suspended_start; eauto. lia.
Qed.

Lemma serving_apply n t g (a : op) w :
  reachable w → serving n t g w → serving n t g (apply a w).
Proof.
  intros Hw [Ht Hsus]. apply serving_step; try done.
  - apply tended_apply; [by apply wf_reachable|done].
  - intros t'. apply starts_task; by destruct Ht.
Qed.

Lemma serving_start t g (a : op) w :
  reachable w → submits a w = true → op_task a w = Some t →
  serving (tickets w) t g (apply a w).
Proof.
  intros Hw Hs Ht. apply serving_step; try done.
  - by apply tended_start.
  - intros t' Hst. destruct (starts_submit a w _ _ Hs Hst) as [_ H].
    congruence.
  - intros _ Hc.
    destruct (closes_calls_reachable w Hw (tickets w) g) as [_ Hle].
    destruct (fresh_reachable w Hw (tickets w) (le_n _)) as (Hi & _). lia.
Qed.

Lemma serving_run n t g ops w :
  reachable w → serving n t g w → serving n t g (run ops w).
Proof.
  revert w. induction ops as [|a ops IH]; intros w Hw Hs; simpl; [done|].
  apply IH; [by constructor|by apply serving_apply].
Qed.

Lemma suspended_run n g q ops w :
  reachable w → 0 < called n g (trace w) →
  suspended n g q w → suspended n g q (run ops w).
Proof.
  revert w. induction ops as [|a ops IH]; intros w Hw Hc Hs; simpl; [done|].
  apply IH; [by constructor| |by apply suspended_apply].
  rewrite trace_apply, called_app. lia.
Qed.

Lemma called_run n g ops w :
  called n g (trace w) ≤ called n g (trace (run ops w)).
Proof.
  destruct (trace_run ops w) as [l ->]. rewrite called_app. lia.
Qed.

(** The calls of the callback and the closings of one task on one frame,
    in a reachable world. *)
Lemma closed_called n g w :
  reachable w → 0 < called n g (trace w) →
  occ (EvClose (Some n) g) (trace w) + total (finals n g) w = 1.
Proof.
  intros Hw Hc. destruct (closes_calls_reachable w Hw n g) as [He Hle].
  pose proof (once_reachable w Hw n). lia.
Qed.

End tending.

(** A frame handed to the draw callback is closed by the task exactly when
    the callback is done.  A task submitted by [draw] or [redraw] under
    ticket [n] has called the draw callback on [g] ([g] is the caller's
    frame for [draw], a fresh clone of [lastFrame] for [redraw]).  Then the
    task closes [g] at most once, and: if the callback threw, [g] is closed
    already; if it returned [undefined], [g] is closed once the microtasks
    have run; if it returned a promise [q], [g] is not closed while [q] is
    pending and is closed once [q] is settled and the microtasks have
    run. *)
Theorem callback_frame_is_closed
    (a : op) (cb : callback) (w : world) (ops : list op)
    (tok : option nat) (g : frame) :
  reachable w → submits a w = true → op_callback a = Some cb →
  let n := tickets w in
  let w' := run ops (apply a w) in
  EvCallback n tok g ∈ trace w' →
  (∀ f cb', a = ODraw f cb' → g = f) ∧
  occ (EvClose (Some n) g) (trace w') ≤ 1 ∧
  match cb with
  | CbThrow _ => occ (EvClose (Some n) g) (trace w') = 1
  | CbReturn => occ (EvClose (Some n) g) (trace (drain w')) = 1
  | CbAsync =>
      ∃ q st, heap w' !! q = Some (Cell st OExternal) ∧
        ∀ ops2, let w'' := run ops2 w' in
          (outcome_of w'' q = None →
           occ (EvClose (Some n) g) (trace w'') = 0) ∧
          (is_Some (outcome_of w'' q) →
           occ (EvClose (Some n) g) (trace (drain w'')) = 1)
  end.
Proof.
  intros Hw Hs Hcb n w' Hev.
  assert (∃ t, op_task a w = Some t ∧ task_cb t = Some cb ∧
               ∀ f cb', a = ODraw f cb' → t = TDraw f cb') as (t & Ht & Htc & Htd).
  { destruct a as [| |f cb0|cb0| | |]; simplify_eq/=.
    - eexists. split_and!; [done..|]. by intros ? ? [= <- <-].
    - eexists. split_and!; [done..|]. by intros ? ? [=]. }
  assert (reachable (apply a w)) as Hw1 by (by constructor).
  assert (reachable w') as Hw' by (by apply reachable_run).
  assert (serving n t g w') as [Htd' Hsus].
  { apply serving_run; [done|]. by apply serving_start. }
  pose proof (called_elem n tok g _ Hev) as Hc.
  pose proof (closed_called n g w' Hw' Hc) as Hcl.
  assert (∀ v, reachable v → 0 < called n g (trace v) → jobs v = [] →
               (∀ q d, ¬ parked v q (Reaction (HFinally n g) d)) →
               occ (EvClose (Some n) g) (trace v) = 1) as Hdone.
  { intros v Hv Hcv Hj Hnp. pose proof (closed_called n g v Hv Hcv) as H.
    destruct (decide (0 < total (finals n g) v)) as [Hpos|]; [|lia].
    destruct (finals_parked n g v Hj Hpos) as (q & rs & og & d & Hq & Hr).
    destruct (Hnp q d). by exists rs, og. }
  assert (∀ v, 0 < called n g (trace v) → 0 < called n g (trace (drain v)))
    as Hcd.
  { intros v Hv. unfold drain. rewrite steps_run.
    pose proof (called_run n g (repeat OStep (fuel v)) v). lia. }
  split_and!.
  - intros f cb' Ha. eapply (td_frame _ _ _ Htd'); [by apply Htd|done].
  - lia.
  - destruct cb as [|e|].
    + (* the callback returned undefined *)
      apply Hdone; [by apply reachable_drain|by apply Hcd|apply drain_done|].
      intros q d. apply (td_nopark n t (drain w')); [|by rewrite Htc].
      unfold drain. rewrite steps_run.
      apply (serving_run n t g); [done|by split].
    + (* the callback threw *)
      pose proof (td_throw _ _ _ Htd' e g Htc). lia.
    + (* the callback returned a promise *)
      destruct (Hsus Htc Hc) as (q & Hq). pose proof Hq as ([st Ho] & _).
      exists q, st. split; [done|]. intros ops2 w''.
      assert (reachable w'') as Hw'' by (by apply reachable_run).
      assert (0 < called n g (trace w'')) as Hc''.
      { pose proof (called_run n g ops2 w'). fold w'' in H. lia. }
      pose proof (suspended_run n g q ops2 w' Hw' Hc Hq) as Hq''.
      fold w'' in Hq''. split.
      * intros Hnone. destruct Hq'' as (_ & _ & Hp).
        destruct (Hp Hnone) as [p Hpk%parked_finals].
        pose proof (closed_called n g w'' Hw'' Hc''). lia.
      * intros [o Hsome].
        apply Hdone;
          [by apply reachable_drain|by apply Hcd|apply drain_done|].
        intros q' d Hpk.
        assert (suspended n g q (drain w'')) as (_ & Hu & _).
        { unfold drain. rewrite steps_run. by apply suspended_run. }
        rewrite (Hu _ _ Hpk) in Hpk. apply parked_pending in Hpk.
        rewrite (evolves_outcome _ _ _ _ (evolves_drain w'') Hsome) in Hpk.
        done.
Qed.

Lemma callback_frame_is_closed_witness :
  let w := run [ODraw (FInput 1) CbReturn; OStep; OStep; OStep] init in
  let w' := run [OStep; OStep] (apply (ORedraw CbAsync) w) in
  let g := FClone (FClone (FInput 1) 0) 1 in
  reachable w ∧ EvCallback 1 (Some 0) g ∈ trace w' ∧
  ∃ q st, heap w' !! q = Some (Cell st OExternal) ∧
    (occ (EvClose (Some 1) g) (trace w') = 0) ∧
    (is_Some (outcome_of (run [OSettle q (Fulfilled VUndefined)] w') q) →
     occ (EvClose (Some 1) g)
       (trace (drain (run [OSettle q (Fulfilled VUndefined)] w'))) = 1).
Proof.
  intros w w' g.
  assert (reachable w) as Hw by (apply reachable_run, reach_init).
  assert (trace w' = [EvInvoke 0; EvCallback 0 None (FInput 1);
                      EvClose (Some 0) (FInput 1); EvInvoke 1;
                      EvCallback 1 (Some 0) g]) as Ht
    by (vm_compute; reflexivity).
  assert (EvCallback 1 (Some 0) g ∈ trace w') as Hev.
  { rewrite Ht. clear. set_solver. }
  split_and!; [exact Hw|exact Hev|].
  destruct (callback_frame_is_closed (ORedraw CbAsync) CbAsync w
              [OStep; OStep] (Some 0) g Hw eq_refl eq_refl Hev)
    as (_ & _ & q & st & Hq & H).
  exists q, st. split; [exact Hq|]. split.
  - rewrite Ht. clear. vm_compute. reflexivity.
  - exact (proj2 (H [OSettle q (Fulfilled VUndefined)])).
Defined.
